(** * Element.ts — the node model of the scene graph

    A shallow embedding of [src/Element.ts]: the state overlay
    ([useState], [useStates], [clearStates]), the clip-path and host
    attachment ([setClipPath], [removeClipPath], [addSelfToZr],
    [removeSelfFromZr]), the animation merge ([animateTo], [animateFrom],
    [animateToShallow]) and [drift].

    Elements, animator arrays and animators live in a store and are
    referred to by address, so that the sharing the source relies on (a clip
    path referenced by its target, the animator array aliased by the
    completion closures) is kept.  Methods are computations in a small
    state-and-exception monad. *)

From Stdlib Require Import ZArith String List Bool Lia.
From stdpp Require Import base option list gmap strings.

Local Open Scope Z_scope.
#[local] Set Warnings "-clear-no-such-hyp".

(** ** JavaScript values

    Numbers are modelled as integers: the code under study copies and
    compares them, and adds them once (in [drift]); rounding is outside the
    model, and nothing below rests on a law of integer addition that the
    addition of floating-point numbers lacks.  [VNull] stands for both [null] and [undefined], which every test
    of the source ([!= null], [!x], [||]) treats alike.  An object is an
    association list in insertion order, which is the order [keys] and
    [for ... in] enumerate.  An array is its list of numbers and, as an
    array is an object too, the further properties it has been given
    ([animateToShallow] assigns to whatever live value it descends into);
    [VArr a] is the array that has none. *)

#[warnings="-register-all"]
Inductive value : Type :=
| VNull
| VBool (b : bool)
| VNum (n : Z)
| VStr (s : string)
| VArrX (a : list Z) (x : list (string * value))
| VObj (o : list (string * value)).

Abbreviation Obj := (list (string * value)).

Abbreviation VArr a := (VArrX a []).

(** [o[k]]; an absent key reads as [undefined]. *)
Fixpoint oget (k : string) (o : Obj) : value :=
  match o with
  | [] => VNull
  | (k', v) :: o' => if String.eqb k k' then v else oget k o'
  end.

(** [o[k] = v]: an existing key keeps its place, a new one goes last. *)
Fixpoint oset (k : string) (v : value) (o : Obj) : Obj :=
  match o with
  | [] => [(k, v)]
  | (k', v') :: o' =>
      if String.eqb k k' then (k, v) :: o' else (k', v') :: oset k v o'
  end.

(** Modelled from the spec: [keys(o)] of [core/util], not under src/; the
    own keys of an object in the order of enumeration. *)
Definition keys (o : Obj) : list string := map fst o.

(** [v == null] *)
Definition isNull (v : value) : bool :=
  match v with VNull => true | _ => false end.

(** Modelled from the spec: [isObject] and [isArrayLike] of [core/util],
    which are not under src/.  The spec speaks of "a non-array object";
    objects and arrays are the object values, arrays the array-like ones. *)
Definition isObject (v : value) : bool :=
  match v with VObj _ | VArrX _ _ => true | _ => false end.

Definition isArrayLike (v : value) : bool :=
  match v with VArrX _ _ => true | _ => false end.

(** Modelled from the spec: [extend(target, source)] of [core/util]
    ("merges by shallow-extending"): [target[key] = source[key]] for every
    own key of [source]; a [source] that is not an object contributes
    nothing. *)
Definition extend (target : Obj) (source : value) : Obj :=
  match source with
  | VObj s => fold_left (fun t key => oset key (oget key s) t) (keys s) target
  | _ => target
  end.

(** Modelled from the spec: the equality by which an animator finds that
    "source equals target" and there is nothing to animate; values are
    compared structurally. *)
Fixpoint value_eqb (v1 v2 : value) : bool :=
  match v1, v2 with
  | VNull, VNull => true
  | VBool a, VBool b => Bool.eqb a b
  | VNum a, VNum b => Z.eqb a b
  | VStr a, VStr b => String.eqb a b
  | VArrX a x, VArrX b y =>
      bool_decide (a = b)
      && (fix go (x y : Obj) : bool :=
            match x, y with
            | [], [] => true
            | (k1, u1) :: x', (k2, u2) :: y' =>
                String.eqb k1 k2 && value_eqb u1 u2 && go x' y'
            | _, _ => false
            end) x y
  | VObj a, VObj b =>
      (fix go (x y : Obj) : bool :=
         match x, y with
         | [], [] => true
         | (k1, u1) :: x', (k2, u2) :: y' =>
             String.eqb k1 k2 && value_eqb u1 u2 && go x' y'
         | _, _ => false
         end) a b
  | _, _ => false
  end.

(** ** Elements *)

(** [draggable: boolean | string] *)
Inductive Draggable := DragBool (b : bool) | DragMode (s : string).

(** [MatrixArray]: the six entries of the affine matrix. *)
Record Matrix := mkMatrix { m0 : Z; m1 : Z; m2 : Z; m3 : Z; m4 : Z; m5 : Z }.

Definition identity : Matrix := mkMatrix 1 0 0 1 0 0.

(** The data properties of an element ([position], [scale], [rotation],
    [origin], [ignore], [textConfig], [style], [shape], ...) are kept as the
    object they are in the source, which reads and writes them by key:
    [props] gives what [this[key]] reads for such a key, be it a property of
    the element itself or a default it finds on the prototype.  They form a
    tree of values: the state overlay assigns and rebuilds, it never edits
    an array or a label configuration in place, so no sharing between them
    is observable by the operations modelled here.  The remaining fields are
    the references and the bookkeeping of the class. *)
Record Element := mkElement {
  props : Obj;
  draggable : Draggable;
  transform : option Matrix;
  __dirty : bool;
  __zr : option nat;
  _clipPath : option nat;
  __clipTarget : option nat;
  _textContent : option nat;
  animators : nat;
  currentStates : list string;
  states : gmap string Obj;
  _normalState : option Obj
}.

Definition set_props (x : Obj) (e : Element) : Element :=
  mkElement x (draggable e) (transform e) (__dirty e) (__zr e) (_clipPath e)
    (__clipTarget e) (_textContent e) (animators e) (currentStates e)
    (states e) (_normalState e).

Definition set_transform (x : option Matrix) (e : Element) : Element :=
  mkElement (props e) (draggable e) x (__dirty e) (__zr e) (_clipPath e)
    (__clipTarget e) (_textContent e) (animators e) (currentStates e)
    (states e) (_normalState e).

Definition set_dirty (x : bool) (e : Element) : Element :=
  mkElement (props e) (draggable e) (transform e) x (__zr e) (_clipPath e)
    (__clipTarget e) (_textContent e) (animators e) (currentStates e)
    (states e) (_normalState e).

Definition set_zr (x : option nat) (e : Element) : Element :=
  mkElement (props e) (draggable e) (transform e) (__dirty e) x (_clipPath e)
    (__clipTarget e) (_textContent e) (animators e) (currentStates e)
    (states e) (_normalState e).

Definition set_clipPath (x : option nat) (e : Element) : Element :=
  mkElement (props e) (draggable e) (transform e) (__dirty e) (__zr e) x
    (__clipTarget e) (_textContent e) (animators e) (currentStates e)
    (states e) (_normalState e).

Definition set_clipTarget (x : option nat) (e : Element) : Element :=
  mkElement (props e) (draggable e) (transform e) (__dirty e) (__zr e)
    (_clipPath e) x (_textContent e) (animators e) (currentStates e)
    (states e) (_normalState e).

Definition set_animators (x : nat) (e : Element) : Element :=
  mkElement (props e) (draggable e) (transform e) (__dirty e) (__zr e)
    (_clipPath e) (__clipTarget e) (_textContent e) x (currentStates e)
    (states e) (_normalState e).

Definition set_currentStates (x : list string) (e : Element) : Element :=
  mkElement (props e) (draggable e) (transform e) (__dirty e) (__zr e)
    (_clipPath e) (__clipTarget e) (_textContent e) (animators e) x
    (states e) (_normalState e).

Definition set_normalState (x : option Obj) (e : Element) : Element :=
  mkElement (props e) (draggable e) (transform e) (__dirty e) (__zr e)
    (_clipPath e) (__clipTarget e) (_textContent e) (animators e)
    (currentStates e) (states e) x.

(** ** Animators

    Modelled from the spec: the [Animator] class of [animation/Animator]
    is not under src/.  Spec, Data model: an animator has a target (the live
    object it mutates: the node itself or a named sub-object), a track set,
    timing, and a lifecycle "created, started, ticking, done (fires
    completion callback, self-removes from its owner's animator list), or
    stopped early (optionally jumping to the final value first)".

    The target is named by the owning element and the path of keys from it
    to the sub-object.  The track set of [whenWithKeys(time, props, keys)]
    is the list of keys with the end keyframe taken from [props]. *)

Inductive AStatus := Created | Running | Finished | Stopped.

(** The trailing arguments of [animateTo]: a number, an easing name, a
    callback (a function, named by a number so that its calls can be told
    apart in the log) or nothing. *)
Inductive Arg := AUndef | ANum (n : Z) | AStr (s : string) | AFun (f : nat).

(** The completion closures the source registers: the one of [addAnimator]
    removes the animator from the array it captured, the one of [animateTo]
    counts down a shared counter. *)
Inductive Callback :=
| CbSplice (arr : nat) (anim : nat)
| CbCountdown (counter : nat).

Record Animator := mkAnimator {
  a_owner : nat;
  a_path : list string;
  a_loop : bool;
  a_keys : list string;
  a_end : Obj;
  a_time : Arg;
  a_delay : Arg;
  a_during : list string;
  a_done : list Callback;
  a_status : AStatus
}.

(** The variables [count] and [callback] shared by the closures [done] of one
    [animateTo] call. *)
Record Counter := mkCounter { c_count : Z; c_callback : Arg }.

(** ** The world

    Calls that leave the class are recorded in a log: [logError],
    [zr.refresh()], the user's completion callback; and so is each run of
    the overridable method [saveStateToNormal]. *)

Inductive Event :=
| EvLogError (msg : string)
| EvRefresh (zr : nat)
| EvSaveNormal (el : nat)
| EvCallback (cb : nat).

(** Modelled from the spec: the host's animation scheduler
    ([zr.animation], not under src/) is the set of animators registered with
    it; [addAnimator] registers, [removeAnimator] deregisters. *)
Record World := mkWorld {
  elems : gmap nat Element;
  arrays : gmap nat (list nat);
  animS : gmap nat Animator;
  sched : gmap nat (gset nat);
  counters : gmap nat Counter;
  log : list Event
}.

Definition set_elems (x : gmap nat Element) (w : World) : World :=
  mkWorld x (arrays w) (animS w) (sched w) (counters w) (log w).
Definition set_arrays (x : gmap nat (list nat)) (w : World) : World :=
  mkWorld (elems w) x (animS w) (sched w) (counters w) (log w).
Definition set_animS (x : gmap nat Animator) (w : World) : World :=
  mkWorld (elems w) (arrays w) x (sched w) (counters w) (log w).
Definition set_sched (x : gmap nat (gset nat)) (w : World) : World :=
  mkWorld (elems w) (arrays w) (animS w) x (counters w) (log w).
Definition set_counters (x : gmap nat Counter) (w : World) : World :=
  mkWorld (elems w) (arrays w) (animS w) (sched w) x (log w).
Definition set_log (x : list Event) (w : World) : World :=
  mkWorld (elems w) (arrays w) (animS w) (sched w) (counters w) x.

(** ** The monad: state, JavaScript exceptions, and the faults of the model

    [Raise] is a thrown JavaScript error and keeps the world as it was when
    the error was thrown.  [Abort] is not a behaviour of the program: the
    recursion bound was reached, an address or a path led nowhere, or the
    program went on with a value that is no data ([Unmodelled]: a method, a
    bookkeeping field, a member of a built-in prototype). *)

Inductive fault := OutOfFuel | Dangling | Unmodelled.

Inductive result (A : Type) : Type :=
| Ok (a : A) (w : World)
| Raise (msg : string) (w : World)
| Abort (f : fault).
Arguments Ok {A} a w.
Arguments Raise {A} msg w.
Arguments Abort {A} f.

Definition M (A : Type) : Type := World -> result A.

Definition ret {A} (a : A) : M A := fun w => Ok a w.

Definition bind {A B} (m : M A) (k : A -> M B) : M B :=
  fun w =>
    match m w with
    | Ok a w' => k a w'
    | Raise msg w' => Raise msg w'
    | Abort f => Abort f
    end.

Notation "x <- c1 ;; c2" := (bind c1 (fun x => c2))
  (at level 100, c1 at next level, right associativity).
Notation "c1 ;; c2" := (bind c1 (fun _ => c2))
  (at level 100, right associativity).

Definition throw {A} (msg : string) : M A := fun w => Raise msg w.
Definition abort {A} (f : fault) : M A := fun _ => Abort f.
Definition get : M World := fun w => Ok w w.
Definition modify (f : World -> World) : M unit := fun w => Ok tt (f w).

Definition getEl (r : nat) : M Element :=
  fun w => match elems w !! r with
           | Some e => Ok e w
           | None => Abort Dangling
           end.

Definition setEl (r : nat) (e : Element) : M unit :=
  modify (fun w => set_elems (<[r := e]> (elems w)) w).

Definition modEl (r : nat) (f : Element -> Element) : M unit :=
  e <- getEl r ;; setEl r (f e).

Definition emit (ev : Event) : M unit :=
  modify (fun w => set_log (log w ++ [ev]) w).

(** [when c m]: [if (c) { m }] *)
Definition when (c : bool) (m : M unit) : M unit := if c then m else ret tt.

(** A loop over a list, left to right. *)
Fixpoint forM {A} (l : list A) (body : A -> M unit) : M unit :=
  match l with
  | [] => ret tt
  | x :: l' => body x ;; forM l' body
  end.

(** ** markRedraw

<<
    markRedraw() {
        this.__dirty = true;
        this.__zr && this.__zr.refresh();
    }
>> *)
Definition markRedraw (r : nat) : M unit :=
  modEl r (set_dirty true) ;;
  e <- getEl r ;;
  match __zr e with
  | Some zr => emit (EvRefresh zr)
  | None => ret tt
  end.

(** ** drift *)

Section Drift.

(** [decomposeTransform] belongs to the [Transformable] mixin, which is
    not under src/; it is a parameter here.  Spec 4.1: [drift] "mutates the
    raw affine matrix directly ... then re-decomposes
    position/rotation/scale/origin from the matrix": it reads the matrix
    and leaves it as it is. *)
Variable decomposeTransform : nat -> M unit.

Definition axisLock (d : Draggable) (dx dy : Z) : Z * Z :=
  match d with
  | DragMode "horizontal" => (dx, 0)
  | DragMode "vertical" => (0, dy)
  | _ => (dx, dy)
  end.

Definition translate (m : Matrix) (dx dy : Z) : Matrix :=
  mkMatrix (m0 m) (m1 m) (m2 m) (m3 m) (m4 m + dx) (m5 m + dy).

Definition drift (r : nat) (dx dy : Z) : M unit :=
  e <- getEl r ;;
  let '(dx, dy) := axisLock (draggable e) dx dy in
  let m := match transform e with
           | Some m => m
           | None => identity
           end in
  setEl r (set_transform (Some (translate m dx dy)) e) ;;
  decomposeTransform r ;;
  markRedraw r.

End Drift.

(** ** The state overlay *)

Definition PRESERVED_NORMAL_STATE : string := "__zr_normal__".

Definition PRIMARY_STATES_KEYS : list string :=
  ["position"; "scale"; "rotation"; "origin"; "ignore"].

(** Truthiness, for [!x], [x || y] and [x && y]. *)
Definition truthy (v : value) : bool :=
  match v with
  | VNull => false
  | VBool b => b
  | VNum n => negb (Z.eqb n 0)
  | VStr s => negb (String.eqb s "")
  | VArrX _ _ | VObj _ => true
  end.

Definition getProp (k : string) (e : Element) : value := oget k (props e).

Definition setProp (k : string) (v : value) (e : Element) : Element :=
  set_props (oset k v (props e)) e.

(** The object [saveStateToNormal] leaves in [_normalState]:
<<
    let state = this._normalState;
    if (!state) { state = this._normalState = {}; }
    state.textConfig = this.textConfig;
    state.position = this.position;
    state.scale = this.scale;
    state.rotation = this.rotation;
    state.origin = this.origin || [0, 0];
    state.ignore = this.ignore;
>> *)
Definition snapshot (e : Element) : Obj :=
  let state := match _normalState e with Some s => s | None => [] end in
  let state := oset "textConfig" (getProp "textConfig" e) state in
  let state := oset "position" (getProp "position" e) state in
  let state := oset "scale" (getProp "scale" e) state in
  let state := oset "rotation" (getProp "rotation" e) state in
  let state := oset "origin"
                 (if truthy (getProp "origin" e) then getProp "origin" e
                  else VArr [0; 0]) state in
  oset "ignore" (getProp "ignore" e) state.

Definition saveStateToNormal (r : nat) : M unit :=
  emit (EvSaveNormal r) ;;
  modEl r (fun e => set_normalState (Some (snapshot e)) e).

(** [hasState()] *)
Definition hasState (e : Element) : bool :=
  match currentStates e with [] => false | _ => true end.

(** [_applyStateObj] reads and writes fields of [this] only; it is a
    function on the element.  Reading a property of an undefined
    [_normalState] throws; the element is returned as it is at that point. *)
Inductive elres :=
| ElOk (e : Element)
| ElThrow (msg : string) (e : Element).

Definition typeError : string :=
  "TypeError: Cannot read properties of undefined".

(** [normalState[key]] *)
Definition normalProp (key : string) (e : Element) : option value :=
  match _normalState e with
  | Some n => Some (oget key n)
  | None => None
  end.

(** [state && state[key]] *)
Definition stateProp (state : option Obj) (key : string) : value :=
  match state with
  | Some st => oget key st
  | None => VNull
  end.

Definition needsRestoreToNormal (state : option Obj) (keep : bool) : bool :=
  match state with None => true | Some _ => negb keep end.

(**
<<
    if (state && state.textConfig) {
        this.textConfig = extend({},
            keepCurrentStates ? this.textConfig : normalState.textConfig);
        extend(this.textConfig, state.textConfig);
    }
    else if (needsRestoreToNormal) {
        this.textConfig = normalState.textConfig;
    }
>> *)
Definition applyTextConfig (state : option Obj) (keep : bool) (e : Element)
  : elres :=
  if truthy (stateProp state "textConfig") then
    match (if keep then Some (getProp "textConfig" e)
           else normalProp "textConfig" e) with
    | Some base =>
        ElOk (setProp "textConfig"
                (VObj (extend (extend [] base) (stateProp state "textConfig")))
                e)
    | None => ElThrow typeError e
    end
  else if needsRestoreToNormal state keep then
    match normalProp "textConfig" e with
    | Some v => ElOk (setProp "textConfig" v e)
    | None => ElThrow typeError e
    end
  else ElOk e.

(** The body of the loop over [PRIMARY_STATES_KEYS]:
<<
    if (state && state[key] != null) { this[key] = state[key]; }
    else if (needsRestoreToNormal) { this[key] = normalState[key]; }
>> *)
Definition applyKey (state : option Obj) (keep : bool) (key : string)
  (e : Element) : elres :=
  if negb (isNull (stateProp state key)) then
    ElOk (setProp key (stateProp state key) e)
  else if needsRestoreToNormal state keep then
    match normalProp key e with
    | Some v => ElOk (setProp key v e)
    | None => ElThrow typeError e
    end
  else ElOk e.

Fixpoint applyKeys (state : option Obj) (keep : bool) (ks : list string)
  (e : Element) : elres :=
  match ks with
  | [] => ElOk e
  | key :: ks' =>
      match applyKey state keep key e with
      | ElOk e' => applyKeys state keep ks' e'
      | ElThrow msg e' => ElThrow msg e'
      end
  end.

Definition _applyStateObj (state : option Obj) (keep : bool) (e : Element)
  : elres :=
  match applyTextConfig state keep e with
  | ElOk e' => applyKeys state keep PRIMARY_STATES_KEYS e'
  | ElThrow msg e' => ElThrow msg e'
  end.

(** Running a method that acts on [this] alone. *)
Definition onThis (r : nat) (f : Element -> elres) : M unit :=
  e <- getEl r ;;
  match f e with
  | ElOk e' => setEl r e'
  | ElThrow msg e' => setEl r e' ;; throw msg
  end.

(** Modelled from the spec: [logError] of [core/util], not under src/, is
    the error-reporting channel of the host; the message goes to the log. *)
Definition logError (msg : string) : M unit := emit (EvLogError msg).

(** [currentStates[currentStatesCount - 1]] *)
Definition lastStateName (e : Element) : option string :=
  last (currentStates e).

(** [stateName === lastStateName && (keepCurrentStates || count === 1)] *)
Definition stateNoChange (stateName : string) (keep : bool) (e : Element)
  : bool :=
  bool_decide (lastStateName e = Some stateName)
  && (keep || Nat.eqb (length (currentStates e)) 1).

(** The update of the stack of active states:
<<
    if (toNormalState) { this.currentStates = []; }
    else {
        if (!keepCurrentStates) { this.currentStates = [stateName]; }
        else { this.currentStates.push(stateName); }
    }
>> *)
Definition updateStack (stateName : string) (keep : bool) (e : Element)
  : Element :=
  if String.eqb stateName PRESERVED_NORMAL_STATE then set_currentStates [] e
  else if keep then set_currentStates (currentStates e ++ [stateName]) e
  else set_currentStates [stateName] e.

(** [states] is a plain object ([states: Dictionary<ElementState> = {}]):
    a read [states[name]] that finds no own property goes on to
    [Object.prototype].  What it finds there is a function (under
    [__proto__], the prototype itself): a truthy value that has none of the
    properties a state is read for ([textConfig] and the primary keys), so
    that it counts as a state that gives no value. *)
Definition objectPrototypeNames : list string :=
  ["constructor"; "hasOwnProperty"; "isPrototypeOf"; "propertyIsEnumerable";
   "toLocaleString"; "toString"; "valueOf"; "__proto__";
   "__defineGetter__"; "__defineSetter__"; "__lookupGetter__";
   "__lookupSetter__"].

Definition inherited (name : string) : bool :=
  existsb (String.eqb name) objectPrototypeNames.

(** [statesMap[stateName]] *)
Definition statesGet (statesMap : gmap string Obj) (stateName : string)
  : option Obj :=
  match statesMap !! stateName with
  | Some state => Some state
  | None => if inherited stateName then Some [] else None
  end.

(** [useState].  The attached label is an element of its own, reached
    through [_textContent]; the call on it is the only recursion, bounded by
    [fuel].  The returned state object is not modelled. *)
Fixpoint useState (fuel : nat) (r : nat) (stateName : string) (keep : bool)
  : M unit :=
  match fuel with
  | O => abort OutOfFuel
  | S fuel' =>
      let toNormalState := String.eqb stateName PRESERVED_NORMAL_STATE in
      e <- getEl r ;;
      if negb (hasState e) && toNormalState then ret tt
      else
        when (negb (hasState e)) (saveStateToNormal r) ;;
        e <- getEl r ;;
        if stateNoChange stateName keep e then ret tt
        else
          let state := statesGet (states e) stateName in
          if bool_decide (state = None) && negb toNormalState then
            logError ("State " +:+ stateName +:+ " not exists.")
          else
            onThis r (_applyStateObj state keep) ;;
            e <- getEl r ;;
            match _textContent e with
            | Some textEl => useState fuel' textEl stateName false
            | None => ret tt
            end ;;
            modEl r (updateStack stateName keep) ;;
            markRedraw r
  end.

(** [useStates]: the first name replaces, the others are layered. *)
Definition useStates (fuel : nat) (r : nat) (names : list string) : M unit :=
  match names with
  | [] => ret tt
  | n :: rest =>
      useState fuel r n false ;;
      forM rest (fun n' => useState fuel r n' true)
  end.

Definition clearStates (fuel : nat) (r : nat) : M unit :=
  useState fuel r PRESERVED_NORMAL_STATE false.

(** ** Host attachment and the clip path *)

(** The animators registered with the scheduler of host [zr]. *)
Definition registry (w : World) (zr : nat) : gset nat :=
  match sched w !! zr with Some s => s | None => ∅ end.

(** [zr.animation.addAnimator(a)] and [zr.animation.removeAnimator(a)] *)
Definition schedAdd (zr a : nat) : M unit :=
  modify (fun w => set_sched (<[zr := {[a]} ∪ registry w zr]> (sched w)) w).

Definition schedRemove (zr a : nat) : M unit :=
  modify (fun w => set_sched (<[zr := registry w zr ∖ {[a]}]> (sched w)) w).

Definition getArr (arr : nat) : M (list nat) :=
  fun w => match arrays w !! arr with
           | Some l => Ok l w
           | None => Abort Dangling
           end.

Definition setArr (arr : nat) (l : list nat) : M unit :=
  modify (fun w => set_arrays (<[arr := l]> (arrays w)) w).

(** [addSelfToZr] and [removeSelfFromZr] descend into the clip path and the
    label, which are elements themselves; [fuel] bounds the descent. *)
Fixpoint addSelfToZr (fuel : nat) (r : nat) (zr : nat) : M unit :=
  match fuel with
  | O => abort OutOfFuel
  | S fuel' =>
      modEl r (set_zr (Some zr)) ;;
      e <- getEl r ;;
      l <- getArr (animators e) ;;
      forM l (fun a => schedAdd zr a) ;;
      e <- getEl r ;;
      match _clipPath e with
      | Some c => addSelfToZr fuel' c zr
      | None => ret tt
      end ;;
      e <- getEl r ;;
      match _textContent e with
      | Some t => addSelfToZr fuel' t zr
      | None => ret tt
      end
  end.

Fixpoint removeSelfFromZr (fuel : nat) (r : nat) (zr : nat) : M unit :=
  match fuel with
  | O => abort OutOfFuel
  | S fuel' =>
      modEl r (set_zr None) ;;
      e <- getEl r ;;
      l <- getArr (animators e) ;;
      forM l (fun a => schedRemove zr a) ;;
      e <- getEl r ;;
      match _clipPath e with
      | Some c => removeSelfFromZr fuel' c zr
      | None => ret tt
      end ;;
      e <- getEl r ;;
      match _textContent e with
      | Some t => removeSelfFromZr fuel' t zr
      | None => ret tt
      end
  end.

(**
<<
    removeClipPath() {
        const clipPath = this._clipPath;
        if (clipPath) {
            if (clipPath.__zr) { clipPath.removeSelfFromZr(clipPath.__zr); }
            clipPath.__zr = null;
            clipPath.__clipTarget = null;
            this._clipPath = null;
            this.markRedraw();
        }
    }
>> *)
Definition removeClipPath (fuel : nat) (r : nat) : M unit :=
  e <- getEl r ;;
  match _clipPath e with
  | Some clipPath =>
      c <- getEl clipPath ;;
      match __zr c with
      | Some zr => removeSelfFromZr fuel clipPath zr
      | None => ret tt
      end ;;
      modEl clipPath (set_zr None) ;;
      modEl clipPath (set_clipTarget None) ;;
      modEl r (set_clipPath None) ;;
      markRedraw r
  | None => ret tt
  end.

(**
<<
    setClipPath(clipPath: Path) {
        const zr = this.__zr;
        if (zr) { clipPath.addSelfToZr(zr); }
        if (this._clipPath && this._clipPath !== clipPath) {
            this.removeClipPath();
        }
        this._clipPath = clipPath;
        clipPath.__zr = zr;
        clipPath.__clipTarget = this;
        this.markRedraw();
    }
>> *)
Definition setClipPath (fuel : nat) (r : nat) (clipPath : nat) : M unit :=
  e <- getEl r ;;
  let zr := __zr e in
  match zr with
  | Some z => addSelfToZr fuel clipPath z
  | None => ret tt
  end ;;
  e <- getEl r ;;
  match _clipPath e with
  | Some old => when (negb (Nat.eqb old clipPath)) (removeClipPath fuel r)
  | None => ret tt
  end ;;
  modEl r (set_clipPath (Some clipPath)) ;;
  modEl clipPath (set_zr zr) ;;
  modEl clipPath (set_clipTarget (Some r)) ;;
  markRedraw r.

(** ** Animation *)

Definition set_status (x : AStatus) (a : Animator) : Animator :=
  mkAnimator (a_owner a) (a_path a) (a_loop a) (a_keys a) (a_end a)
    (a_time a) (a_delay a) (a_during a) (a_done a) x.

Definition add_done (cb : Callback) (a : Animator) : Animator :=
  mkAnimator (a_owner a) (a_path a) (a_loop a) (a_keys a) (a_end a)
    (a_time a) (a_delay a) (a_during a) (a_done a ++ [cb]) (a_status a).

Definition add_during (key : string) (a : Animator) : Animator :=
  mkAnimator (a_owner a) (a_path a) (a_loop a) (a_keys a) (a_end a)
    (a_time a) (a_delay a) (a_during a ++ [key]) (a_done a) (a_status a).

Definition getAnim (a : nat) : M Animator :=
  fun w => match animS w !! a with
           | Some x => Ok x w
           | None => Abort Dangling
           end.

Definition setAnim (a : nat) (x : Animator) : M unit :=
  modify (fun w => set_animS (<[a := x]> (animS w)) w).

Definition modAnim (a : nat) (f : Animator -> Animator) : M unit :=
  x <- getAnim a ;; setAnim a (f x).

Definition getCounter (c : nat) : M Counter :=
  fun w => match counters w !! c with
           | Some x => Ok x w
           | None => Abort Dangling
           end.

Definition setCounter (c : nat) (x : Counter) : M unit :=
  modify (fun w => set_counters (<[c := x]> (counters w)) w).

(** *** Names that are not data

    A read [this[key]] or [source[key]] finds more than the data kept in
    [props]: the methods and the bookkeeping fields of the class (the
    defaults of [initDefaultProps] among them), the members of the mixins,
    the members of the built-in prototypes, the elements and the length of
    an array or a string.  Most of these are no [value].  Where a read finds
    no data under such a name, the model stops with [Unmodelled] rather than
    take the name for an absent one. *)

(** The members of [Element]: its fields (those of [props] apart) and its
    methods. *)
Definition elementMembers : list string :=
  ["id"; "type"; "name"; "ignore"; "silent"; "isGroup"; "draggable";
   "dragging"; "parent"; "animators"; "__zr"; "__dirty"; "__storage";
   "_clipPath"; "__clipTarget"; "_textContent"; "currentStates"; "states";
   "_normalState"; "_insideTextColor";
   "_init"; "drift"; "beforeUpdate"; "afterUpdate"; "update";
   "_updateInnerText"; "getInsideTextFill"; "getInsideTextStroke";
   "traverse"; "attrKV"; "hide"; "show"; "attr"; "saveStateToNormal";
   "hasState"; "getState"; "ensureState"; "clearStates"; "useState";
   "useStates"; "_applyStateObj"; "getClipPath"; "setClipPath";
   "removeClipPath"; "getTextContent"; "setTextContent";
   "removeTextContent"; "setTextConfig"; "markRedraw"; "dirty";
   "addSelfToZr"; "removeSelfFromZr"; "animate"; "addAnimator";
   "updateDuringAnimation"; "stopAnimation"; "animateTo"; "animateFrom";
   "getBoundingRect"].

(** Modelled from the spec: the mixins [Transformable] and [Eventful] are
    not under src/.  Spec 4.1 and 9: the node has "transform + event-emitter
    capabilities merged into the node type": the matrix and its inverse, the
    operations that compose and decompose it, and the registration, removal
    and dispatch of event handlers. *)
Definition mixinMembers : list string :=
  ["transform"; "invTransform"; "globalScaleRatio"; "needLocalTransform";
   "updateTransform"; "getLocalTransform"; "setLocalTransform";
   "decomposeTransform"; "getGlobalScale"; "transformCoordToLocal";
   "transformCoordToGlobal"; "getLineScale";
   "on"; "off"; "one"; "isSilent"; "trigger"; "triggerWithContext";
   "_$handlers"; "_$eventProcessor"].

(** The members of the prototypes of arrays, strings and numbers, and the
    length of an array or a string (the members of [Object.prototype], which
    all of them inherit, are in [objectPrototypeNames]; a boolean has no
    others). *)
Definition arrayMembers : list string :=
  ["length";
   "at"; "concat"; "copyWithin"; "entries"; "every"; "fill"; "filter";
   "find"; "findIndex"; "findLast"; "findLastIndex"; "flat"; "flatMap";
   "forEach"; "includes"; "indexOf"; "join"; "keys"; "lastIndexOf"; "map";
   "pop"; "push"; "reduce"; "reduceRight"; "reverse"; "shift"; "slice";
   "some"; "sort"; "splice"; "unshift"; "values"; "toReversed"; "toSorted";
   "toSpliced"; "with"].

Definition stringMembers : list string :=
  ["length";
   "at"; "charAt"; "charCodeAt"; "codePointAt"; "concat"; "endsWith";
   "includes"; "indexOf"; "lastIndexOf"; "localeCompare";
   "match"; "matchAll"; "normalize"; "padEnd"; "padStart"; "repeat";
   "replace"; "replaceAll"; "search"; "slice"; "split"; "startsWith";
   "substr"; "substring"; "toLocaleLowerCase"; "toLocaleUpperCase";
   "toLowerCase"; "toUpperCase"; "trim"; "trimEnd"; "trimStart"; "trimLeft";
   "trimRight"; "isWellFormed"; "toWellFormed"; "anchor"; "big"; "blink";
   "bold"; "fixed"; "fontcolor"; "fontsize"; "italics"; "link"; "small";
   "strike"; "sub"; "sup"].

Definition numberMembers : list string :=
  ["toExponential"; "toFixed"; "toPrecision"].

(** An array index: a string of digits. *)
Definition isDigit (c : Ascii.ascii) : bool :=
  (48 <=? Ascii.nat_of_ascii c)%nat && (Ascii.nat_of_ascii c <=? 57)%nat.

Fixpoint allDigits (k : string) : bool :=
  match k with
  | EmptyString => true
  | String c k' => isDigit c && allDigits k'
  end.

Definition isIndex (k : string) : bool :=
  negb (String.eqb k "") && allDigits k.

Definition oneOf (names : list string) (k : string) : bool :=
  existsb (String.eqb k) names.

(** The names under which a read of the node may find something that is no
    data. *)
Definition nodeMember (k : string) : bool :=
  oneOf (elementMembers ++ mixinMembers ++ objectPrototypeNames) k.

(** The same for a read of the value [v]. *)
Definition memberOf (v : value) (k : string) : bool :=
  match v with
  | VNull => false
  | VObj _ | VBool _ => inherited k
  | VNum _ => inherited k || oneOf numberMembers k
  | VStr _ => inherited k || oneOf stringMembers k || isIndex k
  | VArrX _ _ => inherited k || oneOf arrayMembers k || isIndex k
  end.

(** *** Live objects

    The live object an animation works on is the element itself or a value
    below it ([style], [shape], ...), named by the path of keys that leads
    to it.  [animateToShallow] descends into whatever value it finds under a
    key, provided it is not null: an object, an array, or a primitive
    value. *)

(** The data properties of an object value: the own properties of an
    object, the further properties of an array. *)
Definition dataOf (v : value) : option Obj :=
  match v with
  | VObj o => Some o
  | VArrX _ x => Some x
  | _ => None
  end.

(** The object value [v] with the data properties [d]. *)
Definition withData (v : value) (d : Obj) : value :=
  match v with
  | VArrX a _ => VArrX a d
  | _ => VObj d
  end.

Definition isPrimitive (v : value) : bool :=
  match v with
  | VBool _ | VNum _ | VStr _ => true
  | _ => false
  end.

(** The value at [path] below [v]. *)
Fixpoint vget (path : list string) (v : value) : value :=
  match path with
  | [] => v
  | k :: p =>
      match dataOf v with
      | Some d => vget p (oget k d)
      | None => VNull
      end
  end.

(** The data properties of the object at [path] below the object [o]. *)
Fixpoint pget (path : list string) (o : Obj) : option Obj :=
  match path with
  | [] => Some o
  | k :: p =>
      match dataOf (oget k o) with
      | Some o' => pget p o'
      | None => None
      end
  end.

Fixpoint pmod (path : list string) (f : Obj -> Obj) (o : Obj) : option Obj :=
  match path with
  | [] => Some (f o)
  | k :: p =>
      match dataOf (oget k o) with
      | Some o' =>
          match pmod p f o' with
          | Some o'' => Some (oset k (withData (oget k o) o'') o)
          | None => None
          end
      | None => None
      end
  end.

(** The names that are no data in the object at [path] below the node with
    the properties [p]. *)
Definition reserved (path : list string) (p : Obj) (k : string) : bool :=
  match path with
  | [] => nodeMember k
  | _ => memberOf (vget path (VObj p)) k
  end.

(** The file is a module (it has [import] and [export] declarations), and
    the code of a module is strict: an assignment to a property of a
    primitive value throws. *)
Definition assignError : string :=
  "TypeError: Cannot create property on a primitive value".

(** [source[k]].  A primitive value has no data property. *)
Definition readKey (el : nat) (path : list string) (k : string) : M value :=
  e <- getEl el ;;
  match pget path (props e) with
  | Some o =>
      if isNull (oget k o) && reserved path (props e) k then abort Unmodelled
      else ret (oget k o)
  | None =>
      if isPrimitive (vget path (VObj (props e))) then
        if reserved path (props e) k then abort Unmodelled else ret VNull
      else abort Dangling
  end.

(** [source[k] = v] *)
Definition writeKey (el : nat) (path : list string) (k : string) (v : value)
  : M unit :=
  e <- getEl el ;;
  match pmod path (oset k v) (props e) with
  | Some p' => setEl el (set_props p' e)
  | None =>
      if isPrimitive (vget path (VObj (props e))) then throw assignError
      else abort Dangling
  end.

(** *** The animator, continued

    Modelled from the spec: the methods of [Animator] that [Element.ts]
    calls.  Spec 4.2 and 7: an animation whose target is identical to the
    current values resolves silently and synchronously unless [forceAnimate]
    is set; on completion the animator applies its final values and fires its
    completion callbacks; [stop] applies the final values first when asked
    to.  The comments of [animateTo] in the source say the same: "'done' may
    be executed immediately if no need to animate". *)

(** [callback && callback()] *)
Definition invoke (callback : Arg) : M unit :=
  match callback with
  | AFun f => emit (EvCallback f)
  | AUndef | ANum 0 | AStr "" => ret tt
  | _ => throw "TypeError: callback is not a function"
  end.

(** Modelled from the spec: [indexOf(l, a)] of [core/util], not under src/;
    [None] stands for [-1]. *)
Fixpoint indexOf (l : list nat) (a : nat) : option nat :=
  match l with
  | [] => None
  | x :: l' => if Nat.eqb x a then Some O else S <$> indexOf l' a
  end.

(** [l.splice(indexOf(l, a), 1)]; [splice(-1, 1)] removes the last entry. *)
Definition spliceOut (l : list nat) (a : nat) : list nat :=
  match indexOf l a with
  | Some i => delete i l
  | None => removelast l
  end.

Definition runCallback (cb : Callback) : M unit :=
  match cb with
  | CbSplice arr anim =>
      l <- getArr arr ;; setArr arr (spliceOut l anim)
  | CbCountdown c =>
      x <- getCounter c ;;
      setCounter c (mkCounter (c_count x - 1) (c_callback x)) ;;
      when (Z.eqb (c_count x - 1) 0) (invoke (c_callback x))
  end.

Definition writeEnd (a : Animator) : M unit :=
  forM (a_keys a) (fun k => writeKey (a_owner a) (a_path a) k (oget k (a_end a))).

Definition finish (a : nat) : M unit :=
  modAnim a (set_status Finished) ;;
  x <- getAnim a ;;
  forM (a_done x) runCallback.

(** [animator.start(easing, forceAnimate)] *)
Definition animStart (a : nat) (easing : Arg) (forceAnimate : bool) : M unit :=
  x <- getAnim a ;;
  e <- getEl (a_owner x) ;;
  match pget (a_path x) (props e) with
  | None => abort Dangling
  | Some cur =>
      if negb forceAnimate
         && forallb (fun k => value_eqb (oget k cur) (oget k (a_end x)))
              (a_keys x)
      then finish a
      else modAnim a (set_status Running)
  end.

(** The host ticks a running animator to its end. *)
Definition animComplete (a : nat) : M unit :=
  x <- getAnim a ;;
  match a_status x with
  | Running => writeEnd x ;; finish a
  | _ => ret tt
  end.

(** [animator.stop(forwardToLast)] *)
Definition animStop (a : nat) (forwardToLast : bool) : M unit :=
  x <- getAnim a ;;
  when forwardToLast (writeEnd x) ;;
  modAnim a (set_status Stopped).

(** The end keyframe of [whenWithKeys(time, props, keys)]: the values
    [props] gives to the keys. *)
Definition keyframe (endProps : Obj) (ks : list string) : Obj :=
  map (fun k => (k, oget k endProps)) ks.

(** [new Animator(source, false).whenWithKeys(time, props, keys).delay(d)] *)
Definition newAnimator (el : nat) (path : list string) (time delay : Arg)
  (endProps : Obj) (ks : list string) : M nat :=
  w <- get ;;
  let a := fresh (dom (animS w)) in
  setAnim a (mkAnimator el path false ks (keyframe endProps ks)
               time delay [] [] Created) ;;
  ret a.

(**
<<
    addAnimator(animator: Animator<any>, key: string): void {
        const zr = this.__zr;
        const el = this;
        const animators = el.animators;
        animator.during(function () {
            el.updateDuringAnimation(key as string);
        }).done(function () {
            animators.splice(indexOf(animators, animator), 1);
        });
        animators.push(animator);
        if (zr) { zr.animation.addAnimator(animator); }
    }
>> *)
Definition addAnimator (r : nat) (animator : nat) (key : string) : M unit :=
  e <- getEl r ;;
  let zr := __zr e in
  let animators := animators e in
  modAnim animator (add_during key) ;;
  modAnim animator (add_done (CbSplice animators animator)) ;;
  l <- getArr animators ;;
  setArr animators (l ++ [animator]) ;;
  match zr with
  | Some z => schedAdd z animator
  | None => ret tt
  end.

(**
<<
    stopAnimation(forwardToLast?: boolean) {
        const animators = this.animators;
        const len = animators.length;
        for (let i = 0; i < len; i++) { animators[i].stop(forwardToLast); }
        this.animators = [];
        return this;
    }
>> *)
Definition stopAnimation (r : nat) (forwardToLast : bool) : M unit :=
  e <- getEl r ;;
  l <- getArr (animators e) ;;
  forM l (fun a => animStop a forwardToLast) ;;
  w <- get ;;
  let arr := fresh (dom (arrays w)) in
  setArr arr [] ;;
  modEl r (set_animators arr).

(** *** animateToShallow *)

Definition nestingError : string :=
  "Only support 1 depth nest object animation.".

(** [isObject(v) && !isArrayLike(v)] *)
Definition isPlainObject (v : value) : bool :=
  isObject v && negb (isArrayLike v).

Section ShallowLoop.

(** The recursive call, on the sub-object under [innerKey]. *)
Variable rec : string -> list string -> value -> M unit.
Variables (el : nat) (topKey : string) (path : list string).
Variable reverse : bool.

(** The loop over [keys(target)]; it returns [animatableKeys].  An entry
    [(innerKey, tv)] of the descriptor carries [tv = target[innerKey]]. *)
Fixpoint shallowKeys (entries : Obj) (animatableKeys : list string)
  : M (list string) :=
  match entries with
  | [] => ret animatableKeys
  | (innerKey, tv) :: rest =>
      sv <- readKey el path innerKey ;;
      if negb (isNull sv) then
        if isPlainObject tv then
          if negb (String.eqb topKey "") then throw nestingError
          else
            rec innerKey (path ++ [innerKey]) tv ;;
            shallowKeys rest animatableKeys
        else shallowKeys rest (animatableKeys ++ [innerKey])
      else if negb (isNull tv) && negb reverse then
        writeKey el path innerKey tv ;;
        shallowKeys rest animatableKeys
      else shallowKeys rest animatableKeys
  end.

(** The swap of [animateFrom]:
<<
  reversedTarget[innerKey] = source[innerKey];
  source[innerKey] = target[innerKey];
>> *)
Fixpoint swapKeys (target : Obj) (ks : list string) (reversedTarget : Obj)
  : M Obj :=
  match ks with
  | [] => ret reversedTarget
  | innerKey :: ks' =>
      sv <- readKey el path innerKey ;;
      writeKey el path innerKey (oget innerKey target) ;;
      swapKeys target ks' (oset innerKey sv reversedTarget)
  end.

End ShallowLoop.

(** [time == null ? 500 : time] and [delay || 0] *)
Definition timeOrDefault (time : Arg) : Arg :=
  match time with AUndef => ANum 500 | _ => time end.

Definition truthyArg (a : Arg) : bool :=
  match a with
  | AUndef | ANum 0 | AStr "" => false
  | _ => true
  end.

Definition delayOrZero (delay : Arg) : Arg :=
  if truthyArg delay then delay else ANum 0.

(** The part of [animateToShallow] after the loop:
<<
    if (keyLen > 0) {
        let reversedTarget;
        if (reverse) { reversedTarget = {}; ... the swap ... }
        const animator = new Animator(source, false);
        animator.whenWithKeys(time == null ? 500 : time,
            reverse ? reversedTarget : target, animatableKeys
        ).delay(delay || 0);
        animatable.addAnimator(animator, topKey);
    }
>> *)
Definition animateKeys (el : nat) (topKey : string) (path : list string)
  (t : Obj) (time delay : Arg) (reverse : bool)
  (animatableKeys : list string) : M unit :=
  if Nat.ltb 0 (length animatableKeys) then
    endProps <- (if reverse then swapKeys el path t animatableKeys []
                 else ret t) ;;
    animator <- newAnimator el path (timeOrDefault time)
                  (delayOrZero delay) endProps animatableKeys ;;
    addAnimator el animator topKey
  else ret tt.

(** [animateToShallow(animatable, topKey, source, target, time, delay,
    reverse)]; [source] is the live object at [path] in [animatable].  The
    function is applied to plain objects only ([target] is one at the
    top, and the test [isObject && !isArrayLike] guards the recursive
    call). *)
Fixpoint animateToShallow (el : nat) (topKey : string) (path : list string)
  (target : value) (time delay : Arg) (reverse : bool) {struct target}
  : M unit :=
  match target with
  | VObj t =>
      animatableKeys <-
        shallowKeys
          (fun k p v => animateToShallow el k p v time delay reverse)
          el topKey path reverse t [] ;;
      animateKeys el topKey path t time delay reverse animatableKeys
  | _ => ret tt
  end.

(** *** animateTo *)

(** Modelled from the spec: [isString] and [isFunction] of [core/util], not
    under src/ ("a string argument in the easing slot is treated as an easing
    name, a callable in that slot as the completion callback"). *)
Definition isString (a : Arg) : bool :=
  match a with AStr _ => true | _ => false end.

Definition isFunction (a : Arg) : bool :=
  match a with AFun _ => true | _ => false end.

(** The normalisation of the trailing arguments, to
    [(time, delay, easing, callback)]. *)
Definition normalizeArgs (time delay easing callback : Arg)
  : Arg * Arg * Arg * Arg :=
  if isString delay then (time, ANum 0, delay, easing)
  else if isFunction easing then (time, ANum 0, AStr "linear", easing)
  else if isFunction delay then (time, ANum 0, easing, delay)
  else if isFunction time then (ANum 500, delay, easing, time)
  else if negb (truthyArg time) then (ANum 500, delay, easing, callback)
  else (time, delay, easing, callback).

(** The loop that starts the animators:
<<
    for (let i = 0; i < animators.length; i++) {
        animators[i].done(done).start(<AnimationEasing>easing, forceAnimate);
    }
>>
    [animators] is the array of the element itself, read again at every
    turn.  The closures only ever shorten it, so [n] turns, for an array of
    [n] entries at the start, are enough. *)
Fixpoint startLoop (n : nat) (animators : nat) (i : nat) (counter : nat)
  (easing : Arg) (forceAnimate : bool) : M unit :=
  l <- getArr animators ;;
  match l !! i with
  | None => ret tt
  | Some a =>
      match n with
      | O => abort OutOfFuel
      | S n' =>
          modAnim a (add_done (CbCountdown counter)) ;;
          animStart a easing forceAnimate ;;
          startLoop n' animators (S i) counter easing forceAnimate
      end
  end.

(** The end of [animateTo], from [const animators = animatable.animators]
    on: the shared countdown, the callback when there is nothing to wait
    for, and the loop that starts the animators.  The variables [count] and
    [callback] the closures [done] share are a counter in the store. *)
Definition startAnimators (animatable : nat) (easing callback : Arg)
  (forceAnimate : bool) : M unit :=
  e <- getEl animatable ;;
  let animators := animators e in
  l <- getArr animators ;;
  let count := Z.of_nat (length l) in
  w <- get ;;
  let counter := fresh (dom (counters w)) in
  setCounter counter (mkCounter count callback) ;;
  when (Z.eqb count 0) (invoke callback) ;;
  startLoop (length l) animators 0 counter easing forceAnimate.

(** The function [animateTo] at the end of the file, behind both methods. *)
Definition animateToImpl (animatable : nat) (target : Obj)
  (time delay easing callback : Arg) (forceAnimate : bool) (reverse : bool)
  : M unit :=
  let '(time, delay, easing, callback) :=
    normalizeArgs time delay easing callback in
  stopAnimation animatable false ;;
  animateToShallow animatable "" [] (VObj target) time delay reverse ;;
  startAnimators animatable easing callback forceAnimate.

(** The two methods of the class. *)
Definition animateTo (r : nat) (target : Obj)
  (time delay easing callback : Arg) (forceAnimate : bool) : M unit :=
  animateToImpl r target time delay easing callback forceAnimate false.

Definition animateFrom (r : nat) (target : Obj)
  (time delay easing callback : Arg) (forceAnimate : bool) : M unit :=
  animateToImpl r target time delay easing callback forceAnimate true.

(** ** The rest of the class

    The methods of [Element.ts] that the state overlay, the clip path and
    the animation merge do not go through: [hide] and [show],
    [ensureState], the label ([setTextContent], [removeTextContent]) and
    [animate]. *)

Definition set_states (x : gmap string Obj) (e : Element) : Element :=
  mkElement (props e) (draggable e) (transform e) (__dirty e) (__zr e)
    (_clipPath e) (__clipTarget e) (_textContent e) (animators e)
    (currentStates e) x (_normalState e).

Definition set_textContent (x : option nat) (e : Element) : Element :=
  mkElement (props e) (draggable e) (transform e) (__dirty e) (__zr e)
    (_clipPath e) (__clipTarget e) x (animators e) (currentStates e)
    (states e) (_normalState e).

(** [this.__zr && this.__zr.refresh()] *)
Definition refreshHost (r : nat) : M unit :=
  e <- getEl r ;;
  match __zr e with
  | Some zr => emit (EvRefresh zr)
  | None => ret tt
  end.

(**
<<
    hide() {
        this.ignore = true;
        this.__zr && this.__zr.refresh();
    }
    show() {
        this.ignore = false;
        this.__zr && this.__zr.refresh();
    }
>> *)
Definition hide (r : nat) : M unit :=
  modEl r (setProp "ignore" (VBool true)) ;;
  refreshHost r.

Definition show (r : nat) : M unit :=
  modEl r (setProp "ignore" (VBool false)) ;;
  refreshHost r.

(**
<<
    ensureState(name: string) {
        const states = this.states;
        if (!states[name]) { states[name] = {}; }
        return states[name];
    }
>>
    What [states[name]] gives is an object or a function, never falsy: the
    test asks whether the read finds anything, in [states] or in
    [Object.prototype]. *)
Definition ensureState (r : nat) (name : string) : M Obj :=
  e <- getEl r ;;
  match statesGet (states e) name with
  | Some state => ret state
  | None =>
      setEl r (set_states (<[name := []]> (states e)) e) ;;
      ret []
  end.

(**
<<
    removeTextContent() {
        const textEl = this._textContent;
        if (textEl) {
            if (textEl.__zr) { textEl.removeSelfFromZr(textEl.__zr); }
            textEl.__zr = null;
            this._textContent = null;
            this.markRedraw();
        }
    }
>> *)
Definition removeTextContent (fuel : nat) (r : nat) : M unit :=
  e <- getEl r ;;
  match _textContent e with
  | Some textEl =>
      t <- getEl textEl ;;
      match __zr t with
      | Some zr => removeSelfFromZr fuel textEl zr
      | None => ret tt
      end ;;
      modEl textEl (set_zr None) ;;
      modEl r (set_textContent None) ;;
      markRedraw r
  | None => ret tt
  end.

(**
<<
    setTextContent(textEl: RichText) {
        if (this._textContent && this._textContent !== textEl) {
            this.removeTextContent();
        }
        const zr = this.__zr;
        if (zr) { textEl.addSelfToZr(zr); }
        this._textContent = textEl;
        textEl.__zr = zr;
        this.markRedraw();
    }
>> *)
Definition setTextContent (fuel : nat) (r : nat) (textEl : nat) : M unit :=
  e <- getEl r ;;
  match _textContent e with
  | Some old => when (negb (Nat.eqb old textEl)) (removeTextContent fuel r)
  | None => ret tt
  end ;;
  e <- getEl r ;;
  let zr := __zr e in
  match zr with
  | Some z => addSelfToZr fuel textEl z
  | None => ret tt
  end ;;
  modEl r (set_textContent (Some textEl)) ;;
  modEl textEl (set_zr zr) ;;
  markRedraw r.

(** *** animate *)

(** The double-quote character of the message of [animate]. *)
Definition dquote : string := String (Ascii.ascii_of_nat 34) EmptyString.

Section Animate.

(** [this.id] as the concatenation of the message renders it; the number
    comes from [guid()] of [core/util] when the element is built. *)
Variable idText : nat -> string.

(**
<<
    animate(key?: string, loop?: boolean) {
        let target = key ? (this as any)[key] : this;
        if (!target) {
            logError('Property "' + key + '" is not existed in element '
                + this.id);
            return;
        }
        const animator = new Animator(target, loop);
        this.addAnimator(animator, key);
        return animator;
    }
>>
    An omitted [key] reads as the empty string, which [key ? ... : this]
    treats alike.  The new animator has no keyframe yet; the result is its
    address, or nothing after the error.  Where [props] has nothing under
    [key] and the class or a prototype may, the read is outside the
    model. *)
Definition animate (r : nat) (key : string) (loop : bool) : M (option nat) :=
  e <- getEl r ;;
  if negb (String.eqb key "") && negb (truthy (getProp key e)) then
    if isNull (getProp key e) && nodeMember key then abort Unmodelled
    else
      logError ("Property " +:+ dquote +:+ key +:+ dquote
                +:+ " is not existed in element " +:+ idText r) ;;
      ret None
  else
    w <- get ;;
    let animator := fresh (dom (animS w)) in
    setAnim animator
      (mkAnimator r (if String.eqb key "" then [] else [key]) loop [] []
         AUndef AUndef [] [] Created) ;;
    addAnimator r animator key ;;
    ret (Some animator).

End Animate.

(** * Vocabulary of the statements, and example nodes *)

(** A decomposition that recovers the position from the translation
    entries, and a node dragged along the horizontal axis. *)
Definition positionFromMatrix (r : nat) : M unit :=
  modEl r (fun e =>
    match transform e with
    | Some m => setProp "position" (VArr [m4 m; m5 m]) e
    | None => e
    end).

Definition sliderEl : Element :=
  mkElement [("position", VArr [0; 0])] (DragMode "horizontal") None false
    None None None None 0 [] ∅ None.

Definition sliderWorld : World :=
  mkWorld {[ 1%nat := sliderEl ]} {[ 0%nat := [] ]} ∅ ∅ ∅ [].


(** ** State overlay *)

(** The number of runs of [saveStateToNormal] on [r] recorded in a log. *)
Fixpoint saves (r : nat) (l : list Event) : nat :=
  match l with
  | [] => O
  | EvSaveNormal x :: l' => ((if Nat.eqb x r then 1 else 0) + saves r l')%nat
  | _ :: l' => saves r l'
  end.

(** A node with active states has a normal-state snapshot. *)
Definition consistent (e : Element) : Prop :=
  hasState e = true -> is_Some (_normalState e).

(** The label relation is well founded, with [rk] decreasing along it, and
    leads to elements of the store: a label is never, directly or not, its
    own host. *)
Definition labels_ranked (rk : nat -> nat) (m : gmap nat Element) : Prop :=
  forall x e, m !! x = Some e ->
    consistent e
    /\ forall t, _textContent e = Some t ->
         (rk t < rk x)%nat /\ is_Some (m !! t).

(** What one call of [useState] does to [this], the call on the label set
    aside: the element it leaves, or the error thrown. *)
Definition useState_this (stateName : string) (keep : bool) (e : Element)
  : elres :=
  let toNormalState := String.eqb stateName PRESERVED_NORMAL_STATE in
  if negb (hasState e) && toNormalState then ElOk e
  else
    let e1 := if hasState e then e
              else set_normalState (Some (snapshot e)) e in
    if stateNoChange stateName keep e1 then ElOk e1
    else
      let state := statesGet (states e1) stateName in
      if bool_decide (state = None) && negb toNormalState then ElOk e1
      else
        match _applyStateObj state keep e1 with
        | ElOk e2 => ElOk (set_dirty true (updateStack stateName keep e2))
        | ElThrow msg e2 => ElThrow msg e2
        end.

(** A sequence of [useState] calls on [this], in the same sense. *)
Fixpoint useStates_this (calls : list (string * bool)) (e : Element)
  : elres :=
  match calls with
  | [] => ElOk e
  | (n, k) :: calls' =>
      match useState_this n k e with
      | ElOk e' => useStates_this calls' e'
      | ElThrow msg e' => ElThrow msg e'
      end
  end.

(** The same sequence, run on the store. *)
Fixpoint useStateSeq (fuel : nat) (r : nat) (calls : list (string * bool))
  : M unit :=
  match calls with
  | [] => ret tt
  | (n, k) :: calls' => useState fuel r n k ;; useStateSeq fuel r calls'
  end.

(** The properties [_applyStateObj] leaves, given the snapshot [n]. *)
Definition overlayTextConfig (n : Obj) (state : option Obj) (keep : bool)
  (p : Obj) : Obj :=
  if truthy (stateProp state "textConfig") then
    oset "textConfig"
      (VObj (extend (extend [] (if keep then oget "textConfig" p
                                else oget "textConfig" n))
               (stateProp state "textConfig"))) p
  else if needsRestoreToNormal state keep then
    oset "textConfig" (oget "textConfig" n) p
  else p.

Definition overlayKey (n : Obj) (state : option Obj) (keep : bool)
  (p : Obj) (key : string) : Obj :=
  if negb (isNull (stateProp state key)) then oset key (stateProp state key) p
  else if needsRestoreToNormal state keep then oset key (oget key n) p
  else p.

Definition overlay (n : Obj) (state : option Obj) (keep : bool) (p : Obj)
  : Obj :=
  fold_left (overlayKey n state keep) PRIMARY_STATES_KEYS
    (overlayTextConfig n state keep p).

(** [this.origin || [0, 0]] *)
Definition originOrDefault (v : value) : value :=
  if truthy v then v else VArr [0; 0].

(** Membership in a list of keys, as a boolean. *)
Definition hasKey (k : string) (ks : list string) : bool :=
  existsb (String.eqb k) ks.

(** A label configuration, read key by key: whether it defines [k], and the
    value it gives to [k]. *)
Definition cfgHas (k : string) (cfg : value) : bool :=
  match cfg with
  | VObj o => hasKey k (keys o)
  | _ => false
  end.

Definition cfgGet (k : string) (cfg : value) : value :=
  match cfg with
  | VObj o => oget k o
  | _ => VNull
  end.

(** [useStates(names)] as a sequence of [useState] calls. *)
Definition layered (names : list string) : list (string * bool) :=
  match names with
  | [] => []
  | n :: rest => (n, false) :: map (fun n' => (n', true)) rest
  end.

(** The node is away from normal, on the snapshot taken from [e0]. *)
Definition activeOn (e0 e : Element) : Prop :=
  hasState e = true
  /\ _normalState e = Some (snapshot e0)
  /\ states e = states e0
  /\ Forall (fun s => s <> PRESERVED_NORMAL_STATE) (currentStates e).

(** A call names a state the node defines, other than the reserved one. *)
Definition namesState (e : Element) (call : string * bool) : Prop :=
  is_Some (states e !! call.1) /\ call.1 <> PRESERVED_NORMAL_STATE.

(** A bar of a chart with its label: the bar has no [origin]; it defines the
    states "emphasis" and "select", the label defines "emphasis". *)
Definition barEl : Element :=
  mkElement
    [("position", VArr [10; 10]); ("scale", VArr [1; 1]);
     ("rotation", VNum 0); ("ignore", VBool false);
     ("textConfig", VObj [("position", VStr "inside")])]
    (DragBool false) None false None None None (Some 2%nat) 0 []
    (<["emphasis" := [("position", VArr [12; 10]);
                      ("textConfig", VObj [("distance", VNum 8)])]]>
       (<["select" := [("rotation", VNum 1); ("origin", VArr [5; 5])]]> ∅))
    None.

Definition barLabel : Element :=
  mkElement [("position", VArr [0; 0])] (DragBool false) None false
    None None None None 1 []
    (<["emphasis" := [("ignore", VBool true)]]> ∅) None.

Definition barWorld : World :=
  mkWorld (<[1%nat := barEl]> (<[2%nat := barLabel]> ∅))
    (<[0%nat := []]> (<[1%nat := []]> ∅)) ∅ ∅ ∅ [].

(** The bar above its label. *)
Definition barRank (x : nat) : nat := if Nat.eqb x 1 then 1%nat else 0%nat.

(** ** Host attachment *)

(** The clip and label relations are well founded, with [rk] decreasing
    along them, and lead to elements of the store; every element has its
    array of animators. *)
Definition attached_ranked (rk : nat -> nat) (w : World) : Prop :=
  forall x e, elems w !! x = Some e ->
    is_Some (arrays w !! animators e)
    /\ (forall c, _clipPath e = Some c ->
          (rk c < rk x)%nat /\ is_Some (elems w !! c))
    /\ (forall t, _textContent e = Some t ->
          (rk t < rk x)%nat /\ is_Some (elems w !! t)).

(** [y] is [x], or its clip path or label, or theirs, and so on. *)
Inductive below (w : World) : nat -> nat -> Prop :=
| below_refl x : below w x x
| below_clip x e c y :
    elems w !! x = Some e -> _clipPath e = Some c -> below w c y ->
    below w x y
| below_text x e t y :
    elems w !! x = Some e -> _textContent e = Some t -> below w t y ->
    below w x y.

(** [w'] is [w] with the host reference of some elements set to [zrv] and
    the schedulers changed; nothing else differs. *)
Definition marks (zrv : option nat) (w w' : World) : Prop :=
  arrays w' = arrays w /\ animS w' = animS w /\ counters w' = counters w
  /\ log w' = log w
  /\ (forall x e, elems w !! x = Some e ->
        elems w' !! x = Some e \/ elems w' !! x = Some (set_zr zrv e))
  /\ (forall x, elems w !! x = None -> elems w' !! x = None).

(** Element [y] refers to host [zr] and all its animators are registered
    with the scheduler of [zr]. *)
Definition attachedTo (zr : nat) (w : World) (y : nat) : Prop :=
  exists e l,
    elems w !! y = Some e /\ __zr e = Some zr
    /\ arrays w !! animators e = Some l
    /\ forall a, a ∈ l -> a ∈ registry w zr.

(** Element [y] refers to no host and none of its animators is registered
    with the scheduler of [zr]. *)
Definition detachedFrom (zr : nat) (w : World) (y : nat) : Prop :=
  exists e l,
    elems w !! y = Some e /\ __zr e = None
    /\ arrays w !! animators e = Some l
    /\ forall a, a ∈ l -> a ∉ registry w zr.

(** [w'] has the elements of [w], each with the label and the array of
    animators it had, and, except for [r], the clip path it had. *)
Definition sameLinks (r : nat) (w w' : World) : Prop :=
  (forall x e, elems w !! x = Some e ->
     exists e', elems w' !! x = Some e'
                /\ _textContent e' = _textContent e
                /\ animators e' = animators e
                /\ (x <> r -> _clipPath e' = _clipPath e))
  /\ (forall x, elems w !! x = None -> elems w' !! x = None).

(** Two groups on host 9 and a clip path; the first group has one animator,
    the clip path another. *)
Definition groupA : Element :=
  mkElement [] (DragBool false) None false None None None None 0 [] ∅ None.

Definition groupB : Element :=
  mkElement [] (DragBool false) None false (Some 9%nat) None None None 1 [] ∅
    None.

Definition clipC : Element :=
  mkElement [] (DragBool false) None false None None None None 2 [] ∅ None.

Definition clipWorld : World :=
  mkWorld (<[1%nat := groupA]> (<[2%nat := groupB]> (<[3%nat := clipC]> ∅)))
    (<[0%nat := [5%nat]]> (<[1%nat := []]> (<[2%nat := [6%nat]]> ∅)))
    ∅ ∅ ∅ [].

(** The groups above the clip path. *)
Definition clipRank (x : nat) : nat := if Nat.eqb x 3 then 0%nat else 1%nat.

(** The first group, with the clip path attached. *)
Definition clippedWorld : World :=
  set_elems (<[1%nat := set_clipPath (Some 3%nat) groupA]>
               (<[3%nat := set_clipTarget (Some 1%nat) clipC]>
                  (elems clipWorld))) clipWorld.

(** ** Animation *)

(** The loop of [animateToShallow] over the keys of a sub-object of the
    descriptor (a call with a non-empty [topKey]), as a function on the live
    sub-object [src]: the sub-object and the animatable keys it ends with, or
    the sub-object as it is when the nesting error is thrown. *)
Fixpoint scanNested (reverse : bool) (src : Obj) (entries : Obj)
  (acc : list string) : (Obj * list string) + Obj :=
  match entries with
  | [] => inl (src, acc)
  | (k, tv) :: rest =>
      if negb (isNull (oget k src)) then
        if isPlainObject tv then inr src
        else scanNested reverse src rest (acc ++ [k])
      else if negb (isNull tv) && negb reverse then
        scanNested reverse (oset k tv src) rest acc
      else scanNested reverse src rest acc
  end.

(** The swap of [animateFrom], on the live object and [reversedTarget]. *)
Fixpoint swapPure (target : Obj) (ks : list string) (src rt : Obj)
  : Obj * Obj :=
  match ks with
  | [] => (src, rt)
  | k :: ks' =>
      swapPure target ks' (oset k (oget k target) src) (oset k (oget k src) rt)
  end.

(** The object at [path] replaced by [src']. *)
Definition pset (path : list string) (src' : Obj) (o : Obj) : Obj :=
  match pmod path (fun _ => src') o with
  | Some o' => o'
  | None => o
  end.

(** Element [r] has the properties [p], its array of animators is [arr],
    and the array is in the store. *)
Definition Live (r arr : nat) (p : Obj) (w : World) : Prop :=
  exists e l,
    elems w !! r = Some e /\ props e = p /\ animators e = arr
    /\ arrays w !! arr = Some l.

(** The animators of [w] are in [w'], with the target, the keys and the end
    keyframe they had. *)
Definition animsKept (w w' : World) : Prop :=
  forall a x, animS w !! a = Some x ->
    exists x', animS w' !! a = Some x'
               /\ a_owner x' = a_owner x /\ a_path x' = a_path x
               /\ a_keys x' = a_keys x /\ a_end x' = a_end x.

(** The live sub-object and the end keyframe the part of
    [animateToShallow] after the loop leaves, for the sub-object [src'] and
    the animatable keys [ks] the loop ended with. *)
Definition nestedFinal (reverse : bool) (t src' : Obj) (ks : list string)
  : Obj :=
  if Nat.ltb 0 (length ks) && reverse then (swapPure t ks src' []).1
  else src'.

Definition nestedEnd (reverse : bool) (t src' : Obj) (ks : list string)
  : Obj :=
  keyframe (if reverse then (swapPure t ks src' []).2 else t) ks.

(** Element [r] owns, in [w'], an animator that [w] did not have, on the
    live object at [path], with the keys [ks] and the end keyframe
    [endFrame]. *)
Definition animatorFor (r : nat) (path : list string) (ks : list string)
  (endFrame : Obj) (w w' : World) : Prop :=
  exists a x,
    animS w !! a = None /\ animS w' !! a = Some x
    /\ a_owner x = r /\ a_path x = path /\ a_keys x = ks
    /\ a_end x = endFrame.

(** The keys a traversal of the descriptor [es] reads on a node with the
    properties [p] are names of data: no key of [es] is the name of a member
    of the node, no key of a sub-object of [es] is the name of a member of
    the value it sits on (a method of a built-in prototype; the length or an
    index of an array or a string), and no sub-object is under the empty key
    (under which [animateToShallow] takes the sub-object for a top-level
    descriptor again). *)
Definition dataKeys (p : Obj) (es : Obj) : bool :=
  forallb
    (fun kv =>
       negb (nodeMember kv.1)
       && match kv.2 with
          | VObj t =>
              negb (String.eqb kv.1 "")
              && forallb (fun kv2 => negb (memberOf (oget kv.1 p) kv2.1)) t
          | _ => true
          end) es.

(** A sub-object of the descriptor that sits on a primitive value: the
    value has no data property, and the first key with a value to assign
    makes the loop throw. *)
Definition assignsTo (reverse : bool) (es : Obj) : bool :=
  negb reverse && existsb (fun kv => negb (isNull kv.2)) es.

(** The errors of a traversal of the entries [es] against the properties
    [p]: the nesting error, or the error of an assignment, for a sub-object
    of [es] that has a value to assign and sits on a primitive value. *)
Definition raisedBy (reverse : bool) (p : Obj) (es : Obj) (msg : string)
  : Prop :=
  msg = nestingError
  \/ (msg = assignError
      /\ exists k t, In (k, VObj t) es
                     /\ isPrimitive (oget k p) = true
                     /\ assignsTo reverse t = true).

(** What the top-level loop of [animateToShallow] over the entries [es] has
    done when it returns: from the properties [p], the store [w] and the
    animatable keys [acc] to [p'], [w'] and [acc']. *)
Definition topPost (r : nat) (reverse : bool) (p : Obj) (w : World)
  (es : Obj) (acc : list string) (p' : Obj) (w' : World)
  (acc' : list string) : Prop :=
  animsKept w w'
  /\ (forall k, ~ In k (keys es) -> oget k p' = oget k p)
  /\ (forall k v, In (k, v) es -> isPlainObject v = false ->
        oget k p <> VNull -> In k acc' /\ oget k p' = oget k p)
  /\ (forall k t o, In (k, VObj t) es -> dataOf (oget k p) = Some o ->
        exists src' ks,
          scanNested reverse o t [] = inl (src', ks)
          /\ oget k p' = withData (oget k p) (nestedFinal reverse t src' ks)
          /\ (ks <> [] ->
              animatorFor r [k] ks (nestedEnd reverse t src' ks) w w'))
  /\ (forall k, In k acc' ->
        In k acc
        \/ exists v, In (k, v) es /\ isPlainObject v = false
                     /\ oget k p <> VNull)
  /\ (forall k, In k acc -> In k acc')
  /\ (NoDup acc -> (forall k, In k acc -> ~ In k (keys es)) -> NoDup acc').

(** A computation that, when it returns, has left the elements alone and
    kept the animators. *)
Definition quiet {A} (m : M A) : Prop :=
  forall w, match m w with
            | Ok _ w' => elems w' = elems w /\ animsKept w w'
            | _ => True
            end.


(** The live object and the part of the descriptor that meet at [path]: the
    node and the descriptor themselves, or a live object or array and the
    sub-object the descriptor has under the same key; [src] is the data of
    the live object. *)
Inductive meets (e : Element) (target : Obj)
  : list string -> Obj -> Obj -> Prop :=
| meets_top : meets e target [] target (props e)
| meets_sub k1 t src :
    In (k1, VObj t) target -> dataOf (oget k1 (props e)) = Some src ->
    meets e target [k1] t src.

(** The live object of [r] at [path] has value [v] under [k]. *)
Definition liveValue (w : World) (r : nat) (path : list string) (k : string)
  (v : value) : Prop :=
  exists e src,
    elems w !! r = Some e /\ pget path (props e) = Some src
    /\ oget k src = v.

(** A computation that leaves the arrays, the animators and the counters
    alone, whether it returns or throws. *)
Definition framed {A} (m : M A) : Prop :=
  forall w, match m w with
            | Ok _ w' | Raise _ w' =>
                arrays w' = arrays w /\ animS w' = animS w
                /\ counters w' = counters w
            | Abort _ => True
            end.

(** The array [arr] of node [r] in the middle of a traversal that began
    in the store [w0]: it holds the animators made since, each of them once;
    they are as [addAnimator] left them, and the live object of each is the
    node itself or the data of the value under a key in [Q]. *)
Definition pending (w0 : World) (r arr : nat) (Q : string -> Prop) (p : Obj)
  (w : World) : Prop :=
  exists l,
    arrays w !! arr = Some l /\ NoDup l
    /\ (forall a, animS w0 !! a = None -> is_Some (animS w !! a) -> In a l)
    /\ (forall a, In a l ->
          exists x,
            animS w !! a = Some x /\ animS w0 !! a = None
            /\ a_owner x = r /\ a_status x = Created
            /\ a_done x = [CbSplice arr a]
            /\ (a_path x = []
                \/ exists k d, a_path x = [k] /\ Q k
                               /\ dataOf (oget k p) = Some d)).

(** The error of [invoke], for a callback that is no function. *)
Definition callbackError : string := "TypeError: callback is not a function".

(** An animator the start loop of [animateTo] has started, and one that
    found nothing to animate there; [c] is the counter of the call. *)
Definition started (c : nat) (x : Animator) : Animator :=
  set_status Running (add_done (CbCountdown c) x).

Definition finished (c : nat) (x : Animator) : Animator :=
  set_status Finished (add_done (CbCountdown c) x).

(** Nothing to animate: the live object of [x], below the properties [p],
    has the end values of [x] already. *)
Definition settled (p : Obj) (x : Animator) : Prop :=
  exists cur,
    pget (a_path x) p = Some cur
    /\ forallb (fun k => value_eqb (oget k cur) (oget k (a_end x)))
         (a_keys x) = true.

(** The start loop of [animateTo] at work on the array [arr] of node [r],
    which held [l0] when the loop began, with the animators as in [A0].  The
    array now is [pre ++ suf]: the loop has been through [pre] and has [suf]
    before it.  An animator of [l0] is waiting in [suf]; or it is in [pre]
    and started; or it is in [pre] and still as it was, because an animator
    before it left the array when the index stood at it; or it has left the
    array, having found nothing to animate. *)
Definition loopInv (r arr c : nat) (e : Element) (A0 : gmap nat Animator)
  (l0 : list nat) (cb : Arg) (force : bool) (pre suf : list nat) (w : World)
  : Prop :=
  elems w !! r = Some e
  /\ arrays w !! arr = Some (pre ++ suf)
  /\ NoDup (pre ++ suf)
  /\ (exists cx, counters w !! c = Some cx /\ c_callback cx = cb)
  /\ (forall a, In a (pre ++ suf) -> In a l0)
  /\ (forall a x0, In a l0 -> A0 !! a = Some x0 ->
        (In a suf /\ animS w !! a = Some x0)
        \/ (In a pre /\ animS w !! a = Some (started c x0))
        \/ (In a pre /\ animS w !! a = Some x0 /\ force = false
            /\ exists b y0, In b l0 /\ A0 !! b = Some y0
                            /\ animS w !! b = Some (finished c y0))
        \/ (~ In a (pre ++ suf) /\ animS w !! a = Some (finished c x0)
            /\ force = false /\ settled (props e) x0)).


(** A node with a style, and descriptors for it. *)
Definition shapeEl : Element :=
  mkElement
    [("position", VArr [10; 10]);
     ("style", VObj [("fill", VStr "red"); ("opacity", VNum 1)])]
    (DragBool false) None true None None None None 0 [] ∅ None.

Definition shapeWorld : World :=
  mkWorld (<[1%nat := shapeEl]> ∅) (<[0%nat := []]> ∅) ∅ ∅ ∅ [].

(** The fill is already red; the position is not yet [[20, 20]]. *)
Definition sameFill : Obj :=
  [("style", VObj [("fill", VStr "red")]); ("position", VArr [20; 20])].



(** Element [r] is [e], its array of animators is in the store, and so are
    the animators in it. *)
Definition storeOk (w : World) (r : nat) (e : Element) : Prop :=
  elems w !! r = Some e
  /\ exists l, arrays w !! animators e = Some l
               /\ forall a, In a l -> is_Some (animS w !! a).

(** The store a computation leaves when it returns. *)
Definition resultOf (m : M unit) (w : World) : World :=
  match m w with
  | Ok _ w' => w'
  | _ => w
  end.

Definition sameFillResult : World :=
  resultOf (animateTo 1 sameFill AUndef AUndef AUndef (AFun 7) false)
    shapeWorld.

(** The host ticks the animators [l] to their end, one after the other. *)
Definition completeAll (l : list nat) : M unit := forM l animComplete.

(** The calls of callback [f] in a log. *)
Fixpoint callsOf (f : nat) (l : list Event) : nat :=
  match l with
  | [] => O
  | EvCallback g :: l' => ((if Nat.eqb g f then 1 else 0) + callsOf f l')%nat
  | _ :: l' => callsOf f l'
  end.
(** ** Vocabulary of the further properties *)

(** A call of the state API, and a sequence of them on one node. *)
Inductive StateCall :=
| CallUseState (stateName : string) (keep : bool)
| CallUseStates (names : list string)
| CallClearStates.

Definition runStateCall (fuel : nat) (r : nat) (c : StateCall) : M unit :=
  match c with
  | CallUseState n k => useState fuel r n k
  | CallUseStates names => useStates fuel r names
  | CallClearStates => clearStates fuel r
  end.

Definition runStateCalls (fuel : nat) (r : nat) (calls : list StateCall)
  : M unit :=
  forM calls (runStateCall fuel r).

(** The [useState] calls a call of the API comes down to. *)
Definition callSeq (c : StateCall) : list (string * bool) :=
  match c with
  | CallUseState n k => [(n, k)]
  | CallUseStates names => layered names
  | CallClearStates => [(PRESERVED_NORMAL_STATE, false)]
  end.

(** No name is followed by itself. *)
Fixpoint distinctNeighbours (l : list string) : bool :=
  match l with
  | [] => true
  | a :: l' =>
      match l' with
      | [] => true
      | b :: _ => negb (String.eqb a b) && distinctNeighbours l'
      end
  end.

(** The snapshot in force: the one taken at the last departure from normal,
    or, on a node in its normal state, the one the next departure takes. *)
Definition baseline (e : Element) : Obj :=
  if hasState e then default [] (_normalState e) else snapshot e.

(** A name the node defines as a state, other than the reserved one. *)
Definition definedState (e : Element) (s : string) : Prop :=
  is_Some (states e !! s) /\ s <> PRESERVED_NORMAL_STATE.

(** The events a call of [markRedraw] on [e] appends to the log. *)
Definition refreshOf (e : Element) : list Event :=
  match __zr e with
  | Some zr => [EvRefresh zr]
  | None => []
  end.

(** What the state API leaves alone on a node: the properties other than
    the five primary keys and [textConfig], the state definitions, and the
    references of the node. *)
Definition outsideStates (e e' : Element) : Prop :=
  (forall k, hasKey k PRIMARY_STATES_KEYS = false -> k <> "textConfig" ->
     getProp k e' = getProp k e)
  /\ states e' = states e
  /\ draggable e' = draggable e
  /\ transform e' = transform e
  /\ __zr e' = __zr e
  /\ _clipPath e' = _clipPath e
  /\ __clipTarget e' = __clipTarget e
  /\ _textContent e' = _textContent e
  /\ animators e' = animators e.

(** The matrix [drift] works on: the one of the node, or the identity it
    allocates when the node has none. *)
Definition matrixOf (e : Element) : Matrix :=
  match transform e with
  | Some m => m
  | None => identity
  end.

(** A node that is not draggable, with a matrix. *)
Definition fixedEl : Element :=
  mkElement [("position", VArr [3; 4])] (DragBool false)
    (Some (mkMatrix 2 0 0 2 3 4)) false None None None None 0 [] ∅ None.

Definition fixedWorld : World :=
  mkWorld {[ 1%nat := fixedEl ]} {[ 0%nat := [] ]} ∅ ∅ ∅ [].

(** The second group on host 9, holding element 3 as its clip path, and
    holding it as its label; the animator of element 3 is registered. *)
Definition heldClipWorld : World :=
  mkWorld
    (<[2%nat := set_clipPath (Some 3%nat) groupB]>
       (<[3%nat := set_clipTarget (Some 2%nat) (set_zr (Some 9%nat) clipC)]>
          ∅))
    (<[1%nat := []]> (<[2%nat := [6%nat]]> ∅)) ∅
    (<[9%nat := {[ 6%nat ]}]> ∅) ∅ [].

Definition labelledWorld : World :=
  mkWorld
    (<[2%nat := set_textContent (Some 3%nat) groupB]>
       (<[3%nat := set_zr (Some 9%nat) clipC]> ∅))
    (<[1%nat := []]> (<[2%nat := [6%nat]]> ∅)) ∅
    (<[9%nat := {[ 6%nat ]}]> ∅) ∅ [].

(** ** Invariants of a computation *)

(** [m] keeps [I]: from a store in [I], the store [m] returns, or the one
    it throws from, is in [I]. *)
Definition preserves (I : World -> Prop) {A} (m : M A) : Prop :=
  forall w, I w ->
    match m w with
    | Ok _ w' => I w'
    | Raise _ w' => I w'
    | Abort _ => True
    end.

(** The depth of nesting of a descriptor. *)
Fixpoint value_size (v : value) : nat :=
  match v with
  | VObj o =>
      S ((fix go (o : Obj) : nat :=
            match o with
            | [] => O
            | (_, u) :: o' => (value_size u + go o')%nat
            end) o)
  | _ => O
  end.

(** [animateTo] at work on node [r], from the store [w0] in which the array
    of the node held [l0]: the animators of [w0] are still in the store,
    those of [l0] stopped; the node has the array [arr], and what it holds
    are animators [w0] did not have. *)
Definition replacing (w0 : World) (l0 : list nat) (r arr : nat) (w : World)
  : Prop :=
  (forall a x, animS w0 !! a = Some x ->
     exists x', animS w !! a = Some x'
                /\ (In a l0 -> a_status x' = Stopped))
  /\ exists e l,
       elems w !! r = Some e /\ animators e = arr
       /\ arrays w !! arr = Some l
       /\ forall a, In a l -> animS w0 !! a = None.

(** A node in the middle of an animation of its position. *)
Definition movingAnimator : Animator :=
  mkAnimator 1 [] false ["position"] [("position", VArr [50; 50])]
    (ANum 300) (ANum 0) [""] [CbSplice 0 4] Running.

Definition movingWorld : World :=
  mkWorld (<[1%nat := shapeEl]> ∅) (<[0%nat := [4%nat]]> ∅)
    (<[4%nat := movingAnimator]> ∅) ∅ ∅ [].

Definition movingResult : World :=
  resultOf (animateTo 1 sameFill (ANum 300) AUndef AUndef AUndef false)
    movingWorld.

(** A descriptor with keys the node lacks: [lineWidth] in the style, and
    [cursor] on the node itself. *)
Definition withNew : Obj :=
  [("style", VObj [("lineWidth", VNum 2); ("fill", VStr "blue")]);
   ("cursor", VStr "pointer")].

Definition withNewResult : World :=
  resultOf (animateTo 1 withNew (ANum 300) AUndef AUndef AUndef false)
    shapeWorld.

Definition withNewFromResult : World :=
  resultOf (animateFrom 1 withNew (ANum 300) AUndef AUndef AUndef false)
    shapeWorld.

(** The array of animators of node [r] holds [l]; animator [a] has status
    [s]. *)
Definition arrayOf (w : World) (r : nat) (l : list nat) : Prop :=
  exists e, elems w !! r = Some e /\ arrays w !! animators e = Some l.

Definition statusOf (w : World) (a : nat) (s : AStatus) : Prop :=
  exists x, animS w !! a = Some x /\ a_status x = s.

(** * Properties *)

(** ** Objects *)

Lemma oget_oset_eq (k : string) (v : value) (o : Obj) :
  oget k (oset k v o) = v.
Proof.
  induction o as [|[k' v'] o IH]; simpl.
  - now rewrite String.eqb_refl.
  - destruct (String.eqb k k') eqn:E; simpl.
    + now rewrite String.eqb_refl.
    + now rewrite E.
Qed.

Lemma oget_oset_ne (k k' : string) (v : value) (o : Obj) :
  k <> k' -> oget k' (oset k v o) = oget k' o.
Proof.
  intros Hne. induction o as [|[k0 v0] o IH]; simpl.
  - destruct (String.eqb_spec k' k); [congruence | reflexivity].
  - destruct (String.eqb_spec k k0) as [->|Hk]; simpl.
    + destruct (String.eqb_spec k' k0); [congruence | reflexivity].
    + destruct (String.eqb_spec k' k0); [reflexivity | exact IH].
Qed.

Lemma oget_oset (k k' : string) (v : value) (o : Obj) :
  oget k' (oset k v o) = if String.eqb k k' then v else oget k' o.
Proof.
  destruct (String.eqb_spec k k') as [->|Hne].
  - apply oget_oset_eq.
  - now apply oget_oset_ne.
Qed.

(** ** The monad *)

Lemma bind_Ok {A B} (m : M A) (k : A -> M B) (w w' : World) (a : A) :
  m w = Ok a w' -> bind m k w = k a w'.
Proof. unfold bind. now intros ->. Qed.

Lemma getEl_Ok (r : nat) (w : World) (e : Element) :
  elems w !! r = Some e -> getEl r w = Ok e w.
Proof. unfold getEl. now intros ->. Qed.

Lemma modEl_Ok (r : nat) (f : Element -> Element) (w : World) (e : Element) :
  elems w !! r = Some e ->
  modEl r f w = Ok tt (set_elems (<[r := f e]> (elems w)) w).
Proof. intros H. unfold modEl. now rewrite (bind_Ok _ _ _ _ _ (getEl_Ok _ _ _ H)). Qed.

Lemma markRedraw_Ok (r : nat) (w : World) (e : Element) :
  elems w !! r = Some e ->
  markRedraw r w =
  Ok tt (set_log (log w ++ match __zr e with
                           | Some zr => [EvRefresh zr]
                           | None => []
                           end)
           (set_elems (<[r := set_dirty true e]> (elems w)) w)).
Proof.
  intros H. unfold markRedraw.
  rewrite (bind_Ok _ _ _ _ _ (modEl_Ok _ _ _ _ H)).
  erewrite bind_Ok by (apply getEl_Ok; simpl; apply lookup_insert_eq).
  simpl. destruct (__zr e); simpl.
  - reflexivity.
  - unfold ret. f_equal. unfold set_log; simpl. now rewrite app_nil_r.
Qed.

(** ** drift *)

Section DriftFacts.

Variable decomposeTransform : nat -> M unit.

(** The contract of the mixin's [decomposeTransform] (spec 4.1): it
    returns, and the matrix it decomposes is left as it is. *)
Hypothesis decompose_keeps_matrix :
  forall r w e, elems w !! r = Some e ->
    exists w' e', decomposeTransform r w = Ok tt w'
                  /\ elems w' !! r = Some e'
                  /\ transform e' = transform e.

(** C10.  With [draggable === "horizontal"], [drift(dx, dy)] adds [dx]
    to the horizontal translation entry of the matrix and leaves the
    vertical one as it is; with ["vertical"] it is the other way round.  A
    node without a matrix gets the identity matrix first.  The other four
    entries are not touched. *)
Theorem drift_axis_lock (w : World) (r : nat) (e : Element) (dx dy : Z) :
  elems w !! r = Some e ->
  exists w' e',
    drift decomposeTransform r dx dy w = Ok tt w'
    /\ elems w' !! r = Some e'
    /\ let m := match transform e with
                | Some m => m
                | None => identity
                end in
       (draggable e = DragMode "horizontal" ->
        transform e' =
        Some (mkMatrix (m0 m) (m1 m) (m2 m) (m3 m) (m4 m + dx) (m5 m)))
       /\ (draggable e = DragMode "vertical" ->
           transform e' =
           Some (mkMatrix (m0 m) (m1 m) (m2 m) (m3 m) (m4 m) (m5 m + dy))).
Proof.
  intros He. unfold drift.
  rewrite (bind_Ok _ _ _ _ _ (getEl_Ok _ _ _ He)).
  destruct (axisLock (draggable e) dx dy) as [dx' dy'] eqn:Hax.
  set (m := match transform e with Some m => m | None => identity end).
  set (e1 := set_transform (Some (translate m dx' dy')) e).
  set (w1 := set_elems (<[r := e1]> (elems w)) w).
  assert (H1 : elems w1 !! r = Some e1) by (simpl; apply lookup_insert_eq).
  destruct (decompose_keeps_matrix r w1 e1 H1) as (w2 & e2 & Hd & H2 & Ht).
  change (bind (setEl r e1) _ w) with
    (bind (decomposeTransform r) (fun _ => markRedraw r) w1).
  rewrite (bind_Ok _ _ _ _ _ Hd), (markRedraw_Ok _ _ _ H2).
  eexists _, _. split; [reflexivity|]. split.
  { simpl. apply lookup_insert_eq. }
  simpl. rewrite Ht. unfold e1, translate; simpl. split; intros Hdrag.
  - rewrite Hdrag in Hax. simpl in Hax. injection Hax as <- <-.
    now rewrite Z.add_0_r.
  - rewrite Hdrag in Hax. simpl in Hax. injection Hax as <- <-.
    now rewrite Z.add_0_r.
Qed.

End DriftFacts.

Lemma positionFromMatrix_keeps_matrix (r : nat) (w : World) (e : Element) :
  elems w !! r = Some e ->
  exists w' e', positionFromMatrix r w = Ok tt w'
                /\ elems w' !! r = Some e'
                /\ transform e' = transform e.
Proof.
  intros H. unfold positionFromMatrix. rewrite (modEl_Ok _ _ _ _ H).
  eexists _, _. split; [reflexivity|]. split.
  - simpl. apply lookup_insert_eq.
  - destruct (transform e) eqn:E; simpl; [exact E | exact E].
Defined.

Lemma drift_axis_lock_witness :
  exists w' e',
    drift positionFromMatrix 1 5 7 sliderWorld = Ok tt w'
    /\ elems w' !! 1%nat = Some e'
    /\ transform e' = Some (mkMatrix 1 0 0 1 5 0).
Proof.
  destruct (drift_axis_lock positionFromMatrix positionFromMatrix_keeps_matrix
              sliderWorld 1 sliderEl 5 7 eq_refl)
    as (w' & e' & Hrun & Hel & Hh & _).
  exists w', e'. split; [exact Hrun|]. split; [exact Hel|].
  apply Hh. reflexivity.
Defined.

(** ** The state overlay *)

Lemma saves_app (r : nat) (l1 l2 : list Event) :
  saves r (l1 ++ l2) = (saves r l1 + saves r l2)%nat.
Proof.
  induction l1 as [|ev l1 IH]; simpl; [reflexivity|].
  destruct ev; simpl; rewrite IH; lia.
Qed.

Lemma labels_ranked_insert rk (m : gmap nat Element) (r : nat) (e e' : Element) :
  labels_ranked rk m ->
  m !! r = Some e ->
  consistent e' ->
  _textContent e' = _textContent e ->
  labels_ranked rk (<[r := e']> m).
Proof.
  intros Hwf He Hc Ht x ex Hx.
  destruct (decide (r = x)) as [->|Hne].
  - rewrite lookup_insert_eq in Hx. injection Hx as <-.
    split; [exact Hc|]. rewrite Ht. intros t Hlt.
    destruct (Hwf x e He) as [_ Hl]. destruct (Hl t Hlt) as [Hrk Hin].
    split; [exact Hrk|].
    destruct (decide (x = t)) as [->|Hxt].
    + rewrite lookup_insert_eq. eauto.
    + now rewrite lookup_insert_ne.
  - rewrite lookup_insert_ne in Hx by exact Hne.
    destruct (Hwf x ex Hx) as [Hcx Hl]. split; [exact Hcx|].
    intros t Hlt. destruct (Hl t Hlt) as [Hrk Hin]. split; [exact Hrk|].
    destruct (decide (r = t)) as [->|Hrt].
    + rewrite lookup_insert_eq. eauto.
    + now rewrite lookup_insert_ne.
Qed.

(** *** [_applyStateObj] on an element that has a snapshot *)

Lemma set_props_set_props (p p' : Obj) (e : Element) :
  set_props p (set_props p' e) = set_props p e.
Proof. reflexivity. Qed.

Lemma set_props_id (e : Element) : set_props (props e) e = e.
Proof. now destruct e. Qed.

Lemma applyKeys_Ok (state : option Obj) (keep : bool) (n : Obj)
  (ks : list string) (e : Element) :
  _normalState e = Some n ->
  applyKeys state keep ks e =
  ElOk (set_props (fold_left (overlayKey n state keep) ks (props e)) e).
Proof.
  revert e. induction ks as [|k ks IH]; intros e Hn; simpl.
  - now rewrite set_props_id.
  - unfold applyKey, normalProp, overlayKey at 2. rewrite Hn.
    destruct (negb (isNull (stateProp state k))).
    + rewrite IH by exact Hn. reflexivity.
    + destruct (needsRestoreToNormal state keep).
      * rewrite IH by exact Hn. reflexivity.
      * now apply IH.
Qed.

Lemma _applyStateObj_Ok (state : option Obj) (keep : bool) (n : Obj)
  (e : Element) :
  _normalState e = Some n ->
  _applyStateObj state keep e =
  ElOk (set_props (overlay n state keep (props e)) e).
Proof.
  intros Hn. unfold _applyStateObj, applyTextConfig, overlay,
    overlayTextConfig, normalProp, getProp. rewrite Hn.
  destruct (truthy (stateProp state "textConfig")).
  - destruct keep; rewrite (applyKeys_Ok _ _ n) by exact Hn; reflexivity.
  - destruct (needsRestoreToNormal state keep).
    + rewrite (applyKeys_Ok _ _ n) by exact Hn. reflexivity.
    + now apply applyKeys_Ok.
Qed.

(** *** What [useState] does to [this] *)

(** A state the node defines is the one the lookup finds; the reserved
    name is found only if the node stores a state under it. *)
Lemma statesGet_Some (m : gmap string Obj) (name : string) (st : Obj) :
  m !! name = Some st -> statesGet m name = Some st.
Proof. intros H. unfold statesGet. now rewrite H. Qed.

Lemma statesGet_normal (m : gmap string Obj) :
  statesGet m PRESERVED_NORMAL_STATE = m !! PRESERVED_NORMAL_STATE.
Proof. unfold statesGet. now destruct (m !! PRESERVED_NORMAL_STATE). Qed.

Lemma hasState_updateStack (stateName : string) (keep : bool) (e : Element) :
  String.eqb stateName PRESERVED_NORMAL_STATE = false ->
  hasState (updateStack stateName keep e) = true.
Proof.
  intros Hn. unfold updateStack. rewrite Hn.
  destruct keep; simpl; [|reflexivity].
  unfold hasState; simpl. now destruct (currentStates e).
Qed.

Lemma useState_this_Ok (stateName : string) (keep : bool) (e : Element) :
  consistent e ->
  exists e', useState_this stateName keep e = ElOk e'
             /\ consistent e'
             /\ _textContent e' = _textContent e
             /\ states e' = states e.
Proof.
  intros Hc. unfold useState_this.
  destruct (negb (hasState e) && String.eqb stateName PRESERVED_NORMAL_STATE)
    eqn:Hskip.
  { exists e. auto. }
  set (e1 := if hasState e then e else set_normalState (Some (snapshot e)) e).
  assert (H1 : is_Some (_normalState e1)
                /\ _textContent e1 = _textContent e /\ states e1 = states e
                /\ (hasState e1 = hasState e)).
  { unfold e1. destruct (hasState e) eqn:Hs.
    - auto.
    - repeat split; simpl; eauto. }
  destruct H1 as ([n Hn] & Ht1 & Hst1 & Hh1).
  assert (Hc1 : consistent e1) by (intros _; eauto).
  destruct (stateNoChange stateName keep e1).
  { exists e1. auto. }
  destruct (bool_decide (statesGet (states e1) stateName = None)
            && negb (String.eqb stateName PRESERVED_NORMAL_STATE)).
  { exists e1. auto. }
  rewrite (_applyStateObj_Ok _ _ n) by exact Hn.
  eexists. split; [reflexivity|]. split.
  - intros _. unfold updateStack.
    destruct (String.eqb stateName PRESERVED_NORMAL_STATE);
      [|destruct keep]; simpl; rewrite Hn; eauto.
  - unfold updateStack.
    destruct (String.eqb stateName PRESERVED_NORMAL_STATE);
      [|destruct keep]; simpl; auto.
Qed.

Lemma saveStateToNormal_Ok (r : nat) (w : World) (e : Element) :
  elems w !! r = Some e ->
  saveStateToNormal r w =
  Ok tt (set_elems (<[r := set_normalState (Some (snapshot e)) e]> (elems w))
           (set_log (log w ++ [EvSaveNormal r]) w)).
Proof.
  intros H. unfold saveStateToNormal, emit, modify, bind at 1.
  now rewrite (modEl_Ok _ _ _ e) by exact H.
Qed.

Lemma onThis_Ok (r : nat) (f : Element -> elres) (w : World) (e e' : Element) :
  elems w !! r = Some e -> f e = ElOk e' ->
  onThis r f w = Ok tt (set_elems (<[r := e']> (elems w)) w).
Proof.
  intros H Hf. unfold onThis.
  rewrite (bind_Ok _ _ _ _ _ (getEl_Ok _ _ _ H)), Hf. reflexivity.
Qed.

(** One call of [useState], on a store whose label relation is well
    founded: the call returns, [this] is as [useState_this] says, nothing
    changes outside the labels below [this], and [saveStateToNormal] has
    run on [this] exactly when no state was active and the name is not the
    reserved one. *)
Lemma useState_sound rk (fuel : nat) :
  forall (r : nat) (stateName : string) (keep : bool) (w : World)
         (e e' : Element),
    labels_ranked rk (elems w) ->
    elems w !! r = Some e ->
    (rk r < fuel)%nat ->
    useState_this stateName keep e = ElOk e' ->
    exists w',
      useState fuel r stateName keep w = Ok tt w'
      /\ elems w' !! r = Some e'
      /\ labels_ranked rk (elems w')
      /\ (forall x, x <> r -> (rk r <= rk x)%nat ->
            elems w' !! x = elems w !! x
            /\ saves x (log w') = saves x (log w))
      /\ saves r (log w') =
         (saves r (log w)
          + if negb (hasState e)
               && negb (String.eqb stateName PRESERVED_NORMAL_STATE)
            then 1 else 0)%nat.
Proof.
  induction fuel as [|fuel IH]; intros r stateName keep w e e' Hwf He Hfuel Hthis;
    [lia|].
  cbn [useState]. rewrite (bind_Ok _ _ _ _ _ (getEl_Ok _ _ _ He)).
  unfold useState_this in Hthis.
  destruct (negb (hasState e) && String.eqb stateName PRESERVED_NORMAL_STATE)
    eqn:Hskip.
  { injection Hthis as <-. exists w. unfold ret.
    split; [reflexivity|]. split; [exact He|]. split; [exact Hwf|].
    split; [auto|].
    apply andb_prop in Hskip as [H1 H2]. rewrite H1, H2. simpl. lia. }
  (* the snapshot, when no state is active *)
  set (e1 := if hasState e then e
             else set_normalState (Some (snapshot e)) e) in Hthis.
  set (w1 := if hasState e then w
             else set_elems (<[r := e1]> (elems w))
                    (set_log (log w ++ [EvSaveNormal r]) w)).
  assert (Hsave : when (negb (hasState e)) (saveStateToNormal r) w = Ok tt w1).
  { unfold w1, e1. destruct (hasState e); simpl; [reflexivity|].
    now apply saveStateToNormal_Ok. }
  rewrite (bind_Ok _ _ _ _ _ Hsave).
  assert (He1 : elems w1 !! r = Some e1).
  { unfold w1, e1. destruct (hasState e); [exact He|].
    simpl. apply lookup_insert_eq. }
  assert (Hwf1 : labels_ranked rk (elems w1)).
  { unfold w1, e1. destruct (hasState e) eqn:Hs; [exact Hwf|]. simpl.
    apply (labels_ranked_insert rk _ r e); auto.
    intros _. simpl. eauto. }
  assert (Hfr1 : forall x, x <> r ->
            elems w1 !! x = elems w !! x
            /\ saves x (log w1) = saves x (log w)).
  { intros x Hx. unfold w1. destruct (hasState e); [auto|]. simpl. split.
    - now apply lookup_insert_ne.
    - rewrite saves_app. simpl.
      destruct (Nat.eqb_spec r x); [congruence|lia]. }
  assert (Hsv1 : saves r (log w1) =
                 (saves r (log w) + if hasState e then 0 else 1)%nat).
  { unfold w1. destruct (hasState e); simpl; [lia|].
    rewrite saves_app. simpl. now rewrite Nat.eqb_refl. }
  assert (Hcount : (if negb (hasState e)
                       && negb (String.eqb stateName PRESERVED_NORMAL_STATE)
                    then 1 else 0)%nat
                   = (if hasState e then 0 else 1)%nat).
  { destruct (hasState e); simpl in *; [reflexivity|]. now rewrite Hskip. }
  rewrite Hcount. clear Hcount.
  assert (Hn1 : exists n, _normalState e1 = Some n).
  { unfold e1. destruct (hasState e) eqn:Hs; simpl; [|eauto].
    destruct (Hwf r e He) as [Hc _]. destruct (Hc Hs) as [n Hn]. eauto. }
  destruct Hn1 as [n Hn1].
  rewrite (bind_Ok _ _ _ _ _ (getEl_Ok _ _ _ He1)).
  destruct (stateNoChange stateName keep e1).
  { injection Hthis as <-. exists w1. unfold ret.
    split; [reflexivity|]. split; [exact He1|]. split; [exact Hwf1|].
    split; [|exact Hsv1]. intros x Hx _. now apply Hfr1. }
  destruct (bool_decide (statesGet (states e1) stateName = None)
            && negb (String.eqb stateName PRESERVED_NORMAL_STATE)).
  { injection Hthis as <-. eexists. split; [reflexivity|]. simpl.
    split; [exact He1|]. split; [exact Hwf1|]. split.
    - intros x Hx _. destruct (Hfr1 x Hx) as [H1 H2]. split; [exact H1|].
      rewrite saves_app. simpl. lia.
    - rewrite saves_app. simpl. lia. }
  rewrite (_applyStateObj_Ok _ _ n) in Hthis by exact Hn1.
  injection Hthis as <-.
  set (e2 := set_props (overlay n (statesGet (states e1) stateName) keep (props e1)) e1).
  rewrite (bind_Ok _ _ _ _ _
             (onThis_Ok _ _ _ _ e2 He1 (_applyStateObj_Ok _ _ n _ Hn1))).
  set (w2 := set_elems (<[r := e2]> (elems w1)) w1).
  assert (He2 : elems w2 !! r = Some e2) by (simpl; apply lookup_insert_eq).
  assert (Hwf2 : labels_ranked rk (elems w2)).
  { simpl. apply (labels_ranked_insert rk _ r e1); auto.
    intros _. simpl. eauto. }
  rewrite (bind_Ok _ _ _ _ _ (getEl_Ok _ _ _ He2)).
  assert (Hlabel : exists w3,
            match _textContent e2 with
            | Some textEl => useState fuel textEl stateName false
            | None => ret tt
            end w2 = Ok tt w3
            /\ labels_ranked rk (elems w3)
            /\ elems w3 !! r = Some e2
            /\ (forall x, x <> r -> (rk r <= rk x)%nat ->
                  elems w3 !! x = elems w2 !! x)
            /\ (forall x, (rk r <= rk x)%nat ->
                  saves x (log w3) = saves x (log w2))).
  { destruct (_textContent e2) as [t|] eqn:Ht.
    - destruct (Hwf2 r e2 He2) as [_ Hl].
      destruct (Hl t Ht) as [Hrk [et Het]].
      destruct (Hwf2 t et Het) as [Hct _].
      destruct (useState_this_Ok stateName false et Hct) as (et' & Hthis' & _).
      destruct (IH t stateName false w2 et et' Hwf2 Het ltac:(lia) Hthis')
        as (w3 & Hrun & _ & Hwf3 & Hfr3 & _).
      exists w3. split; [exact Hrun|]. split; [exact Hwf3|].
      assert (Hrt : r <> t) by (intros ->; lia).
      split; [|split].
      + rewrite <- He2. apply Hfr3; [exact Hrt | lia].
      + intros x Hx Hle. apply Hfr3; [intros ->; lia | lia].
      + intros x Hle. apply Hfr3; [intros ->; lia | lia].
    - exists w2. unfold ret. auto. }
  destruct Hlabel as (w3 & Hrun3 & Hwf3 & He3 & Hfr3 & Hsv3).
  rewrite (bind_Ok _ _ _ _ _ Hrun3).
  rewrite (bind_Ok _ _ _ _ _ (modEl_Ok _ _ _ _ He3)).
  erewrite markRedraw_Ok by (simpl; apply lookup_insert_eq).
  eexists. split; [reflexivity|]. simpl.
  rewrite insert_insert_eq.
  split; [apply lookup_insert_eq|]. split.
  { apply (labels_ranked_insert rk _ r e2); auto.
    - intros _. unfold updateStack.
      destruct (String.eqb stateName PRESERVED_NORMAL_STATE);
        [|destruct keep]; simpl; eauto.
    - unfold updateStack.
      destruct (String.eqb stateName PRESERVED_NORMAL_STATE);
        [|destruct keep]; reflexivity. }
  split.
  - intros x Hx Hle. rewrite lookup_insert_ne by auto.
    rewrite (Hfr3 x Hx Hle). simpl. rewrite lookup_insert_ne by auto.
    destruct (Hfr1 x Hx) as [H1 H2]. split; [exact H1|].
    rewrite saves_app, (Hsv3 x Hle). simpl. rewrite H2.
    destruct (__zr (updateStack stateName keep e2)); simpl; lia.
  - rewrite saves_app, (Hsv3 r (le_n _)). simpl. rewrite Hsv1.
    destruct (__zr (updateStack stateName keep e2)); simpl; lia.
Qed.

Lemma useStateSeq_sound rk (fuel : nat) (r : nat) :
  forall (calls : list (string * bool)) (w : World) (e e' : Element),
    labels_ranked rk (elems w) ->
    elems w !! r = Some e ->
    (rk r < fuel)%nat ->
    useStates_this calls e = ElOk e' ->
    exists w',
      useStateSeq fuel r calls w = Ok tt w'
      /\ elems w' !! r = Some e'
      /\ labels_ranked rk (elems w').
Proof.
  induction calls as [|[n k] calls IH]; intros w e e' Hwf He Hfuel Hthis;
    simpl in *.
  - injection Hthis as <-. exists w. unfold ret. auto.
  - destruct (useState_this n k e) as [e1|] eqn:H1; [|discriminate].
    destruct (useState_sound rk fuel r n k w e e1 Hwf He Hfuel H1)
      as (w1 & Hrun & He1 & Hwf1 & _).
    rewrite (bind_Ok _ _ _ _ _ Hrun).
    now apply (IH w1 e1).
Qed.

Lemma useStates_this_Ok (calls : list (string * bool)) :
  forall e, consistent e ->
    exists e', useStates_this calls e = ElOk e' /\ consistent e'.
Proof.
  induction calls as [|[n k] calls IH]; intros e Hc; simpl.
  - eauto.
  - destruct (useState_this_Ok n k e Hc) as (e1 & -> & Hc1 & _).
    now apply IH.
Qed.

Lemma useStates_layered (fuel : nat) (r : nat) (names : list string) (w : World) :
  useStates fuel r names w = useStateSeq fuel r (layered names) w.
Proof.
  destruct names as [|n rest]; [reflexivity|]. simpl.
  unfold bind. destruct (useState fuel r n false w) as [[] w1| |]; try reflexivity.
  revert w1. induction rest as [|n' rest IH]; intros w1; simpl; [reflexivity|].
  unfold bind. destruct (useState fuel r n' true w1) as [[] w2| |]; try reflexivity.
  apply IH.
Qed.

(** *** The overlay, key by key *)

Lemma fold_overlayKey_get (n : Obj) (state : option Obj) (keep : bool)
  (k : string) (ks : list string) :
  forall p,
    oget k (fold_left (overlayKey n state keep) ks p) =
    if hasKey k ks then
      if negb (isNull (stateProp state k)) then stateProp state k
      else if needsRestoreToNormal state keep then oget k n
      else oget k p
    else oget k p.
Proof.
  unfold hasKey.
  induction ks as [|a ks IH]; intros p; simpl; [reflexivity|].
  rewrite IH. unfold overlayKey.
  destruct (String.eqb_spec k a) as [->|Hne]; simpl.
  - destruct (negb (isNull (stateProp state a)));
      [rewrite oget_oset_eq; now destruct (existsb _ ks)|].
    destruct (needsRestoreToNormal state keep);
      [rewrite oget_oset_eq; now destruct (existsb _ ks)|].
    now destruct (existsb _ ks).
  - assert (Hp : oget k (if negb (isNull (stateProp state a))
                         then oset a (stateProp state a) p
                         else if needsRestoreToNormal state keep
                              then oset a (oget a n) p else p) = oget k p).
    { destruct (negb (isNull (stateProp state a)));
        [apply oget_oset_ne; congruence|].
      destruct (needsRestoreToNormal state keep);
        [apply oget_oset_ne; congruence | reflexivity]. }
    now rewrite Hp.
Qed.

Lemma overlayTextConfig_get_ne (n : Obj) (state : option Obj) (keep : bool)
  (p : Obj) (k : string) :
  k <> "textConfig" ->
  oget k (overlayTextConfig n state keep p) = oget k p.
Proof.
  intros Hne. unfold overlayTextConfig.
  destruct (truthy (stateProp state "textConfig"));
    [apply oget_oset_ne; congruence|].
  destruct (needsRestoreToNormal state keep);
    [apply oget_oset_ne; congruence | reflexivity].
Qed.

Lemma overlay_primary (n : Obj) (state : option Obj) (keep : bool) (p : Obj)
  (k : string) :
  hasKey k PRIMARY_STATES_KEYS = true ->
  oget k (overlay n state keep p) =
  if negb (isNull (stateProp state k)) then stateProp state k
  else if needsRestoreToNormal state keep then oget k n
  else oget k p.
Proof.
  intros Hk. unfold overlay. rewrite fold_overlayKey_get, Hk.
  rewrite overlayTextConfig_get_ne; [reflexivity|].
  intros ->. discriminate Hk.
Qed.

Lemma overlay_textConfig (n : Obj) (state : option Obj) (keep : bool) (p : Obj) :
  oget "textConfig" (overlay n state keep p) =
  if truthy (stateProp state "textConfig") then
    VObj (extend (extend [] (if keep then oget "textConfig" p
                             else oget "textConfig" n))
            (stateProp state "textConfig"))
  else if needsRestoreToNormal state keep then oget "textConfig" n
  else oget "textConfig" p.
Proof.
  unfold overlay. rewrite fold_overlayKey_get.
  change (hasKey "textConfig" PRIMARY_STATES_KEYS) with false. cbv iota.
  unfold overlayTextConfig.
  destruct (truthy (stateProp state "textConfig")); [apply oget_oset_eq|].
  destruct (needsRestoreToNormal state keep); [apply oget_oset_eq|reflexivity].
Qed.

Lemma snapshot_primary (e : Element) (k : string) :
  hasKey k PRIMARY_STATES_KEYS = true ->
  oget k (snapshot e) =
  if String.eqb k "origin" then originOrDefault (getProp "origin" e)
  else getProp k e.
Proof.
  intros Hk. unfold hasKey in Hk. simpl in Hk.
  unfold snapshot, originOrDefault.
  repeat match type of Hk with
         | (String.eqb k ?s || _) = true =>
             let E := fresh "E" in
             destruct (String.eqb k s) eqn:E;
             [apply String.eqb_eq in E; subst k;
              rewrite !oget_oset; reflexivity
             | simpl in Hk]
         end.
  discriminate.
Qed.

Lemma snapshot_textConfig (e : Element) :
  oget "textConfig" (snapshot e) = getProp "textConfig" e.
Proof. unfold snapshot. rewrite !oget_oset. reflexivity. Qed.

(** *** Label configurations *)

Lemma oget_absent (k : string) (o : Obj) :
  hasKey k (keys o) = false -> oget k o = VNull.
Proof.
  unfold hasKey, keys. induction o as [|[k' v] o IH]; simpl; [reflexivity|].
  destruct (String.eqb k k'); simpl; [discriminate | exact IH].
Qed.

Lemma oget_extend_keys (k : string) (s : Obj) (ks : list string) :
  forall t,
    oget k (fold_left (fun t key => oset key (oget key s) t) ks t) =
    if hasKey k ks then oget k s else oget k t.
Proof.
  unfold hasKey. induction ks as [|a ks IH]; intros t; simpl; [reflexivity|].
  rewrite IH. destruct (String.eqb_spec k a) as [->|Hne]; simpl.
  - rewrite oget_oset_eq. now destruct (existsb _ ks).
  - rewrite oget_oset_ne by congruence. reflexivity.
Qed.

Lemma cfgGet_extend (k : string) (base cfg : value) :
  cfgGet k (VObj (extend (extend [] base) cfg)) =
  if cfgHas k cfg then cfgGet k cfg else cfgGet k base.
Proof.
  assert (Hb : oget k (extend [] base) = cfgGet k base).
  { destruct base; simpl; try reflexivity.
    rewrite oget_extend_keys. destruct (hasKey k (keys o)) eqn:E;
      [reflexivity|]. simpl. symmetry. now apply oget_absent. }
  destruct cfg; simpl; try exact Hb.
  rewrite oget_extend_keys. now rewrite Hb.
Qed.

Lemma cfgHas_falsy (k : string) (cfg : value) :
  truthy cfg = false -> cfgHas k cfg = false.
Proof. now destruct cfg. Qed.

(** *** One call, on [this] *)

Lemma useState_this_apply (stateName : string) (keep : bool) (e : Element)
  (n : Obj) :
  let e1 := if hasState e then e
            else set_normalState (Some (snapshot e)) e in
  _normalState e1 = Some n ->
  negb (hasState e) && String.eqb stateName PRESERVED_NORMAL_STATE = false ->
  stateNoChange stateName keep e1 = false ->
  bool_decide (statesGet (states e) stateName = None)
  && negb (String.eqb stateName PRESERVED_NORMAL_STATE) = false ->
  useState_this stateName keep e =
  ElOk (set_dirty true
          (updateStack stateName keep
             (set_props (overlay n (statesGet (states e) stateName) keep (props e))
                e1))).
Proof.
  intros e1 Hn Hskip Hnc Hdef. unfold useState_this. rewrite Hskip.
  fold e1. rewrite Hnc.
  assert (Hst : states e1 = states e) by (unfold e1; now destruct (hasState e)).
  assert (Hp : props e1 = props e) by (unfold e1; now destruct (hasState e)).
  rewrite Hst, Hdef, (_applyStateObj_Ok _ _ n) by exact Hn.
  now rewrite Hp.
Qed.

Lemma last_snoc_ne (l : list string) (s : string) :
  Forall (fun x => x <> s) l -> last l <> Some s.
Proof.
  intros H. destruct l as [|a l] using rev_ind; [discriminate|].
  rewrite last_snoc. apply Forall_app in H as [_ H].
  inversion H; subst. congruence.
Qed.

Lemma stateNoChange_empty (stateName : string) (keep : bool) (e : Element) :
  currentStates e = [] -> stateNoChange stateName keep e = false.
Proof. intros H. unfold stateNoChange, lastStateName. now rewrite H. Qed.

Lemma activeOn_updateStack (e0 e : Element) (stateName : string) (keep : bool)
  (p : Obj) :
  stateName <> PRESERVED_NORMAL_STATE ->
  _normalState e = Some (snapshot e0) ->
  states e = states e0 ->
  Forall (fun s => s <> PRESERVED_NORMAL_STATE) (currentStates e) ->
  activeOn e0 (set_dirty true (updateStack stateName keep (set_props p e))).
Proof.
  intros Hne Hn Hst Hall.
  assert (Hb : String.eqb stateName PRESERVED_NORMAL_STATE = false)
    by now apply String.eqb_neq.
  unfold activeOn, updateStack. rewrite Hb.
  destruct keep; simpl; (split; [|split; [exact Hn|split; [exact Hst|]]]).
  - unfold hasState; simpl. now destruct (currentStates e).
  - apply Forall_app. split; [exact Hall|]. now constructor.
  - reflexivity.
  - now constructor.
Qed.

Lemma useState_this_first (stateName : string) (keep : bool) (e : Element) :
  currentStates e = [] ->
  namesState e (stateName, keep) ->
  useState_this stateName keep e =
  ElOk (set_dirty true
          (updateStack stateName keep
             (set_props
                (overlay (snapshot e) (statesGet (states e) stateName) keep (props e))
                (set_normalState (Some (snapshot e)) e)))).
Proof.
  intros Hcs [[st Hst] Hne]. simpl in Hst, Hne.
  assert (Hh : hasState e = false) by (unfold hasState; now rewrite Hcs).
  assert (Hb : String.eqb stateName PRESERVED_NORMAL_STATE = false)
    by now apply String.eqb_neq.
  rewrite (useState_this_apply stateName keep e (snapshot e));
    rewrite ?Hh, ?Hb, ?(statesGet_Some _ _ _ Hst); try reflexivity.
  now apply stateNoChange_empty.
Qed.

Lemma useState_this_active (e0 : Element) (stateName : string) (keep : bool)
  (e : Element) :
  activeOn e0 e ->
  namesState e0 (stateName, keep) ->
  exists e', useState_this stateName keep e = ElOk e' /\ activeOn e0 e'.
Proof.
  intros (Hh & Hn & Hst & Hall) [[st Hdef] Hne]. simpl in Hdef, Hne.
  assert (Hb : String.eqb stateName PRESERVED_NORMAL_STATE = false)
    by now apply String.eqb_neq.
  destruct (stateNoChange stateName keep e) eqn:Hnc.
  - exists e. split; [|now repeat split].
    unfold useState_this. now rewrite Hh, Hnc.
  - eexists. split.
    + apply (useState_this_apply stateName keep e (snapshot e0));
        rewrite ?Hh, ?Hb, ?Hst, ?(statesGet_Some _ _ _ Hdef); auto.
    + rewrite Hh. now apply activeOn_updateStack.
Qed.

Lemma useStates_this_active (e0 : Element) (calls : list (string * bool)) :
  forall e,
    activeOn e0 e ->
    Forall (namesState e0) calls ->
    exists e', useStates_this calls e = ElOk e' /\ activeOn e0 e'.
Proof.
  induction calls as [|[n k] calls IH]; intros e Ha Hall; simpl.
  - eauto.
  - inversion Hall as [|? ? Hc Hrest]; subst.
    destruct (useState_this_active e0 n k e Ha Hc) as (e1 & -> & Ha1).
    now apply IH.
Qed.

Lemma useState_this_normal (e0 e : Element) :
  activeOn e0 e ->
  states e0 !! PRESERVED_NORMAL_STATE = None ->
  useState_this PRESERVED_NORMAL_STATE false e =
  ElOk (set_dirty true
          (set_currentStates []
             (set_props (overlay (snapshot e0) None false (props e)) e))).
Proof.
  intros (Hh & Hn & Hst & Hall) Hfree.
  rewrite (useState_this_apply _ false e (snapshot e0));
    rewrite ?Hh, ?Hst, ?statesGet_normal, ?Hfree; auto.
  unfold stateNoChange, lastStateName.
  rewrite bool_decide_eq_false_2; [reflexivity|]. now apply last_snoc_ne.
Qed.

Lemma useStates_this_app (c1 c2 : list (string * bool)) (e e1 : Element) :
  useStates_this c1 e = ElOk e1 ->
  useStates_this (c1 ++ c2) e = useStates_this c2 e1.
Proof.
  revert e. induction c1 as [|[n k] c1 IH]; intros e; simpl.
  - now intros [= ->].
  - destruct (useState_this n k e); [apply IH | discriminate].
Qed.

(** ** C1: the round trip through states *)

(** C1, as the code has it.  Take a node with no active state whose label
    relation is well founded and which stores no state under the reserved
    name.  After any sequence of [useState] calls naming states the node
    defines, followed by [useState(PRESERVED_NORMAL_STATE)], the calls
    return, no state is active, and [position], [scale], [rotation],
    [ignore] and the label configuration have the values they had before the
    first switch.  [origin] has its earlier value if it had one; an unset
    [origin] comes back as [[0, 0]], the default [saveStateToNormal] puts in
    the snapshot (when the sequence is empty nothing is touched). *)
Theorem state_round_trip rk (w : World) (r : nat) (e : Element)
  (calls : list (string * bool)) (fuel : nat) :
  labels_ranked rk (elems w) ->
  elems w !! r = Some e ->
  (rk r < fuel)%nat ->
  currentStates e = [] ->
  states e !! PRESERVED_NORMAL_STATE = None ->
  Forall (namesState e) calls ->
  exists w' e',
    useStateSeq fuel r (calls ++ [(PRESERVED_NORMAL_STATE, false)]) w
    = Ok tt w'
    /\ elems w' !! r = Some e'
    /\ currentStates e' = []
    /\ (forall k,
          hasKey k ["position"; "scale"; "rotation"; "ignore"; "textConfig"]
          = true -> getProp k e' = getProp k e)
    /\ getProp "origin" e' =
       match calls with
       | [] => getProp "origin" e
       | _ => originOrDefault (getProp "origin" e)
       end.
Proof.
  intros Hwf He Hfuel Hcs Hfree Hall.
  assert (Hh : hasState e = false) by (unfold hasState; now rewrite Hcs).
  destruct calls as [|[n k] calls].
  - (* straight to normal: nothing to do *)
    assert (Hthis : useStates_this [(PRESERVED_NORMAL_STATE, false)] e = ElOk e).
    { simpl. unfold useState_this. now rewrite Hh. }
    destruct (useStateSeq_sound rk fuel r _ w e e Hwf He Hfuel Hthis)
      as (w' & Hrun & He' & _).
    exists w', e. auto.
  - inversion Hall as [|? ? Hc Hrest]; subst.
    pose proof (useState_this_first n k e Hcs Hc) as H1.
    set (e1 := set_dirty true _) in H1.
    assert (Ha1 : activeOn e e1).
    { destruct Hc as [_ Hne]. apply activeOn_updateStack; simpl; auto.
      rewrite Hcs. constructor. }
    destruct (useStates_this_active e calls e1 Ha1 Hrest) as (e2 & H2 & Ha2).
    pose proof (useState_this_normal e e2 Ha2 Hfree) as H3.
    set (e3 := set_dirty true _) in H3.
    assert (Hthis : useStates_this
                      (((n, k) :: calls) ++ [(PRESERVED_NORMAL_STATE, false)]) e
                    = ElOk e3).
    { rewrite (useStates_this_app ((n, k) :: calls) _ e e2).
      - simpl. now rewrite H3.
      - simpl. now rewrite H1. }
    destruct (useStateSeq_sound rk fuel r _ w e e3 Hwf He Hfuel Hthis)
      as (w' & Hrun & He' & _).
    exists w', e3. split; [exact Hrun|]. split; [exact He'|].
    split; [reflexivity|]. unfold e3, getProp; simpl. split.
    + intros key Hkey. unfold hasKey in Hkey. simpl in Hkey.
      destruct (String.eqb key "textConfig") eqn:Htc.
      * apply String.eqb_eq in Htc. subst key.
        now rewrite overlay_textConfig, snapshot_textConfig.
      * assert (Hp : hasKey key PRIMARY_STATES_KEYS = true
                     /\ String.eqb key "origin" = false).
        { unfold hasKey. simpl.
          repeat match type of Hkey with
                 | (String.eqb key ?s || _) = true =>
                     let E := fresh "E" in
                     destruct (String.eqb key s) eqn:E;
                     [apply String.eqb_eq in E; subst key; now split
                     | simpl in Hkey]
                 end.
          discriminate. }
        destruct Hp as [Hp Ho].
        rewrite overlay_primary, snapshot_primary by exact Hp.
        simpl. now rewrite Ho.
    + rewrite overlay_primary, snapshot_primary by reflexivity.
      reflexivity.
Qed.

Lemma barWorld_ranked : labels_ranked barRank (elems barWorld).
Proof.
  intros x e Hx. simpl in Hx.
  destruct (decide (x = 1%nat)) as [->|H1].
  - rewrite lookup_insert_eq in Hx. injection Hx as <-. split.
    + intros Hs. discriminate Hs.
    + intros t [= <-]. split; [vm_compute; lia|].
      exists barLabel. reflexivity.
  - rewrite lookup_insert_ne in Hx by congruence.
    destruct (decide (x = 2%nat)) as [->|H2].
    + rewrite lookup_insert_eq in Hx. injection Hx as <-. split.
      * intros Hs. discriminate Hs.
      * intros t Ht. discriminate Ht.
    + rewrite lookup_insert_ne in Hx by congruence. discriminate Hx.
Defined.

Lemma state_round_trip_witness :
  exists w' e',
    useStateSeq 2 1
      ([("emphasis", false); ("select", true)]
       ++ [(PRESERVED_NORMAL_STATE, false)]) barWorld = Ok tt w'
    /\ elems w' !! 1%nat = Some e'
    /\ getProp "position" e' = VArr [10; 10]
    /\ getProp "origin" e' = VArr [0; 0].
Proof.
  destruct (state_round_trip barRank barWorld 1 barEl
              [("emphasis", false); ("select", true)] 2)
    as (w' & e' & Hrun & He' & _ & Hkeys & Horigin).
  - exact barWorld_ranked.
  - reflexivity.
  - vm_compute. lia.
  - reflexivity.
  - reflexivity.
  - repeat constructor; simpl; try discriminate; eexists; reflexivity.
  - exists w', e'. split; [exact Hrun|]. split; [exact He'|]. split.
    + now rewrite (Hkeys "position" eq_refl).
    + rewrite Horigin. reflexivity.
Defined.

(** C1 as stated fails on [origin]: the bar has none, and after
    [useState("emphasis")] and [useState(PRESERVED_NORMAL_STATE)] its
    [origin] is [[0, 0]]. *)
Lemma state_round_trip_origin_counterexample :
  exists w' e',
    useStateSeq 2 1 [("emphasis", false); (PRESERVED_NORMAL_STATE, false)]
      barWorld = Ok tt w'
    /\ elems w' !! 1%nat = Some e'
    /\ getProp "origin" barEl = VNull
    /\ getProp "origin" e' = VArr [0; 0]
    /\ getProp "origin" e' <> getProp "origin" barEl.
Proof.
  eexists _, _. split; [vm_compute; reflexivity|].
  split; [vm_compute; reflexivity|].
  split; [reflexivity|]. split; [reflexivity|]. discriminate.
Qed.

(** ** C2: layered states *)

Lemma cfgGet_layer (k : string) (base cfg : value) :
  cfgGet k (if truthy cfg then VObj (extend (extend [] base) cfg) else base) =
  if cfgHas k cfg then cfgGet k cfg else cfgGet k base.
Proof.
  destruct (truthy cfg) eqn:Ht.
  - apply cfgGet_extend.
  - now rewrite (cfgHas_falsy k cfg Ht).
Qed.

Lemma props_updateStack (s : string) (keep : bool) (e : Element) :
  props (updateStack s keep e) = props e.
Proof.
  unfold updateStack.
  destruct (String.eqb s PRESERVED_NORMAL_STATE); [|destruct keep]; reflexivity.
Qed.

Lemma stateNoChange_set_normalState (s : string) (keep : bool) (e : Element)
  (n : option Obj) :
  stateNoChange s keep (set_normalState n e) = stateNoChange s keep e.
Proof. reflexivity. Qed.

Lemma useState_this_found (s : string) (keep : bool) (e : Element)
  (st : Obj) :
  consistent e ->
  statesGet (states e) s = Some st ->
  s <> PRESERVED_NORMAL_STATE ->
  stateNoChange s keep e = false ->
  useState_this s keep e =
  ElOk (set_dirty true
          (updateStack s keep
             (set_props (overlay (baseline e) (Some st) keep (props e))
                (if hasState e then e
                 else set_normalState (Some (snapshot e)) e)))).
Proof.
  intros Hc Hst Hne Hnc.
  assert (Hb : String.eqb s PRESERVED_NORMAL_STATE = false)
    by now apply String.eqb_neq.
  rewrite (useState_this_apply s keep e (baseline e)); rewrite ?Hst, ?Hb.
  - reflexivity.
  - unfold baseline. destruct (hasState e) eqn:Hs; [|reflexivity].
    destruct (Hc Hs) as [n Hn]. now rewrite Hn.
  - apply andb_false_r.
  - destruct (hasState e); [exact Hnc|].
    now rewrite stateNoChange_set_normalState.
  - reflexivity.
Qed.

Lemma useState_this_defined (s : string) (keep : bool) (e : Element)
  (st : Obj) :
  consistent e ->
  states e !! s = Some st ->
  s <> PRESERVED_NORMAL_STATE ->
  stateNoChange s keep e = false ->
  useState_this s keep e =
  ElOk (set_dirty true
          (updateStack s keep
             (set_props (overlay (baseline e) (Some st) keep (props e))
                (if hasState e then e
                 else set_normalState (Some (snapshot e)) e)))).
Proof.
  intros Hc Hst. apply useState_this_found; [exact Hc|].
  now apply statesGet_Some.
Qed.

Lemma stateNoChange_single (s : string) (e : Element) :
  stateNoChange s false e = true -> currentStates e = [s].
Proof.
  unfold stateNoChange, lastStateName. intros H.
  apply andb_prop in H as [H1 H2]. apply bool_decide_eq_true in H1.
  simpl in H2. destruct (currentStates e) as [|a [|b l]]; try discriminate.
  simpl in H1. congruence.
Qed.

Lemma stateNoChange_keep (s : string) (e : Element) :
  stateNoChange s true e = bool_decide (lastStateName e = Some s).
Proof. unfold stateNoChange. simpl. apply andb_true_r. Qed.

Lemma getProp_applied (s : string) (keep : bool) (p : Obj) (e : Element)
  (k : string) :
  getProp k (set_dirty true (updateStack s keep (set_props p e))) = oget k p.
Proof.
  unfold getProp. simpl. now rewrite props_updateStack.
Qed.

Lemma currentStates_applied (s : string) (keep : bool) (p : Obj)
  (e : Element) :
  s <> PRESERVED_NORMAL_STATE ->
  currentStates
    (set_dirty true
       (updateStack s keep
          (set_props p (if hasState e then e
                        else set_normalState (Some (snapshot e)) e)))) =
  if keep then currentStates e ++ [s] else [s].
Proof.
  intros Hne. apply String.eqb_neq in Hne. unfold updateStack. rewrite Hne.
  destruct keep; simpl; now destruct (hasState e).
Qed.

(** C2, as the code has it.  Take a node (in a store whose label relation
    is well founded) that defines the states [a] and [b], and on which [a]
    is not the only active state.  [useStates([a, b])] returns and leaves
    every primary property at the value state [b] gives it, if [b] gives
    one; else at the value state [a] gives it, if [a] gives one; else at the
    value of the normal snapshot in force: the one stored when the node left
    its normal state or, on a node in its normal state, the one this switch
    takes.  The label configuration is layered in the same way, key by
    key. *)
Theorem layered_precedence rk (w : World) (r : nat) (e : Element)
  (a b : string) (sa sb : Obj) (fuel : nat) :
  labels_ranked rk (elems w) ->
  elems w !! r = Some e ->
  (rk r < fuel)%nat ->
  currentStates e <> [a] ->
  states e !! a = Some sa ->
  states e !! b = Some sb ->
  a <> PRESERVED_NORMAL_STATE ->
  b <> PRESERVED_NORMAL_STATE ->
  exists w' e',
    useStates fuel r [a; b] w = Ok tt w'
    /\ elems w' !! r = Some e'
    /\ (forall k, hasKey k PRIMARY_STATES_KEYS = true ->
          getProp k e' =
          if negb (isNull (oget k sb)) then oget k sb
          else if negb (isNull (oget k sa)) then oget k sa
          else oget k (baseline e))
    /\ (forall k,
          cfgGet k (getProp "textConfig" e') =
          if cfgHas k (oget "textConfig" sb)
          then cfgGet k (oget "textConfig" sb)
          else if cfgHas k (oget "textConfig" sa)
               then cfgGet k (oget "textConfig" sa)
               else cfgGet k (oget "textConfig" (baseline e))).
Proof.
  intros Hwf He Hfuel Hcs Hsa Hsb Hna Hnb.
  destruct (Hwf r e He) as [Hc _].
  assert (Hnc : stateNoChange a false e = false).
  { destruct (stateNoChange a false e) eqn:Hnc; [|reflexivity].
    now apply stateNoChange_single in Hnc. }
  pose proof (useState_this_defined a false e sa Hc Hsa Hna Hnc) as H1.
  set (p1 := overlay (baseline e) (Some sa) false (props e)) in H1.
  set (e1 := set_dirty true _) in H1.
  destruct (useState_this_Ok a false e Hc) as (e1' & H1' & Hc1 & _ & Hst1).
  assert (e1' = e1) by congruence. subst e1'.
  assert (Hcs1 : currentStates e1 = [a]).
  { unfold e1. now rewrite (currentStates_applied a false p1 e Hna). }
  assert (Hp1 : forall k, getProp k e1 = oget k p1).
  { intros k. unfold e1. apply getProp_applied. }
  (* the properties after the first call, key by key *)
  assert (Hk1 : forall k, hasKey k PRIMARY_STATES_KEYS = true ->
            oget k p1 = if negb (isNull (oget k sa)) then oget k sa
                        else oget k (baseline e)).
  { intros k Hk. unfold p1. now rewrite overlay_primary by exact Hk. }
  assert (Ht1 : forall k,
            cfgGet k (oget "textConfig" p1) =
            if cfgHas k (oget "textConfig" sa)
            then cfgGet k (oget "textConfig" sa)
            else cfgGet k (oget "textConfig" (baseline e))).
  { intros k. unfold p1. rewrite overlay_textConfig. simpl.
    apply cfgGet_layer. }
  assert (H2 : exists e2,
            useState_this b true e1 = ElOk e2
            /\ (forall k, hasKey k PRIMARY_STATES_KEYS = true ->
                  getProp k e2 =
                  if negb (isNull (oget k sb)) then oget k sb
                  else oget k p1)
            /\ (forall k,
                  cfgGet k (getProp "textConfig" e2) =
                  if cfgHas k (oget "textConfig" sb)
                  then cfgGet k (oget "textConfig" sb)
                  else cfgGet k (oget "textConfig" p1))).
  { destruct (stateNoChange b true e1) eqn:Hnc2.
    - (* the same name twice: the second call changes nothing *)
      assert (a = b).
      { rewrite stateNoChange_keep in Hnc2.
        apply bool_decide_eq_true in Hnc2.
        unfold lastStateName in Hnc2. rewrite Hcs1 in Hnc2.
        simpl in Hnc2. congruence. }
      subst b. assert (sb = sa) by congruence. subst sb.
      exists e1. split.
      { unfold useState_this.
        assert (Hh1 : hasState e1 = true)
          by (unfold hasState; now rewrite Hcs1).
        now rewrite Hh1, Hnc2. }
      split.
      + intros k Hk. rewrite Hp1, (Hk1 k Hk).
        now destruct (negb (isNull (oget k sa))).
      + intros k. rewrite Hp1, (Ht1 k).
        now destruct (cfgHas k (oget "textConfig" sa)).
    - assert (Hsb1 : states e1 !! b = Some sb) by now rewrite Hst1.
      rewrite (useState_this_defined b true e1 sb Hc1 Hsb1 Hnb Hnc2).
      eexists. split; [reflexivity|]. split.
      + intros k Hk. rewrite getProp_applied, overlay_primary by exact Hk.
        simpl. now rewrite <- Hp1.
      + intros k. rewrite getProp_applied, overlay_textConfig. simpl.
        rewrite <- Hp1. apply cfgGet_layer. }
  destruct H2 as (e2 & H2 & Hk2 & Ht2).
  assert (Hthis : useStates_this (layered [a; b]) e = ElOk e2).
  { simpl. now rewrite H1, H2. }
  destruct (useStateSeq_sound rk fuel r _ w e e2 Hwf He Hfuel Hthis)
    as (w' & Hrun & He' & _).
  exists w', e2. rewrite useStates_layered.
  split; [exact Hrun|]. split; [exact He'|]. split.
  - intros k Hk. rewrite (Hk2 k Hk), (Hk1 k Hk). reflexivity.
  - intros k. rewrite (Ht2 k), (Ht1 k). reflexivity.
Qed.

Lemma layered_precedence_witness :
  exists w' e',
    useStates 2 1 ["emphasis"; "select"] barWorld = Ok tt w'
    /\ elems w' !! 1%nat = Some e'
    /\ getProp "rotation" e' = VNum 1
    /\ getProp "position" e' = VArr [12; 10]
    /\ getProp "scale" e' = VArr [1; 1]
    /\ cfgGet "distance" (getProp "textConfig" e') = VNum 8
    /\ cfgGet "position" (getProp "textConfig" e') = VStr "inside".
Proof.
  destruct (layered_precedence barRank barWorld 1 barEl "emphasis" "select"
              [("position", VArr [12; 10]);
               ("textConfig", VObj [("distance", VNum 8)])]
              [("rotation", VNum 1); ("origin", VArr [5; 5])] 2)
    as (w' & e' & Hrun & He' & Hkeys & Hcfg).
  - exact barWorld_ranked.
  - reflexivity.
  - vm_compute. lia.
  - discriminate.
  - reflexivity.
  - reflexivity.
  - discriminate.
  - discriminate.
  - exists w', e'. split; [exact Hrun|]. split; [exact He'|].
    rewrite (Hkeys "rotation" eq_refl), (Hkeys "position" eq_refl),
      (Hkeys "scale" eq_refl), (Hcfg "distance"), (Hcfg "position").
    repeat split; reflexivity.
Defined.

(** C2 as stated fails on a node on which [a] alone is active: the first
    switch is then skipped, and [b] is layered over the node as it is.  The
    bar is switched to "emphasis" and then hidden; neither state gives a
    value to [ignore], and the snapshot has [false]; after
    [useStates(["emphasis", "select"])] the bar is still hidden. *)
Lemma layered_precedence_counterexample :
  exists w1 e1 w2 e2 sa sb,
    (useState 2 1 "emphasis" false ;; hide 1) barWorld = Ok tt w1
    /\ elems w1 !! 1%nat = Some e1
    /\ currentStates e1 = ["emphasis"]
    /\ states e1 !! "emphasis" = Some sa
    /\ states e1 !! "select" = Some sb
    /\ useStates 2 1 ["emphasis"; "select"] w1 = Ok tt w2
    /\ elems w2 !! 1%nat = Some e2
    /\ oget "ignore" sb = VNull
    /\ oget "ignore" sa = VNull
    /\ oget "ignore" (baseline e1) = VBool false
    /\ getProp "ignore" e2 = VBool true.
Proof.
  eexists _, _, _, _, _, _.
  split; [vm_compute; reflexivity|].
  split; [vm_compute; reflexivity|].
  split; [reflexivity|].
  split; [vm_compute; reflexivity|].
  split; [vm_compute; reflexivity|].
  split; [vm_compute; reflexivity|].
  split; [vm_compute; reflexivity|].
  repeat split; reflexivity.
Qed.

(** ** C6: a state that does not exist *)

(** C6, as the code has it.  Take a name the lookup [states[name]] does
    not find (no state of the node, and no name every object inherits),
    other than the reserved one, and let the call not be one that the
    no-change test ends at once (the name is the last active state, and
    [keepCurrentStates] is set or no other state is active).  Then
    [useState(name)] reports the error and returns.  The stack of active
    states, the properties (the label configuration among them) and every
    other field of the node are as before, with one exception: when no state
    was active the call has already run [saveStateToNormal], so
    [_normalState] holds a fresh snapshot.  No other element, array,
    animator or scheduler is touched. *)
Theorem useState_missing_state (w : World) (r : nat) (e : Element)
  (stateName : string) (keep : bool) (fuel : nat) :
  elems w !! r = Some e ->
  statesGet (states e) stateName = None ->
  stateName <> PRESERVED_NORMAL_STATE ->
  stateNoChange stateName keep e = false ->
  (0 < fuel)%nat ->
  exists w' e',
    useState fuel r stateName keep w = Ok tt w'
    /\ log w' =
       log w ++ (if hasState e then [] else [EvSaveNormal r])
       ++ [EvLogError ("State " +:+ stateName +:+ " not exists.")]
    /\ e' = set_normalState
              (if hasState e then _normalState e else Some (snapshot e)) e
    /\ elems w' = <[r := e']> (elems w)
    /\ currentStates e' = currentStates e
    /\ props e' = props e
    /\ arrays w' = arrays w /\ animS w' = animS w
    /\ sched w' = sched w /\ counters w' = counters w.
Proof.
  intros He Hst Hne Hnc Hfuel.
  destruct fuel as [|fuel]; [lia|].
  assert (Hb : String.eqb stateName PRESERVED_NORMAL_STATE = false)
    by now apply String.eqb_neq.
  cbn [useState]. rewrite (bind_Ok _ _ _ _ _ (getEl_Ok _ _ _ He)).
  rewrite Hb, andb_false_r.
  destruct (hasState e) eqn:Hh; simpl.
  - unfold ret, bind at 1. rewrite (bind_Ok _ _ _ _ _ (getEl_Ok _ _ _ He)).
    rewrite Hnc, Hst. simpl.
    eexists _, _. split; [reflexivity|]. simpl.
    split; [reflexivity|]. split; [reflexivity|]. split.
    + symmetry. apply insert_id. rewrite He. f_equal. now destruct e.
    + now repeat split.
  - rewrite (bind_Ok _ _ _ _ _ (saveStateToNormal_Ok _ _ _ He)).
    erewrite bind_Ok by (apply getEl_Ok; simpl; apply lookup_insert_eq).
    rewrite stateNoChange_set_normalState, Hnc.
    cbn [states set_normalState]. rewrite Hst. simpl.
    eexists _, _. split; [reflexivity|]. simpl.
    rewrite <- app_assoc. now repeat split.
Qed.

Lemma useState_missing_state_witness :
  exists w' e',
    useState 1 1 "hover" false barWorld = Ok tt w'
    /\ log w' = [EvSaveNormal 1; EvLogError "State hover not exists."]
    /\ elems w' = <[1%nat := e']> (elems barWorld)
    /\ currentStates e' = []
    /\ props e' = props barEl.
Proof.
  destruct (useState_missing_state barWorld 1 barEl "hover" false 1)
    as (w' & e' & Hrun & Hlog & _ & Hel & Hcs & Hp & _).
  - reflexivity.
  - reflexivity.
  - discriminate.
  - reflexivity.
  - lia.
  - exists w', e'. split; [exact Hrun|]. split; [exact Hlog|].
    split; [exact Hel|]. split; [exact Hcs | exact Hp].
Defined.

(** C6 as stated fails on "all other node state": the failed call on the
    bar, which had no snapshot, leaves one behind. *)
Lemma useState_missing_state_counterexample :
  exists w' e',
    useState 2 1 "hover" false barWorld = Ok tt w'
    /\ elems w' !! 1%nat = Some e'
    /\ states barEl !! "hover" = None
    /\ _normalState barEl = None
    /\ _normalState e' = Some (snapshot barEl)
    /\ e' <> barEl.
Proof.
  eexists _, _. split; [vm_compute; reflexivity|].
  split; [vm_compute; reflexivity|].
  repeat split; try reflexivity. discriminate.
Qed.

(** A name every object inherits is not missing: the bar defines no state
    "constructor", yet [useState("constructor")] reports nothing and
    leaves the name on the stack of active states, of the bar and of its
    label. *)
Example useState_inherited_name :
  exists w' e' et',
    useState 2 1 "constructor" false barWorld = Ok tt w'
    /\ states barEl !! "constructor" = None
    /\ elems w' !! 1%nat = Some e'
    /\ elems w' !! 2%nat = Some et'
    /\ currentStates e' = ["constructor"]
    /\ currentStates et' = ["constructor"]
    /\ log w' = [EvSaveNormal 1; EvSaveNormal 2].
Proof.
  eexists _, _, _. split; [vm_compute; reflexivity|].
  split; [reflexivity|].
  split; [vm_compute; reflexivity|].
  split; [vm_compute; reflexivity|].
  repeat split; reflexivity.
Qed.

(** A name that is missing, with another state below it on the stack: from
    the stack ["emphasis", "hover"], [useState("hover")] without
    [keepCurrentStates] is not ended by the no-change test, and reports the
    error. *)
Example useState_missing_last :
  exists w',
    useState 2 1 "hover" false
      (set_elems (<[1%nat := set_normalState (Some (snapshot barEl))
                               (set_currentStates ["emphasis"; "hover"]
                                  barEl)]> (elems barWorld)) barWorld)
    = Ok tt w'
    /\ log w' = [EvLogError "State hover not exists."].
Proof.
  eexists. split; vm_compute; reflexivity.
Qed.

(** ** C7: when the snapshot is taken *)

Lemma useState_this_normalState (stateName : string) (keep : bool)
  (e e' : Element) :
  consistent e ->
  useState_this stateName keep e = ElOk e' ->
  _normalState e' =
  (if negb (hasState e) && negb (String.eqb stateName PRESERVED_NORMAL_STATE)
   then Some (snapshot e) else _normalState e)
  /\ (negb (hasState e) && String.eqb stateName PRESERVED_NORMAL_STATE = true
      -> e' = e).
Proof.
  intros Hc. unfold useState_this.
  destruct (negb (hasState e) && String.eqb stateName PRESERVED_NORMAL_STATE)
    eqn:Hskip.
  { intros [= <-]. split; [|reflexivity].
    apply andb_prop in Hskip as [H1 H2]. now rewrite H2, andb_false_r. }
  set (e1 := if hasState e then e else set_normalState (Some (snapshot e)) e).
  assert (H1 : _normalState e1 =
               if negb (hasState e)
                  && negb (String.eqb stateName PRESERVED_NORMAL_STATE)
               then Some (snapshot e) else _normalState e).
  { unfold e1. destruct (hasState e); simpl in *; [reflexivity|].
    now rewrite Hskip. }
  assert (Hn : exists n, _normalState e1 = Some n).
  { unfold e1. destruct (hasState e) eqn:Hh; simpl; [|eauto].
    destruct (Hc Hh) as [n Hn]. eauto. }
  destruct Hn as [n Hn].
  destruct (stateNoChange stateName keep e1);
    [intros [= <-]; split; [exact H1 | discriminate]|].
  destruct (bool_decide (statesGet (states e1) stateName = None)
            && negb (String.eqb stateName PRESERVED_NORMAL_STATE));
    [intros [= <-]; split; [exact H1 | discriminate]|].
  rewrite (_applyStateObj_Ok _ _ n) by exact Hn.
  intros [= <-]. split; [|discriminate].
  rewrite <- H1. unfold updateStack.
  destruct (String.eqb stateName PRESERVED_NORMAL_STATE); [|destruct keep];
    reflexivity.
Qed.

(** C7, as the code has it.  After any sequence [pre] of [useState] calls
    ([useStates] and [clearStates] are such sequences, see
    [useStates_layered]), the next call runs [saveStateToNormal] on the node
    exactly when no state is active and the name is not the reserved one;
    the snapshot it leaves is that of the properties as they were before the
    state is applied.  While a state is active the call neither runs it nor
    changes [_normalState].  So the snapshot is taken again at each departure
    from normal, and at each failed one, but never while a state is
    active. *)
Theorem snapshot_capture rk (w : World) (r : nat) (e : Element)
  (pre : list (string * bool)) (stateName : string) (keep : bool)
  (fuel : nat) :
  labels_ranked rk (elems w) ->
  elems w !! r = Some e ->
  (rk r < fuel)%nat ->
  exists w1 e1 w2 e2,
    useStateSeq fuel r pre w = Ok tt w1
    /\ elems w1 !! r = Some e1
    /\ useState fuel r stateName keep w1 = Ok tt w2
    /\ elems w2 !! r = Some e2
    /\ (hasState e1 = true ->
        _normalState e2 = _normalState e1
        /\ saves r (log w2) = saves r (log w1))
    /\ (hasState e1 = false -> stateName <> PRESERVED_NORMAL_STATE ->
        _normalState e2 = Some (snapshot e1)
        /\ saves r (log w2) = S (saves r (log w1)))
    /\ (hasState e1 = false -> stateName = PRESERVED_NORMAL_STATE ->
        e2 = e1 /\ saves r (log w2) = saves r (log w1)).
Proof.
  intros Hwf He Hfuel.
  destruct (Hwf r e He) as [Hc _].
  destruct (useStates_this_Ok pre e Hc) as (e1 & Hpre & _).
  destruct (useStateSeq_sound rk fuel r pre w e e1 Hwf He Hfuel Hpre)
    as (w1 & Hrun1 & He1 & Hwf1).
  destruct (Hwf1 r e1 He1) as [Hc1 _].
  destruct (useState_this_Ok stateName keep e1 Hc1) as (e2 & Hthis & _).
  destruct (useState_sound rk fuel r stateName keep w1 e1 e2 Hwf1 He1 Hfuel Hthis)
    as (w2 & Hrun2 & He2 & _ & _ & Hsaves).
  destruct (useState_this_normalState stateName keep e1 e2 Hc1 Hthis)
    as [Hn Hsame].
  exists w1, e1, w2, e2.
  split; [exact Hrun1|]. split; [exact He1|]. split; [exact Hrun2|].
  split; [exact He2|]. split; [|split].
  - intros Hh. rewrite Hh in Hn, Hsaves. simpl in Hn, Hsaves.
    split; [exact Hn | lia].
  - intros Hh Hne. apply String.eqb_neq in Hne.
    rewrite Hh, Hne in Hn, Hsaves. simpl in Hn, Hsaves.
    split; [exact Hn | lia].
  - intros Hh ->. rewrite Hh, String.eqb_refl in Hn, Hsaves, Hsame.
    simpl in Hsaves. split; [now apply Hsame | lia].
Qed.

Lemma snapshot_capture_witness :
  exists w1 e1 w2 e2,
    useStateSeq 2 1 [("emphasis", false)] barWorld = Ok tt w1
    /\ elems w1 !! 1%nat = Some e1
    /\ useState 2 1 "select" true w1 = Ok tt w2
    /\ elems w2 !! 1%nat = Some e2
    /\ (hasState e1 = true ->
        _normalState e2 = _normalState e1
        /\ saves 1 (log w2) = saves 1 (log w1)).
Proof.
  destruct (snapshot_capture barRank barWorld 1 barEl [("emphasis", false)]
              "select" true 2)
    as (w1 & e1 & w2 & e2 & H1 & H2 & H3 & H4 & H5 & _).
  - exact barWorld_ranked.
  - reflexivity.
  - vm_compute. lia.
  - exists w1, e1, w2, e2. auto.
Defined.

(** C7 as stated fails on "exactly once": the bar leaves normal, is cleared,
    and leaves normal again; [saveStateToNormal] has run twice. *)
Lemma snapshot_capture_counterexample :
  exists w',
    (useState 2 1 "emphasis" false ;;
     clearStates 2 1 ;;
     useState 2 1 "emphasis" false) barWorld = Ok tt w'
    /\ saves 1 (log w') = 2%nat.
Proof.
  eexists. split; vm_compute; reflexivity.
Qed.

(** ** Attaching to a host and detaching from it *)

Lemma marks_refl (zrv : option nat) (w : World) : marks zrv w w.
Proof. unfold marks. repeat split; auto. Qed.

Lemma marks_trans (zrv : option nat) (w1 w2 w3 : World) :
  marks zrv w1 w2 -> marks zrv w2 w3 -> marks zrv w1 w3.
Proof.
  intros (A1 & B1 & C1 & D1 & E1 & F1) (A2 & B2 & C2 & D2 & E2 & F2).
  unfold marks. repeat split; try congruence.
  - intros x e Hx. destruct (E1 x e Hx) as [H|H].
    + exact (E2 x e H).
    + destruct (E2 x _ H) as [H'|H']; right; exact H'.
  - intros x Hx. auto.
Qed.

Lemma marks_set_zr (zrv : option nat) (w : World) (r : nat) (e : Element) :
  elems w !! r = Some e ->
  marks zrv w (set_elems (<[r := set_zr zrv e]> (elems w)) w).
Proof.
  intros He. unfold marks; simpl. repeat split; auto.
  - intros x ex Hx. destruct (decide (r = x)) as [->|Hne].
    + right. rewrite lookup_insert_eq. congruence.
    + left. now rewrite lookup_insert_ne.
  - intros x Hx. rewrite lookup_insert_ne; [exact Hx|]. congruence.
Qed.

Lemma marks_lookup (zrv : option nat) (w w' : World) (x : nat) (e : Element) :
  marks zrv w w' -> elems w !! x = Some e ->
  exists e', elems w' !! x = Some e'
             /\ (e' = e \/ e' = set_zr zrv e)
             /\ _clipPath e' = _clipPath e
             /\ _textContent e' = _textContent e
             /\ animators e' = animators e.
Proof.
  intros (_ & _ & _ & _ & E & _) Hx.
  destruct (E x e Hx) as [H|H]; eexists; (split; [exact H|]); auto.
Qed.

Lemma marks_ranked rk (zrv : option nat) (w w' : World) :
  marks zrv w w' -> attached_ranked rk w -> attached_ranked rk w'.
Proof.
  intros Hm Hwf x e' Hx'.
  destruct (elems w !! x) as [e|] eqn:Hx.
  - destruct (marks_lookup zrv w w' x e Hm Hx) as (e2 & Hx2 & _ & Hc & Ht & Ha).
    rewrite Hx' in Hx2. injection Hx2 as <-.
    destruct (Hwf x e Hx) as (Harr & Hclip & Htext).
    pose proof Hm as (A & _). rewrite Hc, Ht, Ha, A.
    split; [exact Harr|]. split.
    + intros c Hcc. destruct (Hclip c Hcc) as [Hrk [ec Hec]].
      split; [exact Hrk|].
      destruct (marks_lookup zrv w w' c ec Hm Hec) as (ec' & Hec' & _); eauto.
    + intros t Htt. destruct (Htext t Htt) as [Hrk [et Het]].
      split; [exact Hrk|].
      destruct (marks_lookup zrv w w' t et Hm Het) as (et' & Het' & _); eauto.
  - destruct Hm as (_ & _ & _ & _ & _ & F). rewrite (F x Hx) in Hx'.
    discriminate.
Qed.

Lemma marks_below (zrv : option nat) (w w' : World) (x y : nat) :
  marks zrv w w' -> below w x y -> below w' x y.
Proof.
  intros Hm Hb. induction Hb as [x|x e c y He Hc _ IH|x e t y He Ht _ IH].
  - constructor.
  - destruct (marks_lookup zrv w w' x e Hm He) as (e' & He' & _ & Hc' & _).
    apply (below_clip w' x e' c y); congruence.
  - destruct (marks_lookup zrv w w' x e Hm He) as (e' & He' & _ & _ & Ht' & _).
    apply (below_text w' x e' t y); congruence.
Qed.

Lemma attachedTo_stable (zr : nat) (w w' : World) (y : nat) :
  marks (Some zr) w w' ->
  registry w zr ⊆ registry w' zr ->
  attachedTo zr w y -> attachedTo zr w' y.
Proof.
  intros Hm Hreg (e & l & He & Hz & Hl & Hin).
  destruct (marks_lookup _ w w' y e Hm He) as (e' & He' & Hor & _ & _ & Ha).
  exists e', l. split; [exact He'|]. split.
  - destruct Hor as [->| ->]; [exact Hz | reflexivity].
  - destruct Hm as (A & _). rewrite Ha, A. split; [exact Hl|].
    intros a Hal. apply Hreg. now apply Hin.
Qed.

Lemma detachedFrom_stable (zr : nat) (w w' : World) (y : nat) :
  marks None w w' ->
  registry w' zr ⊆ registry w zr ->
  detachedFrom zr w y -> detachedFrom zr w' y.
Proof.
  intros Hm Hreg (e & l & He & Hz & Hl & Hin).
  destruct (marks_lookup _ w w' y e Hm He) as (e' & He' & Hor & _ & _ & Ha).
  exists e', l. split; [exact He'|]. split.
  - destruct Hor as [->| ->]; [exact Hz | reflexivity].
  - destruct Hm as (A & _). rewrite Ha, A. split; [exact Hl|].
    intros a Hal Hr. apply (Hin a Hal). now apply Hreg.
Qed.

Lemma registerAll (zr : nat) (l : list nat) :
  forall w, exists w',
    forM l (fun a => schedAdd zr a) w = Ok tt w'
    /\ elems w' = elems w /\ marks (Some zr) w w'
    /\ registry w' zr = list_to_set l ∪ registry w zr.
Proof.
  induction l as [|a l IH]; intros w; simpl.
  - exists w. unfold ret. split; [reflexivity|]. split; [reflexivity|].
    split; [apply marks_refl|]. set_solver.
  - unfold bind at 1, schedAdd, modify.
    destruct (IH (set_sched (<[zr := {[a]} ∪ registry w zr]> (sched w)) w))
      as (w' & Hrun & Hel & Hm & Hreg).
    exists w'. split; [exact Hrun|]. split; [exact Hel|]. split.
    + eapply marks_trans; [|exact Hm]. unfold marks; simpl.
      repeat split; auto.
    + rewrite Hreg. unfold registry at 1; simpl.
      rewrite lookup_insert_eq. set_solver.
Qed.

Lemma deregisterAll (zr : nat) (l : list nat) :
  forall w, exists w',
    forM l (fun a => schedRemove zr a) w = Ok tt w'
    /\ elems w' = elems w /\ marks None w w'
    /\ registry w' zr = registry w zr ∖ list_to_set l.
Proof.
  induction l as [|a l IH]; intros w; simpl.
  - exists w. unfold ret. split; [reflexivity|]. split; [reflexivity|].
    split; [apply marks_refl|]. set_solver.
  - unfold bind at 1, schedRemove, modify.
    destruct (IH (set_sched (<[zr := registry w zr ∖ {[a]}]> (sched w)) w))
      as (w' & Hrun & Hel & Hm & Hreg).
    exists w'. split; [exact Hrun|]. split; [exact Hel|]. split.
    + eapply marks_trans; [|exact Hm]. unfold marks; simpl.
      repeat split; auto.
    + rewrite Hreg. unfold registry at 1; simpl.
      rewrite lookup_insert_eq. set_solver.
Qed.

Lemma getArr_Ok (arr : nat) (w : World) (l : list nat) :
  arrays w !! arr = Some l -> getArr arr w = Ok l w.
Proof. unfold getArr. now intros ->. Qed.

(** [addSelfToZr] returns on a well-founded store, and leaves the element
    and everything below it attached to the host. *)
Lemma addSelfToZr_spec rk (zr : nat) (fuel : nat) :
  forall (r : nat) (w : World) (e : Element),
    attached_ranked rk w ->
    elems w !! r = Some e ->
    (rk r < fuel)%nat ->
    exists w',
      addSelfToZr fuel r zr w = Ok tt w'
      /\ marks (Some zr) w w'
      /\ registry w zr ⊆ registry w' zr
      /\ forall y, below w r y -> attachedTo zr w' y.
Proof.
  induction fuel as [|fuel IH]; intros r w e Hwf He Hfuel; [lia|].
  cbn [addSelfToZr].
  rewrite (bind_Ok _ _ _ _ _ (modEl_Ok _ _ _ _ He)).
  set (e1 := set_zr (Some zr) e).
  set (w1 := set_elems (<[r := e1]> (elems w)) w).
  assert (He1 : elems w1 !! r = Some e1) by (simpl; apply lookup_insert_eq).
  assert (Hm1 : marks (Some zr) w w1) by now apply marks_set_zr.
  rewrite (bind_Ok _ _ _ _ _ (getEl_Ok _ _ _ He1)).
  destruct (Hwf r e He) as ([l Hl] & Hclip & Htext).
  rewrite (bind_Ok _ _ _ _ l (getArr_Ok _ w1 l Hl)).
  destruct (registerAll zr l w1) as (w2 & Hrun2 & Hel2 & Hm2 & Hreg2).
  rewrite (bind_Ok _ _ _ _ _ Hrun2).
  assert (He2 : elems w2 !! r = Some e1) by now rewrite Hel2.
  assert (Hm02 : marks (Some zr) w w2) by (eapply marks_trans; eauto).
  assert (Hr02 : registry w zr ⊆ registry w2 zr).
  { rewrite Hreg2. unfold registry. simpl. set_solver. }
  assert (Hat2 : attachedTo zr w2 r).
  { exists e1, l. split; [exact He2|]. split; [reflexivity|].
    destruct Hm02 as (A & _). rewrite A. split; [exact Hl|].
    intros a Ha. rewrite Hreg2. set_solver. }
  rewrite (bind_Ok _ _ _ _ _ (getEl_Ok _ _ _ He2)).
  (* the clip path *)
  assert (Hc : exists w3,
            match _clipPath e1 with
            | Some c => addSelfToZr fuel c zr
            | None => ret tt
            end w2 = Ok tt w3
            /\ marks (Some zr) w2 w3
            /\ registry w2 zr ⊆ registry w3 zr
            /\ forall c y, _clipPath e = Some c -> below w c y ->
                 attachedTo zr w3 y).
  { change (_clipPath e1) with (_clipPath e).
    destruct (_clipPath e) as [c|] eqn:Hcp.
    - destruct (Hclip c eq_refl) as [Hrk [ec Hec]].
      destruct (marks_lookup _ w w2 c ec Hm02 Hec) as (ec2 & Hec2 & _).
      destruct (IH c w2 ec2 (marks_ranked rk _ w w2 Hm02 Hwf) Hec2 ltac:(lia))
        as (w3 & Hrun & Hm & Hreg & Hbelow).
      exists w3. split; [exact Hrun|]. split; [exact Hm|].
      split; [exact Hreg|]. intros c' y [= <-] Hb.
      apply Hbelow. now apply (marks_below (Some zr) w w2).
    - exists w2. unfold ret. split; [reflexivity|].
      split; [apply marks_refl|]. split; [set_solver|]. discriminate. }
  destruct Hc as (w3 & Hrun3 & Hm3 & Hr3 & Hb3).
  rewrite (bind_Ok _ _ _ _ _ Hrun3).
  assert (Hm03 : marks (Some zr) w w3) by (eapply marks_trans; eauto).
  destruct (marks_lookup _ w2 w3 r e1 Hm3 He2) as (e3 & He3 & _ & _ & Ht3 & _).
  rewrite (bind_Ok _ _ _ _ _ (getEl_Ok _ _ _ He3)).
  (* the label *)
  assert (Ht : exists w4,
            match _textContent e3 with
            | Some t => addSelfToZr fuel t zr
            | None => ret tt
            end w3 = Ok tt w4
            /\ marks (Some zr) w3 w4
            /\ registry w3 zr ⊆ registry w4 zr
            /\ forall t y, _textContent e = Some t -> below w t y ->
                 attachedTo zr w4 y).
  { rewrite Ht3. change (_textContent e1) with (_textContent e).
    destruct (_textContent e) as [t|] eqn:Htc.
    - destruct (Htext t eq_refl) as [Hrk [et Het]].
      destruct (marks_lookup _ w w3 t et Hm03 Het) as (et3 & Het3 & _).
      destruct (IH t w3 et3 (marks_ranked rk _ w w3 Hm03 Hwf) Het3 ltac:(lia))
        as (w4 & Hrun & Hm & Hreg & Hbelow).
      exists w4. split; [exact Hrun|]. split; [exact Hm|].
      split; [exact Hreg|]. intros t' y [= <-] Hb.
      apply Hbelow. now apply (marks_below (Some zr) w w3).
    - exists w3. unfold ret. split; [reflexivity|].
      split; [apply marks_refl|]. split; [set_solver|]. discriminate. }
  destruct Ht as (w4 & Hrun4 & Hm4 & Hr4 & Hb4).
  exists w4. split; [exact Hrun4|].
  split; [eapply marks_trans; eauto|]. split; [set_solver|].
  intros y Hb. inversion Hb as [|x ex c y' Hx Hcx Hcy|x ex t y' Hx Htx Hty]; subst.
  - apply (attachedTo_stable zr w3 w4); auto.
    apply (attachedTo_stable zr w2 w3); auto.
  - assert (ex = e) by congruence. subst ex.
    apply (attachedTo_stable zr w3 w4); auto.
    now apply (Hb3 c).
  - assert (ex = e) by congruence. subst ex.
    now apply (Hb4 t).
Qed.

(** [removeSelfFromZr] returns on a well-founded store, and leaves the
    element and everything below it detached from the host. *)
Lemma removeSelfFromZr_spec rk (zr : nat) (fuel : nat) :
  forall (r : nat) (w : World) (e : Element),
    attached_ranked rk w ->
    elems w !! r = Some e ->
    (rk r < fuel)%nat ->
    exists w',
      removeSelfFromZr fuel r zr w = Ok tt w'
      /\ marks None w w'
      /\ registry w' zr ⊆ registry w zr
      /\ forall y, below w r y -> detachedFrom zr w' y.
Proof.
  induction fuel as [|fuel IH]; intros r w e Hwf He Hfuel; [lia|].
  cbn [removeSelfFromZr].
  rewrite (bind_Ok _ _ _ _ _ (modEl_Ok _ _ _ _ He)).
  set (e1 := set_zr None e).
  set (w1 := set_elems (<[r := e1]> (elems w)) w).
  assert (He1 : elems w1 !! r = Some e1) by (simpl; apply lookup_insert_eq).
  assert (Hm1 : marks None w w1) by now apply marks_set_zr.
  rewrite (bind_Ok _ _ _ _ _ (getEl_Ok _ _ _ He1)).
  destruct (Hwf r e He) as ([l Hl] & Hclip & Htext).
  rewrite (bind_Ok _ _ _ _ l (getArr_Ok _ w1 l Hl)).
  destruct (deregisterAll zr l w1) as (w2 & Hrun2 & Hel2 & Hm2 & Hreg2).
  rewrite (bind_Ok _ _ _ _ _ Hrun2).
  assert (He2 : elems w2 !! r = Some e1) by now rewrite Hel2.
  assert (Hm02 : marks None w w2) by (eapply marks_trans; eauto).
  assert (Hr02 : registry w2 zr ⊆ registry w zr).
  { rewrite Hreg2. unfold registry. simpl. set_solver. }
  assert (Hat2 : detachedFrom zr w2 r).
  { exists e1, l. split; [exact He2|]. split; [reflexivity|].
    destruct Hm02 as (A & _). rewrite A. split; [exact Hl|].
    intros a Ha. rewrite Hreg2. set_solver. }
  rewrite (bind_Ok _ _ _ _ _ (getEl_Ok _ _ _ He2)).
  assert (Hc : exists w3,
            match _clipPath e1 with
            | Some c => removeSelfFromZr fuel c zr
            | None => ret tt
            end w2 = Ok tt w3
            /\ marks None w2 w3
            /\ registry w3 zr ⊆ registry w2 zr
            /\ forall c y, _clipPath e = Some c -> below w c y ->
                 detachedFrom zr w3 y).
  { change (_clipPath e1) with (_clipPath e).
    destruct (_clipPath e) as [c|] eqn:Hcp.
    - destruct (Hclip c eq_refl) as [Hrk [ec Hec]].
      destruct (marks_lookup _ w w2 c ec Hm02 Hec) as (ec2 & Hec2 & _).
      destruct (IH c w2 ec2 (marks_ranked rk _ w w2 Hm02 Hwf) Hec2 ltac:(lia))
        as (w3 & Hrun & Hm & Hreg & Hbelow).
      exists w3. split; [exact Hrun|]. split; [exact Hm|].
      split; [exact Hreg|]. intros c' y [= <-] Hb.
      apply Hbelow. now apply (marks_below None w w2).
    - exists w2. unfold ret. split; [reflexivity|].
      split; [apply marks_refl|]. split; [set_solver|]. discriminate. }
  destruct Hc as (w3 & Hrun3 & Hm3 & Hr3 & Hb3).
  rewrite (bind_Ok _ _ _ _ _ Hrun3).
  assert (Hm03 : marks None w w3) by (eapply marks_trans; eauto).
  destruct (marks_lookup _ w2 w3 r e1 Hm3 He2) as (e3 & He3 & _ & _ & Ht3 & _).
  rewrite (bind_Ok _ _ _ _ _ (getEl_Ok _ _ _ He3)).
  assert (Ht : exists w4,
            match _textContent e3 with
            | Some t => removeSelfFromZr fuel t zr
            | None => ret tt
            end w3 = Ok tt w4
            /\ marks None w3 w4
            /\ registry w4 zr ⊆ registry w3 zr
            /\ forall t y, _textContent e = Some t -> below w t y ->
                 detachedFrom zr w4 y).
  { rewrite Ht3. change (_textContent e1) with (_textContent e).
    destruct (_textContent e) as [t|] eqn:Htc.
    - destruct (Htext t eq_refl) as [Hrk [et Het]].
      destruct (marks_lookup _ w w3 t et Hm03 Het) as (et3 & Het3 & _).
      destruct (IH t w3 et3 (marks_ranked rk _ w w3 Hm03 Hwf) Het3 ltac:(lia))
        as (w4 & Hrun & Hm & Hreg & Hbelow).
      exists w4. split; [exact Hrun|]. split; [exact Hm|].
      split; [exact Hreg|]. intros t' y [= <-] Hb.
      apply Hbelow. now apply (marks_below None w w3).
    - exists w3. unfold ret. split; [reflexivity|].
      split; [apply marks_refl|]. split; [set_solver|]. discriminate. }
  destruct Ht as (w4 & Hrun4 & Hm4 & Hr4 & Hb4).
  exists w4. split; [exact Hrun4|].
  split; [eapply marks_trans; eauto|]. split; [set_solver|].
  intros y Hb. inversion Hb as [|x ex c y' Hx Hcx Hcy|x ex t y' Hx Htx Hty]; subst.
  - apply (detachedFrom_stable zr w3 w4); auto.
    apply (detachedFrom_stable zr w2 w3); auto.
  - assert (ex = e) by congruence. subst ex.
    apply (detachedFrom_stable zr w3 w4); auto.
    now apply (Hb3 c).
  - assert (ex = e) by congruence. subst ex.
    now apply (Hb4 t).
Qed.

(** ** C9: the clip path follows its target *)

(** C9.  Take a node with a clip path [c], in a store whose clip and label
    relations are well founded.  [addSelfToZr(host)] returns; after it the
    node and [c] both refer to [host] and every animator of each is
    registered with the scheduler of [host].  [removeSelfFromZr(host)] then
    returns; after it neither refers to a host and none of their animators
    is registered with that scheduler. *)
Theorem clip_follows_target rk (w : World) (n c : nat) (e : Element)
  (host : nat) (fuel : nat) :
  attached_ranked rk w ->
  elems w !! n = Some e ->
  _clipPath e = Some c ->
  (rk n < fuel)%nat ->
  exists w1,
    addSelfToZr fuel n host w = Ok tt w1
    /\ attachedTo host w1 n
    /\ attachedTo host w1 c
    /\ exists w2,
         removeSelfFromZr fuel n host w1 = Ok tt w2
         /\ detachedFrom host w2 n
         /\ detachedFrom host w2 c.
Proof.
  intros Hwf He Hc Hfuel.
  destruct (addSelfToZr_spec rk host fuel n w e Hwf He Hfuel)
    as (w1 & Hrun1 & Hm1 & _ & Hb1).
  assert (Hbc : below w n c).
  { apply (below_clip w n e c c He Hc). constructor. }
  exists w1. split; [exact Hrun1|].
  split; [apply Hb1; constructor|]. split; [now apply Hb1|].
  destruct (marks_lookup _ w w1 n e Hm1 He) as (e1 & He1 & _).
  destruct (removeSelfFromZr_spec rk host fuel n w1 e1
              (marks_ranked rk _ w w1 Hm1 Hwf) He1 Hfuel)
    as (w2 & Hrun2 & _ & _ & Hb2).
  exists w2. split; [exact Hrun2|].
  split; [apply Hb2; constructor|].
  apply Hb2. now apply (marks_below (Some host) w w1).
Qed.

Lemma clippedWorld_ranked : attached_ranked clipRank clippedWorld.
Proof.
  intros x e Hx. simpl in Hx.
  destruct (decide (x = 1%nat)) as [->|H1].
  { rewrite lookup_insert_eq in Hx. injection Hx as <-.
    split; [eexists; reflexivity|]. split.
    - intros c [= <-]. split; [vm_compute; lia | eexists; reflexivity].
    - intros t Ht. discriminate Ht. }
  rewrite lookup_insert_ne in Hx by congruence.
  destruct (decide (x = 3%nat)) as [->|H3].
  { rewrite lookup_insert_eq in Hx. injection Hx as <-.
    split; [eexists; reflexivity|]. split; intros y Hy; discriminate Hy. }
  rewrite lookup_insert_ne in Hx by congruence.
  unfold clipWorld in Hx. simpl in Hx.
  rewrite lookup_insert_ne in Hx by congruence.
  destruct (decide (x = 2%nat)) as [->|H2].
  { rewrite lookup_insert_eq in Hx. injection Hx as <-.
    split; [eexists; reflexivity|]. split; intros y Hy; discriminate Hy. }
  rewrite lookup_insert_ne in Hx by congruence.
  rewrite lookup_insert_ne in Hx by congruence.
  discriminate Hx.
Defined.

Lemma clip_follows_target_witness :
  exists w1,
    addSelfToZr 2 1 9 clippedWorld = Ok tt w1
    /\ attachedTo 9 w1 1
    /\ attachedTo 9 w1 3
    /\ exists w2,
         removeSelfFromZr 2 1 9 w1 = Ok tt w2
         /\ detachedFrom 9 w2 1
         /\ detachedFrom 9 w2 3.
Proof.
  apply (clip_follows_target clipRank clippedWorld 1 3
           (set_clipPath (Some 3%nat) groupA) 9 2).
  - exact clippedWorld_ranked.
  - reflexivity.
  - reflexivity.
  - vm_compute. lia.
Defined.

(** ** C8: claiming a clip path *)

Lemma sameLinks_refl (r : nat) (w : World) : sameLinks r w w.
Proof. split; [|auto]. intros x e Hx. exists e. auto. Qed.

Lemma sameLinks_trans (r : nat) (w1 w2 w3 : World) :
  sameLinks r w1 w2 -> sameLinks r w2 w3 -> sameLinks r w1 w3.
Proof.
  intros [A1 B1] [A2 B2]. split; [|auto].
  intros x e Hx. destruct (A1 x e Hx) as (e2 & H2 & T2 & N2 & C2).
  destruct (A2 x e2 H2) as (e3 & H3 & T3 & N3 & C3).
  exists e3. split; [exact H3|]. split; [congruence|].
  split; [congruence|]. intros Hne. rewrite (C3 Hne). now apply C2.
Qed.

Lemma sameLinks_marks (r : nat) (zrv : option nat) (w w' : World) :
  marks zrv w w' -> sameLinks r w w'.
Proof.
  intros Hm. split.
  - intros x e Hx.
    destruct (marks_lookup zrv w w' x e Hm Hx) as (e' & He' & _ & C & T & N).
    exists e'. auto.
  - destruct Hm as (_ & _ & _ & _ & _ & F). exact F.
Qed.

Lemma sameLinks_insert (r : nat) (w w' : World) (x : nat) (e e' : Element) :
  elems w !! x = Some e ->
  elems w' = <[x := e']> (elems w) ->
  _textContent e' = _textContent e ->
  animators e' = animators e ->
  (x <> r -> _clipPath e' = _clipPath e) ->
  sameLinks r w w'.
Proof.
  intros Hx Hel Ht Hn Hc. split.
  - intros y ey Hy. rewrite Hel. destruct (decide (x = y)) as [->|Hne].
    + rewrite lookup_insert_eq. exists e'.
      assert (ey = e) by congruence. subst ey. auto.
    + rewrite lookup_insert_ne by exact Hne. exists ey. auto.
  - intros y Hy. rewrite Hel. rewrite lookup_insert_ne; [exact Hy|].
    congruence.
Qed.

(** [removeClipPath] on a node that has a clip path: the call returns, the
    clip path is left without host and without target. *)
Lemma removeClipPath_spec rk (w : World) (r old : nat) (e : Element)
  (fuel : nat) :
  attached_ranked rk w ->
  elems w !! r = Some e ->
  _clipPath e = Some old ->
  (rk r < fuel)%nat ->
  exists w',
    removeClipPath fuel r w = Ok tt w'
    /\ sameLinks r w w'
    /\ arrays w' = arrays w
    /\ exists eo', elems w' !! old = Some eo'
                   /\ __zr eo' = None /\ __clipTarget eo' = None.
Proof.
  intros Hwf He Hold Hfuel. unfold removeClipPath.
  rewrite (bind_Ok _ _ _ _ _ (getEl_Ok _ _ _ He)), Hold.
  destruct (Hwf r e He) as (_ & Hclip & _).
  destruct (Hclip old Hold) as [Hrk [eo Heo]].
  assert (Hne : old <> r) by (intros ->; lia).
  rewrite (bind_Ok _ _ _ _ _ (getEl_Ok _ _ _ Heo)).
  assert (H1 : exists w1,
            match __zr eo with
            | Some zr => removeSelfFromZr fuel old zr
            | None => ret tt
            end w = Ok tt w1
            /\ sameLinks r w w1 /\ arrays w1 = arrays w).
  { destruct (__zr eo) as [zr|].
    - destruct (removeSelfFromZr_spec rk zr fuel old w eo Hwf Heo ltac:(lia))
        as (w1 & Hrun & Hm & _).
      exists w1. split; [exact Hrun|].
      split; [now apply (sameLinks_marks r None)|]. now destruct Hm.
    - exists w. unfold ret. split; [reflexivity|].
      split; [apply sameLinks_refl | reflexivity]. }
  destruct H1 as (w1 & Hrun1 & Hs1 & Ha1).
  rewrite (bind_Ok _ _ _ _ _ Hrun1).
  destruct Hs1 as [A1 B1].
  destruct (A1 old eo Heo) as (eo1 & Heo1 & To1 & No1 & Co1).
  destruct (A1 r e He) as (e1 & He1 & T1 & N1 & _).
  rewrite (bind_Ok _ _ _ _ _ (modEl_Ok _ _ _ _ Heo1)).
  erewrite bind_Ok by (apply modEl_Ok; simpl; apply lookup_insert_eq).
  erewrite bind_Ok
    by (apply modEl_Ok; simpl;
        rewrite !lookup_insert_ne by exact Hne; exact He1).
  erewrite markRedraw_Ok by (simpl; apply lookup_insert_eq).
  eexists. split; [reflexivity|]. simpl.
  rewrite !insert_insert_eq. split; [|split; [exact Ha1|]].
  - apply (sameLinks_trans r w w1); [split; assumption|].
    apply (sameLinks_trans r w1
             (set_elems (<[old := set_clipTarget None (set_zr None eo1)]>
                           (elems w1)) w1)).
    + now apply (sameLinks_insert r w1 _ old eo1
                   (set_clipTarget None (set_zr None eo1))).
    + apply (sameLinks_insert r _ _ r e1
               (set_dirty true (set_clipPath None e1))); simpl; auto.
      * now rewrite lookup_insert_ne by exact Hne.
      * congruence.
  - exists (set_clipTarget None (set_zr None eo1)).
    rewrite lookup_insert_ne by congruence.
    rewrite lookup_insert_eq. auto.
Qed.

(** C8, as the code has it.  [setClipPath(c)] on a node [r] (in a store
    whose clip and label relations are well founded) returns and leaves [c]
    as the clip path of [r], [r] as the back-reference of [c], and [c] with
    the host reference [r] had.  A clip path [r] had before, other than [c],
    is released: it has neither host nor back-reference.  The clip relation
    of every other node is as before: a node that held [c] as its clip path
    still does. *)
Theorem setClipPath_claims rk (w : World) (r c : nat) (e ec : Element)
  (fuel : nat) :
  attached_ranked rk w ->
  elems w !! r = Some e ->
  elems w !! c = Some ec ->
  (rk r < fuel)%nat ->
  (rk c < fuel)%nat ->
  exists w',
    setClipPath fuel r c w = Ok tt w'
    /\ (exists e', elems w' !! r = Some e' /\ _clipPath e' = Some c)
    /\ (exists ec', elems w' !! c = Some ec'
                    /\ __clipTarget ec' = Some r /\ __zr ec' = __zr e)
    /\ (forall old, _clipPath e = Some old -> old <> c ->
          exists eo', elems w' !! old = Some eo'
                      /\ __clipTarget eo' = None /\ __zr eo' = None)
    /\ (forall x ex, x <> r -> elems w !! x = Some ex ->
          exists ex', elems w' !! x = Some ex'
                      /\ _clipPath ex' = _clipPath ex).
Proof.
  intros Hwf He Hec Hfr Hfc. unfold setClipPath.
  rewrite (bind_Ok _ _ _ _ _ (getEl_Ok _ _ _ He)).
  (* the clip path joins the host of the node *)
  assert (H1 : exists w1,
            match __zr e with
            | Some z => addSelfToZr fuel c z
            | None => ret tt
            end w = Ok tt w1
            /\ sameLinks r w w1 /\ arrays w1 = arrays w
            /\ attached_ranked rk w1
            /\ forall e1, elems w1 !! r = Some e1 ->
                 _clipPath e1 = _clipPath e).
  { destruct (__zr e) as [z|].
    - destruct (addSelfToZr_spec rk z fuel c w ec Hwf Hec Hfc)
        as (w1 & Hrun & Hm & _).
      exists w1. split; [exact Hrun|].
      split; [now apply (sameLinks_marks r (Some z))|].
      split; [now destruct Hm|].
      split; [now apply (marks_ranked rk (Some z) w)|].
      intros e1 He1.
      destruct (marks_lookup _ w w1 r e Hm He) as (e1' & He1' & _ & Hc & _).
      congruence.
    - exists w. unfold ret. split; [reflexivity|].
      split; [apply sameLinks_refl|]. split; [reflexivity|].
      split; [exact Hwf|]. congruence. }
  destruct H1 as (w1 & Hrun1 & Hs1 & Ha1 & Hwf1 & Hclip1).
  rewrite (bind_Ok _ _ _ _ _ Hrun1).
  pose proof Hs1 as [A1 _].
  destruct (A1 r e He) as (e1 & He1 & _).
  rewrite (bind_Ok _ _ _ _ _ (getEl_Ok _ _ _ He1)).
  (* the clip path the node had is released *)
  assert (H2 : exists w2,
            match _clipPath e1 with
            | Some old =>
                when (negb (Nat.eqb old c)) (removeClipPath fuel r)
            | None => ret tt
            end w1 = Ok tt w2
            /\ sameLinks r w1 w2
            /\ forall old, _clipPath e1 = Some old -> old <> c ->
                 exists eo', elems w2 !! old = Some eo'
                             /\ __zr eo' = None /\ __clipTarget eo' = None).
  { destruct (_clipPath e1) as [old|] eqn:Hold.
    - destruct (Nat.eqb_spec old c) as [->|Hne]; simpl.
      + exists w1. unfold ret. split; [reflexivity|].
        split; [apply sameLinks_refl|]. intros old [= <-] Hne. congruence.
      + destruct (removeClipPath_spec rk w1 r old e1 fuel Hwf1 He1 Hold Hfr)
          as (w2 & Hrun & Hs & _ & Hrel).
        exists w2. split; [exact Hrun|]. split; [exact Hs|].
        intros old' [= <-] _. exact Hrel.
    - exists w1. unfold ret. split; [reflexivity|].
      split; [apply sameLinks_refl|]. discriminate. }
  destruct H2 as (w2 & Hrun2 & Hs2 & Hrel).
  rewrite (bind_Ok _ _ _ _ _ Hrun2).
  assert (Hs02 : sameLinks r w w2) by (eapply sameLinks_trans; eauto).
  pose proof Hs02 as [A2 _].
  destruct (A2 r e He) as (e2 & He2 & _).
  rewrite (bind_Ok _ _ _ _ _ (modEl_Ok _ _ _ _ He2)).
  set (w3 := set_elems (<[r := set_clipPath (Some c) e2]> (elems w2)) w2).
  assert (Hc3 : exists ec3, elems w3 !! c = Some ec3
                            /\ (c = r -> _clipPath ec3 = Some c)).
  { simpl. destruct (decide (r = c)) as [->|Hne].
    - rewrite lookup_insert_eq. eexists. split; [reflexivity|]. auto.
    - rewrite lookup_insert_ne by exact Hne.
      destruct (A2 c ec Hec) as (ec2 & Hec2 & _). exists ec2.
      split; [exact Hec2 | congruence]. }
  destruct Hc3 as (ec3 & Hec3 & Hself).
  rewrite (bind_Ok _ _ _ _ _ (modEl_Ok _ _ _ _ Hec3)).
  erewrite bind_Ok by (apply modEl_Ok; simpl; apply lookup_insert_eq).
  set (ec5 := set_clipTarget (Some r) (set_zr (__zr e) ec3)).
  assert (Hr5 : exists e5,
            (<[c := ec5]> (<[c := set_zr (__zr e) ec3]> (elems w3))) !! r
            = Some e5 /\ _clipPath e5 = Some c).
  { rewrite insert_insert_eq. destruct (decide (c = r)) as [->|Hne].
    - rewrite lookup_insert_eq. eexists. split; [reflexivity|].
      simpl. now apply Hself.
    - rewrite lookup_insert_ne by exact Hne. simpl.
      rewrite lookup_insert_eq. eexists. split; reflexivity. }
  destruct Hr5 as (e5 & He5 & Hc5).
  erewrite markRedraw_Ok by (simpl; exact He5).
  eexists. split; [reflexivity|]. simpl. rewrite !insert_insert_eq.
  split; [|split; [|split]].
  - rewrite lookup_insert_eq. eexists. split; [reflexivity|]. exact Hc5.
  - destruct (decide (r = c)) as [->|Hne].
    + rewrite lookup_insert_eq. eexists. split; [reflexivity|].
      rewrite insert_insert_eq, lookup_insert_eq in He5.
      injection He5 as <-. auto.
    + rewrite lookup_insert_ne by exact Hne. rewrite lookup_insert_eq.
      eexists. split; [reflexivity|]. auto.
  - intros old Hold Hne.
    destruct (A1 r e He) as (e1' & He1' & _ & _ & _).
    assert (Horig : (rk old < rk r)%nat).
    { destruct (Hwf r e He) as (_ & Hcl & _). now destruct (Hcl old Hold). }
    assert (Hor : old <> r) by (intros ->; lia).
    assert (Hold1 : _clipPath e1 = Some old).
    { rewrite (Hclip1 e1 He1). exact Hold. }
    destruct (Hrel old Hold1 Hne) as (eo & Heo & Hz & Ht).
    exists eo. rewrite !lookup_insert_ne by congruence. auto.
  - intros x ex Hx Hex. destruct (A2 x ex Hex) as (ex2 & Hex2 & _ & _ & Hcx).
    destruct (decide (c = x)) as [->|Hne].
    + rewrite lookup_insert_ne by congruence. rewrite lookup_insert_eq.
      eexists. split; [reflexivity|]. simpl.
      unfold w3 in Hec3. simpl in Hec3.
      rewrite lookup_insert_ne in Hec3 by congruence.
      assert (ec3 = ex2) by congruence. subst ec3. now apply Hcx.
    + rewrite !lookup_insert_ne by congruence.
      exists ex2. split; [exact Hex2 | now apply Hcx].
Qed.

Lemma setClipPath_claims_witness :
  exists w',
    setClipPath 2 2 3 clippedWorld = Ok tt w'
    /\ (exists e', elems w' !! 2%nat = Some e' /\ _clipPath e' = Some 3%nat)
    /\ (exists ec', elems w' !! 3%nat = Some ec'
                    /\ __clipTarget ec' = Some 2%nat
                    /\ __zr ec' = Some 9%nat)
    /\ (exists ea', elems w' !! 1%nat = Some ea'
                    /\ _clipPath ea' = Some 3%nat).
Proof.
  destruct (setClipPath_claims clipRank clippedWorld 2 3 groupB
              (set_clipTarget (Some 1%nat) clipC) 2)
    as (w' & Hrun & Hr & Hc & _ & Hothers).
  - exact clippedWorld_ranked.
  - reflexivity.
  - reflexivity.
  - vm_compute. lia.
  - vm_compute. lia.
  - exists w'. split; [exact Hrun|]. split; [exact Hr|]. split; [exact Hc|].
    apply (Hothers 1%nat (set_clipPath (Some 3%nat) groupA)).
    + discriminate.
    + reflexivity.
Defined.

(** C8 as stated fails: the first group claims the clip path, then the
    second group does.  The back-reference of the clip path names the second
    group, and the first group still has it as its clip path: the previous
    claim is not detached. *)
Lemma setClipPath_claims_counterexample :
  exists w' a b c,
    (setClipPath 2 1 3 ;; setClipPath 2 2 3) clipWorld = Ok tt w'
    /\ elems w' !! 1%nat = Some a
    /\ elems w' !! 2%nat = Some b
    /\ elems w' !! 3%nat = Some c
    /\ _clipPath a = Some 3%nat
    /\ _clipPath b = Some 3%nat
    /\ __clipTarget c = Some 2%nat.
Proof.
  eexists _, _, _, _. split; [vm_compute; reflexivity|].
  split; [vm_compute; reflexivity|]. split; [vm_compute; reflexivity|].
  split; [vm_compute; reflexivity|]. repeat split; reflexivity.
Qed.

(** ** Animation *)

Lemma oset_oset_eq (k : string) (v v' : value) (o : Obj) :
  oset k v' (oset k v o) = oset k v' o.
Proof.
  induction o as [|[k0 v0] o IH]; simpl.
  - now rewrite String.eqb_refl.
  - destruct (String.eqb k k0) eqn:E; simpl.
    + now rewrite String.eqb_refl.
    + now rewrite E, IH.
Qed.

Lemma oset_same (k : string) (v : value) (o : Obj) :
  oget k o = v -> v <> VNull -> oset k v o = o.
Proof.
  induction o as [|[k0 v0] o IH]; simpl; intros Hg Hv.
  - congruence.
  - destruct (String.eqb_spec k k0) as [->|Hne].
    + now subst.
    + f_equal. now apply IH.
Qed.

Lemma dataOf_withData (v : value) (d : Obj) :
  dataOf (withData v d) = Some d.
Proof. now destruct v. Qed.

Lemma withData_dataOf (v : value) (d : Obj) :
  dataOf v = Some d -> withData v d = v.
Proof. destruct v; simpl; congruence. Qed.

Lemma dataOf_not_null (v : value) (d : Obj) :
  dataOf v = Some d -> v <> VNull.
Proof. now destruct v. Qed.

Lemma pget_pset (path : list string) (src src' : Obj) :
  forall o, pget path o = Some src ->
    pmod path (fun _ => src') o = Some (pset path src' o)
    /\ pget path (pset path src' o) = Some src'.
Proof.
  unfold pset. induction path as [|k path IH]; intros o Hg; simpl in *.
  - auto.
  - destruct (dataOf (oget k o)) as [o1|] eqn:Hk; [|discriminate].
    destruct (IH o1 Hg) as [Hm Hp].
    rewrite Hm in *. simpl. rewrite oget_oset_eq, dataOf_withData. auto.
Qed.

Lemma pmod_const (path : list string) (f : Obj -> Obj) (src : Obj) :
  forall o, pget path o = Some src ->
    pmod path f o = pmod path (fun _ => f src) o.
Proof.
  induction path as [|k path IH]; intros o Hg; simpl in *.
  - now injection Hg as <-.
  - destruct (dataOf (oget k o)) as [o1|] eqn:Hk; [|discriminate].
    now rewrite (IH o1 Hg).
Qed.

Lemma pmod_pset (path : list string) (f : Obj -> Obj) (src : Obj) :
  forall o, pget path o = Some src ->
    pmod path f o = Some (pset path (f src) o).
Proof.
  intros o Hg. rewrite (pmod_const path f src o Hg).
  now destruct (pget_pset path src (f src) o Hg).
Qed.

Lemma pset_cons (k : string) (path : list string) (src s : Obj) (o o1 : Obj) :
  dataOf (oget k o) = Some o1 -> pget path o1 = Some src ->
  pset (k :: path) s o = oset k (withData (oget k o) (pset path s o1)) o.
Proof.
  intros Hk Hg. destruct (pget_pset path src s o1 Hg) as [Hm _].
  unfold pset at 1. simpl. now rewrite Hk, Hm.
Qed.

Lemma pset_pset (path : list string) (src s1 s2 : Obj) :
  forall o, pget path o = Some src ->
    pset path s2 (pset path s1 o) = pset path s2 o.
Proof.
  induction path as [|k path IH]; intros o Hg; [reflexivity|].
  simpl in Hg. destruct (dataOf (oget k o)) as [o1|] eqn:Hk; [|discriminate].
  destruct (pget_pset path src s1 o1 Hg) as [_ Hp1].
  rewrite (pset_cons k path src s1 o o1 Hk Hg).
  rewrite (pset_cons k path s1 s2 _ (pset path s1 o1)); cycle 1.
  { rewrite oget_oset_eq. apply dataOf_withData. }
  { exact Hp1. }
  rewrite (pset_cons k path src s2 o o1 Hk Hg).
  rewrite oget_oset_eq, oset_oset_eq, (IH o1 Hg).
  now destruct (oget k o).
Qed.

Lemma pset_same (path : list string) (src : Obj) :
  forall o, pget path o = Some src -> pset path src o = o.
Proof.
  induction path as [|k path IH]; intros o Hg; [now injection Hg as ->|].
  simpl in Hg. destruct (dataOf (oget k o)) as [o1|] eqn:Hk; [|discriminate].
  rewrite (pset_cons k path src src o o1 Hk Hg), (IH o1 Hg).
  rewrite (withData_dataOf _ _ Hk).
  apply oset_same; [reflexivity | now apply (dataOf_not_null _ o1)].
Qed.

(** A write below the top-level key [k1] leaves the other top-level keys. *)
Lemma oget_pset_ne (k1 : string) (path : list string) (src' : Obj) (o : Obj)
  (k : string) :
  k <> k1 -> oget k (pset (k1 :: path) src' o) = oget k o.
Proof.
  intros Hne. unfold pset. simpl.
  destruct (dataOf (oget k1 o)) as [o1|]; [|reflexivity].
  destruct (pmod path (fun _ => src') o1); [|reflexivity].
  apply oget_oset_ne. congruence.
Qed.

Lemma memberOf_withData (v : value) (d d' : Obj) (k : string) :
  dataOf v = Some d -> memberOf (withData v d') k = memberOf v k.
Proof. now destruct v. Qed.

Lemma vget_data (path : list string) (v : value) (d : Obj) :
  path <> [] -> dataOf v = Some d -> vget path v = vget path (VObj d).
Proof. destruct path as [|k path]; [congruence|]. simpl. now intros _ ->. Qed.

(** A write of the data of the object at [path] leaves the object what it
    is: an object or an array. *)
Lemma reserved_pset (path : list string) (src s : Obj) (k : string) :
  forall o, pget path o = Some src ->
    reserved path (pset path s o) k = reserved path o k.
Proof.
  destruct path as [|k1 path]; [reflexivity|]. cbn [reserved].
  revert k1. induction path as [|k2 path IH]; intros k1 o Hg.
  - simpl in Hg. destruct (dataOf (oget k1 o)) as [o1|] eqn:Hk; [|discriminate].
    unfold pset. cbn [pmod vget dataOf]. rewrite Hk. cbn [default vget dataOf].
    rewrite oget_oset_eq. now apply memberOf_withData with o1.
  - cbn [pget] in Hg.
    destruct (dataOf (oget k1 o)) as [o1|] eqn:Hk; [|discriminate].
    rewrite (pset_cons k1 (k2 :: path) src s o o1 Hk Hg).
    change (vget (k1 :: k2 :: path) (VObj ?x))
      with (vget (k2 :: path) (oget k1 x)).
    rewrite oget_oset_eq.
    rewrite (vget_data (k2 :: path) _ _ ltac:(discriminate)
               (dataOf_withData _ _)).
    rewrite (vget_data (k2 :: path) _ _ ltac:(discriminate) Hk).
    now apply IH.
Qed.

Lemma animsKept_refl (w : World) : animsKept w w.
Proof. intros a x Hx. exists x. auto. Qed.

Lemma animsKept_trans (w1 w2 w3 : World) :
  animsKept w1 w2 -> animsKept w2 w3 -> animsKept w1 w3.
Proof.
  intros H12 H23 a x Hx.
  destruct (H12 a x Hx) as (x2 & Hx2 & A & B & C & D).
  destruct (H23 a x2 Hx2) as (x3 & Hx3 & A' & B' & C' & D').
  exists x3. split; [exact Hx3|]. repeat split; congruence.
Qed.

Lemma animsKept_same (w w' : World) : animS w' = animS w -> animsKept w w'.
Proof. intros H a x Hx. exists x. rewrite H. auto. Qed.

Lemma modAnim_Ok (a : nat) (f : Animator -> Animator) (w : World)
  (x : Animator) :
  animS w !! a = Some x ->
  modAnim a f w = Ok tt (set_animS (<[a := f x]> (animS w)) w).
Proof. intros H. unfold modAnim, bind, getAnim. now rewrite H. Qed.

Lemma keys_In (k : string) (es : Obj) :
  In k (keys es) -> exists v, In (k, v) es.
Proof.
  unfold keys. intros H. apply in_map_iff in H as ([k' v] & E & Hin).
  simpl in E. subst k'. eauto.
Qed.

Lemma scanNested_keys (reverse : bool) (es : Obj) :
  forall (src : Obj) (acc : list string) (src' : Obj) (ks : list string),
    scanNested reverse src es acc = inl (src', ks) ->
    forall k, In k ks -> In k acc \/ In k (keys es).
Proof.
  induction es as [|[k v] es IH]; intros src acc src' ks H k0 Hk;
    simpl in H.
  - injection H as <- <-. now left.
  - destruct (negb (isNull (oget k src))).
    + destruct (isPlainObject v); [discriminate|].
      destruct (IH _ _ _ _ H k0 Hk) as [Ha|Hb].
      * apply in_app_or in Ha as [Ha|[<-|[]]]; [now left|]. right. now left.
      * right. now right.
    + destruct (negb (isNull v) && negb reverse);
        (destruct (IH _ _ _ _ H k0 Hk) as [Ha|Hb];
         [now left | right; now right]).
Qed.

Section LiveObject.

Variables r arr : nat.

Lemma readKey_Live (p : Obj) (w : World) (path : list string) (src : Obj)
  (k : string) :
  Live r arr p w -> pget path p = Some src ->
  reserved path p k = false ->
  readKey r path k w = Ok (oget k src) w.
Proof.
  intros (e & l & He & Hp & _) Hg Hres. unfold readKey.
  rewrite (bind_Ok _ _ _ _ _ (getEl_Ok _ _ _ He)), Hp, Hg, Hres.
  now rewrite andb_false_r.
Qed.

Lemma pmod_None (path : list string) (f : Obj -> Obj) :
  forall o, pget path o = None -> pmod path f o = None.
Proof.
  induction path as [|k path IH]; intros o H; simpl in *; [discriminate|].
  destruct (dataOf (oget k o)); [|reflexivity]. now rewrite IH.
Qed.

(** A primitive value has no data property, and takes none. *)
Lemma readKey_prim (p : Obj) (w : World) (path : list string) (k : string) :
  Live r arr p w -> pget path p = None ->
  isPrimitive (vget path (VObj p)) = true ->
  reserved path p k = false ->
  readKey r path k w = Ok VNull w.
Proof.
  intros (e & l & He & Hp & _) Hg Hprim Hres. unfold readKey.
  rewrite (bind_Ok _ _ _ _ _ (getEl_Ok _ _ _ He)), Hp, Hg, Hprim, Hres.
  reflexivity.
Qed.

Lemma writeKey_prim (p : Obj) (w : World) (path : list string) (k : string)
  (v : value) :
  Live r arr p w -> pget path p = None ->
  isPrimitive (vget path (VObj p)) = true ->
  writeKey r path k v w = Raise assignError w.
Proof.
  intros (e & l & He & Hp & _) Hg Hprim. unfold writeKey.
  rewrite (bind_Ok _ _ _ _ _ (getEl_Ok _ _ _ He)), Hp.
  now rewrite (pmod_None path _ p Hg), Hprim.
Qed.

Lemma writeKey_Live (p : Obj) (w : World) (path : list string) (src : Obj)
  (k : string) (v : value) :
  Live r arr p w -> pget path p = Some src ->
  exists w',
    writeKey r path k v w = Ok tt w'
    /\ Live r arr (pset path (oset k v src) p) w'
    /\ animS w' = animS w.
Proof.
  intros (e & l & He & Hp & Ha & Hl) Hg. unfold writeKey.
  rewrite (bind_Ok _ _ _ _ _ (getEl_Ok _ _ _ He)), Hp.
  rewrite (pmod_pset path _ src p Hg).
  eexists. split; [reflexivity|]. split; [|reflexivity].
  eexists _, l. simpl. rewrite lookup_insert_eq. auto.
Qed.

(** The loop over the keys of a sub-object, against [scanNested]. *)
Lemma shallowKeys_nested (rec : string -> list string -> value -> M unit)
  (topKey : string) (path : list string) (reverse : bool) :
  topKey <> "" ->
  forall (es : Obj) (acc : list string) (src p : Obj) (w : World),
    (forall k v, In (k, v) es -> reserved path p k = false) ->
    Live r arr p w -> pget path p = Some src ->
    match shallowKeys rec r topKey path reverse es acc w with
    | Ok acc' w' =>
        exists src', scanNested reverse src es acc = inl (src', acc')
                     /\ Live r arr (pset path src' p) w'
                     /\ animS w' = animS w
    | Raise msg _ =>
        msg = nestingError
        /\ exists src', scanNested reverse src es acc = inr src'
    | Abort _ => False
    end.
Proof.
  intros Htop. apply String.eqb_neq in Htop.
  induction es as [|[k tv] es IH]; intros acc src p w Hsc HL Hg.
  - simpl. exists src. rewrite (pset_same path src p Hg). auto.
  - cbn [shallowKeys scanNested].
    assert (Hk : reserved path p k = false) by (apply (Hsc k tv); now left).
    assert (Hsc' : forall k' v', In (k', v') es -> reserved path p k' = false)
      by (intros k' v' H; apply (Hsc k' v'); now right).
    rewrite (bind_Ok _ _ _ _ _ (readKey_Live p w path src k HL Hg Hk)).
    destruct (negb (isNull (oget k src))).
    + destruct (isPlainObject tv).
      * rewrite Htop. simpl. split; [reflexivity|]. eauto.
      * apply IH; assumption.
    + destruct (negb (isNull tv) && negb reverse).
      * destruct (writeKey_Live p w path src k tv HL Hg)
          as (w1 & Hrun & HL1 & Ha1).
        rewrite (bind_Ok _ _ _ _ _ Hrun).
        destruct (pget_pset path src (oset k tv src) p Hg) as [_ Hg1].
        assert (Hsc1 : forall k' v', In (k', v') es ->
                  reserved path (pset path (oset k tv src) p) k' = false).
        { intros k' v' H. rewrite (reserved_pset path src _ k' p Hg).
          now apply (Hsc' k' v'). }
        specialize (IH acc (oset k tv src) _ w1 Hsc1 HL1 Hg1).
        destruct (shallowKeys rec r topKey path reverse es acc w1)
          as [acc' w'|msg w'|]; [|exact IH|exact IH].
        destruct IH as (src' & Hs & HL' & Ha').
        exists src'. split; [exact Hs|].
        rewrite (pset_pset path src) in HL' by exact Hg.
        split; [exact HL' | congruence].
      * apply IH; assumption.
Qed.

(** The loop over the keys of a sub-object that sits on a primitive value:
    it throws at the first key with a value to assign, and has done nothing
    when it returns. *)
Lemma shallowKeys_prim (rec : string -> list string -> value -> M unit)
  (topKey : string) (path : list string) (reverse : bool) (p : Obj)
  (w : World) :
  Live r arr p w -> pget path p = None ->
  isPrimitive (vget path (VObj p)) = true ->
  forall (es : Obj) (acc : list string),
    (forall k v, In (k, v) es -> reserved path p k = false) ->
    shallowKeys rec r topKey path reverse es acc w =
    if assignsTo reverse es then Raise assignError w else Ok acc w.
Proof.
  intros HL Hg Hprim. unfold assignsTo.
  induction es as [|[k tv] es IH]; intros acc Hsc.
  - simpl. now rewrite andb_false_r.
  - cbn [shallowKeys existsb snd].
    assert (Hk : reserved path p k = false) by (apply (Hsc k tv); now left).
    rewrite (bind_Ok _ _ _ _ _ (readKey_prim p w path k HL Hg Hprim Hk)).
    cbn [isNull negb].
    destruct (negb (isNull tv) && negb reverse) eqn:Hc.
    + apply andb_prop in Hc as [Hv Hr]. rewrite Hv, Hr. cbn [orb andb].
      unfold bind. now rewrite (writeKey_prim p w path k tv HL Hg Hprim).
    + rewrite (IH acc (fun k' v' H => Hsc k' v' (or_intror H))).
      destruct reverse; [reflexivity|]. cbn [negb andb] in *.
      rewrite andb_true_r in Hc. now rewrite Hc.
Qed.

(** The swap of [animateFrom], against [swapPure]. *)
Lemma swapKeys_run (path : list string) (t : Obj) :
  forall (ks : list string) (rt src p : Obj) (w : World),
    (forall k, In k ks -> reserved path p k = false) ->
    Live r arr p w -> pget path p = Some src ->
    exists w',
      swapKeys r path t ks rt w = Ok (swapPure t ks src rt).2 w'
      /\ Live r arr (pset path (swapPure t ks src rt).1 p) w'
      /\ animS w' = animS w.
Proof.
  induction ks as [|k ks IH]; intros rt src p w Hsc HL Hg.
  - simpl. exists w. rewrite (pset_same path src p Hg). auto.
  - cbn [swapKeys swapPure].
    assert (Hk : reserved path p k = false) by (apply Hsc; now left).
    rewrite (bind_Ok _ _ _ _ _ (readKey_Live p w path src k HL Hg Hk)).
    destruct (writeKey_Live p w path src k (oget k t) HL Hg)
      as (w1 & Hrun & HL1 & Ha1).
    rewrite (bind_Ok _ _ _ _ _ Hrun).
    destruct (pget_pset path src (oset k (oget k t) src) p Hg) as [_ Hg1].
    assert (Hsc1 : forall k', In k' ks ->
              reserved path (pset path (oset k (oget k t) src) p) k' = false).
    { intros k' H. rewrite (reserved_pset path src _ k' p Hg).
      apply Hsc. now right. }
    destruct (IH (oset k (oget k src) rt) _ _ w1 Hsc1 HL1 Hg1)
      as (w' & Hrun' & HL' & Ha').
    exists w'. split; [exact Hrun'|].
    rewrite (pset_pset path src) in HL' by exact Hg.
    split; [exact HL' | congruence].
Qed.

(** Creating the animator of a sub-object and adding it to the element. *)
Lemma createAnimator_run (p : Obj) (w : World) (path : list string)
  (time delay : Arg) (endProps : Obj) (ks : list string) (topKey : string) :
  Live r arr p w ->
  exists w' a x,
    (animator <- newAnimator r path time delay endProps ks ;;
     addAnimator r animator topKey) w = Ok tt w'
    /\ Live r arr p w'
    /\ animsKept w w'
    /\ animS w !! a = None
    /\ animS w' !! a = Some x
    /\ a_owner x = r /\ a_path x = path /\ a_keys x = ks
    /\ a_end x = keyframe endProps ks.
Proof.
  intros (e & l & He & Hp & Ha & Hl).
  set (a := fresh (dom (animS w))).
  assert (Hfresh : animS w !! a = None).
  { apply not_elem_of_dom. apply is_fresh. }
  assert (Hnew : newAnimator r path time delay endProps ks w =
                 Ok a (set_animS
                         (<[a := mkAnimator r path false ks
                                   (keyframe endProps ks) time delay [] []
                                   Created]> (animS w)) w)) by reflexivity.
  rewrite (bind_Ok _ _ _ _ _ Hnew). unfold addAnimator.
  erewrite bind_Ok by (apply getEl_Ok; exact He).
  erewrite bind_Ok by (apply modAnim_Ok; simpl; apply lookup_insert_eq).
  erewrite bind_Ok by (apply modAnim_Ok; simpl; apply lookup_insert_eq).
  erewrite bind_Ok by (apply getArr_Ok; simpl; rewrite Ha; exact Hl).
  unfold setArr, modify, bind. simpl. rewrite !insert_insert_eq.
  assert (Hk : forall w0 x, animS w0 = <[a := x]> (animS w) ->
               animsKept w w0).
  { intros w0 x H0 b y Hy. rewrite H0.
    rewrite lookup_insert_ne by (intros ->; congruence).
    exists y. auto. }
  assert (HL : forall w0, elems w0 = elems w ->
               arrays w0 = <[animators e := l ++ [a]]> (arrays w) ->
               Live r arr p w0).
  { intros w0 H1 H2. exists e, (l ++ [a]). rewrite H1, H2.
    split; [exact He|]. split; [exact Hp|]. split; [exact Ha|].
    rewrite <- Ha. apply lookup_insert_eq. }
  destruct (__zr e) as [z|].
  - eexists _, a, _. split; [reflexivity|].
    split; [apply HL; reflexivity|].
    split; [eapply Hk; reflexivity|]. split; [exact Hfresh|].
    simpl. rewrite lookup_insert_eq. auto.
  - eexists _, a, _. split; [reflexivity|].
    split; [apply HL; reflexivity|].
    split; [eapply Hk; reflexivity|]. split; [exact Hfresh|].
    simpl. rewrite lookup_insert_eq. auto.
Qed.

End LiveObject.

Section ShallowFacts.

Variables r arr : nat.
Variables (time delay : Arg) (reverse : bool).

Lemma animateKeys_run (p : Obj) (w : World) (topKey : string)
  (path : list string) (t src' : Obj) (ks : list string) :
  Live r arr p w -> pget path p = Some src' ->
  (forall k, In k ks -> reserved path p k = false) ->
  exists w',
    animateKeys r topKey path t time delay reverse ks w = Ok tt w'
    /\ Live r arr (pset path (nestedFinal reverse t src' ks) p) w'
    /\ animsKept w w'
    /\ (ks <> [] ->
        animatorFor r path ks (nestedEnd reverse t src' ks) w w').
Proof.
  intros HL Hg Hsc. unfold animateKeys, nestedFinal, nestedEnd.
  destruct ks as [|k ks]; cbn [length Nat.ltb Nat.leb andb].
  - exists w. unfold ret. rewrite (pset_same path src' p Hg).
    split; [reflexivity|]. split; [exact HL|].
    split; [apply animsKept_refl | congruence].
  - destruct reverse; cbn [andb].
    + destruct (swapKeys_run r arr path t (k :: ks) [] src' p w Hsc HL Hg)
        as (w1 & Hrun1 & HL1 & Ha1).
      rewrite (bind_Ok _ _ _ _ _ Hrun1).
      destruct (createAnimator_run r arr _ w1 path (timeOrDefault time)
                  (delayOrZero delay) (swapPure t (k :: ks) src' []).2
                  (k :: ks) topKey HL1)
        as (w' & a & x & Hrun & HL' & Hk & Hf & Hx & Hfields).
      exists w'. split; [exact Hrun|]. split; [exact HL'|]. split.
      * eapply animsKept_trans; [apply animsKept_same; exact Ha1 | exact Hk].
      * intros _. exists a, x. rewrite <- Ha1. auto.
    + unfold ret at 1. unfold bind at 1.
      destruct (createAnimator_run r arr _ w path (timeOrDefault time)
                  (delayOrZero delay) t (k :: ks) topKey HL)
        as (w' & a & x & Hrun & HL' & Hk & Hf & Hx & Hfields).
      exists w'. split; [exact Hrun|].
      rewrite (pset_same path src' p Hg).
      split; [exact HL'|]. split; [exact Hk|].
      intros _. exists a, x. auto.
Qed.

(** A call of [animateToShallow] on a sub-object (non-empty [topKey]). *)
Lemma animateToShallow_nested (topKey : string) (path : list string)
  (t : Obj) (p src : Obj) (w : World) :
  topKey <> "" ->
  (forall k v, In (k, v) t -> reserved path p k = false) ->
  Live r arr p w -> pget path p = Some src ->
  match animateToShallow r topKey path (VObj t) time delay reverse w with
  | Ok _ w' =>
      exists src' ks,
        scanNested reverse src t [] = inl (src', ks)
        /\ Live r arr (pset path (nestedFinal reverse t src' ks) p) w'
        /\ animsKept w w'
        /\ (ks <> [] ->
            animatorFor r path ks (nestedEnd reverse t src' ks) w w')
  | Raise msg _ =>
      msg = nestingError
      /\ exists src', scanNested reverse src t [] = inr src'
  | Abort _ => False
  end.
Proof.
  intros Htop Hsc HL Hg. cbn [animateToShallow]. unfold bind at 1.
  pose proof (shallowKeys_nested r arr
                (fun k p v => animateToShallow r k p v time delay reverse)
                topKey path reverse Htop t [] src p w Hsc HL Hg) as Hscan.
  destruct (shallowKeys _ r topKey path reverse t [] w) as [ks w1|msg w1|];
    [|exact Hscan|exact Hscan].
  destruct Hscan as (src' & Hs & HL1 & Ha1).
  destruct (pget_pset path src src' p Hg) as [_ Hg1].
  assert (Hks : forall k, In k ks ->
            reserved path (pset path src' p) k = false).
  { intros k Hk. rewrite (reserved_pset path src _ k p Hg).
    destruct (scanNested_keys reverse t src [] src' ks Hs k Hk) as [[]|Hin].
    apply keys_In in Hin as [v Hin]. now apply (Hsc k v). }
  destruct (animateKeys_run _ w1 topKey path t src' ks HL1 Hg1 Hks)
    as (w' & Hrun & HL' & Hk & Han).
  rewrite Hrun. exists src', ks. split; [exact Hs|].
  rewrite (pset_pset path src) in HL' by exact Hg.
  split; [exact HL'|]. split.
  - eapply animsKept_trans; [apply animsKept_same; exact Ha1 | exact Hk].
  - intros Hne. destruct (Han Hne) as (a & x & Hf & Hx & Hfields).
    exists a, x. rewrite <- Ha1. auto.
Qed.

(** A call of [animateToShallow] on a primitive value. *)
Lemma animateToShallow_prim (topKey : string) (path : list string)
  (t : Obj) (p : Obj) (w : World) :
  (forall k v, In (k, v) t -> reserved path p k = false) ->
  Live r arr p w -> pget path p = None ->
  isPrimitive (vget path (VObj p)) = true ->
  animateToShallow r topKey path (VObj t) time delay reverse w =
  if assignsTo reverse t then Raise assignError w else Ok tt w.
Proof.
  intros Hsc HL Hg Hprim. cbn [animateToShallow]. unfold bind at 1.
  rewrite (shallowKeys_prim r arr _ topKey path reverse p w HL Hg Hprim t []
             Hsc).
  now destruct (assignsTo reverse t).
Qed.

End ShallowFacts.

Lemma pset_single (k : string) (s o : Obj) (p : Obj) :
  dataOf (oget k p) = Some o ->
  pset [k] s p = oset k (withData (oget k p) s) p.
Proof. intros H. unfold pset. simpl. now rewrite H. Qed.

Lemma isPrimitive_live (v : value) :
  v <> VNull -> dataOf v = None -> isPrimitive v = true.
Proof. now destruct v. Qed.

Lemma dataKeys_cons (p : Obj) (k : string) (v : value) (es : Obj) :
  dataKeys p ((k, v) :: es) = true ->
  nodeMember k = false
  /\ (forall t, v = VObj t ->
        k <> "" /\ forall k2 v2, In (k2, v2) t -> reserved [k] p k2 = false)
  /\ dataKeys p es = true.
Proof.
  unfold dataKeys. cbn [forallb fst snd]. intros H.
  apply andb_prop in H as [H Hes]. apply andb_prop in H as [Hk Hv].
  split; [now apply negb_true_iff|]. split; [|exact Hes].
  intros t ->. apply andb_prop in Hv as [Hne Ht].
  split; [now apply String.eqb_neq, negb_true_iff|].
  intros k2 v2 Hin. rewrite forallb_forall in Ht.
  apply negb_true_iff. exact (Ht (k2, v2) Hin).
Qed.

Lemma dataKeys_In (p : Obj) (es : Obj) (k : string) (v : value) :
  dataKeys p es = true -> In (k, v) es ->
  nodeMember k = false
  /\ (forall t, v = VObj t ->
        k <> "" /\ forall k2 v2, In (k2, v2) t -> reserved [k] p k2 = false).
Proof.
  induction es as [|[k0 v0] es IH]; intros H Hin; [destruct Hin|].
  apply dataKeys_cons in H as (H1 & H2 & H3).
  destruct Hin as [[= <- <-]|Hin]; [now split | now apply IH].
Qed.

(** The scope looks at the values under the keys of the descriptor only. *)
Lemma dataKeys_ext (p p' : Obj) (es : Obj) :
  (forall k v, In (k, v) es -> oget k p' = oget k p) ->
  dataKeys p' es = dataKeys p es.
Proof.
  unfold dataKeys. induction es as [|[k v] es IH]; intros H; [reflexivity|].
  cbn [forallb fst snd]. rewrite IH by (intros k' v' Hin; apply (H k' v');
                                         now right).
  destruct v; try reflexivity. rewrite (H k (VObj o)) by now left.
  reflexivity.
Qed.

Lemma isPlainObject_inv (v : value) :
  isPlainObject v = true -> exists t, v = VObj t.
Proof. destruct v; try discriminate. eauto. Qed.

Lemma animatorFor_kept (r : nat) (path : list string) (ks : list string)
  (ef : Obj) (w0 w w' : World) :
  animsKept w0 w -> animsKept w w' ->
  animatorFor r path ks ef w w' -> animatorFor r path ks ef w0 w'.
Proof.
  intros H0 _ (a & x & Hf & Hx & Hfields). exists a, x.
  split; [|auto].
  destruct (animS w0 !! a) as [y|] eqn:Hy; [|reflexivity].
  destruct (H0 a y Hy) as (y' & Hy' & _). congruence.
Qed.

Lemma animatorFor_later (r : nat) (path : list string) (ks : list string)
  (ef : Obj) (w w1 w' : World) :
  animsKept w1 w' ->
  animatorFor r path ks ef w w1 -> animatorFor r path ks ef w w'.
Proof.
  intros H1 (a & x & Hf & Hx & Ho & Hp & Hk & He).
  destruct (H1 a x Hx) as (x' & Hx' & Ho' & Hp' & Hk' & He').
  exists a, x'. repeat split; congruence.
Qed.

Lemma not_in_keys_cons (k' k : string) (v : value) (es : Obj) :
  ~ In k' (keys ((k, v) :: es)) -> k' <> k /\ ~ In k' (keys es).
Proof.
  intros H. split.
  - intros ->. apply H. now left.
  - intros Hin. apply H. now right.
Qed.

Section TopLevel.

Variables r arr : nat.
Variables (time delay : Arg) (reverse : bool).

(** The top-level loop of [animateToShallow], on a descriptor whose keys
    are names of data: it returns with [topPost], or throws the nesting
    error or, below a primitive value, the error of the assignment. *)
Lemma shallowKeys_top :
  forall (es : Obj) (acc : list string) (p : Obj) (w : World),
    Live r arr p w -> NoDup (keys es) -> dataKeys p es = true ->
    match shallowKeys
            (fun k p v => animateToShallow r k p v time delay reverse)
            r "" [] reverse es acc w with
    | Ok acc' w' =>
        exists p', Live r arr p' w'
                   /\ topPost r reverse p w es acc p' w' acc'
    | Raise msg _ => raisedBy reverse p es msg
    | Abort _ => False
    end.
Proof.
  induction es as [|[k v] es IH]; intros acc p w HL Hnd Hfit.
  { simpl. exists p. split; [exact HL|]. unfold topPost.
    split; [apply animsKept_refl|]. split; [auto|].
    split; [intros ? ? []|]. split; [intros ? ? ? []|].
    split; [auto|]. split; [auto|]. auto. }
  simpl in Hnd. apply NoDup_cons in Hnd as [Hk Hnd].
  rewrite list_elem_of_In in Hk.
  apply dataKeys_cons in Hfit as (Hres & Hsub & Hfit).
  assert (Hrest : forall k' v', In (k', v') es -> k' <> k).
  { intros k' v' Hin ->. apply Hk.
    change k with (fst (k, v')). now apply in_map. }
  assert (Hfit' : forall p1,
            (forall k', k' <> k -> oget k' p1 = oget k' p) ->
            dataKeys p1 es = true).
  { intros p1 Hfr. rewrite (dataKeys_ext p p1 es); [exact Hfit|].
    intros k' v' Hin. apply Hfr. now apply (Hrest k' v'). }
  assert (Hlater : forall p1 msg,
            (forall k', k' <> k -> oget k' p1 = oget k' p) ->
            raisedBy reverse p1 es msg ->
            raisedBy reverse p ((k, v) :: es) msg).
  { intros p1 msg Hfr [Hn|(Ha & k' & t' & Hin & Hp & Has)]; [now left|].
    right. split; [exact Ha|]. exists k', t'. split; [now right|].
    split; [|exact Has]. now rewrite <- (Hfr k' (Hrest _ _ Hin)). }
  cbn [shallowKeys].
  rewrite (bind_Ok _ _ _ _ _ (readKey_Live r arr p w [] p k HL eq_refl Hres)).
  destruct (isNull (oget k p)) eqn:Hnull; cbn [negb].
  - (* no live value *)
    assert (Hvn : oget k p = VNull) by (now destruct (oget k p)).
    destruct (negb (isNull v) && negb reverse) eqn:Hassign.
    + destruct (writeKey_Live r arr p w [] p k v HL eq_refl)
        as (w1 & Hrun & HL1 & Ha1).
      rewrite (bind_Ok _ _ _ _ _ Hrun). change (pset [] (oset k v p) p)
        with (oset k v p) in HL1.
      assert (Hfr : forall k', k' <> k -> oget k' (oset k v p) = oget k' p).
      { intros k' Hne. apply oget_oset_ne. congruence. }
      specialize (IH acc _ w1 HL1 Hnd (Hfit' _ Hfr)).
      destruct (shallowKeys _ r "" [] reverse es acc w1)
        as [acc' w'|msg w'|]; [|now apply (Hlater _ _ Hfr)|exact IH].
      destruct IH as (p' & HL' & Hkept & H3 & H4 & H5 & H6 & H7 & H8).
      exists p'. split; [exact HL'|]. unfold topPost.
      split; [eapply animsKept_trans;
              [apply animsKept_same; exact Ha1 | exact Hkept]|].
      split; [|split; [|split; [|split; [|split]]]].
      * intros k' Hk'. apply not_in_keys_cons in Hk' as [Hk1' Hk2'].
        rewrite H3 by exact Hk2'. now apply Hfr.
      * intros k' v' [[= <- <-]|Hin] Hleaf Hlive; [congruence|].
        rewrite <- (Hfr k' (Hrest _ _ Hin)) in Hlive.
        destruct (H4 k' v' Hin Hleaf Hlive) as [Hacc Hp'].
        split; [exact Hacc|]. rewrite Hp'. apply Hfr. eauto.
      * intros k' t o [[= <- ->]|Hin] Ho; [now rewrite Hvn in Ho|].
        rewrite <- (Hfr k' (Hrest _ _ Hin)) in Ho.
        destruct (H5 k' t o Hin Ho) as (src' & ks & Hs & Hp' & Han).
        exists src', ks. split; [exact Hs|].
        split; [now rewrite Hp', (Hfr k' (Hrest _ _ Hin))|].
        intros Hne. apply (animatorFor_kept r _ _ _ w w1 w');
          [apply animsKept_same; exact Ha1 | exact Hkept | now apply Han].
      * intros k' Hk'. destruct (H6 k' Hk') as [Hacc|(v' & Hin & Hl & Hv)];
          [now left|]. right. exists v'. split; [now right|].
        split; [exact Hl|]. now rewrite <- (Hfr k' (Hrest _ _ Hin)).
      * exact H7.
      * intros Hnda Hdis. apply H8; [exact Hnda|].
        intros k' Hk' Hin'. apply (Hdis k' Hk'). now right.
    + specialize (IH acc p w HL Hnd Hfit).
      destruct (shallowKeys _ r "" [] reverse es acc w)
        as [acc' w'|msg w'|];
        [|now apply (Hlater p _ (fun _ _ => eq_refl))|exact IH].
      destruct IH as (p' & HL' & Hkept & H3 & H4 & H5 & H6 & H7 & H8).
      exists p'. split; [exact HL'|]. unfold topPost.
      split; [exact Hkept|].
      split; [|split; [|split; [|split; [|split]]]].
      * intros k' Hk'. apply not_in_keys_cons in Hk' as [Hk1' Hk2'].
        now apply H3.
      * intros k' v' [[= <- <-]|Hin] Hleaf Hlive; [congruence|].
        now apply (H4 k' v').
      * intros k' t o [[= <- ->]|Hin] Ho; [now rewrite Hvn in Ho|].
        now apply (H5 k' t o).
      * intros k' Hk'. destruct (H6 k' Hk') as [Hacc|(v' & Hin & Hl & Hv)];
          [now left|]. right. exists v'. split; [now right|]. auto.
      * exact H7.
      * intros Hnda Hdis. apply H8; [exact Hnda|].
        intros k' Hk' Hin'. apply (Hdis k' Hk'). now right.
  - (* a live value *)
    assert (Hvn : oget k p <> VNull)
      by (intros Heq; rewrite Heq in Hnull; discriminate).
    destruct (isPlainObject v) eqn:Hpl.
    + (* a sub-object: the recursive call *)
      destruct (isPlainObject_inv v Hpl) as [t ->].
      destruct (Hsub t eq_refl) as [Hne Hsc2].
      change (String.eqb "" "") with true. cbn [negb app].
      destruct (dataOf (oget k p)) as [o|] eqn:Ho.
      * (* on the data of an object or of an array *)
        pose proof (animateToShallow_nested r arr time delay reverse k [k] t
                      p o w Hne Hsc2 HL ltac:(simpl; now rewrite Ho))
          as Hcall.
        unfold bind at 1.
        destruct (animateToShallow r k [k] (VObj t) time delay reverse w)
          as [[] w1|msg w1|]; [|left; now destruct Hcall|exact Hcall].
        destruct Hcall as (src' & ks & Hs & HL1 & Hk1 & Han1).
        rewrite (pset_single k _ o p Ho) in HL1.
        set (p1 := oset k (withData (oget k p)
                             (nestedFinal reverse t src' ks)) p) in *.
        assert (Hfr : forall k', k' <> k -> oget k' p1 = oget k' p).
        { intros k' Hne'. apply oget_oset_ne. congruence. }
        specialize (IH acc p1 w1 HL1 Hnd (Hfit' _ Hfr)).
        destruct (shallowKeys _ r "" [] reverse es acc w1)
          as [acc' w'|msg w'|]; [|now apply (Hlater _ _ Hfr)|exact IH].
        destruct IH as (p' & HL' & Hkept & H3 & H4 & H5 & H6 & H7 & H8).
        exists p'. split; [exact HL'|]. unfold topPost.
        split; [eapply animsKept_trans; eauto|].
        split; [|split; [|split; [|split; [|split]]]].
        -- intros k' Hk'. apply not_in_keys_cons in Hk' as [Hk1' Hk2'].
           rewrite H3 by exact Hk2'. now apply Hfr.
        -- intros k' v' [[= <- <-]|Hin] Hleaf Hlive; [discriminate|].
           rewrite <- (Hfr k' (Hrest _ _ Hin)) in Hlive.
           destruct (H4 k' v' Hin Hleaf Hlive) as [Hacc Hp'].
           split; [exact Hacc|]. rewrite Hp'. apply Hfr. eauto.
        -- intros k' t' o' [[= <- <-]|Hin] Ho'.
           ++ assert (o' = o) by congruence. subst o'.
              exists src', ks. split; [exact Hs|]. split.
              ** rewrite (H3 k Hk). unfold p1. apply oget_oset_eq.
              ** intros Hne'.
                 apply (animatorFor_later r _ _ _ w w1 w' Hkept).
                 now apply Han1.
           ++ rewrite <- (Hfr k' (Hrest _ _ Hin)) in Ho'.
              destruct (H5 k' t' o' Hin Ho')
                as (src2 & ks2 & Hs2 & Hp2 & Han2).
              exists src2, ks2. split; [exact Hs2|].
              split; [now rewrite Hp2, (Hfr k' (Hrest _ _ Hin))|].
              intros Hne'. apply (animatorFor_kept r _ _ _ w w1 w' Hk1 Hkept).
              now apply Han2.
        -- intros k' Hk'.
           destruct (H6 k' Hk') as [Hacc|(v' & Hin & Hl & Hv)];
             [now left|]. right. exists v'. split; [now right|].
           split; [exact Hl|]. now rewrite <- (Hfr k' (Hrest _ _ Hin)).
        -- exact H7.
        -- intros Hnda Hdis. apply H8; [exact Hnda|].
           intros k' Hk' Hin'. apply (Hdis k' Hk'). now right.
      * (* on a primitive value *)
        unfold bind at 1.
        rewrite (animateToShallow_prim r arr time delay reverse k [k] t p w
                   Hsc2 HL ltac:(simpl; now rewrite Ho)
                   ltac:(simpl; now apply isPrimitive_live)).
        destruct (assignsTo reverse t) eqn:Has.
        { right. split; [reflexivity|]. exists k, t.
          split; [now left|]. split; [|exact Has].
          now apply isPrimitive_live. }
        specialize (IH acc p w HL Hnd Hfit).
        destruct (shallowKeys _ r "" [] reverse es acc w)
          as [acc' w'|msg w'|];
          [|now apply (Hlater p _ (fun _ _ => eq_refl))|exact IH].
        destruct IH as (p' & HL' & Hkept & H3 & H4 & H5 & H6 & H7 & H8).
        exists p'. split; [exact HL'|]. unfold topPost.
        split; [exact Hkept|].
        split; [|split; [|split; [|split; [|split]]]].
        -- intros k' Hk'. apply not_in_keys_cons in Hk' as [Hk1' Hk2'].
           now apply H3.
        -- intros k' v' [[= <- <-]|Hin] Hleaf Hlive; [discriminate|].
           now apply (H4 k' v').
        -- intros k' t' o' [[= <- <-]|Hin] Ho'; [congruence|].
           now apply (H5 k' t' o').
        -- intros k' Hk'.
           destruct (H6 k' Hk') as [Hacc|(v' & Hin & Hl & Hv)];
             [now left|]. right. exists v'. split; [now right|]. auto.
        -- exact H7.
        -- intros Hnda Hdis. apply H8; [exact Hnda|].
           intros k' Hk' Hin'. apply (Hdis k' Hk'). now right.
    + (* an animatable key *)
      specialize (IH (acc ++ [k]) p w HL Hnd Hfit).
      destruct (shallowKeys _ r "" [] reverse es (acc ++ [k]) w)
        as [acc' w'|msg w'|];
        [|now apply (Hlater p _ (fun _ _ => eq_refl))|exact IH].
      destruct IH as (p' & HL' & Hkept & H3 & H4 & H5 & H6 & H7 & H8).
      exists p'. split; [exact HL'|]. unfold topPost.
      split; [exact Hkept|].
      split; [|split; [|split; [|split; [|split]]]].
      * intros k' Hk'. apply not_in_keys_cons in Hk' as [Hk1' Hk2'].
        now apply H3.
      * intros k' v' [[= <- <-]|Hin] Hleaf Hlive.
        -- split; [apply H7, in_or_app; right; now left | now apply H3].
        -- now apply (H4 k' v').
      * intros k' t o [[= <- ->]|Hin] Ho; [discriminate|].
        now apply (H5 k' t o).
      * intros k' Hk'. destruct (H6 k' Hk') as [Hacc|(v' & Hin & Hl & Hv)].
        -- apply in_app_or in Hacc as [Hacc|[<-|[]]]; [now left|].
           right. exists v. split; [now left|]. auto.
        -- right. exists v'. split; [now right|]. auto.
      * intros k' Hk'. apply H7, in_or_app. now left.
      * intros Hnda Hdis. apply H8.
        -- apply NoDup_app. split; [exact Hnda|]. split.
           ++ intros x Hx Hx'. apply list_elem_of_In in Hx, Hx'.
              destruct Hx' as [<-|[]]. apply (Hdis k Hx). now left.
           ++ apply NoDup_singleton.
        -- intros k' Hk' Hin'. apply in_app_or in Hk' as [Hk'|[<-|[]]].
           ++ apply (Hdis k' Hk'). now right.
           ++ now apply Hk.
Qed.

End TopLevel.

(** *** Stopping the animators of an element *)

Lemma stopAll_run (l : list nat) :
  forall w,
    (forall a, In a l -> is_Some (animS w !! a)) ->
    exists w',
      forM l (fun a => animStop a false) w = Ok tt w'
      /\ elems w' = elems w /\ arrays w' = arrays w
      /\ animsKept w w'.
Proof.
  induction l as [|a l IH]; intros w Hall; simpl.
  - exists w. unfold ret. split; [reflexivity|].
    split; [reflexivity|]. split; [reflexivity | apply animsKept_refl].
  - destruct (Hall a (or_introl eq_refl)) as [x Hx].
    unfold animStop at 1.
    assert (Hget : getAnim a w = Ok x w) by (unfold getAnim; now rewrite Hx).
    unfold bind at 1 2. rewrite Hget. simpl.
    unfold bind at 1, ret.
    rewrite (modAnim_Ok a _ w x Hx).
    set (w1 := set_animS (<[a := set_status Stopped x]> (animS w)) w).
    assert (Hk1 : animsKept w w1).
    { intros b y Hy. unfold w1; simpl.
      destruct (decide (a = b)) as [->|Hne].
      - rewrite lookup_insert_eq. assert (y = x) by congruence. subst y.
        eexists. split; [reflexivity|]. auto.
      - rewrite lookup_insert_ne by exact Hne. exists y. auto. }
    destruct (IH w1) as (w' & Hrun & He & Ha & Hk).
    { intros b Hb. destruct (Hall b (or_intror Hb)) as [y Hy].
      destruct (Hk1 b y Hy) as (y' & Hy' & _). eauto. }
    exists w'. split; [exact Hrun|]. split; [exact He|].
    split; [exact Ha|]. eapply animsKept_trans; eauto.
Qed.

Lemma stopAnimation_run (r : nat) (w : World) (e : Element) (l : list nat) :
  elems w !! r = Some e ->
  arrays w !! animators e = Some l ->
  (forall a, In a l -> is_Some (animS w !! a)) ->
  exists w' arr',
    stopAnimation r false w = Ok tt w'
    /\ Live r arr' (props e) w'
    /\ animsKept w w'.
Proof.
  intros He Hl Hall. unfold stopAnimation.
  rewrite (bind_Ok _ _ _ _ _ (getEl_Ok _ _ _ He)).
  rewrite (bind_Ok _ _ _ _ _ (getArr_Ok _ _ _ Hl)).
  destruct (stopAll_run l w Hall) as (w1 & Hrun & He1 & Ha1 & Hk1).
  rewrite (bind_Ok _ _ _ _ _ Hrun).
  unfold get, bind at 1. unfold setArr, modify, bind at 1.
  set (arr' := fresh (dom (arrays w1))).
  erewrite modEl_Ok by (simpl; rewrite He1; exact He).
  eexists _, arr'. split; [reflexivity|]. split.
  - exists (set_animators arr' e), []. simpl.
    rewrite !lookup_insert_eq. auto.
  - intros a x Hx. simpl. now apply Hk1.
Qed.

(** *** What starting and finishing animators leaves alone

    The callbacks, the start of an animator and the loop that starts the
    animators of a call change animators, arrays, counters and the log; the
    elements are not touched, and the animators keep their target, keys and
    end keyframe. *)

Lemma quiet_bind {A B} (m : M A) (k : A -> M B) :
  quiet m -> (forall a, quiet (k a)) -> quiet (bind m k).
Proof.
  intros Hm Hk w. unfold bind. specialize (Hm w).
  destruct (m w) as [a w1| |]; [|exact I|exact I].
  specialize (Hk a w1). destruct (k a w1) as [b w2| |]; [|exact I|exact I].
  destruct Hm as [E1 K1], Hk as [E2 K2].
  split; [congruence | eapply animsKept_trans; eauto].
Qed.

Lemma quiet_ret {A} (a : A) : quiet (ret a).
Proof. intros w. split; [reflexivity | apply animsKept_refl]. Qed.

Lemma quiet_same {A} (m : M A) :
  (forall w, match m w with
             | Ok _ w' => elems w' = elems w /\ animS w' = animS w
             | _ => True
             end) ->
  quiet m.
Proof.
  intros H w. specialize (H w). destruct (m w); [|exact I|exact I].
  destruct H as [E S]. split; [exact E | now apply animsKept_same].
Qed.

Lemma quiet_forM {A} (l : list A) (body : A -> M unit) :
  (forall x, quiet (body x)) -> quiet (forM l body).
Proof.
  intros H. induction l as [|x l IH]; simpl.
  - apply quiet_ret.
  - apply quiet_bind; auto.
Qed.

Lemma quiet_modAnim (a : nat) (f : Animator -> Animator) :
  (forall x, a_owner (f x) = a_owner x /\ a_path (f x) = a_path x
             /\ a_keys (f x) = a_keys x /\ a_end (f x) = a_end x) ->
  quiet (modAnim a f).
Proof.
  intros Hf w. unfold modAnim, bind, getAnim.
  destruct (animS w !! a) as [x|] eqn:Hx; [|exact I]. simpl.
  split; [reflexivity|]. intros b y Hy. simpl.
  destruct (decide (a = b)) as [->|Hne].
  - rewrite lookup_insert_eq. assert (y = x) by congruence. subst y.
    eexists. split; [reflexivity|]. apply Hf.
  - rewrite lookup_insert_ne by exact Hne. exists y. auto.
Qed.

Lemma quiet_invoke (callback : Arg) : quiet (invoke callback).
Proof.
  apply quiet_same. intros w.
  destruct callback as [|[]|[|]|]; simpl; auto.
Qed.

Lemma quiet_runCallback (cb : Callback) : quiet (runCallback cb).
Proof.
  destruct cb as [arr anim|c]; simpl.
  - apply quiet_same. intros w. unfold bind, getArr.
    destruct (arrays w !! arr); simpl; auto.
  - apply quiet_bind.
    { apply quiet_same. intros w. unfold getCounter.
      destruct (counters w !! c); auto. }
    intros x. apply quiet_bind.
    { apply quiet_same. intros w. simpl. auto. }
    intros _. unfold when. destruct (c_count x - 1 =? 0).
    + apply quiet_invoke.
    + apply quiet_ret.
Qed.

Lemma quiet_finish (a : nat) : quiet (finish a).
Proof.
  unfold finish. apply quiet_bind; [now apply quiet_modAnim|]. intros _.
  intros w. unfold bind, getAnim.
  destruct (animS w !! a) as [x|]; [|exact I].
  apply (quiet_forM (a_done x) runCallback quiet_runCallback).
Qed.

Lemma quiet_animStart (a : nat) (easing : Arg) (force : bool) :
  quiet (animStart a easing force).
Proof.
  intros w. unfold animStart, bind at 1, getAnim.
  destruct (animS w !! a) as [x|]; [|exact I].
  unfold bind at 1, getEl.
  destruct (elems w !! a_owner x) as [e|]; [|exact I].
  destruct (pget (a_path x) (props e)) as [cur|]; [|exact I].
  destruct (negb force && forallb _ (a_keys x)).
  - apply quiet_finish.
  - now apply quiet_modAnim.
Qed.

Lemma quiet_startLoop (counter : nat) (easing : Arg) (force : bool)
  (animators : nat) :
  forall n i, quiet (startLoop n animators i counter easing force).
Proof.
  induction n as [|n IH]; intros i w.
  - simpl. unfold bind, getArr. destruct (arrays w !! animators) as [l|];
      [|exact I]. destruct (l !! i); [exact I|].
    simpl. split; [reflexivity | apply animsKept_refl].
  - cbn [startLoop]. unfold bind at 1, getArr.
    destruct (arrays w !! animators) as [l|]; [|exact I].
    destruct (l !! i) as [a|].
    + apply (quiet_bind (modAnim a (add_done (CbCountdown counter))));
        [now apply quiet_modAnim|]. intros _.
      apply quiet_bind; [apply quiet_animStart|]. intros _. apply IH.
    + simpl. split; [reflexivity | apply animsKept_refl].
Qed.

(** *** The pure loops *)

Lemma oget_In (k : string) (v : value) (o : Obj) :
  NoDup (keys o) -> In (k, v) o -> oget k o = v.
Proof.
  induction o as [|[k0 v0] o IH]; intros Hnd Hin; [destruct Hin|].
  simpl in Hnd. apply NoDup_cons in Hnd as [Hk Hnd].
  rewrite list_elem_of_In in Hk. simpl.
  destruct Hin as [[= -> ->]|Hin].
  - now rewrite String.eqb_refl.
  - destruct (String.eqb_spec k k0) as [->|Hne].
    + exfalso. apply Hk. change k0 with (fst (k0, v)). now apply in_map.
    + now apply IH.
Qed.

Lemma In_unique (k : string) (v v' : value) (o : Obj) :
  NoDup (keys o) -> In (k, v) o -> In (k, v') o -> v = v'.
Proof.
  intros Hnd H1 H2.
  rewrite <- (oget_In k v o Hnd H1). now apply oget_In.
Qed.


Lemma swapPure_fst_notin (t : Obj) (k : string) (ks : list string) :
  forall src rt, ~ In k ks -> oget k (swapPure t ks src rt).1 = oget k src.
Proof.
  induction ks as [|k0 ks IH]; intros src rt Hk; [reflexivity|].
  simpl. rewrite IH by (intros H; apply Hk; now right).
  apply oget_oset_ne. intros ->. apply Hk. now left.
Qed.






(** ** Invariants of the animation merge *)

Lemma preserves_ret (I : World -> Prop) {A} (a : A) : preserves I (ret a).
Proof. intros w HI. exact HI. Qed.

Lemma preserves_bind (I : World -> Prop) {A B} (m : M A) (k : A -> M B) :
  preserves I m -> (forall a, preserves I (k a)) -> preserves I (bind m k).
Proof.
  intros Hm Hk w HI. unfold bind. specialize (Hm w HI).
  destruct (m w) as [a w1|msg w1|]; [|exact Hm|exact Logic.I].
  now apply Hk.
Qed.

Lemma preserves_forM (I : World -> Prop) {A} (l : list A)
  (body : A -> M unit) :
  (forall x, In x l -> preserves I (body x)) -> preserves I (forM l body).
Proof.
  induction l as [|x l IH]; intros H; simpl.
  - apply preserves_ret.
  - apply preserves_bind; [apply H; now left|].
    intros _. apply IH. intros y Hy. apply H. now right.
Qed.

Lemma preserves_when (I : World -> Prop) (c : bool) (m : M unit) :
  preserves I m -> preserves I (when c m).
Proof. intros H. destruct c; [exact H | apply preserves_ret]. Qed.

Lemma value_size_In (k : string) (v : value) (o : Obj) :
  In (k, v) o -> (value_size v < value_size (VObj o))%nat.
Proof.
  induction o as [|[k' u] o IH]; intros Hin; [destruct Hin|].
  destruct Hin as [[= -> ->]|Hin].
  - simpl. lia.
  - specialize (IH Hin). simpl in *. lia.
Qed.

Lemma In_spliceOut (l : list nat) (a x : nat) :
  In x (spliceOut l a) -> In x l.
Proof.
  unfold spliceOut. destruct (indexOf l a) as [i|].
  - rewrite <- !list_elem_of_In. apply list_elem_of_delete_inv.
  - intros H. induction l as [|y l IH]; [exact H|].
    destruct l as [|z l]; [destruct H|].
    destruct H as [->|H]; [now left|]. right. now apply IH.
Qed.

Lemma getAnim_Ok_ext (a : nat) (w : World) (x : Animator) :
  animS w !! a = Some x -> getAnim a w = Ok x w.
Proof. unfold getAnim. now intros ->. Qed.

Section Replacing.

Variables (w0 : World) (l0 : list nat) (r arr : nat).

Lemma replacing_ext (w w' : World) :
  elems w' = elems w -> arrays w' = arrays w -> animS w' = animS w ->
  replacing w0 l0 r arr w -> replacing w0 l0 r arr w'.
Proof.
  intros He Ha Hs (Hold & e & l & H1 & H2 & H3 & H4). split.
  - intros a x Hx. rewrite Hs. exact (Hold a x Hx).
  - exists e, l. rewrite He, Ha. auto.
Qed.

Lemma preserves_same {A} (m : M A) :
  (forall w, match m w with
             | Ok _ w' | Raise _ w' =>
                 elems w' = elems w /\ arrays w' = arrays w
                 /\ animS w' = animS w
             | Abort _ => True
             end) ->
  preserves (replacing w0 l0 r arr) m.
Proof.
  intros H w HI. specialize (H w).
  destruct (m w) as [a w'|msg w'|]; [| |exact Logic.I];
    destruct H as (H1 & H2 & H3); now apply (replacing_ext w w').
Qed.

Lemma replacing_fresh (w : World) (a : nat) :
  replacing w0 l0 r arr w -> animS w !! a = None -> animS w0 !! a = None.
Proof.
  intros (Hold & _) Hf. destruct (animS w0 !! a) as [x|] eqn:E; [|reflexivity].
  destruct (Hold a x E) as (x' & Hx' & _). congruence.
Qed.

Lemma preserves_getEl (x : nat) : preserves (replacing w0 l0 r arr) (getEl x).
Proof.
  apply preserves_same. intros w. unfold getEl.
  now destruct (elems w !! x).
Qed.

Lemma preserves_getArr (x : nat) :
  preserves (replacing w0 l0 r arr) (getArr x).
Proof.
  apply preserves_same. intros w. unfold getArr.
  now destruct (arrays w !! x).
Qed.

Lemma preserves_getAnim (x : nat) :
  preserves (replacing w0 l0 r arr) (getAnim x).
Proof.
  apply preserves_same. intros w. unfold getAnim.
  now destruct (animS w !! x).
Qed.

Lemma preserves_getCounter (x : nat) :
  preserves (replacing w0 l0 r arr) (getCounter x).
Proof.
  apply preserves_same. intros w. unfold getCounter.
  now destruct (counters w !! x).
Qed.

Lemma preserves_get : preserves (replacing w0 l0 r arr) get.
Proof. apply preserves_same. intros w. now unfold get. Qed.

Lemma preserves_emit (ev : Event) : preserves (replacing w0 l0 r arr) (emit ev).
Proof. apply preserves_same. intros w. now unfold emit, modify. Qed.

Lemma preserves_setCounter (c : nat) (x : Counter) :
  preserves (replacing w0 l0 r arr) (setCounter c x).
Proof. apply preserves_same. intros w. now unfold setCounter, modify. Qed.

Lemma preserves_schedAdd (zr a : nat) :
  preserves (replacing w0 l0 r arr) (schedAdd zr a).
Proof. apply preserves_same. intros w. now unfold schedAdd, modify. Qed.

Lemma preserves_invoke (callback : Arg) :
  preserves (replacing w0 l0 r arr) (invoke callback).
Proof.
  apply preserves_same. intros w. unfold invoke.
  destruct callback as [|n|s|f]; try (now unfold throw, ret, emit, modify).
  - destruct n; now unfold throw, ret.
  - destruct s; now unfold throw, ret.
Qed.

Lemma preserves_readKey (el : nat) (path : list string) (k : string) :
  preserves (replacing w0 l0 r arr) (readKey el path k).
Proof.
  apply preserves_same. intros w. unfold readKey, bind, getEl.
  destruct (elems w !! el) as [e|]; [|exact Logic.I].
  destruct (pget path (props e)) as [o|].
  - now destruct (isNull (oget k o) && reserved path (props e) k).
  - destruct (isPrimitive (vget path (VObj (props e)))); [|exact Logic.I].
    now destruct (reserved path (props e) k).
Qed.

Lemma preserves_writeKey (el : nat) (path : list string) (k : string)
  (v : value) :
  preserves (replacing w0 l0 r arr) (writeKey el path k v).
Proof.
  intros w (Hold & e & l & H1 & H2 & H3 & H4). unfold writeKey, bind, getEl.
  destruct (elems w !! el) as [e1|] eqn:He1; [|exact Logic.I].
  destruct (pmod path (oset k v) (props e1)) as [p'|]; cycle 1.
  { destruct (isPrimitive (vget path (VObj (props e1)))); [|exact Logic.I].
    split; [exact Hold|]. exists e, l. auto. }
  unfold setEl, modify. split; [exact Hold|].
  destruct (decide (el = r)) as [->|Hne].
  - exists (set_props p' e1), l. simpl. rewrite lookup_insert_eq.
    assert (e1 = e) by congruence. subst e1. auto.
  - exists e, l. simpl. rewrite lookup_insert_ne by exact Hne. auto.
Qed.

Lemma preserves_modAnim (a : nat) (f : Animator -> Animator) :
  animS w0 !! a = None ->
  preserves (replacing w0 l0 r arr) (modAnim a f).
Proof.
  intros Hnew w (Hold & Hnode). unfold modAnim, bind, getAnim.
  destruct (animS w !! a) as [x|]; [|exact Logic.I].
  unfold setAnim, modify. split; [|exact Hnode].
  intros b y Hy. simpl. rewrite lookup_insert_ne by congruence.
  exact (Hold b y Hy).
Qed.

Lemma preserves_runCallback (cb : Callback) :
  preserves (replacing w0 l0 r arr) (runCallback cb).
Proof.
  destruct cb as [arr' a|c]; simpl.
  - intros w (Hold & e & l & H1 & H2 & H3 & H4). unfold bind, getArr.
    destruct (arrays w !! arr') as [l'|] eqn:Hl'; [|exact Logic.I].
    unfold setArr, modify. split; [exact Hold|].
    destruct (decide (arr' = arr)) as [->|Hne].
    + exists e, (spliceOut l' a). simpl. rewrite lookup_insert_eq.
      assert (l' = l) by congruence. subst l'.
      repeat split; auto. intros b Hb. apply H4.
      now apply (In_spliceOut l a).
    + exists e, l. simpl. rewrite lookup_insert_ne by exact Hne. auto.
  - apply preserves_bind; [apply preserves_getCounter|]. intros x.
    apply preserves_bind; [apply preserves_setCounter|]. intros _.
    apply preserves_when, preserves_invoke.
Qed.

Lemma preserves_finish (a : nat) :
  animS w0 !! a = None ->
  preserves (replacing w0 l0 r arr) (finish a).
Proof.
  intros Hnew. unfold finish.
  apply preserves_bind; [now apply preserves_modAnim|]. intros _.
  apply preserves_bind; [apply preserves_getAnim|]. intros x.
  apply preserves_forM. intros cb _. apply preserves_runCallback.
Qed.

Lemma preserves_animStart (a : nat) (easing : Arg) (force : bool) :
  animS w0 !! a = None ->
  preserves (replacing w0 l0 r arr) (animStart a easing force).
Proof.
  intros Hnew. unfold animStart.
  apply preserves_bind; [apply preserves_getAnim|]. intros x.
  apply preserves_bind; [apply preserves_getEl|]. intros e.
  destruct (pget (a_path x) (props e)) as [cur|].
  - destruct (negb force && _).
    + now apply preserves_finish.
    + now apply preserves_modAnim.
  - intros w _. exact Logic.I.
Qed.

Lemma preserves_startLoop (counter : nat) (easing : Arg) (force : bool) :
  forall n i, preserves (replacing w0 l0 r arr)
                (startLoop n arr i counter easing force).
Proof.
  induction n as [|n IH]; intros i w HI.
  - pose proof HI as (_ & e & l & H1 & H2 & H3 & H4).
    cbn [startLoop]. rewrite (bind_Ok _ _ _ _ _ (getArr_Ok _ _ _ H3)).
    destruct (l !! i); [exact Logic.I | exact HI].
  - pose proof HI as (_ & e & l & H1 & H2 & H3 & H4).
    cbn [startLoop]. rewrite (bind_Ok _ _ _ _ _ (getArr_Ok _ _ _ H3)).
    destruct (l !! i) as [a|] eqn:Hi; [|exact HI].
    assert (Hnew : animS w0 !! a = None).
    { apply H4. apply list_elem_of_In. now apply (list_elem_of_lookup_2 l i). }
    refine (preserves_bind (replacing w0 l0 r arr) (modAnim a _) _ _ _ w HI);
      [now apply preserves_modAnim|]. intros _.
    apply preserves_bind; [now apply preserves_animStart|]. intros _.
    apply IH.
Qed.

Lemma preserves_startAnimators (easing callback : Arg) (force : bool) :
  preserves (replacing w0 l0 r arr) (startAnimators r easing callback force).
Proof.
  intros w HI. pose proof HI as (_ & e & l & H1 & H2 & H3 & H4).
  unfold startAnimators.
  rewrite (bind_Ok _ _ _ _ _ (getEl_Ok _ _ _ H1)), H2.
  rewrite (bind_Ok _ _ _ _ _ (getArr_Ok _ _ _ H3)).
  refine (preserves_bind (replacing w0 l0 r arr) get _ _ _ w HI);
    [apply preserves_get|]. intros w1.
  apply preserves_bind; [apply preserves_setCounter|]. intros _.
  apply preserves_bind; [apply preserves_when, preserves_invoke|]. intros _.
  apply preserves_startLoop.
Qed.

Lemma createAnimator_exact (w : World) (e : Element) (l : list nat)
  (path : list string) (time delay : Arg) (endProps : Obj)
  (ks : list string) (topKey : string) :
  elems w !! r = Some e ->
  arrays w !! animators e = Some l ->
  exists w',
    (animator <- newAnimator r path time delay endProps ks ;;
     addAnimator r animator topKey) w = Ok tt w'
    /\ elems w' = elems w
    /\ arrays w' =
       <[animators e := l ++ [fresh (dom (animS w))]]> (arrays w)
    /\ animS w' =
       <[fresh (dom (animS w)) :=
           mkAnimator r path false ks (keyframe endProps ks) time delay
             [topKey] [CbSplice (animators e) (fresh (dom (animS w)))]
             Created]> (animS w)
    /\ counters w' = counters w
    /\ log w' = log w
    /\ (forall zr, __zr e = Some zr ->
          fresh (dom (animS w)) ∈ registry w' zr)
    /\ (forall zr a, a ∈ registry w zr -> a ∈ registry w' zr).
Proof.
  intros He Hl. set (a := fresh (dom (animS w))).
  assert (Hnew : newAnimator r path time delay endProps ks w =
                 Ok a (set_animS
                         (<[a := mkAnimator r path false ks
                                   (keyframe endProps ks) time delay [] []
                                   Created]> (animS w)) w)) by reflexivity.
  rewrite (bind_Ok _ _ _ _ _ Hnew). unfold addAnimator.
  erewrite bind_Ok by (apply getEl_Ok; exact He).
  erewrite bind_Ok by (apply modAnim_Ok; simpl; apply lookup_insert_eq).
  erewrite bind_Ok by (apply modAnim_Ok; simpl; apply lookup_insert_eq).
  erewrite bind_Ok by (apply getArr_Ok; simpl; exact Hl).
  unfold setArr, modify, bind. simpl. rewrite !insert_insert_eq.
  destruct (__zr e) as [z|].
  - eexists. split; [reflexivity|]. simpl.
    repeat (split; [reflexivity|]). split.
    + intros zr [= <-]. unfold registry. simpl. rewrite lookup_insert_eq.
      set_solver.
    + intros zr b Hb. unfold registry in *. simpl.
      destruct (decide (z = zr)) as [->|Hne].
      * rewrite lookup_insert_eq. set_solver.
      * now rewrite lookup_insert_ne.
  - eexists. split; [reflexivity|]. simpl.
    repeat (split; [reflexivity|]). split; [discriminate | auto].
Qed.

Lemma preserves_createAnimator (path : list string) (time delay : Arg)
  (endProps : Obj) (ks : list string) (topKey : string) :
  preserves (replacing w0 l0 r arr)
    (animator <- newAnimator r path time delay endProps ks ;;
     addAnimator r animator topKey).
Proof.
  intros w HI. pose proof HI as (Hold & e & l & H1 & H2 & H3 & H4).
  rewrite <- H2 in H3.
  destruct (createAnimator_exact w e l path time delay endProps ks topKey
              H1 H3) as (w' & Hrun & He & Ha & Hs & _).
  rewrite Hrun.
  assert (Hfresh : animS w !! fresh (dom (animS w)) = None).
  { apply not_elem_of_dom. apply is_fresh. }
  pose proof (replacing_fresh w _ HI Hfresh) as Hnew0.
  split.
  - intros b y Hy. rewrite Hs. rewrite lookup_insert_ne by congruence.
    exact (Hold b y Hy).
  - exists e, (l ++ [fresh (dom (animS w))]). rewrite He, Ha.
    split; [exact H1|]. split; [exact H2|].
    split; [rewrite <- H2; apply lookup_insert_eq|].
    intros b Hb. apply in_app_or in Hb as [Hb|[<-|[]]]; auto.
Qed.

Lemma preserves_swapKeys (path : list string) (target : Obj) :
  forall (ks : list string) (rt : Obj),
    preserves (replacing w0 l0 r arr) (swapKeys r path target ks rt).
Proof.
  induction ks as [|k ks IH]; intros rt; simpl.
  - apply preserves_ret.
  - apply preserves_bind; [apply preserves_readKey|]. intros sv.
    apply preserves_bind; [apply preserves_writeKey|]. intros _. apply IH.
Qed.

Lemma preserves_animateKeys (topKey : string) (path : list string) (t : Obj)
  (time delay : Arg) (reverse : bool) (ks : list string) :
  preserves (replacing w0 l0 r arr)
    (animateKeys r topKey path t time delay reverse ks).
Proof.
  unfold animateKeys. destruct (Nat.ltb 0 (length ks)); [|apply preserves_ret].
  apply preserves_bind.
  - destruct reverse; [apply preserves_swapKeys | apply preserves_ret].
  - intros endProps. apply preserves_createAnimator.
Qed.

Lemma preserves_shallowKeys (rec : string -> list string -> value -> M unit)
  (topKey : string) (path : list string) (reverse : bool) :
  forall (es : Obj) (acc : list string),
    (forall k p v, In (k, v) es ->
       preserves (replacing w0 l0 r arr) (rec k p v)) ->
    preserves (replacing w0 l0 r arr)
      (shallowKeys rec r topKey path reverse es acc).
Proof.
  induction es as [|[k tv] es IH]; intros acc Hrec; simpl.
  - apply preserves_ret.
  - assert (Hrest : forall acc',
              preserves (replacing w0 l0 r arr)
                (shallowKeys rec r topKey path reverse es acc')).
    { intros acc'. apply IH. intros k' p v Hin. apply Hrec. now right. }
    apply preserves_bind; [apply preserves_readKey|]. intros sv.
    destruct (negb (isNull sv)).
    + destruct (isPlainObject tv).
      * destruct (negb (String.eqb topKey "")).
        -- intros w HI. exact HI.
        -- apply preserves_bind; [apply Hrec; now left|]. intros _.
           apply Hrest.
      * apply Hrest.
    + destruct (negb (isNull tv) && negb reverse).
      * apply preserves_bind; [apply preserves_writeKey|]. intros _.
        apply Hrest.
      * apply Hrest.
Qed.

Lemma preserves_animateToShallow (time delay : Arg) (reverse : bool) :
  forall (n : nat) (target : value) (topKey : string) (path : list string),
    (value_size target < n)%nat ->
    preserves (replacing w0 l0 r arr)
      (animateToShallow r topKey path target time delay reverse).
Proof.
  induction n as [|n IH]; intros target topKey path Hn; [lia|].
  destruct target as [| | | | |t]; try apply preserves_ret.
  cbn [animateToShallow]. apply preserves_bind.
  - apply preserves_shallowKeys. intros k p v Hin. apply IH.
    pose proof (value_size_In k v t Hin). lia.
  - intros ks. apply preserves_animateKeys.
Qed.

End Replacing.

Lemma animStop_false_Ok (a : nat) (w : World) (x : Animator) :
  animS w !! a = Some x ->
  animStop a false w =
  Ok tt (set_animS (<[a := set_status Stopped x]> (animS w)) w).
Proof.
  intros Hx. unfold animStop.
  rewrite (bind_Ok _ _ _ _ _ (getAnim_Ok_ext a w x Hx)).
  simpl. unfold bind at 1, ret at 1. now apply modAnim_Ok.
Qed.

(** Stopping the animators of an array: all of them are stopped, the
    others are as they were, and nothing else changes. *)
Lemma stopAll_status (l : list nat) :
  forall w,
    (forall a, In a l -> is_Some (animS w !! a)) ->
    exists am,
      forM l (fun a => animStop a false) w = Ok tt (set_animS am w)
      /\ forall a x, animS w !! a = Some x ->
           exists x', am !! a = Some x'
                      /\ (In a l \/ a_status x = Stopped ->
                          a_status x' = Stopped).
Proof.
  induction l as [|a l IH]; intros w Hall; simpl.
  - exists (animS w). split; [now destruct w|]. intros a x Hx.
    exists x. split; [exact Hx|]. now intros [[]|H].
  - destruct (Hall a (or_introl eq_refl)) as [x Hx].
    rewrite (bind_Ok _ _ _ _ _ (animStop_false_Ok a w x Hx)).
    set (w1 := set_animS (<[a := set_status Stopped x]> (animS w)) w).
    destruct (IH w1) as (am & Hrun & Hpost).
    { intros b Hb. simpl. destruct (decide (a = b)) as [->|Hne].
      - rewrite lookup_insert_eq. eauto.
      - rewrite lookup_insert_ne by exact Hne. apply Hall. now right. }
    exists am. split; [exact Hrun|].
    intros b y Hy. destruct (decide (a = b)) as [->|Hne].
    + destruct (Hpost b (set_status Stopped x)) as (x' & Hx' & Hst).
      { simpl. apply lookup_insert_eq. }
      exists x'. split; [exact Hx'|]. intros _. apply Hst. now right.
    + destruct (Hpost b y) as (x' & Hx' & Hst).
      { simpl. now rewrite lookup_insert_ne. }
      exists x'. split; [exact Hx'|]. intros [[Heq|Hin]|Hs].
      * congruence.
      * apply Hst. now left.
      * apply Hst. now right.
Qed.

Lemma stopAnimation_exact (r : nat) (w : World) (e : Element) (l : list nat) :
  elems w !! r = Some e ->
  arrays w !! animators e = Some l ->
  (forall a, In a l -> is_Some (animS w !! a)) ->
  exists am,
    stopAnimation r false w =
    Ok tt (set_elems
             (<[r := set_animators (fresh (dom (arrays w))) e]> (elems w))
             (set_arrays (<[fresh (dom (arrays w)) := []]> (arrays w))
                (set_animS am w)))
    /\ forall a x, animS w !! a = Some x ->
         exists x', am !! a = Some x'
                    /\ (In a l \/ a_status x = Stopped ->
                        a_status x' = Stopped).
Proof.
  intros He Hl Hall. unfold stopAnimation.
  rewrite (bind_Ok _ _ _ _ _ (getEl_Ok _ _ _ He)).
  rewrite (bind_Ok _ _ _ _ _ (getArr_Ok _ _ _ Hl)).
  destruct (stopAll_status l w Hall) as (am & Hrun & Hpost).
  rewrite (bind_Ok _ _ _ _ _ Hrun).
  exists am. split; [|exact Hpost].
  unfold get, bind at 1. unfold setArr, modify, bind at 1.
  erewrite modEl_Ok by (simpl; exact He). reflexivity.
Qed.

(** [animateTo] and [animateFrom], whether they return or throw, leave
    the animators the node had stopped, and the node with a new array that
    holds only animators the call has created. *)
Lemma animateToImpl_replaces (w w' : World) (r : nat) (e : Element)
  (l : list nat) (target : Obj) (time delay easing callback : Arg)
  (force reverse : bool) :
  elems w !! r = Some e ->
  arrays w !! animators e = Some l ->
  (forall a, In a l -> is_Some (animS w !! a)) ->
  animateToImpl r target time delay easing callback force reverse w
  = Ok tt w'
  \/ (exists msg,
        animateToImpl r target time delay easing callback force reverse w
        = Raise msg w') ->
  replacing w l r (fresh (dom (arrays w))) w'.
Proof.
  intros He Hl Hall Hrun. unfold animateToImpl in Hrun.
  destruct (normalizeArgs time delay easing callback) as [[[tm dl] ea] cb].
  destruct (stopAnimation_exact r w e l He Hl Hall) as (am & Hstop & Hpost).
  set (arr := fresh (dom (arrays w))) in *.
  set (w1 := set_elems _ _) in Hstop.
  assert (HI1 : replacing w l r arr w1).
  { split.
    - intros a x Hx. destruct (Hpost a x Hx) as (x' & Hx' & Hst).
      exists x'. split; [exact Hx'|]. intros Hin. apply Hst. now left.
    - exists (set_animators arr e), []. simpl.
      rewrite !lookup_insert_eq. repeat split; auto. intros a []. }
  rewrite (bind_Ok _ _ _ _ _ Hstop) in Hrun.
  assert (Hrest : preserves (replacing w l r arr)
                    (animateToShallow r "" [] (VObj target) tm dl reverse ;;
                     startAnimators r ea cb force)).
  { apply preserves_bind.
    - apply (preserves_animateToShallow w l r arr tm dl reverse
               (S (value_size (VObj target)))). lia.
    - intros _. apply preserves_startAnimators. }
  specialize (Hrest w1 HI1).
  destruct Hrun as [Hrun|[msg Hrun]]; rewrite Hrun in Hrest; exact Hrest.
Qed.

(** ** C3: the nesting guard *)



(** Distinct keys, for a descriptor given in full. *)
Ltac nodup_keys :=
  unfold keys; simpl;
  repeat (apply NoDup_cons_2;
          [rewrite list_elem_of_In; simpl; intuition discriminate|]);
  apply NoDup_nil_2.

Lemma shapeWorld_ok : storeOk shapeWorld 1 shapeEl.
Proof.
  split; [reflexivity|]. exists []. split; [reflexivity|]. intros a [].
Defined.



(** Below a primitive value the assignment throws: the rotation of the bar
    is a number, and the call ends there, before it reaches the offending
    sub-object of the style. *)
Example assignment_below_primitive :
  exists w',
    animateTo 1
      [("rotation", VObj [("speed", VNum 1)]);
       ("textConfig", VObj [("position", VObj [("x", VNum 0)])])]
      AUndef AUndef AUndef AUndef false barWorld
    = Raise assignError w'.
Proof. eexists. vm_compute. reflexivity. Qed.

(** Below an array the assignment is made: the array of the position gets
    a further property, and the call returns. *)
Example assignment_below_array :
  exists w' e',
    animateTo 1 [("position", VObj [("speed", VNum 1)])]
      AUndef AUndef AUndef AUndef false shapeWorld = Ok tt w'
    /\ elems w' !! 1%nat = Some e'
    /\ getProp "position" e' = VArrX [10; 10] [("speed", VNum 1)].
Proof.
  eexists _, _. split; [vm_compute; reflexivity|].
  split; [vm_compute; reflexivity|]. reflexivity.
Qed.

(** ** C5: animateFrom *)

Lemma writeKey_Ok (r : nat) (path : list string) (k : string) (v : value)
  (w : World) (e : Element) (src : Obj) :
  elems w !! r = Some e -> pget path (props e) = Some src ->
  writeKey r path k v w =
  Ok tt (set_elems
           (<[r := set_props (pset path (oset k v src) (props e)) e]>
              (elems w)) w).
Proof.
  intros He Hg. unfold writeKey.
  rewrite (bind_Ok _ _ _ _ _ (getEl_Ok _ _ _ He)).
  now rewrite (pmod_pset path _ src _ Hg).
Qed.


Lemma quiet_startAnimators (r : nat) (easing callback : Arg) (force : bool) :
  quiet (startAnimators r easing callback force).
Proof.
  unfold startAnimators. apply quiet_bind.
  { apply quiet_same. intros w. unfold getEl.
    destruct (elems w !! r); auto. }
  intros e. apply quiet_bind.
  { apply quiet_same. intros w. unfold getArr.
    destruct (arrays w !! animators e); auto. }
  intros l. apply quiet_bind.
  { apply quiet_same. intros w. simpl. auto. }
  intros w0. apply quiet_bind.
  { apply quiet_same. intros w. simpl. auto. }
  intros _. apply quiet_bind.
  { unfold when. destruct (Z.of_nat (length l) =? 0);
      [apply quiet_invoke | apply quiet_ret]. }
  intros _. apply quiet_startLoop.
Qed.

Lemma nestedFinal_notin (reverse : bool) (t p : Obj) (ks : list string)
  (k : string) :
  ~ In k ks -> oget k (nestedFinal reverse t p ks) = oget k p.
Proof.
  intros Hk. unfold nestedFinal.
  destruct (Nat.ltb 0 (length ks) && reverse); [|reflexivity].
  now apply swapPure_fst_notin.
Qed.



(** *** What the traversal leaves in the array of the node *)

Lemma framed_ret {A} (a : A) : framed (ret a).
Proof. intros w. simpl. auto. Qed.

Lemma framed_bind {A B} (m : M A) (k : A -> M B) :
  framed m -> (forall a, framed (k a)) -> framed (bind m k).
Proof.
  intros Hm Hk w. unfold bind. specialize (Hm w).
  destruct (m w) as [a w1|msg w1|]; [|exact Hm|exact I].
  specialize (Hk a w1).
  destruct (k a w1) as [b w2|msg w2|]; [| |exact I];
    destruct Hm as (H1 & H2 & H3), Hk as (H4 & H5 & H6);
    repeat split; congruence.
Qed.

Lemma framed_readKey (el : nat) (path : list string) (k : string) :
  framed (readKey el path k).
Proof.
  intros w. unfold readKey, bind, getEl.
  destruct (elems w !! el) as [e|]; [|exact I].
  destruct (pget path (props e)) as [o|].
  - destruct (isNull (oget k o) && reserved path (props e) k); simpl; auto.
  - destruct (isPrimitive (vget path (VObj (props e)))); [|exact I].
    destruct (reserved path (props e) k); simpl; auto.
Qed.

Lemma framed_writeKey (el : nat) (path : list string) (k : string)
  (v : value) :
  framed (writeKey el path k v).
Proof.
  intros w. unfold writeKey, bind, getEl.
  destruct (elems w !! el) as [e|]; [|exact I].
  destruct (pmod path (oset k v) (props e)) as [p'|].
  - simpl. auto.
  - destruct (isPrimitive (vget path (VObj (props e)))); [|exact I].
    simpl. auto.
Qed.


Lemma framed_swapKeys (el : nat) (path : list string) (t : Obj) :
  forall ks rt, framed (swapKeys el path t ks rt).
Proof.
  induction ks as [|k ks IH]; intros rt; simpl.
  - apply framed_ret.
  - apply framed_bind; [apply framed_readKey|]. intros sv.
    apply framed_bind; [apply framed_writeKey|]. intros _. apply IH.
Qed.

(** The loop over the keys of a sub-object makes no recursive call. *)
Lemma framed_shallowKeys (rec : string -> list string -> value -> M unit)
  (el : nat) (topKey : string) (path : list string) (reverse : bool) :
  topKey <> "" ->
  forall es acc, framed (shallowKeys rec el topKey path reverse es acc).
Proof.
  intros Htop. apply String.eqb_neq in Htop.
  induction es as [|[k tv] es IH]; intros acc; simpl.
  - apply framed_ret.
  - apply framed_bind; [apply framed_readKey|]. intros sv.
    destruct (negb (isNull sv)).
    + destruct (isPlainObject tv); [|apply IH].
      rewrite Htop. simpl. intros w. simpl. auto.
    + destruct (negb (isNull tv) && negb reverse); [|apply IH].
      apply framed_bind; [apply framed_writeKey|]. intros _. apply IH.
Qed.

Lemma Live_unique (r arr : nat) (p p' : Obj) (w : World) :
  Live r arr p w -> Live r arr p' w -> p = p'.
Proof.
  intros (e & l & He & Hp & _) (e' & l' & He' & Hp' & _). congruence.
Qed.

Lemma pending_frame (w0 : World) (r arr : nat) (Q : string -> Prop)
  (p p' : Obj) (w w' : World) :
  pending w0 r arr Q p w ->
  arrays w' = arrays w -> animS w' = animS w ->
  (forall k d, Q k -> dataOf (oget k p) = Some d ->
     exists d', dataOf (oget k p') = Some d') ->
  pending w0 r arr Q p' w'.
Proof.
  intros (l & Hl & Hnd & Hnew & Hmem) Ha Hs Hq. exists l. rewrite Ha, Hs.
  split; [exact Hl|]. split; [exact Hnd|]. split; [exact Hnew|].
  intros a Hin. destruct (Hmem a Hin) as (x & Hx & H0 & Ho & Hst & Hd & Hp).
  exists x. repeat (split; [assumption|]).
  destruct Hp as [Hp|(k & d & Hp & HQ & Hdata)]; [now left|].
  right. destruct (Hq k d HQ Hdata) as [d' Hd']. eauto.
Qed.

Lemma animsKept_fresh (w0 w : World) (a : nat) :
  animsKept w0 w -> animS w !! a = None -> animS w0 !! a = None.
Proof.
  intros Hk Hf. destruct (animS w0 !! a) as [y|] eqn:E; [|reflexivity].
  destruct (Hk a y E) as (y' & Hy' & _). congruence.
Qed.

Lemma pending_create (w0 : World) (r arr : nat) (Q : string -> Prop)
  (p : Obj) (w w' : World) (path : list string) (time delay : Arg)
  (endProps : Obj) (ks : list string) (topKey : string) :
  Live r arr p w -> pending w0 r arr Q p w -> animsKept w0 w ->
  (path = []
   \/ exists k d, path = [k] /\ Q k /\ dataOf (oget k p) = Some d) ->
  (animator <- newAnimator r path time delay endProps ks ;;
   addAnimator r animator topKey) w = Ok tt w' ->
  pending w0 r arr Q p w'.
Proof.
  intros (e & l & He & Hp & Ha & Hl) (l' & Hl' & Hnd & Hnew & Hmem) Hk
    Hpath Hrun.
  assert (l' = l) by congruence. subst l' arr.
  destruct (createAnimator_exact r w e l path time delay endProps ks topKey
              He Hl) as (w1 & Hrun1 & _ & Harr & Hs & _).
  rewrite Hrun1 in Hrun. injection Hrun as <-.
  set (a := fresh (dom (animS w))) in *.
  assert (Hfresh : animS w !! a = None) by (apply not_elem_of_dom, is_fresh).
  pose proof (animsKept_fresh w0 w a Hk Hfresh) as Hf0.
  exists (l ++ [a]). rewrite Harr, Hs.
  split; [apply lookup_insert_eq|]. split.
  { apply NoDup_app. split; [exact Hnd|]. split; [|apply NoDup_singleton].
    intros b Hb Hb'. apply list_elem_of_In in Hb.
    apply list_elem_of_singleton in Hb'. subst b.
    destruct (Hmem a Hb) as (x & Hx & _). congruence. }
  split.
  { intros b Hb0 [y Hy]. apply in_or_app.
    destruct (decide (b = a)) as [->|Hne]; [right; now left|]. left.
    rewrite lookup_insert_ne in Hy by congruence. apply Hnew; eauto. }
  intros b Hb. apply in_app_or in Hb as [Hb|[<-|[]]].
  - destruct (Hmem b Hb) as (x & Hx & Hrest). exists x.
    split; [|exact Hrest]. rewrite lookup_insert_ne; [exact Hx|].
    intros <-. congruence.
  - eexists. split; [apply lookup_insert_eq|]. simpl.
    split; [exact Hf0|]. repeat (split; [reflexivity|]). exact Hpath.
Qed.

(** A write below a top-level key leaves an object or an array wherever
    there was one. *)
Lemma dataOf_pset_single (k : string) (s src : Obj) (p : Obj) (k' : string)
  (d : Obj) :
  dataOf (oget k p) = Some src -> dataOf (oget k' p) = Some d ->
  exists d', dataOf (oget k' (pset [k] s p)) = Some d'.
Proof.
  intros Hk Hd. rewrite (pset_single k s src p Hk).
  destruct (String.eqb_spec k' k) as [->|Hne].
  - rewrite oget_oset_eq, dataOf_withData. eauto.
  - rewrite oget_oset_ne by congruence. eauto.
Qed.

Section Pending.

Variables (w0 : World) (r arr : nat) (Q : string -> Prop).
Variables (time delay : Arg) (reverse : bool).

Lemma animateKeys_pending (p : Obj) (w w' : World) (topKey : string)
  (path : list string) (t src' : Obj) (ks : list string) :
  Live r arr p w -> pget path p = Some src' ->
  (forall k, In k ks -> reserved path p k = false) ->
  pending w0 r arr Q p w -> animsKept w0 w ->
  (path = []
   \/ exists k d, path = [k] /\ Q k /\ dataOf (oget k p) = Some d) ->
  (forall k d, Q k -> dataOf (oget k p) = Some d ->
     exists d',
       dataOf (oget k (pset path (nestedFinal reverse t src' ks) p))
       = Some d') ->
  animateKeys r topKey path t time delay reverse ks w = Ok tt w' ->
  pending w0 r arr Q (pset path (nestedFinal reverse t src' ks) p) w'.
Proof.
  intros HL Hg Hsc HP Hk Hpath Hkeep Hrun.
  unfold animateKeys in Hrun. unfold nestedFinal in *.
  destruct ks as [|k ks]; cbn [length Nat.ltb Nat.leb andb] in *.
  - injection Hrun as <-. now apply (pending_frame w0 r arr Q p _ w w).
  - destruct reverse; cbn [andb] in *.
    + destruct (swapKeys_run r arr path t (k :: ks) [] src' p w Hsc HL Hg)
        as (w1 & Hrun1 & HL1 & Ha1).
      pose proof (framed_swapKeys r path t (k :: ks) [] w) as Hf.
      rewrite Hrun1 in Hf. destruct Hf as (Hf1 & _ & _).
      rewrite (bind_Ok _ _ _ _ _ Hrun1) in Hrun.
      apply (pending_create w0 r arr Q _ w1 w' path (timeOrDefault time)
               (delayOrZero delay) (swapPure t (k :: ks) src' []).2
               (k :: ks) topKey HL1); [| |  |exact Hrun].
      * now apply (pending_frame w0 r arr Q p _ w w1).
      * eapply animsKept_trans; [exact Hk | now apply animsKept_same].
      * destruct Hpath as [Hp|(k1 & d & Hp & HQ & Hd)]; [now left|].
        right. destruct (Hkeep k1 d HQ Hd) as [d' Hd']. eauto.
    + unfold ret at 1 in Hrun. unfold bind at 1 in Hrun.
      rewrite (pset_same path src' p Hg) in *.
      now apply (pending_create w0 r arr Q p w w' path (timeOrDefault time)
                   (delayOrZero delay) t (k :: ks) topKey).
Qed.

Lemma animateToShallow_nested_pending (k : string) (t p src : Obj)
  (w w' : World) :
  k <> "" ->
  (forall k2 v, In (k2, v) t -> reserved [k] p k2 = false) ->
  Live r arr p w -> dataOf (oget k p) = Some src ->
  pending w0 r arr Q p w -> animsKept w0 w -> Q k ->
  animateToShallow r k [k] (VObj t) time delay reverse w = Ok tt w' ->
  forall p', Live r arr p' w' -> pending w0 r arr Q p' w'.
Proof.
  intros Htop Hsc HL Ho HP Hk HQ Hrun p' HL'.
  assert (Hg : pget [k] p = Some src) by (simpl; now rewrite Ho).
  cbn [animateToShallow] in Hrun. unfold bind at 1 in Hrun.
  pose proof (shallowKeys_nested r arr
                (fun k p v => animateToShallow r k p v time delay reverse)
                k [k] reverse Htop t [] src p w Hsc HL Hg) as Hscan.
  pose proof (framed_shallowKeys
                (fun k p v => animateToShallow r k p v time delay reverse)
                r k [k] reverse Htop t [] w) as Hf.
  destruct (shallowKeys _ r k [k] reverse t [] w) as [ks w1|msg w1|];
    [|discriminate|discriminate].
  destruct Hscan as (src' & Hs & HL1 & Ha1). destruct Hf as (Hf1 & _ & _).
  destruct (pget_pset [k] src src' p Hg) as [_ Hg1].
  assert (Ho1 : dataOf (oget k (pset [k] src' p)) = Some src').
  { simpl in Hg1. now destruct (dataOf (oget k (pset [k] src' p))). }
  assert (Hks : forall k2, In k2 ks ->
            reserved [k] (pset [k] src' p) k2 = false).
  { intros k2 Hk2. rewrite (reserved_pset [k] src _ k2 p Hg).
    destruct (scanNested_keys reverse t src [] src' ks Hs k2 Hk2) as [[]|Hin].
    apply keys_In in Hin as [v Hin]. now apply (Hsc k2 v). }
  assert (HP1 : pending w0 r arr Q (pset [k] src' p) w1).
  { apply (pending_frame w0 r arr Q p _ w w1 HP Hf1 Ha1).
    intros k' d _ Hd. now apply (dataOf_pset_single k src' src p k' d). }
  assert (Hk1 : animsKept w0 w1).
  { eapply animsKept_trans; [exact Hk | now apply animsKept_same]. }
  pose proof (animateKeys_pending _ w1 w' k [k] t src' ks HL1 Hg1 Hks HP1 Hk1)
    as Hfin.
  destruct (animateKeys_run r arr time delay reverse _ w1 k [k] t src' ks
              HL1 Hg1 Hks) as (w2 & Hrun2 & HL2 & _).
  assert (w2 = w') by congruence. subst w2.
  rewrite (Live_unique r arr _ _ w' HL' HL2).
  apply Hfin; [| |exact Hrun].
  - right. exists k, src'. auto.
  - intros k' d _ Hd.
    now apply (dataOf_pset_single k _ src' (pset [k] src' p) k' d).
Qed.

(** The top-level loop. *)
Lemma shallowKeys_top_pending :
  forall (es : Obj) (acc : list string) (p : Obj) (w : World)
    (acc' : list string) (w' : World),
    Live r arr p w -> NoDup (keys es) -> dataKeys p es = true ->
    (forall k t, In (k, VObj t) es -> Q k) ->
    pending w0 r arr Q p w -> animsKept w0 w ->
    shallowKeys (fun k p v => animateToShallow r k p v time delay reverse)
      r "" [] reverse es acc w = Ok acc' w' ->
    forall p', Live r arr p' w' -> pending w0 r arr Q p' w'.
Proof.
  induction es as [|[k v] es IH];
    intros acc p w acc' w' HL Hnd Hfit HQ HP Hk0 Hrun p' HL'.
  { simpl in Hrun. injection Hrun as <- <-.
    now rewrite (Live_unique r arr _ _ w HL' HL). }
  simpl in Hnd. apply NoDup_cons in Hnd as [Hk Hnd].
  rewrite list_elem_of_In in Hk.
  apply dataKeys_cons in Hfit as (Hres & Hsub & Hfit).
  assert (Hrest : forall k' v', In (k', v') es -> k' <> k).
  { intros k' v' Hin ->. apply Hk.
    change k with (fst (k, v')). now apply in_map. }
  assert (Hfit' : forall p1,
            (forall k', k' <> k -> oget k' p1 = oget k' p) ->
            dataKeys p1 es = true).
  { intros p1 Hfr. rewrite (dataKeys_ext p p1 es); [exact Hfit|].
    intros k' v' Hin. apply Hfr. now apply (Hrest k' v'). }
  assert (HQ' : forall k' t, In (k', VObj t) es -> Q k').
  { intros k' t Hin. apply (HQ k' t). now right. }
  cbn [shallowKeys] in Hrun.
  rewrite (bind_Ok _ _ _ _ _ (readKey_Live r arr p w [] p k HL eq_refl Hres))
    in Hrun.
  destruct (isNull (oget k p)) eqn:Hnull; cbn [negb] in Hrun.
  - assert (Hvn : oget k p = VNull) by (now destruct (oget k p)).
    destruct (negb (isNull v) && negb reverse).
    + destruct (writeKey_Live r arr p w [] p k v HL eq_refl)
        as (w1 & Hrun1 & HL1 & Ha1).
      pose proof (framed_writeKey r [] k v w) as Hf.
      rewrite Hrun1 in Hf. destruct Hf as (Hf1 & _ & _).
      rewrite (bind_Ok _ _ _ _ _ Hrun1) in Hrun.
      change (pset [] (oset k v p) p) with (oset k v p) in HL1.
      assert (Hfr : forall k', k' <> k -> oget k' (oset k v p) = oget k' p).
      { intros k' Hne. apply oget_oset_ne. congruence. }
      apply (IH acc (oset k v p) w1 acc' w' HL1 Hnd (Hfit' _ Hfr) HQ');
        [| |exact Hrun|exact HL'].
      * apply (pending_frame w0 r arr Q p _ w w1 HP Hf1 Ha1).
        intros k' d _ Hd. exists d. rewrite Hfr; [exact Hd|].
        intros ->. now rewrite Hvn in Hd.
      * eapply animsKept_trans; [exact Hk0 | now apply animsKept_same].
    + now apply (IH acc p w acc' w' HL Hnd Hfit HQ').
  - assert (Hvn : oget k p <> VNull)
      by (intros Heq; rewrite Heq in Hnull; discriminate).
    destruct (isPlainObject v) eqn:Hpl.
    + destruct (isPlainObject_inv v Hpl) as [t ->].
      destruct (Hsub t eq_refl) as [Hne Hsc2].
      change (String.eqb "" "") with true in Hrun. cbn [negb app] in Hrun.
      destruct (dataOf (oget k p)) as [o|] eqn:Ho.
      * pose proof (animateToShallow_nested r arr time delay reverse k [k] t
                      p o w Hne Hsc2 HL ltac:(simpl; now rewrite Ho))
          as Hcall.
        unfold bind at 1 in Hrun.
        destruct (animateToShallow r k [k] (VObj t) time delay reverse w)
          as [[] w1|msg w1|] eqn:Hrun1; [|discriminate|discriminate].
        destruct Hcall as (src' & ks & Hs & HL1 & Hk1 & _).
        rewrite (pset_single k _ o p Ho) in HL1.
        set (p1 := oset k (withData (oget k p)
                             (nestedFinal reverse t src' ks)) p) in *.
        assert (Hfr : forall k', k' <> k -> oget k' p1 = oget k' p).
        { intros k' Hne'. apply oget_oset_ne. congruence. }
        apply (IH acc p1 w1 acc' w' HL1 Hnd (Hfit' _ Hfr) HQ');
          [| |exact Hrun|exact HL'].
        -- apply (animateToShallow_nested_pending k t p o w w1 Hne Hsc2 HL Ho
                    HP Hk0 (HQ k t (or_introl eq_refl)) Hrun1 p1 HL1).
        -- eapply animsKept_trans; eauto.
      * unfold bind at 1 in Hrun.
        rewrite (animateToShallow_prim r arr time delay reverse k [k] t p w
                   Hsc2 HL ltac:(simpl; now rewrite Ho)
                   ltac:(simpl; now apply isPrimitive_live)) in Hrun.
        destruct (assignsTo reverse t); [discriminate|].
        now apply (IH acc p w acc' w' HL Hnd Hfit HQ').
    + now apply (IH (acc ++ [k]) p w acc' w' HL Hnd Hfit HQ').
Qed.

End Pending.

(** *** The loop that starts the animators *)

Lemma invoke_cases (cb : Arg) (w : World) :
  (exists w',
     invoke cb w = Ok tt w'
     /\ elems w' = elems w /\ arrays w' = arrays w
     /\ animS w' = animS w /\ counters w' = counters w)
  \/ invoke cb w = Raise callbackError w.
Proof.
  destruct cb as [|n|s|f]; simpl.
  - left. exists w. auto.
  - destruct n; [left; exists w; auto | now right | now right].
  - destruct s; [left; exists w; auto | now right].
  - left. eexists. split; [reflexivity|]. simpl. auto.
Qed.

Lemma finish_cases (a arr c : nat) (x : Animator) (l : list nat)
  (cx : Counter) (w : World) :
  animS w !! a = Some x ->
  a_done x = [CbSplice arr a; CbCountdown c] ->
  arrays w !! arr = Some l ->
  counters w !! c = Some cx ->
  (exists w',
     finish a w = Ok tt w'
     /\ elems w' = elems w
     /\ arrays w' = <[arr := spliceOut l a]> (arrays w)
     /\ animS w' = <[a := set_status Finished x]> (animS w)
     /\ counters w' =
        <[c := mkCounter (c_count cx - 1) (c_callback cx)]> (counters w))
  \/ (exists w', finish a w = Raise callbackError w' /\ elems w' = elems w).
Proof.
  intros Hx Hd Hl Hc.
  set (w1 := set_animS (<[a := set_status Finished x]> (animS w)) w).
  set (w2 := set_arrays (<[arr := spliceOut l a]> (arrays w1)) w1).
  set (w3 := set_counters
               (<[c := mkCounter (c_count cx - 1) (c_callback cx)]>
                  (counters w2)) w2).
  assert (Hfin : finish a w =
                 (when (c_count cx - 1 =? 0) (invoke (c_callback cx)) ;;
                  ret tt) w3).
  { unfold finish.
    rewrite (bind_Ok _ _ _ _ _ (modAnim_Ok a _ w x Hx)). fold w1.
    assert (Hx1 : animS w1 !! a = Some (set_status Finished x))
      by (simpl; apply lookup_insert_eq).
    rewrite (bind_Ok _ _ _ _ _ (getAnim_Ok_ext a w1 _ Hx1)).
    cbn [set_status a_done]. rewrite Hd. cbn [forM runCallback].
    assert (Ha : (l <- getArr arr ;; setArr arr (spliceOut l a)) w1
                 = Ok tt w2).
    { now rewrite (bind_Ok _ _ _ _ _ (getArr_Ok arr w1 l Hl)). }
    rewrite (bind_Ok _ _ _ _ _ Ha).
    assert (Hc2 : getCounter c w2 = Ok cx w2).
    { unfold getCounter. simpl. now rewrite Hc. }
    unfold bind at 1. rewrite (bind_Ok _ _ _ _ _ Hc2). reflexivity. }
  rewrite Hfin. unfold when, bind.
  destruct (c_count cx - 1 =? 0).
  - destruct (invoke_cases (c_callback cx) w3)
      as [(w' & Hrun & H1 & H2 & H3 & H4)|Hrun]; rewrite Hrun.
    + left. exists w'. split; [reflexivity|]. rewrite H1, H2, H3, H4.
      repeat split; reflexivity.
    + right. exists w3. split; reflexivity.
  - left. exists w3. repeat split; reflexivity.
Qed.

Lemma indexOf_middle (pre suf : list nat) (a : nat) :
  ~ In a pre -> indexOf (pre ++ a :: suf) a = Some (length pre).
Proof.
  induction pre as [|b pre IH]; intros H; simpl.
  - now rewrite Nat.eqb_refl.
  - destruct (Nat.eqb_spec b a) as [->|Hne]; [exfalso; apply H; now left|].
    rewrite IH by (intros Hin; apply H; now right). reflexivity.
Qed.

Lemma spliceOut_middle (pre suf : list nat) (a : nat) :
  ~ In a pre -> spliceOut (pre ++ a :: suf) a = pre ++ suf.
Proof.
  intros H. unfold spliceOut. rewrite (indexOf_middle _ _ _ H). clear H.
  induction pre as [|b pre IH]; simpl; [reflexivity|]. now f_equal.
Qed.

Lemma animStart_cases (a : nat) (easing : Arg) (force : bool) (w : World)
  (x : Animator) (e : Element) (cur : Obj) :
  animS w !! a = Some x ->
  elems w !! a_owner x = Some e ->
  pget (a_path x) (props e) = Some cur ->
  animStart a easing force w =
  if negb force
     && forallb (fun k => value_eqb (oget k cur) (oget k (a_end x)))
          (a_keys x)
  then finish a w
  else Ok tt (set_animS (<[a := set_status Running x]> (animS w)) w).
Proof.
  intros Hx He Hg. unfold animStart.
  rewrite (bind_Ok _ _ _ _ _ (getAnim_Ok_ext a w x Hx)).
  rewrite (bind_Ok _ _ _ _ _ (getEl_Ok _ _ _ He)), Hg.
  destruct (negb force && _); [reflexivity|]. now apply modAnim_Ok.
Qed.

Section Loop.

Variables (r arr c : nat) (e : Element) (A0 : gmap nat Animator).
Variables (l0 : list nat) (ea cb : Arg) (force : bool).

Hypothesis members :
  forall a, In a l0 ->
    exists x0, A0 !! a = Some x0
               /\ a_owner x0 = r /\ a_status x0 = Created
               /\ a_done x0 = [CbSplice arr a]
               /\ is_Some (pget (a_path x0) (props e)).

Lemma loopInv_head (pre suf : list nat) (a : nat) (x0 : Animator)
  (w : World) :
  loopInv r arr c e A0 l0 cb force pre (a :: suf) w ->
  A0 !! a = Some x0 ->
  In a l0 /\ ~ In a pre /\ ~ In a suf /\ animS w !! a = Some x0.
Proof.
  intros (_ & _ & Hnd & _ & Hsub & Hph) HA.
  assert (Hin : In a l0) by (apply Hsub, in_or_app; right; now left).
  apply NoDup_app in Hnd as (_ & Hdis & Hnd2).
  apply NoDup_cons in Hnd2 as [Hns _]. rewrite list_elem_of_In in Hns.
  assert (Hnp : ~ In a pre).
  { intros Hp. apply list_elem_of_In in Hp. apply (Hdis a Hp).
    apply list_elem_of_In. now left. }
  split; [exact Hin|]. split; [exact Hnp|]. split; [exact Hns|].
  destruct (Hph a x0 Hin HA)
    as [[_ Hx]|[[Hp _]|[(Hp & _)|(Hn & _)]]]; [exact Hx| | |].
  - now destruct Hnp.
  - now destruct Hnp.
  - exfalso. apply Hn, in_or_app. right. now left.
Qed.

(** A witness of a departure is not the animator at the head. *)
Lemma finished_other (a b : nat) (x0 y0 : Animator) (w : World) :
  animS w !! a = Some x0 -> a_status x0 = Created ->
  animS w !! b = Some (finished c y0) -> b <> a.
Proof. intros Hx Hst Hy ->. rewrite Hx in Hy. injection Hy as ->. discriminate. Qed.

Lemma loopInv_started (pre suf : list nat) (a : nat) (x0 : Animator)
  (w w2 : World) :
  loopInv r arr c e A0 l0 cb force pre (a :: suf) w ->
  A0 !! a = Some x0 -> a_status x0 = Created ->
  elems w2 = elems w -> arrays w2 = arrays w -> counters w2 = counters w ->
  animS w2 = <[a := started c x0]> (animS w) ->
  loopInv r arr c e A0 l0 cb force (pre ++ [a]) suf w2.
Proof.
  intros HI HA Hst He Ha Hc Hs.
  destruct (loopInv_head pre suf a x0 w HI HA) as (Hin & Hnp & Hns & Hx).
  destruct HI as (H1 & H2 & H3 & H4 & H5 & H6).
  assert (Happ : (pre ++ [a]) ++ suf = pre ++ a :: suf)
    by (now rewrite <- app_assoc).
  unfold loopInv. rewrite He, Ha, Hc, Hs, Happ.
  repeat (split; [assumption|]).
  intros b y0 Hb HB. destruct (decide (b = a)) as [->|Hne].
  - assert (y0 = x0) by congruence. subst y0.
    right. left. split; [apply in_or_app; right; now left|].
    apply lookup_insert_eq.
  - rewrite lookup_insert_ne by congruence.
    destruct (H6 b y0 Hb HB)
      as [[Hs1 Hx1]|[[Hp Hx1]|[(Hp & Hx1 & Hf & b' & y' & Hb' & HB' & Hy')
                               |(Hn & Hrest)]]].
    + left. split; [|exact Hx1]. destruct Hs1 as [Heq|Hs1]; [congruence|].
      exact Hs1.
    + right. left. split; [apply in_or_app; now left | exact Hx1].
    + right. right. left. split; [apply in_or_app; now left|].
      split; [exact Hx1|]. split; [exact Hf|]. exists b', y'.
      split; [exact Hb'|]. split; [exact HB'|].
      rewrite lookup_insert_ne; [exact Hy'|].
      intros Heq. now apply (finished_other a b' x0 y' w Hx Hst Hy').
    + right. right. right. split; [exact Hn | exact Hrest].
Qed.

Lemma loopInv_finished (pre suf : list nat) (a : nat) (x0 : Animator)
  (w w4 : World) :
  loopInv r arr c e A0 l0 cb force pre (a :: suf) w ->
  A0 !! a = Some x0 -> a_status x0 = Created ->
  force = false -> settled (props e) x0 ->
  elems w4 = elems w ->
  arrays w4 = <[arr := pre ++ suf]> (arrays w) ->
  animS w4 = <[a := finished c x0]> (animS w) ->
  (exists cx, counters w4 !! c = Some cx /\ c_callback cx = cb) ->
  loopInv r arr c e A0 l0 cb force pre suf w4.
Proof.
  intros HI HA Hst Hf Hset He Ha Hs Hc.
  destruct (loopInv_head pre suf a x0 w HI HA) as (Hin & Hnp & Hns & Hx).
  destruct HI as (H1 & H2 & H3 & H4 & H5 & H6).
  assert (Hna : ~ In a (pre ++ suf)).
  { intros H. apply in_app_or in H as [H|H]; auto. }
  unfold loopInv. rewrite He, Ha, Hs.
  split; [exact H1|]. split; [apply lookup_insert_eq|].
  split.
  { apply NoDup_app in H3 as (Hn1 & Hdis & Hn2).
    apply NoDup_cons in Hn2 as [_ Hn2]. apply NoDup_app.
    split; [exact Hn1|]. split; [|exact Hn2].
    intros b Hb Hb'. apply (Hdis b Hb). now right. }
  split; [exact Hc|]. split.
  { intros b Hb. apply H5. apply in_app_or in Hb as [Hb|Hb];
      apply in_or_app; [now left | right; now right]. }
  intros b y0 Hb HB. destruct (decide (b = a)) as [->|Hne].
  - assert (y0 = x0) by congruence. subst y0.
    right. right. right. split; [exact Hna|].
    split; [apply lookup_insert_eq | auto].
  - rewrite lookup_insert_ne by congruence.
    destruct (H6 b y0 Hb HB)
      as [[Hs1 Hx1]|[[Hp Hx1]|[(Hp & Hx1 & Hf' & b' & y' & Hb' & HB' & Hy')
                               |(Hn & Hrest)]]].
    + left. split; [|exact Hx1]. destruct Hs1 as [Heq|Hs1]; [congruence|].
      exact Hs1.
    + right. left. auto.
    + right. right. left. split; [exact Hp|].
      split; [exact Hx1|]. split; [exact Hf'|]. exists b', y'.
      split; [exact Hb'|]. split; [exact HB'|].
      rewrite lookup_insert_ne; [exact Hy'|].
      intros Heq. now apply (finished_other a b' x0 y' w Hx Hst Hy').
    + right. right. right. split; [|exact Hrest].
      intros H. apply Hn. apply in_app_or in H as [H|H];
        apply in_or_app; [now left | right; now right].
Qed.

(** The index passes over the animator that has moved into the place of
    one that left. *)
Lemma loopInv_skip (pre suf : list nat) (b : nat) (w : World) :
  loopInv r arr c e A0 l0 cb force pre (b :: suf) w ->
  force = false ->
  (exists b' y0, In b' l0 /\ A0 !! b' = Some y0
                 /\ animS w !! b' = Some (finished c y0)) ->
  loopInv r arr c e A0 l0 cb force (pre ++ [b]) suf w.
Proof.
  intros (H1 & H2 & H3 & H4 & H5 & H6) Hf Hwit.
  assert (Happ : (pre ++ [b]) ++ suf = pre ++ b :: suf)
    by (now rewrite <- app_assoc).
  unfold loopInv. rewrite Happ. repeat (split; [assumption|]).
  intros a x0 Ha HA.
  destruct (H6 a x0 Ha HA)
    as [[Hs1 Hx1]|[[Hp Hx1]|[(Hp & Hrest)|(Hn & Hrest)]]].
  - destruct Hs1 as [<-|Hs1]; [|now left].
    right. right. left. split; [apply in_or_app; right; now left|]. auto.
  - right. left. split; [apply in_or_app; now left | exact Hx1].
  - right. right. left. split; [apply in_or_app; now left | exact Hrest].
  - right. right. right. auto.
Qed.

Lemma startLoop_run :
  forall (n : nat) (pre suf : list nat) (i : nat) (w : World),
    loopInv r arr c e A0 l0 cb force pre suf w ->
    (length suf <= n)%nat -> (length pre <= i)%nat ->
    (suf <> [] -> i = length pre) ->
    match startLoop n arr i c ea force w with
    | Ok _ w' => exists l', loopInv r arr c e A0 l0 cb force l' [] w'
    | Raise msg _ => msg = callbackError
    | Abort _ => False
    end.
Proof.
  induction n as [|n IH]; intros pre suf i w HI Hn Hi Hsuf;
    pose proof HI as (H1 & H2 & H3 & H4 & H5 & H6);
    cbn [startLoop]; rewrite (bind_Ok _ _ _ _ _ (getArr_Ok _ _ _ H2));
    destruct suf as [|a suf].
  - rewrite app_nil_r, (lookup_ge_None_2 pre i Hi). exists pre. exact HI.
  - simpl in Hn. lia.
  - rewrite app_nil_r, (lookup_ge_None_2 pre i Hi). exists pre. exact HI.
  - assert (Hi' : i = length pre) by (apply Hsuf; discriminate).
    subst i. clear Hsuf Hi.
    rewrite (list_lookup_middle pre suf a (length pre) eq_refl).
    assert (Hin0 : In a l0) by (apply H5, in_or_app; right; now left).
    destruct (members a Hin0) as (x0 & HA & Ho & Hst & Hd & [cur Hcur]).
    destruct (loopInv_head pre suf a x0 w HI HA) as (_ & Hnp & Hns & Hx).
    rewrite (bind_Ok _ _ _ _ _ (modAnim_Ok a _ w x0 Hx)).
    set (x1 := add_done (CbCountdown c) x0).
    set (w1 := set_animS (<[a := x1]> (animS w)) w).
    assert (Hx1 : animS w1 !! a = Some x1) by (simpl; apply lookup_insert_eq).
    assert (He1 : elems w1 !! a_owner x1 = Some e)
      by (simpl; rewrite Ho; exact H1).
    unfold bind at 1.
    rewrite (animStart_cases a ea force w1 x1 e cur Hx1 He1 Hcur).
    destruct (negb force && _) eqn:Hcond.
    + apply andb_prop in Hcond as [Hforce Hall].
      apply negb_true_iff in Hforce.
      destruct H4 as (cx & Hcx & Hcb).
      destruct (finish_cases a arr c x1 (pre ++ a :: suf) cx w1 Hx1)
        as [(w4 & Hrun & E1 & E2 & E3 & E4)|(w4 & Hrun & _)];
        [unfold x1; simpl; now rewrite Hd | exact H2 | exact Hcx | |];
        rewrite Hrun; [|reflexivity].
      rewrite (spliceOut_middle pre suf a Hnp) in E2.
      assert (HI4 : loopInv r arr c e A0 l0 cb force pre suf w4).
      { apply (loopInv_finished pre suf a x0 w w4 HI HA Hst Hforce).
        - exists cur. split; [exact Hcur | exact Hall].
        - exact E1.
        - exact E2.
        - rewrite E3. simpl. apply insert_insert_eq.
        - rewrite E4. simpl. eexists. split; [apply lookup_insert_eq|].
          exact Hcb. }
      destruct suf as [|b suf].
      * apply (IH pre [] (S (length pre)) w4 HI4); simpl;
          [lia | lia | congruence].
      * apply (IH (pre ++ [b]) suf (S (length pre)) w4).
        -- apply (loopInv_skip pre suf b w4 HI4 Hforce).
           exists a, x0. split; [exact Hin0|]. split; [exact HA|].
           rewrite E3. simpl. rewrite insert_insert_eq.
           apply lookup_insert_eq.
        -- simpl in Hn. lia.
        -- rewrite length_app. simpl. lia.
        -- intros _. rewrite length_app. simpl. lia.
    + apply (IH (pre ++ [a]) suf (S (length pre))).
      * apply (loopInv_started pre suf a x0 w _ HI HA Hst); try reflexivity.
        simpl. apply insert_insert_eq.
      * simpl in Hn. lia.
      * rewrite length_app. simpl. lia.
      * intros _. rewrite length_app. simpl. lia.
Qed.

End Loop.

Lemma startAnimators_run (r arr : nat) (e : Element) (l0 : list nat)
  (ea cb : Arg) (force : bool) (w : World) :
  elems w !! r = Some e -> animators e = arr ->
  arrays w !! arr = Some l0 -> NoDup l0 ->
  (forall a, In a l0 ->
     exists x0, animS w !! a = Some x0
                /\ a_owner x0 = r /\ a_status x0 = Created
                /\ a_done x0 = [CbSplice arr a]
                /\ is_Some (pget (a_path x0) (props e))) ->
  match startAnimators r ea cb force w with
  | Ok _ w' => exists c l', loopInv r arr c e (animS w) l0 cb force l' [] w'
  | Raise msg _ => msg = callbackError
  | Abort _ => False
  end.
Proof.
  intros He Ha Hl Hnd Hmem.
  set (c := fresh (dom (counters w))).
  set (wc := set_counters
               (<[c := mkCounter (Z.of_nat (length l0)) cb]> (counters w)) w).
  assert (Hpre : startAnimators r ea cb force w =
                 (when (Z.of_nat (length l0) =? 0) (invoke cb) ;;
                  startLoop (length l0) arr 0 c ea force) wc).
  { unfold startAnimators.
    rewrite (bind_Ok _ _ _ _ _ (getEl_Ok _ _ _ He)), Ha.
    rewrite (bind_Ok _ _ _ _ _ (getArr_Ok _ _ _ Hl)). reflexivity. }
  rewrite Hpre. clear Hpre.
  assert (HI : forall w1,
            elems w1 = elems wc -> arrays w1 = arrays wc ->
            animS w1 = animS wc -> counters w1 = counters wc ->
            loopInv r arr c e (animS w) l0 cb force [] l0 w1).
  { intros w1 E1 E2 E3 E4. unfold loopInv. rewrite E1, E2, E3, E4. simpl.
    split; [exact He|]. split; [exact Hl|]. split; [exact Hnd|].
    split; [eexists; split; [apply lookup_insert_eq | reflexivity]|].
    split; [auto|]. intros a x0 Hin HA. left. auto. }
  assert (Hloop : forall w1,
            elems w1 = elems wc -> arrays w1 = arrays wc ->
            animS w1 = animS wc -> counters w1 = counters wc ->
            match startLoop (length l0) arr 0 c ea force w1 with
            | Ok _ w' =>
                exists c l', loopInv r arr c e (animS w) l0 cb force l' [] w'
            | Raise msg _ => msg = callbackError
            | Abort _ => False
            end).
  { intros w1 E1 E2 E3 E4.
    pose proof (startLoop_run r arr c e (animS w) l0 ea cb force Hmem
                  (length l0) [] l0 0 w1 (HI w1 E1 E2 E3 E4)
                  (Nat.le_refl _) (Nat.le_refl _) (fun _ => eq_refl)) as H.
    destruct (startLoop (length l0) arr 0 c ea force w1); eauto. }
  unfold when. destruct (Z.of_nat (length l0) =? 0).
  - destruct (invoke_cases cb wc) as [(w1 & Hrun & E1 & E2 & E3 & E4)|Hrun].
    + rewrite (bind_Ok _ _ _ _ _ Hrun). now apply Hloop.
    + unfold bind. now rewrite Hrun.
  - unfold ret at 1, bind at 1. now apply Hloop.
Qed.



Lemma stopAnimation_pending (r : nat) (w : World) (e : Element)
  (l : list nat) (Q : string -> Prop) :
  elems w !! r = Some e -> arrays w !! animators e = Some l ->
  (forall a, In a l -> is_Some (animS w !! a)) ->
  exists w' arr',
    stopAnimation r false w = Ok tt w'
    /\ Live r arr' (props e) w' /\ animsKept w w'
    /\ pending w' r arr' Q (props e) w'.
Proof.
  intros He Hl Hall.
  destruct (stopAnimation_run r w e l He Hl Hall)
    as (w' & arr' & Hrun & HL & Hk).
  destruct (stopAnimation_exact r w e l He Hl Hall) as (am & Hrun' & _).
  exists w', arr'. split; [exact Hrun|]. split; [exact HL|].
  split; [exact Hk|].
  rewrite Hrun' in Hrun. injection Hrun as <-.
  destruct HL as (e1 & l1 & He1 & _ & Ha1 & Hl1).
  simpl in He1. rewrite lookup_insert_eq in He1. injection He1 as <-.
  simpl in Ha1. subst arr'.
  exists []. split; [simpl; apply lookup_insert_eq|].
  split; [apply NoDup_nil_2|]. split.
  - intros a Hn [x Hx]. congruence.
  - intros a [].
Qed.


(** In its scope the merge returns or throws: the model is never at a
    loss, and the only errors are those of the traversal and the one of a
    callback that is no function. *)
Lemma animateToImpl_returns (w : World) (r : nat) (e : Element)
  (target : Obj) (time delay easing callback : Arg) (force reverse : bool) :
  storeOk w r e ->
  NoDup (keys target) ->
  dataKeys (props e) target = true ->
  match animateToImpl r target time delay easing callback force reverse w
  with
  | Ok _ _ => True
  | Raise msg _ => raisedBy reverse (props e) target msg
                   \/ msg = callbackError
  | Abort _ => False
  end.
Proof.
  intros (He & l & Hl & Hall) Hnd Hfit. unfold animateToImpl.
  destruct (normalizeArgs time delay easing callback) as [[[tm dl] ea] cb].
  set (Q := fun k1 : string => exists t1, In (k1, VObj t1) target).
  destruct (stopAnimation_pending r w e l Q He Hl Hall)
    as (w1 & arr' & Hrun1 & HL1 & Hk01 & HP1).
  rewrite (bind_Ok _ _ _ _ _ Hrun1).
  unfold bind at 1. cbn [animateToShallow]. unfold bind at 1.
  pose proof (shallowKeys_top r arr' tm dl reverse target [] (props e) w1
                HL1 Hnd Hfit) as Htop.
  pose proof (shallowKeys_top_pending w1 r arr' Q tm dl reverse target []
                (props e) w1) as Hpend.
  destruct (shallowKeys _ r "" [] reverse target [] w1)
    as [acc w2|msg w2|]; [|now left|destruct Htop].
  destruct Htop as (p2 & HL2 & Hk12 & H3 & H4 & H5 & H6 & H7 & H8).
  assert (HP2 : pending w1 r arr' Q p2 w2).
  { apply (Hpend acc w2 HL1 Hnd Hfit);
      [|exact HP1|apply animsKept_refl|reflexivity|exact HL2].
    intros k1 t1 Hin1. exists t1. exact Hin1. }
  assert (Hleafacc : forall k0, In k0 acc ->
            exists v0, In (k0, v0) target /\ isPlainObject v0 = false
                       /\ oget k0 (props e) <> VNull).
  { intros k0 Hk0. destruct (H6 k0 Hk0) as [[]|H]; exact H. }
  assert (Hsc : forall k0, In k0 acc -> reserved [] p2 k0 = false).
  { intros k0 Hk0. destruct (Hleafacc k0 Hk0) as (v0 & Hin0 & _).
    now destruct (dataKeys_In _ _ _ _ Hfit Hin0). }
  destruct (animateKeys_run r arr' tm dl reverse p2 w2 "" [] target p2 acc
              HL2 eq_refl Hsc) as (w3 & Hrun3 & HL3 & Hk23 & Han3).
  assert (HQacc : forall k1, Q k1 -> ~ In k1 acc).
  { intros k1 [t1 Hin1] Hk1.
    destruct (Hleafacc k1 Hk1) as (v0 & Hin0 & Hl0 & _).
    rewrite <- (In_unique k1 (VObj t1) v0 target Hnd Hin1 Hin0) in Hl0.
    discriminate. }
  assert (HP3 : pending w1 r arr' Q (nestedFinal reverse target p2 acc) w3).
  { apply (animateKeys_pending w1 r arr' Q tm dl reverse p2 w2 w3 "" []
             target p2 acc HL2 eq_refl Hsc HP2 Hk12);
      [now left| |exact Hrun3].
    intros k1 d HQ1 Hd. exists d.
    change (pset [] (nestedFinal reverse target p2 acc) p2)
      with (nestedFinal reverse target p2 acc).
    rewrite nestedFinal_notin; [exact Hd | now apply HQacc]. }
  rewrite Hrun3.
  change (pset [] (nestedFinal reverse target p2 acc) p2)
    with (nestedFinal reverse target p2 acc) in HL3.
  destruct HL3 as (e3 & l3 & He3 & Hp3 & Ha3 & Hl3).
  destruct HP3 as (l3' & Hl3' & Hnd3 & Hnew3 & Hmem3).
  assert (l3' = l3) by congruence. subst l3'.
  assert (Hmembers : forall a, In a l3 ->
            exists x0, animS w3 !! a = Some x0
                       /\ a_owner x0 = r /\ a_status x0 = Created
                       /\ a_done x0 = [CbSplice arr' a]
                       /\ is_Some (pget (a_path x0) (props e3))).
  { intros a Ha. destruct (Hmem3 a Ha) as (x & Hx & _ & Ho & Hst & Hd & Hpath).
    exists x. repeat (split; [assumption|]). rewrite Hp3.
    destruct Hpath as [->|(k1 & d & -> & _ & Hd1)]; [simpl; eauto|].
    simpl. rewrite Hd1. eauto. }
  pose proof (startAnimators_run r arr' e3 l3 ea cb force w3 He3 Ha3 Hl3
                Hnd3 Hmembers) as Hstart.
  destruct (startAnimators r ea cb force w3) as [[] w'|msg w'|];
    [exact I|now right|exact Hstart].
Qed.



(** The third state of the animator, on the descriptor that loses the
    callback of [animateTo].  The style of the node has the fill of the
    descriptor already, so the animator of the style finds nothing to
    animate and leaves the array as the loop starts it; the loop passes over
    the animator of the node, which has moved into its place.  The position
    has been set to [[20, 20]]; the animator that has [[10, 10]] as its end
    is in the array, as it was created; the host completes every animator
    there is, and the position stays where the call put it. *)
Example animateFrom_not_started :
  exists w',
    animateFrom 1 sameFill AUndef AUndef AUndef AUndef false shapeWorld
    = Ok tt w'
    /\ liveValue shapeWorld 1 [] "position" (VArr [10; 10])
    /\ liveValue w' 1 [] "position" (VArr [20; 20])
    /\ (exists x,
          animS w' !! 1%nat = Some x
          /\ a_path x = [] /\ a_keys x = ["position"]
          /\ a_end x = [("position", VArr [10; 10])]
          /\ a_status x = Created)
    /\ arrayOf w' 1 [1%nat]
    /\ completeAll [0%nat; 1%nat] w' = Ok tt w'.
Proof.
  eexists. split; [vm_compute; reflexivity|]. split.
  { eexists _, _. split; [reflexivity|]. split; reflexivity. }
  split.
  { eexists _, _. split; [vm_compute; reflexivity|]. split; reflexivity. }
  split.
  { eexists. split; [vm_compute; reflexivity|]. repeat split. }
  split.
  { eexists. split; vm_compute; reflexivity. }
  vm_compute. reflexivity.
Qed.

(** ** C4: the completion callback *)

(** With [forceAnimate] both animators of the call run; the callback is
    called once, when the second of them has completed. *)
Example animateTo_counts_down :
  exists w1 w2 w3,
    animateTo 1 sameFill AUndef AUndef AUndef (AFun 7) true shapeWorld
    = Ok tt w1
    /\ callsOf 7 (log w1) = 0%nat
    /\ animComplete 0 w1 = Ok tt w2 /\ callsOf 7 (log w2) = 0%nat
    /\ animComplete 1 w2 = Ok tt w3 /\ callsOf 7 (log w3) = 1%nat.
Proof.
  eexists _, _, _. split; [vm_compute; reflexivity|].
  split; [reflexivity|]. split; [vm_compute; reflexivity|].
  split; [reflexivity|]. split; [vm_compute; reflexivity|]. reflexivity.
Qed.

(** C4 fails on the code.  The style of the node already has the fill of
    the descriptor, its position differs.  The call creates two animators:
    number 0 for the style, number 1 for the node.  In the loop that starts
    them, animator 0 finds nothing to animate and completes at once; its
    completion closure removes it from [animators], the very array the loop
    walks, so the loop ends at once.  Animator 1 is never started and never
    gets the countdown closure: it stays created, the counter stays at one,
    and the callback is not called, not even when the host completes every
    animator there is. *)
Theorem animateTo_callback_lost :
  animateTo 1 sameFill AUndef AUndef AUndef (AFun 7) false shapeWorld
  = Ok tt sameFillResult
  /\ (exists x,
        animS sameFillResult !! 1%nat = Some x
        /\ a_path x = [] /\ a_keys x = ["position"]
        /\ a_status x = Created
        /\ a_done x = [CbSplice 1 1])
  /\ arrays sameFillResult !! 1%nat = Some [1%nat]
  /\ (exists c, counters sameFillResult !! 0%nat = Some c /\ c_count c = 1)
  /\ callsOf 7 (log sameFillResult) = 0%nat
  /\ completeAll [0%nat; 1%nat] sameFillResult = Ok tt sameFillResult.
Proof.
  split; [vm_compute; reflexivity|].
  split.
  { eexists. split; [vm_compute; reflexivity|]. repeat split. }
  split; [vm_compute; reflexivity|].
  split.
  { eexists. split; [vm_compute; reflexivity|]. reflexivity. }
  split; vm_compute; reflexivity.
Qed.

(** The guard looks at the live value first: a plain object under a key the
    live style does not have is assigned as it is, two levels deep or not,
    and the call returns. *)
Example nesting_unguarded_when_absent :
  exists w',
    animateTo 1 [("style", VObj [("shadow", VObj [("blur", VNum 4)])])]
      AUndef AUndef AUndef AUndef false shapeWorld = Ok tt w'
    /\ liveValue w' 1 ["style"] "shadow" (VObj [("blur", VNum 4)]).
Proof.
  eexists. split; [vm_compute; reflexivity|].
  eexists _, _. split; [vm_compute; reflexivity|]. split; reflexivity.
Qed.

(** * Further properties of the class *)

(** ** The state API as a whole *)

Lemma useStateSeq_app (fuel : nat) (r : nat) (c1 c2 : list (string * bool)) :
  forall w,
    useStateSeq fuel r (c1 ++ c2) w =
    (useStateSeq fuel r c1 ;; useStateSeq fuel r c2) w.
Proof.
  induction c1 as [|[n k] c1 IH]; intros w; simpl; [reflexivity|].
  unfold bind at 1 2 3.
  destruct (useState fuel r n k w) as [[] w1| |]; try reflexivity.
  rewrite IH. reflexivity.
Qed.

Lemma runStateCall_seq (fuel : nat) (r : nat) (c : StateCall) (w : World) :
  runStateCall fuel r c w = useStateSeq fuel r (callSeq c) w.
Proof.
  destruct c as [n k|names|]; simpl.
  - unfold bind. now destruct (useState fuel r n k w) as [[] ?| |].
  - apply useStates_layered.
  - unfold clearStates, bind.
    now destruct (useState fuel r PRESERVED_NORMAL_STATE false w) as [[] ?| |].
Qed.

Lemma runStateCalls_seq (fuel : nat) (r : nat) (calls : list StateCall) :
  forall w,
    runStateCalls fuel r calls w =
    useStateSeq fuel r (concat (map callSeq calls)) w.
Proof.
  induction calls as [|c calls IH]; intros w; simpl; [reflexivity|].
  rewrite useStateSeq_app. unfold runStateCalls in *. simpl.
  unfold bind. rewrite runStateCall_seq.
  destruct (useStateSeq fuel r (callSeq c) w) as [[] w1| |]; try reflexivity.
  apply IH.
Qed.

(** X1.  On a store where every node with an active state has its
    snapshot and no label is, directly or not, its own host, every sequence
    of [useState], [useStates] and [clearStates] calls on a node returns: it
    does not throw on a missing snapshot.  The store is left in the same
    condition. *)
Theorem state_calls_return rk (w : World) (r : nat) (e : Element)
  (calls : list StateCall) (fuel : nat) :
  labels_ranked rk (elems w) ->
  elems w !! r = Some e ->
  (rk r < fuel)%nat ->
  exists w',
    runStateCalls fuel r calls w = Ok tt w'
    /\ labels_ranked rk (elems w').
Proof.
  intros Hwf He Hfuel. rewrite runStateCalls_seq.
  destruct (Hwf r e He) as [Hc _].
  destruct (useStates_this_Ok (concat (map callSeq calls)) e Hc)
    as (e' & Hthis & _).
  destruct (useStateSeq_sound rk fuel r _ w e e' Hwf He Hfuel Hthis)
    as (w' & Hrun & _ & Hwf').
  eauto.
Qed.

Lemma state_calls_return_witness :
  exists w',
    runStateCalls 2 1
      [CallUseStates ["emphasis"; "hover"]; CallUseState "select" true;
       CallClearStates; CallClearStates] barWorld = Ok tt w'
    /\ labels_ranked barRank (elems w').
Proof.
  apply (state_calls_return barRank barWorld 1 barEl).
  - apply barWorld_ranked.
  - reflexivity.
  - vm_compute. lia.
Defined.

(** *** What the calls leave alone *)

Lemma outsideStates_refl (e : Element) : outsideStates e e.
Proof. unfold outsideStates. repeat split; auto. Qed.

Lemma outsideStates_trans (e1 e2 e3 : Element) :
  outsideStates e1 e2 -> outsideStates e2 e3 -> outsideStates e1 e3.
Proof.
  intros (A1 & A2 & A3 & A4 & A5 & A6 & A7 & A8 & A9)
         (B1 & B2 & B3 & B4 & B5 & B6 & B7 & B8 & B9).
  unfold outsideStates.
  split; [intros k H1 H2; rewrite B1, A1; auto|].
  repeat split; congruence.
Qed.

Lemma overlay_other (n : Obj) (state : option Obj) (keep : bool) (p : Obj)
  (k : string) :
  hasKey k PRIMARY_STATES_KEYS = false -> k <> "textConfig" ->
  oget k (overlay n state keep p) = oget k p.
Proof.
  intros Hk Htc. unfold overlay.
  rewrite fold_overlayKey_get, Hk. now apply overlayTextConfig_get_ne.
Qed.

Lemma outsideStates_updateStack (s : string) (keep : bool) (e : Element) :
  outsideStates e (updateStack s keep e).
Proof.
  unfold updateStack.
  destruct (String.eqb s PRESERVED_NORMAL_STATE); [|destruct keep];
    (split; [intros; reflexivity | repeat split]).
Qed.

Lemma useState_this_outside (s : string) (keep : bool) (e e' : Element) :
  consistent e ->
  useState_this s keep e = ElOk e' ->
  outsideStates e e'.
Proof.
  intros Hc H. unfold useState_this in H.
  destruct (negb (hasState e) && String.eqb s PRESERVED_NORMAL_STATE).
  { injection H as <-. apply outsideStates_refl. }
  set (e1 := if hasState e then e
             else set_normalState (Some (snapshot e)) e) in H.
  assert (H1 : outsideStates e e1 /\ is_Some (_normalState e1)).
  { unfold e1. destruct (hasState e) eqn:Hs.
    - split; [apply outsideStates_refl | auto].
    - split; [|simpl; eauto].
      split; [intros; reflexivity | repeat split]. }
  destruct H1 as [Ho1 [n Hn]].
  destruct (stateNoChange s keep e1); [now injection H as <-|].
  destruct (bool_decide (statesGet (states e1) s = None)
            && negb (String.eqb s PRESERVED_NORMAL_STATE));
    [now injection H as <-|].
  rewrite (_applyStateObj_Ok _ _ n) in H by exact Hn. injection H as <-.
  eapply outsideStates_trans; [exact Ho1|].
  unfold updateStack.
  destruct (String.eqb s PRESERVED_NORMAL_STATE); [|destruct keep];
    (split; [|repeat split]);
    intros k Hk Htc; unfold getProp; simpl; now apply overlay_other.
Qed.

Lemma useStates_this_outside (calls : list (string * bool)) :
  forall e e', consistent e ->
    useStates_this calls e = ElOk e' -> outsideStates e e'.
Proof.
  induction calls as [|[n k] calls IH]; intros e e' Hc H; simpl in H.
  - injection H as <-. apply outsideStates_refl.
  - destruct (useState_this_Ok n k e Hc) as (e1 & H1 & Hc1 & _).
    rewrite H1 in H.
    eapply outsideStates_trans; [|apply (IH e1 e' Hc1 H)].
    now apply (useState_this_outside n k).
Qed.

(** X2.  The state API writes the five primary properties and
    [textConfig] of a node, its stack of active states, its snapshot and its
    dirty flag, and nothing else: after any sequence of [useState],
    [useStates] and [clearStates] calls, every other property of the node
    ([style], [shape], ...) has the value it had, the state definitions are
    the same, and so are the dragging mode, the matrix, the host, the clip
    path, the label and the array of animators. *)
Theorem state_calls_frame rk (w : World) (r : nat) (e : Element)
  (calls : list StateCall) (fuel : nat) :
  labels_ranked rk (elems w) ->
  elems w !! r = Some e ->
  (rk r < fuel)%nat ->
  exists w' e',
    runStateCalls fuel r calls w = Ok tt w'
    /\ elems w' !! r = Some e'
    /\ outsideStates e e'.
Proof.
  intros Hwf He Hfuel. rewrite runStateCalls_seq.
  destruct (Hwf r e He) as [Hc _].
  destruct (useStates_this_Ok (concat (map callSeq calls)) e Hc)
    as (e' & Hthis & _).
  destruct (useStateSeq_sound rk fuel r _ w e e' Hwf He Hfuel Hthis)
    as (w' & Hrun & He' & _).
  exists w', e'. split; [exact Hrun|]. split; [exact He'|].
  now apply (useStates_this_outside (concat (map callSeq calls))).
Qed.

Lemma state_calls_frame_witness :
  exists w' e',
    runStateCalls 2 1
      [CallUseStates ["emphasis"; "select"]; CallClearStates] barWorld
    = Ok tt w'
    /\ elems w' !! 1%nat = Some e'
    /\ outsideStates barEl e'.
Proof.
  apply (state_calls_frame barRank barWorld 1 barEl).
  - apply barWorld_ranked.
  - reflexivity.
  - vm_compute. lia.
Defined.

(** ** The stack of active states *)

Lemma useState_this_stack (s : string) (keep : bool) (e e' : Element) :
  consistent e ->
  definedState e s ->
  useState_this s keep e = ElOk e' ->
  currentStates e' =
  if stateNoChange s keep e then currentStates e
  else if keep then currentStates e ++ [s] else [s].
Proof.
  intros Hc [[st Hst] Hne] H.
  assert (Hb : String.eqb s PRESERVED_NORMAL_STATE = false)
    by now apply String.eqb_neq.
  destruct (stateNoChange s keep e) eqn:Hnc.
  - unfold useState_this in H. rewrite Hb, andb_false_r in H.
    assert (Hs : hasState e = true).
    { unfold stateNoChange, lastStateName in Hnc. unfold hasState.
      destruct (currentStates e); [discriminate|reflexivity]. }
    rewrite Hs, Hnc in H. now injection H as <-.
  - rewrite (useState_this_defined s keep e st Hc Hst Hne Hnc) in H.
    injection H as <-. unfold updateStack. rewrite Hb.
    destruct keep; simpl; now destruct (hasState e).
Qed.

Lemma useStates_this_pushes (rest : list string) :
  forall e e' x,
    consistent e ->
    Forall (definedState e) rest ->
    lastStateName e = Some x ->
    distinctNeighbours (x :: rest) = true ->
    useStates_this (map (fun n => (n, true)) rest) e = ElOk e' ->
    currentStates e' = currentStates e ++ rest.
Proof.
  induction rest as [|s rest IH]; intros e e' x Hc Hall Hlast Hd H;
    simpl in H.
  - injection H as <-. now rewrite app_nil_r.
  - inversion Hall as [|? ? Hs Hrest]; subst.
    destruct (useState_this_Ok s true e Hc) as (e1 & H1 & Hc1 & _ & Hst1).
    rewrite H1 in H.
    change (distinctNeighbours (x :: s :: rest))
      with (negb (String.eqb x s) && distinctNeighbours (s :: rest)) in Hd.
    apply andb_prop in Hd as [Hxs Hd].
    apply negb_true_iff, String.eqb_neq in Hxs.
    pose proof (useState_this_stack s true e e1 Hc Hs H1) as Hstack.
    rewrite stateNoChange_keep, Hlast in Hstack.
    rewrite bool_decide_eq_false_2 in Hstack by congruence.
    rewrite (IH e1 e' s Hc1); auto.
    + rewrite Hstack. now rewrite <- app_assoc.
    + unfold definedState in *. now rewrite Hst1.
    + unfold lastStateName. rewrite Hstack. apply last_snoc.
Qed.

(** X3.  [useStates(names)] leaves the stack of active states equal to
    [names], whatever states were active before: the first name replaces
    the stack, each further name is pushed.  The names are states the node
    defines, none is the reserved name and none is followed by itself (a
    name that repeats its predecessor is skipped by [useState]). *)
Theorem useStates_stack rk (w : World) (r : nat) (e : Element)
  (names : list string) (fuel : nat) :
  labels_ranked rk (elems w) ->
  elems w !! r = Some e ->
  (rk r < fuel)%nat ->
  names <> [] ->
  Forall (definedState e) names ->
  distinctNeighbours names = true ->
  exists w' e',
    useStates fuel r names w = Ok tt w'
    /\ elems w' !! r = Some e'
    /\ currentStates e' = names.
Proof.
  intros Hwf He Hfuel Hne Hall Hd. rewrite useStates_layered.
  destruct (Hwf r e He) as [Hc _].
  destruct (useStates_this_Ok (layered names) e Hc) as (e' & Hthis & _).
  destruct (useStateSeq_sound rk fuel r _ w e e' Hwf He Hfuel Hthis)
    as (w' & Hrun & He' & _).
  exists w', e'. split; [exact Hrun|]. split; [exact He'|].
  destruct names as [|n rest]; [congruence|]. simpl in Hthis.
  inversion Hall as [|? ? Hn Hrest]; subst.
  destruct (useState_this_Ok n false e Hc) as (e1 & H1 & Hc1 & _ & Hst1).
  rewrite H1 in Hthis.
  assert (Hstack : currentStates e1 = [n]).
  { rewrite (useState_this_stack n false e e1 Hc Hn H1).
    destruct (stateNoChange n false e) eqn:Hnc; [|reflexivity].
    now apply stateNoChange_single. }
  rewrite (useStates_this_pushes rest e1 e' n); auto.
  - now rewrite Hstack.
  - unfold definedState in *. now rewrite Hst1.
  - unfold lastStateName. now rewrite Hstack.
Qed.

Lemma useStates_stack_witness :
  exists w' e',
    useStates 2 1 ["emphasis"; "select"; "emphasis"] barWorld = Ok tt w'
    /\ elems w' !! 1%nat = Some e'
    /\ currentStates e' = ["emphasis"; "select"; "emphasis"].
Proof.
  apply (useStates_stack barRank barWorld 1 barEl).
  - apply barWorld_ranked.
  - reflexivity.
  - vm_compute. lia.
  - discriminate.
  - repeat constructor; try (vm_compute; eauto); discriminate.
  - reflexivity.
Defined.

(** ** Repeating a call *)

Lemma useState_noop (w : World) (r : nat) (e : Element) (s : string)
  (keep : bool) (fuel : nat) :
  elems w !! r = Some e ->
  (0 < fuel)%nat ->
  (hasState e = false /\ s = PRESERVED_NORMAL_STATE)
  \/ (hasState e = true /\ stateNoChange s keep e = true) ->
  useState fuel r s keep w = Ok tt w.
Proof.
  intros He Hfuel Hcase. destruct fuel as [|fuel]; [lia|].
  cbn [useState]. rewrite (bind_Ok _ _ _ _ _ (getEl_Ok _ _ _ He)).
  destruct Hcase as [[Hs ->]|[Hs Hnc]]; rewrite Hs; simpl.
  - reflexivity.
  - unfold when, bind, ret. rewrite (getEl_Ok _ _ _ He), Hnc. reflexivity.
Qed.

Lemma useState_this_settles (s : string) (keep : bool) (e e' : Element) :
  consistent e ->
  is_Some (states e !! s) \/ s = PRESERVED_NORMAL_STATE ->
  useState_this s keep e = ElOk e' ->
  (hasState e' = false /\ s = PRESERVED_NORMAL_STATE)
  \/ (hasState e' = true /\ stateNoChange s keep e' = true).
Proof.
  intros Hc Hdef H. unfold useState_this in H.
  destruct (negb (hasState e) && String.eqb s PRESERVED_NORMAL_STATE)
    eqn:Hskip.
  { injection H as <-. apply andb_prop in Hskip as [H1 H2].
    left. split; [now apply negb_true_iff | now apply String.eqb_eq]. }
  set (e1 := if hasState e then e
             else set_normalState (Some (snapshot e)) e) in H.
  assert (H1 : is_Some (_normalState e1) /\ states e1 = states e
               /\ currentStates e1 = currentStates e).
  { unfold e1. destruct (hasState e) eqn:Hs; simpl; eauto. }
  destruct H1 as ([n Hn] & Hst1 & Hcs1).
  destruct (stateNoChange s keep e1) eqn:Hnc.
  { injection H as <-. right. split; [|exact Hnc].
    unfold stateNoChange, lastStateName in Hnc. unfold hasState.
    destruct (currentStates e1); [discriminate|reflexivity]. }
  destruct (String.eqb s PRESERVED_NORMAL_STATE) eqn:Hb.
  - rewrite andb_false_r in H.
    rewrite (_applyStateObj_Ok _ _ n) in H by exact Hn. injection H as <-.
    left. split; [|now apply String.eqb_eq].
    unfold updateStack. now rewrite Hb.
  - destruct Hdef as [[st Hst]|Hdef];
      [|apply String.eqb_neq in Hb; contradiction].
    rewrite Hst1, (statesGet_Some _ _ _ Hst) in H. simpl in H.
    rewrite (_applyStateObj_Ok _ _ n) in H by exact Hn. injection H as <-.
    right. unfold stateNoChange, lastStateName, hasState, updateStack.
    rewrite Hb. destruct keep; simpl.
    + rewrite last_snoc. rewrite bool_decide_eq_true_2 by reflexivity.
      split; [|reflexivity]. now destruct (currentStates e1).
    + rewrite bool_decide_eq_true_2 by reflexivity. auto.
Qed.

(** X4.  Switching to a state is idempotent: when [useState(s, keep)]
    has returned for a state [s] the node defines (or for the reserved
    name), a second call with the same arguments changes nothing at all: no
    property, no snapshot, no redraw request, nothing on the label. *)
Theorem useState_idempotent rk (w : World) (r : nat) (e : Element)
  (s : string) (keep : bool) (fuel : nat) :
  labels_ranked rk (elems w) ->
  elems w !! r = Some e ->
  (rk r < fuel)%nat ->
  is_Some (states e !! s) \/ s = PRESERVED_NORMAL_STATE ->
  exists w',
    useState fuel r s keep w = Ok tt w'
    /\ useState fuel r s keep w' = Ok tt w'.
Proof.
  intros Hwf He Hfuel Hdef.
  destruct (Hwf r e He) as [Hc _].
  destruct (useState_this_Ok s keep e Hc) as (e' & Hthis & _).
  destruct (useState_sound rk fuel r s keep w e e' Hwf He Hfuel Hthis)
    as (w' & Hrun & He' & _).
  exists w'. split; [exact Hrun|].
  apply (useState_noop w' r e'); [exact He' | lia|].
  now apply (useState_this_settles s keep e e').
Qed.

Lemma useState_idempotent_witness :
  exists w',
    useState 2 1 "emphasis" false barWorld = Ok tt w'
    /\ useState 2 1 "emphasis" false w' = Ok tt w'.
Proof.
  apply (useState_idempotent barRank barWorld 1 barEl).
  - apply barWorld_ranked.
  - reflexivity.
  - vm_compute. lia.
  - left. vm_compute. eauto.
Defined.

(** ** One switch, from any combination of states *)

(** X5.  [useState(s)] without [keepCurrentStates] discards whatever
    states were active: unless [s] alone was active already, the node ends
    with [s] as its only active state, each primary property has the value
    [s] gives it or, where [s] gives none, the value of the snapshot in
    force, and the label configuration is the snapshot's with the keys of
    [s]'s configuration written over it.  Nothing of the states left behind
    remains. *)
Theorem useState_replaces rk (w : World) (r : nat) (e : Element)
  (s : string) (st : Obj) (fuel : nat) :
  labels_ranked rk (elems w) ->
  elems w !! r = Some e ->
  (rk r < fuel)%nat ->
  states e !! s = Some st ->
  s <> PRESERVED_NORMAL_STATE ->
  currentStates e <> [s] ->
  exists w' e',
    useState fuel r s false w = Ok tt w'
    /\ elems w' !! r = Some e'
    /\ currentStates e' = [s]
    /\ (forall k, hasKey k PRIMARY_STATES_KEYS = true ->
          getProp k e' =
          if negb (isNull (oget k st)) then oget k st
          else oget k (baseline e))
    /\ (forall k,
          cfgGet k (getProp "textConfig" e') =
          if cfgHas k (oget "textConfig" st)
          then cfgGet k (oget "textConfig" st)
          else cfgGet k (oget "textConfig" (baseline e))).
Proof.
  intros Hwf He Hfuel Hst Hne Hcs.
  destruct (Hwf r e He) as [Hc _].
  assert (Hnc : stateNoChange s false e = false).
  { destruct (stateNoChange s false e) eqn:Hnc; [|reflexivity].
    now apply stateNoChange_single in Hnc. }
  pose proof (useState_this_defined s false e st Hc Hst Hne Hnc) as Hthis.
  destruct (useState_sound rk fuel r s false w e _ Hwf He Hfuel Hthis)
    as (w' & Hrun & He' & _).
  eexists w', _. split; [exact Hrun|]. split; [exact He'|].
  split; [now apply currentStates_applied|]. split.
  - intros k Hk. rewrite getProp_applied, overlay_primary by exact Hk.
    reflexivity.
  - intros k. rewrite getProp_applied, overlay_textConfig. simpl.
    apply cfgGet_layer.
Qed.

Lemma useState_replaces_witness :
  exists w' e',
    useState 2 1 "select" false barWorld = Ok tt w'
    /\ elems w' !! 1%nat = Some e'
    /\ currentStates e' = ["select"]
    /\ getProp "rotation" e' = VNum 1
    /\ getProp "position" e' = VArr [10; 10].
Proof.
  destruct (useState_replaces barRank barWorld 1 barEl "select"
              [("rotation", VNum 1); ("origin", VArr [5; 5])] 2)
    as (w' & e' & Hrun & He' & Hcs & Hp & _).
  - apply barWorld_ranked.
  - reflexivity.
  - vm_compute. lia.
  - reflexivity.
  - discriminate.
  - discriminate.
  - exists w', e'. split; [exact Hrun|]. split; [exact He'|].
    split; [exact Hcs|]. split.
    + now rewrite (Hp "rotation").
    + now rewrite (Hp "position").
Defined.

(** X6.  [useState(s, true)] layers [s] over the node as it is: unless
    [s] is already the last active state, [s] is pushed on the stack, each
    primary property has the value [s] gives it or, where [s] gives none,
    the value the node had just before the call, and the label
    configuration is the one the node had with the keys of [s]'s
    configuration written over it.  Nothing is restored from the snapshot;
    from the normal state, an unset [origin] stays unset. *)
Theorem useState_keep_layers rk (w : World) (r : nat) (e : Element)
  (s : string) (st : Obj) (fuel : nat) :
  labels_ranked rk (elems w) ->
  elems w !! r = Some e ->
  (rk r < fuel)%nat ->
  states e !! s = Some st ->
  s <> PRESERVED_NORMAL_STATE ->
  lastStateName e <> Some s ->
  exists w' e',
    useState fuel r s true w = Ok tt w'
    /\ elems w' !! r = Some e'
    /\ currentStates e' = currentStates e ++ [s]
    /\ (forall k, hasKey k PRIMARY_STATES_KEYS = true ->
          getProp k e' =
          if negb (isNull (oget k st)) then oget k st else getProp k e)
    /\ (forall k,
          cfgGet k (getProp "textConfig" e') =
          if cfgHas k (oget "textConfig" st)
          then cfgGet k (oget "textConfig" st)
          else cfgGet k (getProp "textConfig" e)).
Proof.
  intros Hwf He Hfuel Hst Hne Hlast.
  destruct (Hwf r e He) as [Hc _].
  assert (Hnc : stateNoChange s true e = false).
  { rewrite stateNoChange_keep. now apply bool_decide_eq_false_2. }
  pose proof (useState_this_defined s true e st Hc Hst Hne Hnc) as Hthis.
  destruct (useState_sound rk fuel r s true w e _ Hwf He Hfuel Hthis)
    as (w' & Hrun & He' & _).
  eexists w', _. split; [exact Hrun|]. split; [exact He'|].
  split; [now apply currentStates_applied|]. split.
  - intros k Hk. rewrite getProp_applied, overlay_primary by exact Hk.
    reflexivity.
  - intros k. rewrite getProp_applied, overlay_textConfig. simpl.
    apply cfgGet_layer.
Qed.

Lemma useState_keep_layers_witness :
  exists w' e',
    useState 2 1 "select" true barWorld = Ok tt w'
    /\ elems w' !! 1%nat = Some e'
    /\ currentStates e' = ["select"]
    /\ getProp "origin" e' = VArr [5; 5]
    /\ getProp "scale" e' = VArr [1; 1].
Proof.
  destruct (useState_keep_layers barRank barWorld 1 barEl "select"
              [("rotation", VNum 1); ("origin", VArr [5; 5])] 2)
    as (w' & e' & Hrun & He' & Hcs & Hp & _).
  - apply barWorld_ranked.
  - reflexivity.
  - vm_compute. lia.
  - reflexivity.
  - discriminate.
  - discriminate.
  - exists w', e'. split; [exact Hrun|]. split; [exact He'|].
    split; [exact Hcs|]. split.
    + now rewrite (Hp "origin").
    + now rewrite (Hp "scale").
Defined.

(** ** The label of a node in a state *)

(** A call of [useState] that applies a state, on a node with a label: the
    node is as [useState_this] says, and so is the label, which is switched
    without [keepCurrentStates]. *)
Lemma useState_label rk (fuel : nat) (r t : nat) (s : string) (keep : bool)
  (w : World) (e e' et et' : Element) (st : Obj) :
  labels_ranked rk (elems w) ->
  elems w !! r = Some e ->
  elems w !! t = Some et ->
  _textContent e = Some t ->
  (rk r < fuel)%nat ->
  states e !! s = Some st ->
  s <> PRESERVED_NORMAL_STATE ->
  stateNoChange s keep e = false ->
  useState_this s keep e = ElOk e' ->
  useState_this s false et = ElOk et' ->
  exists w',
    useState fuel r s keep w = Ok tt w'
    /\ elems w' !! r = Some e'
    /\ elems w' !! t = Some et'
    /\ labels_ranked rk (elems w').
Proof.
  intros Hwf He Het Ht Hfuel Hst Hne Hnc Hthis Hthis_t.
  destruct (Hwf r e He) as [Hc Hl]. destruct (Hl t Ht) as [Hrk _].
  assert (Hrt : r <> t) by (intros ->; lia).
  assert (Hb : String.eqb s PRESERVED_NORMAL_STATE = false)
    by now apply String.eqb_neq.
  rewrite (useState_this_defined s keep e st Hc Hst Hne Hnc) in Hthis.
  injection Hthis as <-.
  destruct fuel as [|fuel]; [lia|]. cbn [useState].
  rewrite (bind_Ok _ _ _ _ _ (getEl_Ok _ _ _ He)). rewrite Hb, andb_false_r.
  set (e1 := if hasState e then e
             else set_normalState (Some (snapshot e)) e).
  set (w1 := if hasState e then w
             else set_elems (<[r := e1]> (elems w))
                    (set_log (log w ++ [EvSaveNormal r]) w)).
  assert (Hsave : when (negb (hasState e)) (saveStateToNormal r) w = Ok tt w1).
  { unfold w1, e1. destruct (hasState e); simpl; [reflexivity|].
    now apply saveStateToNormal_Ok. }
  rewrite (bind_Ok _ _ _ _ _ Hsave).
  assert (He1 : elems w1 !! r = Some e1).
  { unfold w1, e1. destruct (hasState e); [exact He|].
    simpl. apply lookup_insert_eq. }
  assert (Het1 : elems w1 !! t = Some et).
  { unfold w1. destruct (hasState e); [exact Het|].
    simpl. now rewrite lookup_insert_ne. }
  assert (Hwf1 : labels_ranked rk (elems w1)).
  { unfold w1, e1. destruct (hasState e) eqn:Hs; [exact Hwf|]. simpl.
    apply (labels_ranked_insert rk _ r e); auto.
    intros _. simpl. eauto. }
  assert (Hn1 : _normalState e1 = Some (baseline e)).
  { unfold e1, baseline. destruct (hasState e) eqn:Hs; [|reflexivity].
    destruct (Hc Hs) as [n Hn]. now rewrite Hn. }
  assert (Hp1 : props e1 = props e /\ states e1 = states e
                /\ _textContent e1 = _textContent e
                /\ stateNoChange s keep e1 = stateNoChange s keep e).
  { unfold e1. now destruct (hasState e). }
  destruct Hp1 as (Hp1 & Hst1 & Ht1 & Hnc1).
  rewrite (bind_Ok _ _ _ _ _ (getEl_Ok _ _ _ He1)).
  rewrite Hnc1, Hnc, Hst1, (statesGet_Some _ _ _ Hst).
  rewrite bool_decide_eq_false_2 by discriminate. cbn [andb].
  set (e2 := set_props (overlay (baseline e) (Some st) keep (props e1)) e1).
  rewrite (bind_Ok _ _ _ _ _
             (onThis_Ok _ _ _ _ e2 He1 (_applyStateObj_Ok _ _ _ _ Hn1))).
  set (w2 := set_elems (<[r := e2]> (elems w1)) w1).
  assert (He2 : elems w2 !! r = Some e2) by (simpl; apply lookup_insert_eq).
  assert (Het2 : elems w2 !! t = Some et).
  { simpl. now rewrite lookup_insert_ne. }
  assert (Hwf2 : labels_ranked rk (elems w2)).
  { simpl. apply (labels_ranked_insert rk _ r e1); auto.
    intros _. simpl. eauto. }
  rewrite (bind_Ok _ _ _ _ _ (getEl_Ok _ _ _ He2)).
  assert (Ht2 : _textContent e2 = Some t) by (simpl; congruence).
  rewrite Ht2.
  destruct (useState_sound rk fuel t s false w2 et et' Hwf2 Het2
              ltac:(lia) Hthis_t) as (w3 & Hrun3 & Het3 & Hwf3 & Hfr3 & _).
  rewrite (bind_Ok _ _ _ _ _ Hrun3).
  assert (He3 : elems w3 !! r = Some e2).
  { rewrite <- He2. apply Hfr3; [exact Hrt | lia]. }
  rewrite (bind_Ok _ _ _ _ _ (modEl_Ok _ _ _ _ He3)).
  erewrite markRedraw_Ok by (simpl; apply lookup_insert_eq).
  eexists. split; [reflexivity|]. simpl.
  rewrite insert_insert_eq.
  split; [|split].
  - rewrite lookup_insert_eq. unfold e2. now rewrite Hp1.
  - now rewrite lookup_insert_ne.
  - apply (labels_ranked_insert rk _ r e2); auto.
    + intros _. unfold updateStack.
      destruct (String.eqb s PRESERVED_NORMAL_STATE);
        [|destruct keep]; simpl; eauto.
    + unfold updateStack.
      destruct (String.eqb s PRESERVED_NORMAL_STATE);
        [|destruct keep]; reflexivity.
Qed.

Lemma label_second_switch (et la lb : Element) (a b : string) (sb : Obj) :
  currentStates et = [] ->
  a <> b ->
  a <> PRESERVED_NORMAL_STATE ->
  b <> PRESERVED_NORMAL_STATE ->
  states et !! b = Some sb ->
  useState_this a false et = ElOk la ->
  useState_this b false la = ElOk lb ->
  currentStates lb = [b]
  /\ forall k, hasKey k PRIMARY_STATES_KEYS = true ->
       getProp k lb =
       if negb (isNull (oget k sb)) then oget k sb
       else oget k (snapshot et).
Proof.
  intros Hcs Hab Ha Hb Hsb Hla Hlb.
  assert (Hh : hasState et = false) by (unfold hasState; now rewrite Hcs).
  assert (Hc : consistent et) by (intros H; congruence).
  assert (Hba : String.eqb a PRESERVED_NORMAL_STATE = false)
    by now apply String.eqb_neq.
  assert (Hfinal : forall la',
            consistent la' -> states la' = states et ->
            currentStates la' <> [b] ->
            (forall k, hasKey k PRIMARY_STATES_KEYS = true ->
               oget k (baseline la') = oget k (snapshot et)) ->
            useState_this b false la' = ElOk lb ->
            currentStates lb = [b]
            /\ forall k, hasKey k PRIMARY_STATES_KEYS = true ->
                 getProp k lb =
                 if negb (isNull (oget k sb)) then oget k sb
                 else oget k (snapshot et)).
  { intros la' Hc' Hst' Hcs' Hbase H.
    assert (Hnc : stateNoChange b false la' = false).
    { destruct (stateNoChange b false la') eqn:Hnc; [|reflexivity].
      now apply stateNoChange_single in Hnc. }
    rewrite (useState_this_defined b false la' sb Hc') in H;
      [|congruence|exact Hb|exact Hnc].
    injection H as <-. split; [now apply currentStates_applied|].
    intros k Hk. rewrite getProp_applied, overlay_primary by exact Hk.
    simpl. now rewrite Hbase. }
  destruct (statesGet (states et) a) as [sa|] eqn:Hsa.
  - rewrite (useState_this_found a false et sa Hc Hsa Ha) in Hla
      by now apply stateNoChange_empty.
    injection Hla as <-. rewrite Hh in Hlb.
    refine (Hfinal _ _ _ _ _ Hlb).
    + intros _. unfold updateStack. rewrite Hba. simpl. eauto.
    + unfold updateStack. now rewrite Hba.
    + unfold updateStack. rewrite Hba. simpl. congruence.
    + intros k Hk. unfold baseline, updateStack. rewrite Hba. reflexivity.
  - unfold useState_this in Hla. rewrite Hh, Hba in Hla. simpl in Hla.
    rewrite stateNoChange_set_normalState, stateNoChange_empty in Hla
      by exact Hcs.
    rewrite Hsa, bool_decide_eq_true_2 in Hla by reflexivity.
    simpl in Hla. injection Hla as <-.
    refine (Hfinal _ _ _ _ _ Hlb).
    + intros H. unfold hasState in H. simpl in H. now rewrite Hcs in H.
    + reflexivity.
    + simpl. rewrite Hcs. discriminate.
    + intros k Hk. unfold baseline, hasState. simpl. rewrite Hcs.
      now rewrite !snapshot_primary by exact Hk.
Qed.

(** X7.  The label of a node is switched with the node, but never
    layered: [useState] on the node calls [useState] on the label without
    [keepCurrentStates].  After [useStates([a, b])] on a node in its normal
    state, the node has both states active while its label, which was in its
    normal state and defines [b], has [b] alone; each primary property of
    the label has the value [b] gives it or else the label's snapshot value,
    whatever [a] gave. *)
Theorem label_not_layered rk (w : World) (r t : nat) (e et : Element)
  (a b : string) (sb : Obj) (fuel : nat) :
  labels_ranked rk (elems w) ->
  elems w !! r = Some e ->
  elems w !! t = Some et ->
  _textContent e = Some t ->
  (rk r < fuel)%nat ->
  currentStates e = [] ->
  currentStates et = [] ->
  definedState e a ->
  definedState e b ->
  a <> b ->
  states et !! b = Some sb ->
  exists w' e' et',
    useStates fuel r [a; b] w = Ok tt w'
    /\ elems w' !! r = Some e'
    /\ elems w' !! t = Some et'
    /\ currentStates e' = [a; b]
    /\ currentStates et' = [b]
    /\ forall k, hasKey k PRIMARY_STATES_KEYS = true ->
         getProp k et' =
         if negb (isNull (oget k sb)) then oget k sb
         else oget k (snapshot et).
Proof.
  intros Hwf He Het Ht Hfuel Hcs Hcst [[sa Hsa] Ha] [[sb' Hsb'] Hb] Hab Hsb.
  destruct (Hwf r e He) as [Hc _]. destruct (Hwf t et Het) as [Hct _].
  (* the first call *)
  destruct (useState_this_Ok a false e Hc) as (ea & Hea & Hca & Hta & Hsta).
  destruct (useState_this_Ok a false et Hct) as (la & Hla & Hcla & _ & Hstla).
  destruct (useState_label rk fuel r t a false w e ea et la sa
              Hwf He Het Ht Hfuel Hsa Ha (stateNoChange_empty _ _ _ Hcs)
              Hea Hla) as (w1 & Hrun1 & He1 & Het1 & Hwf1).
  assert (Hcsa : currentStates ea = [a]).
  { rewrite (useState_this_stack a false e ea Hc); [|split; eauto|exact Hea].
    now rewrite stateNoChange_empty. }
  (* the second call *)
  destruct (useState_this_Ok b true ea Hca) as (eb & Heb & _).
  destruct (useState_this_Ok b false la Hcla) as (lb & Hlb & _).
  assert (Hncb : stateNoChange b true ea = false).
  { rewrite stateNoChange_keep. unfold lastStateName. rewrite Hcsa.
    apply bool_decide_eq_false_2. simpl. congruence. }
  destruct (useState_label rk fuel r t b true w1 ea eb la lb sb'
              Hwf1 He1 Het1 ltac:(congruence) Hfuel ltac:(congruence) Hb
              Hncb Heb Hlb) as (w2 & Hrun2 & He2 & Het2 & _).
  exists w2, eb, lb. split.
  { simpl. rewrite (bind_Ok _ _ _ _ _ Hrun1).
    unfold bind. now rewrite Hrun2. }
  split; [exact He2|]. split; [exact Het2|]. split.
  { rewrite (useState_this_stack b true ea eb Hca); [|split|exact Heb].
    - now rewrite Hncb, Hcsa.
    - rewrite Hsta. eauto.
    - exact Hb. }
  now apply (label_second_switch et la lb a b sb).
Qed.

Lemma label_not_layered_witness :
  exists w' e' et',
    useStates 2 1 ["select"; "emphasis"] barWorld = Ok tt w'
    /\ elems w' !! 1%nat = Some e'
    /\ elems w' !! 2%nat = Some et'
    /\ currentStates e' = ["select"; "emphasis"]
    /\ currentStates et' = ["emphasis"]
    /\ getProp "ignore" et' = VBool true.
Proof.
  destruct (label_not_layered barRank barWorld 1 2 barEl barLabel
              "select" "emphasis" [("ignore", VBool true)] 2)
    as (w' & e' & et' & Hrun & He' & Het' & Hcs & Hcst & Hp).
  - apply barWorld_ranked.
  - reflexivity.
  - reflexivity.
  - reflexivity.
  - vm_compute. lia.
  - reflexivity.
  - reflexivity.
  - split; [vm_compute; eauto | discriminate].
  - split; [vm_compute; eauto | discriminate].
  - discriminate.
  - reflexivity.
  - exists w', e', et'. split; [exact Hrun|]. split; [exact He'|].
    split; [exact Het'|]. split; [exact Hcs|]. split; [exact Hcst|].
    now rewrite (Hp "ignore").
Defined.

(** ** ensureState *)

(** X8.  [ensureState] makes [useState] applicable.  On a node in its
    normal state on which [states[name]] finds nothing (the node defines no
    such state, and [name] is not a name every object inherits),
    [ensureState(name)] followed by [useState(name)] returns with [name] as
    the only active state and with [name] defined as the empty state, the
    other definitions being kept.  As the empty state gives no value, every
    primary property and the label configuration have the value they had,
    except that an unset [origin] has become [[0, 0]]. *)
Theorem ensureState_enables rk (w : World) (r : nat) (e : Element)
  (name : string) (fuel : nat) :
  labels_ranked rk (elems w) ->
  elems w !! r = Some e ->
  (rk r < fuel)%nat ->
  currentStates e = [] ->
  statesGet (states e) name = None ->
  name <> PRESERVED_NORMAL_STATE ->
  exists w' e',
    (ensureState r name ;; useState fuel r name false) w = Ok tt w'
    /\ elems w' !! r = Some e'
    /\ currentStates e' = [name]
    /\ states e' = <[name := []]> (states e)
    /\ (forall k, hasKey k PRIMARY_STATES_KEYS = true ->
          getProp k e' =
          if String.eqb k "origin" then originOrDefault (getProp "origin" e)
          else getProp k e)
    /\ getProp "textConfig" e' = getProp "textConfig" e.
Proof.
  intros Hwf He Hfuel Hcs Hundef Hne.
  set (es := set_states (<[name := []]> (states e)) e).
  set (ws := set_elems (<[r := es]> (elems w)) w).
  assert (Hrun1 : ensureState r name w = Ok [] ws).
  { unfold ensureState. rewrite (bind_Ok _ _ _ _ _ (getEl_Ok _ _ _ He)).
    now rewrite Hundef. }
  assert (Hes : elems ws !! r = Some es) by (simpl; apply lookup_insert_eq).
  assert (Hh : hasState es = false) by (unfold hasState; simpl; now rewrite Hcs).
  assert (Hc : consistent es) by (intros H; congruence).
  assert (Hwfs : labels_ranked rk (elems ws)).
  { simpl. now apply (labels_ranked_insert rk _ r e). }
  assert (Hst : states es !! name = Some []) by (simpl; apply lookup_insert_eq).
  pose proof (useState_this_defined name false es [] Hc Hst Hne
                (stateNoChange_empty _ _ _ Hcs)) as Hthis.
  destruct (useState_sound rk fuel r name false ws es _ Hwfs Hes Hfuel Hthis)
    as (w' & Hrun & He' & _).
  eexists w', _. split.
  { rewrite (bind_Ok _ _ _ _ _ Hrun1). exact Hrun. }
  split; [exact He'|]. split; [now apply currentStates_applied|].
  split; [|split].
  - rewrite Hh. unfold updateStack.
    apply String.eqb_neq in Hne. now rewrite Hne.
  - intros k Hk. rewrite getProp_applied, overlay_primary by exact Hk.
    simpl. unfold baseline. rewrite Hh.
    rewrite snapshot_primary by exact Hk. reflexivity.
  - rewrite getProp_applied, overlay_textConfig. simpl.
    unfold baseline. rewrite Hh. now rewrite snapshot_textConfig.
Qed.

Lemma ensureState_enables_witness :
  exists w' e',
    (ensureState 1 "hover" ;; useState 2 1 "hover" false) barWorld = Ok tt w'
    /\ elems w' !! 1%nat = Some e'
    /\ currentStates e' = ["hover"]
    /\ getProp "origin" e' = VArr [0; 0]
    /\ getProp "rotation" e' = VNum 0.
Proof.
  destruct (ensureState_enables barRank barWorld 1 barEl "hover" 2)
    as (w' & e' & Hrun & He' & Hcs & _ & Hp & _).
  - apply barWorld_ranked.
  - reflexivity.
  - vm_compute. lia.
  - reflexivity.
  - reflexivity.
  - discriminate.
  - exists w', e'. split; [exact Hrun|]. split; [exact He'|].
    split; [exact Hcs|]. split.
    + now rewrite (Hp "origin").
    + now rewrite (Hp "rotation").
Defined.

(** ** hide and show *)

Lemma setIgnore_run (v : value) (w : World) (r : nat) (e : Element) :
  elems w !! r = Some e ->
  (modEl r (setProp "ignore" v) ;; refreshHost r) w =
  Ok tt (set_log (log w ++ refreshOf e)
           (set_elems (<[r := setProp "ignore" v e]> (elems w)) w)).
Proof.
  intros He. rewrite (bind_Ok _ _ _ _ _ (modEl_Ok _ _ _ _ He)).
  unfold refreshHost.
  erewrite bind_Ok by (apply getEl_Ok; simpl; apply lookup_insert_eq).
  unfold refreshOf. simpl.
  destruct (__zr e); unfold emit, modify, ret; simpl;
    [reflexivity | now rewrite app_nil_r].
Qed.

Lemma ignore_undone rk (v : value) (w : World) (r : nat) (e : Element)
  (calls : list (string * bool)) (fuel : nat) :
  labels_ranked rk (elems w) ->
  elems w !! r = Some e ->
  (rk r < fuel)%nat ->
  currentStates e = [] ->
  states e !! PRESERVED_NORMAL_STATE = None ->
  Forall (namesState e) calls ->
  calls <> [] ->
  exists w' e',
    (useStateSeq fuel r calls ;;
     (modEl r (setProp "ignore" v) ;; refreshHost r) ;;
     clearStates fuel r) w = Ok tt w'
    /\ elems w' !! r = Some e'
    /\ currentStates e' = []
    /\ getProp "ignore" e' = getProp "ignore" e.
Proof.
  intros Hwf He Hfuel Hcs Hfree Hall Hne.
  destruct calls as [|[n k] calls]; [congruence|].
  inversion Hall as [|? ? Hc Hrest]; subst.
  pose proof (useState_this_first n k e Hcs Hc) as H1.
  set (e1 := set_dirty true _) in H1.
  assert (Ha1 : activeOn e e1).
  { destruct Hc as [_ Hn]. apply activeOn_updateStack; simpl; auto.
    rewrite Hcs. constructor. }
  destruct (useStates_this_active e calls e1 Ha1 Hrest) as (e2 & H2 & Ha2).
  assert (Hthis : useStates_this ((n, k) :: calls) e = ElOk e2).
  { simpl. now rewrite H1. }
  destruct (useStateSeq_sound rk fuel r _ w e e2 Hwf He Hfuel Hthis)
    as (w2 & Hrun2 & He2 & Hwf2).
  set (e3 := setProp "ignore" v e2).
  pose proof (setIgnore_run v w2 r e2 He2) as Hrun3.
  set (w3 := set_log _ _) in Hrun3.
  assert (He3 : elems w3 !! r = Some e3) by (simpl; apply lookup_insert_eq).
  assert (Ha3 : activeOn e e3).
  { destruct Ha2 as (A & B & C & D). now repeat split. }
  assert (Hwf3 : labels_ranked rk (elems w3)).
  { simpl. apply (labels_ranked_insert rk _ r e2); auto.
    destruct Ha3 as (_ & B & _). intros _. eexists. exact B. }
  pose proof (useState_this_normal e e3 Ha3 Hfree) as H4.
  destruct (useState_sound rk fuel r _ false w3 e3 _ Hwf3 He3 Hfuel H4)
    as (w4 & Hrun4 & He4 & _).
  eexists w4, _. split.
  { rewrite (bind_Ok _ _ _ _ _ Hrun2), (bind_Ok _ _ _ _ _ Hrun3).
    exact Hrun4. }
  split; [exact He4|]. split; [reflexivity|].
  unfold getProp at 1. simpl.
  rewrite overlay_primary by reflexivity. simpl.
  now rewrite snapshot_primary by reflexivity.
Qed.

(** X9.  A [hide()] or [show()] issued while a state is active does not
    outlive the state: [clearStates] restores [ignore] from the snapshot.
    On a node taken from its normal state through a non-empty sequence of
    state switches, then hidden (or shown), then cleared, [ignore] has the
    value it had in the normal state. *)
Theorem hide_undone_by_clearStates rk (w : World) (r : nat) (e : Element)
  (calls : list (string * bool)) (fuel : nat) :
  labels_ranked rk (elems w) ->
  elems w !! r = Some e ->
  (rk r < fuel)%nat ->
  currentStates e = [] ->
  states e !! PRESERVED_NORMAL_STATE = None ->
  Forall (namesState e) calls ->
  calls <> [] ->
  (exists w' e',
     (useStateSeq fuel r calls ;; hide r ;; clearStates fuel r) w = Ok tt w'
     /\ elems w' !! r = Some e'
     /\ currentStates e' = []
     /\ getProp "ignore" e' = getProp "ignore" e)
  /\ (exists w' e',
        (useStateSeq fuel r calls ;; show r ;; clearStates fuel r) w
        = Ok tt w'
        /\ elems w' !! r = Some e'
        /\ currentStates e' = []
        /\ getProp "ignore" e' = getProp "ignore" e).
Proof.
  intros Hwf He Hfuel Hcs Hfree Hall Hne. split.
  - exact (ignore_undone rk (VBool true) w r e calls fuel
             Hwf He Hfuel Hcs Hfree Hall Hne).
  - exact (ignore_undone rk (VBool false) w r e calls fuel
             Hwf He Hfuel Hcs Hfree Hall Hne).
Qed.

Lemma hide_undone_by_clearStates_witness :
  exists w' e',
    (useStateSeq 2 1 [("emphasis", false)] ;; hide 1 ;; clearStates 2 1)
      barWorld = Ok tt w'
    /\ elems w' !! 1%nat = Some e'
    /\ currentStates e' = []
    /\ getProp "ignore" e' = VBool false.
Proof.
  destruct (hide_undone_by_clearStates barRank barWorld 1 barEl
              [("emphasis", false)] 2)
    as [(w' & e' & Hrun & He' & Hcs & Hig) _].
  - apply barWorld_ranked.
  - reflexivity.
  - vm_compute. lia.
  - reflexivity.
  - reflexivity.
  - repeat constructor; try (vm_compute; eauto); discriminate.
  - discriminate.
  - exists w', e'. split; [exact Hrun|]. split; [exact He'|].
    split; [exact Hcs | exact Hig].
Defined.

(** ** drift *)

Lemma axisLock_other (s : string) (dx dy : Z) :
  s <> "horizontal" -> s <> "vertical" ->
  axisLock (DragMode s) dx dy = (dx, dy).
Proof.
  intros H1 H2. unfold axisLock.
  repeat (destruct s as [|[[] [] [] [] [] [] [] []] s]; try reflexivity).
  all: congruence.
Qed.

Section DriftMore.

Variable decomposeTransform : nat -> M unit.

(** The contract of the mixin's [decomposeTransform]: it returns, and it
    leaves the matrix it decomposes and the dragging mode as they are. *)
Hypothesis decompose_keeps :
  forall r w e, elems w !! r = Some e ->
    exists w' e', decomposeTransform r w = Ok tt w'
                  /\ elems w' !! r = Some e'
                  /\ transform e' = transform e
                  /\ draggable e' = draggable e.

Lemma drift_run (w : World) (r : nat) (e : Element) (dx dy : Z) :
  elems w !! r = Some e ->
  exists w' e',
    drift decomposeTransform r dx dy w = Ok tt w'
    /\ elems w' !! r = Some e'
    /\ transform e' =
       Some (translate (matrixOf e) (axisLock (draggable e) dx dy).1
               (axisLock (draggable e) dx dy).2)
    /\ draggable e' = draggable e
    /\ __dirty e' = true.
Proof.
  intros He. unfold drift.
  rewrite (bind_Ok _ _ _ _ _ (getEl_Ok _ _ _ He)).
  destruct (axisLock (draggable e) dx dy) as [dx' dy'] eqn:Hax.
  fold (matrixOf e).
  set (e1 := set_transform (Some (translate (matrixOf e) dx' dy')) e).
  set (w1 := set_elems (<[r := e1]> (elems w)) w).
  assert (H1 : elems w1 !! r = Some e1) by (simpl; apply lookup_insert_eq).
  destruct (decompose_keeps r w1 e1 H1) as (w2 & e2 & Hd & H2 & Ht & Hdr).
  change (bind (setEl r e1) _ w) with
    (bind (decomposeTransform r) (fun _ => markRedraw r) w1).
  rewrite (bind_Ok _ _ _ _ _ Hd), (markRedraw_Ok _ _ _ H2).
  eexists _, _. split; [reflexivity|]. split.
  { simpl. apply lookup_insert_eq. }
  simpl. rewrite Ht, Hdr. auto.
Qed.

(** X11.  [drift] is not gated by [draggable]: unless the mode is one of
    the strings "horizontal" and "vertical", both offsets are added to the
    translation entries of the matrix, also when [draggable] is [false];
    the node is marked dirty. *)
Theorem drift_unlocked (w : World) (r : nat) (e : Element) (dx dy : Z) :
  elems w !! r = Some e ->
  draggable e <> DragMode "horizontal" ->
  draggable e <> DragMode "vertical" ->
  exists w' e',
    drift decomposeTransform r dx dy w = Ok tt w'
    /\ elems w' !! r = Some e'
    /\ transform e' = Some (translate (matrixOf e) dx dy)
    /\ __dirty e' = true.
Proof.
  intros He Hh Hv.
  destruct (drift_run w r e dx dy He) as (w' & e' & Hr & He' & Ht & _ & Hdirty).
  exists w', e'. split; [exact Hr|]. split; [exact He'|].
  split; [|exact Hdirty]. rewrite Ht.
  destruct (draggable e) as [b|s]; [reflexivity|].
  rewrite axisLock_other; [reflexivity | congruence | congruence].
Qed.

End DriftMore.

Lemma positionFromMatrix_keeps (r : nat) (w : World) (e : Element) :
  elems w !! r = Some e ->
  exists w' e', positionFromMatrix r w = Ok tt w'
                /\ elems w' !! r = Some e'
                /\ transform e' = transform e
                /\ draggable e' = draggable e.
Proof.
  intros H. unfold positionFromMatrix. rewrite (modEl_Ok _ _ _ _ H).
  eexists _, _. split; [reflexivity|]. split.
  - simpl. apply lookup_insert_eq.
  - destruct (transform e) eqn:E; simpl; auto.
Defined.

Lemma drift_unlocked_witness :
  exists w' e',
    drift positionFromMatrix 1 5 7 fixedWorld = Ok tt w'
    /\ elems w' !! 1%nat = Some e'
    /\ transform e' = Some (translate (matrixOf fixedEl) 5 7)
    /\ __dirty e' = true.
Proof.
  apply (drift_unlocked positionFromMatrix positionFromMatrix_keeps
           fixedWorld 1 fixedEl).
  - reflexivity.
  - discriminate.
  - discriminate.
Defined.

(** ** Releasing the clip path and the label *)

Lemma detachedFrom_same (zr : nat) (w w' : World) (y : nat) (e e' : Element) :
  detachedFrom zr w y ->
  elems w !! y = Some e ->
  elems w' !! y = Some e' ->
  __zr e' = None ->
  animators e' = animators e ->
  arrays w' = arrays w ->
  sched w' = sched w ->
  detachedFrom zr w' y.
Proof.
  intros (e0 & l & He0 & _ & Hl & Hreg) He He' Hz Ha Harr Hs.
  assert (e0 = e) by congruence. subst e0.
  exists e', l. split; [exact He'|]. split; [exact Hz|].
  rewrite Harr, Ha. split; [exact Hl|].
  intros a Hin. unfold registry. rewrite Hs. now apply Hreg.
Qed.

(** X12.  [removeClipPath] releases the clip path from the host: on a
    node whose clip path refers to a host, the call returns, the node has
    no clip path and is marked dirty, and the clip path is left without
    host reference and without back-reference, none of its animators being
    registered with the scheduler of that host any more. *)
Theorem removeClipPath_detaches rk (w : World) (r c : nat) (e ec : Element)
  (zr : nat) (fuel : nat) :
  attached_ranked rk w ->
  elems w !! r = Some e ->
  _clipPath e = Some c ->
  elems w !! c = Some ec ->
  __zr ec = Some zr ->
  (rk r < fuel)%nat ->
  exists w',
    removeClipPath fuel r w = Ok tt w'
    /\ (exists e', elems w' !! r = Some e'
                   /\ _clipPath e' = None /\ __dirty e' = true)
    /\ (exists ec', elems w' !! c = Some ec' /\ __clipTarget ec' = None)
    /\ detachedFrom zr w' c.
Proof.
  intros Hwf He Hc Hec Hz Hfuel. unfold removeClipPath.
  rewrite (bind_Ok _ _ _ _ _ (getEl_Ok _ _ _ He)), Hc.
  destruct (Hwf r e He) as (_ & Hclip & _).
  destruct (Hclip c Hc) as [Hrk _].
  assert (Hne : c <> r) by (intros ->; lia).
  rewrite (bind_Ok _ _ _ _ _ (getEl_Ok _ _ _ Hec)), Hz.
  destruct (removeSelfFromZr_spec rk zr fuel c w ec Hwf Hec ltac:(lia))
    as (w1 & Hrun1 & Hm1 & _ & Hdet).
  rewrite (bind_Ok _ _ _ _ _ Hrun1).
  pose proof (Hdet c (below_refl w c)) as Hdc.
  destruct Hdc as (ec1 & l & Hec1 & Hz1 & Hl1 & Hreg1).
  destruct (marks_lookup _ w w1 r e Hm1 He) as (e1 & He1 & _).
  rewrite (bind_Ok _ _ _ _ _ (modEl_Ok _ _ _ _ Hec1)).
  erewrite bind_Ok by (apply modEl_Ok; simpl; apply lookup_insert_eq).
  erewrite bind_Ok
    by (apply modEl_Ok; simpl;
        rewrite !lookup_insert_ne by exact Hne; exact He1).
  erewrite markRedraw_Ok by (simpl; apply lookup_insert_eq).
  eexists. split; [reflexivity|]. simpl.
  rewrite !insert_insert_eq. split; [|split].
  - rewrite lookup_insert_eq. eexists. split; [reflexivity|]. auto.
  - rewrite lookup_insert_ne by congruence. rewrite lookup_insert_eq.
    eexists. split; reflexivity.
  - eapply (detachedFrom_same zr w1 _ c ec1).
    + exists ec1, l. auto.
    + exact Hec1.
    + simpl. rewrite lookup_insert_ne by congruence. apply lookup_insert_eq.
    + reflexivity.
    + reflexivity.
    + reflexivity.
    + reflexivity.
Qed.

Lemma heldClipWorld_ranked : attached_ranked clipRank heldClipWorld.
Proof.
  intros x e Hx. simpl in Hx.
  destruct (decide (x = 2%nat)) as [->|H2].
  { rewrite lookup_insert_eq in Hx. injection Hx as <-.
    split; [eexists; reflexivity|]. split.
    - intros c [= <-]. split; [vm_compute; lia | eexists; reflexivity].
    - intros t Ht. discriminate Ht. }
  rewrite lookup_insert_ne in Hx by congruence.
  destruct (decide (x = 3%nat)) as [->|H3].
  { rewrite lookup_insert_eq in Hx. injection Hx as <-.
    split; [eexists; reflexivity|]. split; intros y Hy; discriminate Hy. }
  rewrite lookup_insert_ne in Hx by congruence.
  discriminate Hx.
Defined.

Lemma removeClipPath_detaches_witness :
  exists w',
    removeClipPath 2 2 heldClipWorld = Ok tt w'
    /\ (exists e', elems w' !! 2%nat = Some e'
                   /\ _clipPath e' = None /\ __dirty e' = true)
    /\ (exists ec', elems w' !! 3%nat = Some ec' /\ __clipTarget ec' = None)
    /\ detachedFrom 9 w' 3.
Proof.
  apply (removeClipPath_detaches clipRank heldClipWorld 2 3
           (set_clipPath (Some 3%nat) groupB)
           (set_clipTarget (Some 2%nat) (set_zr (Some 9%nat) clipC)) 9 2).
  - exact heldClipWorld_ranked.
  - reflexivity.
  - reflexivity.
  - reflexivity.
  - reflexivity.
  - vm_compute. lia.
Defined.

(** X13.  [removeTextContent] releases the label from the host: on a
    node whose label refers to a host, the call returns, the node has no
    label and is marked dirty, and the label is left without host reference,
    none of its animators being registered with the scheduler of that host
    any more. *)
Theorem removeTextContent_detaches rk (w : World) (r t : nat)
  (e et : Element) (zr : nat) (fuel : nat) :
  attached_ranked rk w ->
  elems w !! r = Some e ->
  _textContent e = Some t ->
  elems w !! t = Some et ->
  __zr et = Some zr ->
  (rk r < fuel)%nat ->
  exists w',
    removeTextContent fuel r w = Ok tt w'
    /\ (exists e', elems w' !! r = Some e'
                   /\ _textContent e' = None /\ __dirty e' = true)
    /\ detachedFrom zr w' t.
Proof.
  intros Hwf He Ht Het Hz Hfuel. unfold removeTextContent.
  rewrite (bind_Ok _ _ _ _ _ (getEl_Ok _ _ _ He)), Ht.
  destruct (Hwf r e He) as (_ & _ & Htext).
  destruct (Htext t Ht) as [Hrk _].
  assert (Hne : t <> r) by (intros ->; lia).
  rewrite (bind_Ok _ _ _ _ _ (getEl_Ok _ _ _ Het)), Hz.
  destruct (removeSelfFromZr_spec rk zr fuel t w et Hwf Het ltac:(lia))
    as (w1 & Hrun1 & Hm1 & _ & Hdet).
  rewrite (bind_Ok _ _ _ _ _ Hrun1).
  pose proof (Hdet t (below_refl w t)) as Hdt.
  destruct Hdt as (et1 & l & Het1 & Hz1 & Hl1 & Hreg1).
  destruct (marks_lookup _ w w1 r e Hm1 He) as (e1 & He1 & _).
  rewrite (bind_Ok _ _ _ _ _ (modEl_Ok _ _ _ _ Het1)).
  erewrite bind_Ok
    by (apply modEl_Ok; simpl;
        rewrite !lookup_insert_ne by exact Hne; exact He1).
  erewrite markRedraw_Ok by (simpl; apply lookup_insert_eq).
  eexists. split; [reflexivity|]. simpl.
  rewrite !insert_insert_eq. split.
  - rewrite lookup_insert_eq. eexists. split; [reflexivity|]. auto.
  - eapply (detachedFrom_same zr w1 _ t et1).
    + exists et1, l. auto.
    + exact Het1.
    + simpl. rewrite lookup_insert_ne by congruence. apply lookup_insert_eq.
    + reflexivity.
    + reflexivity.
    + reflexivity.
    + reflexivity.
Qed.

(** *** Attaching a label *)

(** [removeSelfFromZr] changes nothing above the element it is called
    on. *)
Lemma removeSelfFromZr_frame rk (zr : nat) (fuel : nat) :
  forall (r : nat) (w : World) (e : Element),
    attached_ranked rk w ->
    elems w !! r = Some e ->
    (rk r < fuel)%nat ->
    exists w',
      removeSelfFromZr fuel r zr w = Ok tt w'
      /\ marks None w w'
      /\ forall x, x <> r -> (rk r <= rk x)%nat ->
           elems w' !! x = elems w !! x.
Proof.
  induction fuel as [|fuel IH]; intros r w e Hwf He Hfuel; [lia|].
  cbn [removeSelfFromZr].
  rewrite (bind_Ok _ _ _ _ _ (modEl_Ok _ _ _ _ He)).
  set (e1 := set_zr None e).
  set (w1 := set_elems (<[r := e1]> (elems w)) w).
  assert (He1 : elems w1 !! r = Some e1) by (simpl; apply lookup_insert_eq).
  assert (Hm1 : marks None w w1) by now apply marks_set_zr.
  rewrite (bind_Ok _ _ _ _ _ (getEl_Ok _ _ _ He1)).
  destruct (Hwf r e He) as ([l Hl] & Hclip & Htext).
  rewrite (bind_Ok _ _ _ _ l (getArr_Ok _ w1 l Hl)).
  destruct (deregisterAll zr l w1) as (w2 & Hrun2 & Hel2 & Hm2 & _).
  rewrite (bind_Ok _ _ _ _ _ Hrun2).
  assert (He2 : elems w2 !! r = Some e1) by now rewrite Hel2.
  assert (Hm02 : marks None w w2) by (eapply marks_trans; eauto).
  rewrite (bind_Ok _ _ _ _ _ (getEl_Ok _ _ _ He2)).
  assert (Hc : exists w3,
            match _clipPath e1 with
            | Some c => removeSelfFromZr fuel c zr
            | None => ret tt
            end w2 = Ok tt w3
            /\ marks None w2 w3
            /\ forall x, x <> r -> (rk r <= rk x)%nat ->
                 elems w3 !! x = elems w2 !! x).
  { change (_clipPath e1) with (_clipPath e).
    destruct (_clipPath e) as [c|] eqn:Hcp.
    - destruct (Hclip c eq_refl) as [Hrk [ec Hec]].
      destruct (marks_lookup _ w w2 c ec Hm02 Hec) as (ec2 & Hec2 & _).
      destruct (IH c w2 ec2 (marks_ranked rk _ w w2 Hm02 Hwf) Hec2 ltac:(lia))
        as (w3 & Hrun & Hm & Hfr).
      exists w3. split; [exact Hrun|]. split; [exact Hm|].
      intros x Hx Hle. apply Hfr; [intros ->; lia | lia].
    - exists w2. unfold ret. split; [reflexivity|].
      split; [apply marks_refl|]. auto. }
  destruct Hc as (w3 & Hrun3 & Hm3 & Hfr3).
  rewrite (bind_Ok _ _ _ _ _ Hrun3).
  assert (Hm03 : marks None w w3) by (eapply marks_trans; eauto).
  destruct (marks_lookup _ w2 w3 r e1 Hm3 He2) as (e3 & He3 & _ & _ & Ht3 & _).
  rewrite (bind_Ok _ _ _ _ _ (getEl_Ok _ _ _ He3)).
  assert (Ht : exists w4,
            match _textContent e3 with
            | Some t => removeSelfFromZr fuel t zr
            | None => ret tt
            end w3 = Ok tt w4
            /\ marks None w3 w4
            /\ forall x, x <> r -> (rk r <= rk x)%nat ->
                 elems w4 !! x = elems w3 !! x).
  { rewrite Ht3. change (_textContent e1) with (_textContent e).
    destruct (_textContent e) as [t|] eqn:Htc.
    - destruct (Htext t eq_refl) as [Hrk [et Het]].
      destruct (marks_lookup _ w w3 t et Hm03 Het) as (et3 & Het3 & _).
      destruct (IH t w3 et3 (marks_ranked rk _ w w3 Hm03 Hwf) Het3 ltac:(lia))
        as (w4 & Hrun & Hm & Hfr).
      exists w4. split; [exact Hrun|]. split; [exact Hm|].
      intros x Hx Hle. apply Hfr; [intros ->; lia | lia].
    - exists w3. unfold ret. split; [reflexivity|].
      split; [apply marks_refl|]. auto. }
  destruct Ht as (w4 & Hrun4 & Hm4 & Hfr4).
  exists w4. split; [exact Hrun4|].
  split; [eapply marks_trans; eauto|].
  intros x Hx Hle. rewrite (Hfr4 x Hx Hle), (Hfr3 x Hx Hle), Hel2. simpl.
  now apply lookup_insert_ne.
Qed.

Lemma attached_ranked_insert rk (w w' : World) (x : nat) (e e' : Element) :
  attached_ranked rk w ->
  elems w !! x = Some e ->
  elems w' = <[x := e']> (elems w) ->
  arrays w' = arrays w ->
  animators e' = animators e ->
  (_clipPath e' = _clipPath e \/ _clipPath e' = None) ->
  (_textContent e' = _textContent e \/ _textContent e' = None) ->
  attached_ranked rk w'.
Proof.
  intros Hwf He Hel Harr Ha Hc Ht y ey Hy. rewrite Hel in Hy.
  assert (Hdom : forall z, is_Some (elems w !! z) -> is_Some (elems w' !! z)).
  { intros z Hz. rewrite Hel. destruct (decide (x = z)) as [->|Hne].
    - rewrite lookup_insert_eq. eauto.
    - now rewrite lookup_insert_ne. }
  rewrite Harr. destruct (decide (x = y)) as [->|Hne].
  - rewrite lookup_insert_eq in Hy. injection Hy as <-.
    destruct (Hwf y e He) as (A & B & C). rewrite Ha.
    split; [exact A|]. split.
    + intros c Hcc. destruct Hc as [Hc|Hc]; [|congruence].
      rewrite Hc in Hcc. destruct (B c Hcc). auto.
    + intros t Htt. destruct Ht as [Ht|Ht]; [|congruence].
      rewrite Ht in Htt. destruct (C t Htt). auto.
  - rewrite lookup_insert_ne in Hy by exact Hne.
    destruct (Hwf y ey Hy) as (A & B & C).
    split; [exact A|]. split.
    + intros c Hcc. destruct (B c Hcc). auto.
    + intros t Htt. destruct (C t Htt). auto.
Qed.

Lemma marks_dom (zrv : option nat) (w w' : World) (x : nat) :
  marks zrv w w' -> is_Some (elems w !! x) -> is_Some (elems w' !! x).
Proof.
  intros Hm [e He]. destruct (marks_lookup _ w w' x e Hm He) as (e' & H & _).
  eauto.
Qed.

(** [removeTextContent] on a node that has a label: the call returns, the
    node has lost the link and nothing else, and the store is in order. *)
Lemma removeTextContent_spec rk (w : World) (r old : nat) (e : Element)
  (fuel : nat) :
  attached_ranked rk w ->
  elems w !! r = Some e ->
  _textContent e = Some old ->
  (rk r < fuel)%nat ->
  exists w',
    removeTextContent fuel r w = Ok tt w'
    /\ attached_ranked rk w'
    /\ elems w' !! r = Some (set_dirty true (set_textContent None e))
    /\ forall x, is_Some (elems w !! x) -> is_Some (elems w' !! x).
Proof.
  intros Hwf He Hold Hfuel. unfold removeTextContent.
  rewrite (bind_Ok _ _ _ _ _ (getEl_Ok _ _ _ He)), Hold.
  destruct (Hwf r e He) as (_ & _ & Htext).
  destruct (Htext old Hold) as [Hrk [eo Heo]].
  assert (Hne : old <> r) by (intros ->; lia).
  rewrite (bind_Ok _ _ _ _ _ (getEl_Ok _ _ _ Heo)).
  assert (H1 : exists w1,
            match __zr eo with
            | Some zr => removeSelfFromZr fuel old zr
            | None => ret tt
            end w = Ok tt w1
            /\ marks None w w1 /\ elems w1 !! r = Some e).
  { destruct (__zr eo) as [zr|].
    - destruct (removeSelfFromZr_frame rk zr fuel old w eo Hwf Heo ltac:(lia))
        as (w1 & Hrun & Hm & Hfr).
      exists w1. split; [exact Hrun|]. split; [exact Hm|].
      rewrite <- He. apply Hfr; [congruence | lia].
    - exists w. unfold ret. split; [reflexivity|].
      split; [apply marks_refl | exact He]. }
  destruct H1 as (w1 & Hrun1 & Hm1 & He1).
  rewrite (bind_Ok _ _ _ _ _ Hrun1).
  destruct (marks_lookup _ w w1 old eo Hm1 Heo) as (eo1 & Heo1 & _).
  rewrite (bind_Ok _ _ _ _ _ (modEl_Ok _ _ _ _ Heo1)).
  set (w2 := set_elems (<[old := set_zr None eo1]> (elems w1)) w1).
  assert (Hm2 : marks None w w2).
  { apply (marks_trans None w w1); [exact Hm1|]. now apply marks_set_zr. }
  assert (He2 : elems w2 !! r = Some e).
  { simpl. now rewrite lookup_insert_ne. }
  rewrite (bind_Ok _ _ _ _ _ (modEl_Ok _ _ _ _ He2)).
  erewrite markRedraw_Ok by (simpl; apply lookup_insert_eq).
  eexists. split; [reflexivity|]. simpl. rewrite insert_insert_eq.
  split; [|split].
  - apply (attached_ranked_insert rk w2 _ r e
             (set_dirty true (set_textContent None e)));
      simpl; auto.
    now apply (marks_ranked rk None w).
  - apply lookup_insert_eq.
  - intros x Hx. apply (marks_dom None w w2 x Hm2) in Hx.
    destruct (decide (r = x)) as [->|Hrx].
    + rewrite lookup_insert_eq. eauto.
    + now rewrite lookup_insert_ne.
Qed.

Lemma attachedTo_same (zr : nat) (w w' : World) (y : nat) (e e' : Element) :
  attachedTo zr w y ->
  elems w !! y = Some e ->
  elems w' !! y = Some e' ->
  __zr e' = Some zr ->
  animators e' = animators e ->
  arrays w' = arrays w ->
  sched w' = sched w ->
  attachedTo zr w' y.
Proof.
  intros (e0 & l & He0 & _ & Hl & Hreg) He He' Hz Ha Harr Hs.
  assert (e0 = e) by congruence. subst e0.
  exists e', l. split; [exact He'|]. split; [exact Hz|].
  rewrite Harr, Ha. split; [exact Hl|].
  intros a Hin. unfold registry. rewrite Hs. now apply Hreg.
Qed.

(** X14.  [setTextContent] brings the label to the host of the node: on
    a node that refers to a host, the call returns (releasing first the
    label the node had, if it is another one), the node has the given label
    and is marked dirty, and the label refers to that host, with all its
    animators registered with the scheduler of the host. *)
Theorem setTextContent_attaches rk (w : World) (r t : nat) (e et : Element)
  (zr : nat) (fuel : nat) :
  attached_ranked rk w ->
  elems w !! r = Some e ->
  elems w !! t = Some et ->
  __zr e = Some zr ->
  (rk r < fuel)%nat ->
  (rk t < fuel)%nat ->
  exists w',
    setTextContent fuel r t w = Ok tt w'
    /\ (exists e', elems w' !! r = Some e'
                   /\ _textContent e' = Some t /\ __dirty e' = true)
    /\ attachedTo zr w' t.
Proof.
  intros Hwf He Het Hz Hfr Hft. unfold setTextContent.
  rewrite (bind_Ok _ _ _ _ _ (getEl_Ok _ _ _ He)).
  (* the label the node had is released *)
  assert (H1 : exists w1 e1,
            match _textContent e with
            | Some old =>
                when (negb (Nat.eqb old t)) (removeTextContent fuel r)
            | None => ret tt
            end w = Ok tt w1
            /\ attached_ranked rk w1
            /\ elems w1 !! r = Some e1 /\ __zr e1 = Some zr
            /\ is_Some (elems w1 !! t)).
  { destruct (_textContent e) as [old|] eqn:Hold.
    - destruct (Nat.eqb_spec old t) as [->|Hne]; simpl.
      + exists w, e. unfold ret. split; [reflexivity|].
        split; [exact Hwf|]. split; [exact He|]. split; [exact Hz|]. eauto.
      + destruct (removeTextContent_spec rk w r old e fuel Hwf He Hold Hfr)
          as (w1 & Hrun & Hwf1 & He1 & Hdom).
        exists w1, (set_dirty true (set_textContent None e)).
        split; [exact Hrun|]. split; [exact Hwf1|]. split; [exact He1|].
        split; [exact Hz|]. apply Hdom. eauto.
    - exists w, e. unfold ret. split; [reflexivity|].
      split; [exact Hwf|]. split; [exact He|]. split; [exact Hz|]. eauto. }
  destruct H1 as (w1 & e1 & Hrun1 & Hwf1 & He1 & Hz1 & [et1 Het1]).
  rewrite (bind_Ok _ _ _ _ _ Hrun1).
  rewrite (bind_Ok _ _ _ _ _ (getEl_Ok _ _ _ He1)), Hz1.
  (* the label joins the host *)
  destruct (addSelfToZr_spec rk zr fuel t w1 et1 Hwf1 Het1 Hft)
    as (w2 & Hrun2 & Hm2 & _ & Hatt).
  rewrite (bind_Ok _ _ _ _ _ Hrun2).
  pose proof (Hatt t (below_refl w1 t)) as Hat.
  destruct (marks_lookup _ w1 w2 r e1 Hm2 He1) as (e2 & He2 & _).
  rewrite (bind_Ok _ _ _ _ _ (modEl_Ok _ _ _ _ He2)).
  set (w3 := set_elems (<[r := set_textContent (Some t) e2]> (elems w2)) w2).
  pose proof Hat as (et2 & l & Het2 & Hzt2 & Hl2 & Hreg2).
  assert (Ht3 : exists et3, elems w3 !! t = Some et3
                  /\ animators et3 = animators et2
                  /\ (t = r -> _textContent et3 = Some t)).
  { simpl. destruct (decide (r = t)) as [->|Hne].
    - rewrite lookup_insert_eq. eexists. split; [reflexivity|].
      split; [|auto]. simpl. congruence.
    - rewrite lookup_insert_ne by exact Hne. exists et2.
      split; [exact Het2|]. split; [reflexivity | congruence]. }
  destruct Ht3 as (et3 & Het3 & Ha3 & Hself).
  rewrite (bind_Ok _ _ _ _ _ (modEl_Ok _ _ _ _ Het3)).
  assert (Hr4 : exists e4,
            (<[t := set_zr (Some zr) et3]> (elems w3)) !! r = Some e4
            /\ _textContent e4 = Some t).
  { destruct (decide (t = r)) as [->|Hne].
    - rewrite lookup_insert_eq. eexists. split; [reflexivity|].
      simpl. now apply Hself.
    - rewrite lookup_insert_ne by exact Hne. simpl.
      rewrite lookup_insert_eq. eexists. split; reflexivity. }
  destruct Hr4 as (e4 & He4 & Ht4).
  erewrite markRedraw_Ok by (simpl; exact He4).
  eexists. split; [reflexivity|]. simpl. split.
  - rewrite lookup_insert_eq. eexists. split; [reflexivity|]. auto.
  - destruct (decide (r = t)) as [->|Hne].
    + eapply (attachedTo_same zr w2 _ t et2 _ Hat Het2).
      * simpl. apply lookup_insert_eq.
      * simpl. rewrite lookup_insert_eq in He4. injection He4 as <-.
        reflexivity.
      * simpl. rewrite lookup_insert_eq in He4. injection He4 as <-.
        simpl. exact Ha3.
      * reflexivity.
      * reflexivity.
    + eapply (attachedTo_same zr w2 _ t et2 _ Hat Het2).
      * simpl. rewrite lookup_insert_ne by exact Hne. apply lookup_insert_eq.
      * reflexivity.
      * simpl. exact Ha3.
      * reflexivity.
      * reflexivity.
Qed.

Lemma clipWorld_ranked : attached_ranked clipRank clipWorld.
Proof.
  intros x e Hx. simpl in Hx.
  destruct (decide (x = 1%nat)) as [->|H1].
  { rewrite lookup_insert_eq in Hx. injection Hx as <-.
    split; [eexists; reflexivity|]. split; intros y Hy; discriminate Hy. }
  rewrite lookup_insert_ne in Hx by congruence.
  destruct (decide (x = 2%nat)) as [->|H2].
  { rewrite lookup_insert_eq in Hx. injection Hx as <-.
    split; [eexists; reflexivity|]. split; intros y Hy; discriminate Hy. }
  rewrite lookup_insert_ne in Hx by congruence.
  destruct (decide (x = 3%nat)) as [->|H3].
  { rewrite lookup_insert_eq in Hx. injection Hx as <-.
    split; [eexists; reflexivity|]. split; intros y Hy; discriminate Hy. }
  rewrite lookup_insert_ne in Hx by congruence.
  discriminate Hx.
Defined.

Lemma labelledWorld_ranked : attached_ranked clipRank labelledWorld.
Proof.
  intros x e Hx. simpl in Hx.
  destruct (decide (x = 2%nat)) as [->|H2].
  { rewrite lookup_insert_eq in Hx. injection Hx as <-.
    split; [eexists; reflexivity|]. split.
    - intros c Hc. discriminate Hc.
    - intros t [= <-]. split; [vm_compute; lia | eexists; reflexivity]. }
  rewrite lookup_insert_ne in Hx by congruence.
  destruct (decide (x = 3%nat)) as [->|H3].
  { rewrite lookup_insert_eq in Hx. injection Hx as <-.
    split; [eexists; reflexivity|]. split; intros y Hy; discriminate Hy. }
  rewrite lookup_insert_ne in Hx by congruence.
  discriminate Hx.
Defined.

Lemma setTextContent_attaches_witness :
  exists w',
    setTextContent 2 2 3 clipWorld = Ok tt w'
    /\ (exists e', elems w' !! 2%nat = Some e'
                   /\ _textContent e' = Some 3%nat /\ __dirty e' = true)
    /\ attachedTo 9 w' 3.
Proof.
  apply (setTextContent_attaches clipRank clipWorld 2 3 groupB clipC 9 2).
  - exact clipWorld_ranked.
  - reflexivity.
  - reflexivity.
  - reflexivity.
  - vm_compute. lia.
  - vm_compute. lia.
Defined.

Lemma removeTextContent_detaches_witness :
  exists w',
    removeTextContent 2 2 labelledWorld = Ok tt w'
    /\ (exists e', elems w' !! 2%nat = Some e'
                   /\ _textContent e' = None /\ __dirty e' = true)
    /\ detachedFrom 9 w' 3.
Proof.
  apply (removeTextContent_detaches clipRank labelledWorld 2 3
           (set_textContent (Some 3%nat) groupB)
           (set_zr (Some 9%nat) clipC) 9 2).
  - exact labelledWorld_ranked.
  - reflexivity.
  - reflexivity.
  - reflexivity.
  - reflexivity.
  - vm_compute. lia.
Defined.

(** ** animateTo and the animations in progress *)

(** X15.  [animateTo] and [animateFrom] replace the animations in
    progress.  When the call returns, and also when it ends in an error
    (the nesting error, or a callback that cannot be called), every animator
    the array of the node held before has been stopped, and the node has an
    array that holds nothing but animators created by this call. *)
Theorem animateTo_replaces_animations (w w' : World) (r : nat) (e : Element)
  (l : list nat) (target : Obj) (time delay easing callback : Arg)
  (force reverse : bool) :
  elems w !! r = Some e ->
  arrays w !! animators e = Some l ->
  (forall a, In a l -> is_Some (animS w !! a)) ->
  animateToImpl r target time delay easing callback force reverse w
  = Ok tt w'
  \/ (exists msg,
        animateToImpl r target time delay easing callback force reverse w
        = Raise msg w') ->
  (forall a, In a l ->
     exists x, animS w' !! a = Some x /\ a_status x = Stopped)
  /\ exists e' l',
       elems w' !! r = Some e'
       /\ arrays w' !! animators e' = Some l'
       /\ forall a, In a l' -> animS w !! a = None.
Proof.
  intros He Hl Hall Hrun.
  destruct (animateToImpl_replaces w w' r e l target time delay easing
              callback force reverse He Hl Hall Hrun)
    as (Hold & e' & l' & H1 & H2 & H3 & H4).
  split.
  - intros a Hin. destruct (Hall a Hin) as [x Hx].
    destruct (Hold a x Hx) as (x' & Hx' & Hst). eauto.
  - exists e', l'. rewrite H2. auto.
Qed.

Lemma animateTo_replaces_animations_witness :
  (forall a, In a [4%nat] ->
     exists x, animS movingResult !! a = Some x /\ a_status x = Stopped)
  /\ exists e' l',
       elems movingResult !! 1%nat = Some e'
       /\ arrays movingResult !! animators e' = Some l'
       /\ forall a, In a l' -> animS movingWorld !! a = None.
Proof.
  apply (animateTo_replaces_animations movingWorld movingResult 1 shapeEl
           [4%nat] sameFill (ANum 300) AUndef AUndef AUndef false false).
  - reflexivity.
  - reflexivity.
  - intros a [<-|[]]. eexists. reflexivity.
  - left. vm_compute. reflexivity.
Defined.

(** ** Keys the node does not have *)

Lemma isNull_false (v : value) : v <> VNull -> isNull v = false.
Proof. destruct v; simpl; congruence. Qed.

Lemma isNull_true (v : value) : isNull v = true -> v = VNull.
Proof. destruct v; simpl; congruence. Qed.

Lemma In_keys (k : string) (v : value) (es : Obj) :
  In (k, v) es -> In k (keys es).
Proof. intros H. change k with (fst (k, v)). now apply in_map. Qed.

(** The loop over a sub-object leaves alone the keys the descriptor does
    not name. *)
Lemma scanNested_other (reverse : bool) (k : string) (es : Obj) :
  forall (src : Obj) (acc : list string) (src' : Obj) (ks : list string),
    ~ In k (keys es) ->
    scanNested reverse src es acc = inl (src', ks) ->
    oget k src' = oget k src /\ (In k ks -> In k acc).
Proof.
  induction es as [|[k0 tv] es IH]; intros src acc src' ks Hk H; simpl in H.
  - injection H as <- <-. auto.
  - apply not_in_keys_cons in Hk as [Hne Hk].
    destruct (negb (isNull (oget k0 src))).
    + destruct (isPlainObject tv); [discriminate|].
      destruct (IH _ _ _ _ Hk H) as [H1 H2]. split; [exact H1|].
      intros Hin. apply H2 in Hin. apply in_app_or in Hin as [Hin|[->|[]]];
        [exact Hin | congruence].
    + destruct (negb (isNull tv) && negb reverse).
      * destruct (IH _ _ _ _ Hk H) as [H1 H2]. split; [|exact H2].
        rewrite H1. apply oget_oset_ne. congruence.
      * now apply (IH _ _ _ _ Hk H).
Qed.

Lemma scanNested_absent (reverse : bool) (k : string) (v : value) (es : Obj) :
  forall (src : Obj) (acc : list string) (src' : Obj) (ks : list string),
    NoDup (keys es) ->
    In (k, v) es ->
    oget k src = VNull ->
    v <> VNull ->
    ~ In k acc ->
    scanNested reverse src es acc = inl (src', ks) ->
    oget k src' = (if reverse then VNull else v) /\ ~ In k ks.
Proof.
  induction es as [|[k0 tv] es IH]; intros src acc src' ks Hnd Hin Hsrc Hv Hacc H;
    [destruct Hin|].
  simpl in Hnd. apply NoDup_cons in Hnd as [Hk0 Hnd].
  rewrite list_elem_of_In in Hk0. simpl in H.
  destruct Hin as [[= -> ->]|Hin].
  - (* the entry of [k] *)
    rewrite Hsrc in H. simpl in H. rewrite (isNull_false v Hv) in H.
    simpl in H. destruct reverse; simpl in H.
    + destruct (scanNested_other true k es _ _ _ _ Hk0 H) as [H1 H2].
      split; [simpl; congruence | tauto].
    + destruct (scanNested_other false k es _ _ _ _ Hk0 H) as [H1 H2].
      split; [|tauto]. rewrite H1. apply oget_oset_eq.
  - assert (Hne : k0 <> k).
    { intros ->. apply Hk0. now apply (In_keys k v). }
    destruct (negb (isNull (oget k0 src))).
    + destruct (isPlainObject tv); [discriminate|].
      apply (IH src (acc ++ [k0])); auto.
      intros Hin'. apply in_app_or in Hin' as [Hin'|[->|[]]]; auto.
    + destruct (negb (isNull tv) && negb reverse).
      * apply (IH (oset k0 tv src) acc); auto.
        rewrite oget_oset_ne by exact Hne. exact Hsrc.
      * now apply (IH src acc).
Qed.

Lemma shallowKeys_app (rec : string -> list string -> value -> M unit)
  (el : nat) (topKey : string) (path : list string) (reverse : bool)
  (es2 : Obj) :
  forall (es1 : Obj) (acc : list string) (w : World),
    shallowKeys rec el topKey path reverse (es1 ++ es2) acc w =
    match shallowKeys rec el topKey path reverse es1 acc w with
    | Ok acc1 w1 => shallowKeys rec el topKey path reverse es2 acc1 w1
    | Raise msg w1 => Raise msg w1
    | Abort f => Abort f
    end.
Proof.
  induction es1 as [|[k tv] es1 IH]; intros acc w; [reflexivity|].
  cbn [app shallowKeys]. unfold bind.
  destruct (readKey el path k w) as [sv w1| |]; try reflexivity.
  destruct (negb (isNull sv)).
  - destruct (isPlainObject tv); [|apply IH].
    destruct (negb (String.eqb topKey "")); [reflexivity|].
    destruct (rec k (path ++ [k]) tv w1) as [[] w2| |]; try reflexivity.
    apply IH.
  - destruct (negb (isNull tv) && negb reverse); [|apply IH].
    destruct (writeKey el path k tv w1) as [[] w2| |]; try reflexivity.
    apply IH.
Qed.

(** The top-level loop, on a key the node does not have. *)
Lemma shallowKeys_absent (r arr : nat) (time delay : Arg) (reverse : bool)
  (k : string) (v : value) (es1 es2 : Obj) (acc : list string) (p : Obj)
  (w : World) :
  Live r arr p w ->
  NoDup (keys (es1 ++ (k, v) :: es2)) ->
  dataKeys p (es1 ++ (k, v) :: es2) = true ->
  oget k p = VNull ->
  v <> VNull ->
  ~ In k acc ->
  match shallowKeys
          (fun k p v => animateToShallow r k p v time delay reverse)
          r "" [] reverse (es1 ++ (k, v) :: es2) acc w with
  | Ok acc' w' =>
      exists p', Live r arr p' w'
                 /\ oget k p' = (if reverse then VNull else v)
                 /\ ~ In k acc'
  | Raise _ _ => True
  | Abort _ => False
  end.
Proof.
  intros HL Hnd Hfit Hp Hv Hacc.
  unfold keys in Hnd. rewrite map_app in Hnd. simpl in Hnd.
  fold (keys es1) (keys es2) in Hnd.
  apply NoDup_app in Hnd as (Hnd1 & Hdis & Hnd2).
  apply NoDup_cons in Hnd2 as [Hk2 Hnd2].
  rewrite list_elem_of_In in Hk2.
  assert (Hk1 : ~ In k (keys es1)).
  { intros H. apply (Hdis k); [now apply list_elem_of_In|].
    apply list_elem_of_In. now left. }
  unfold dataKeys in Hfit. rewrite forallb_app in Hfit.
  apply andb_prop in Hfit as [Hfit1 Hfit2]. fold (dataKeys p es1) in Hfit1.
  fold (dataKeys p ((k, v) :: es2)) in Hfit2.
  apply dataKeys_cons in Hfit2 as (Hres & _ & Hfit2).
  rewrite shallowKeys_app.
  pose proof (shallowKeys_top r arr time delay reverse es1 acc p w
                HL Hnd1 Hfit1) as H1.
  destruct (shallowKeys _ r "" [] reverse es1 acc w) as [acc1 w1|msg w1|];
    [|exact Logic.I|exact H1].
  destruct H1 as (p1 & HL1 & Hkept & H3 & H4 & H5 & H6 & H7 & H8).
  assert (Hp1 : oget k p1 = VNull) by (rewrite (H3 k Hk1); exact Hp).
  assert (Hacc1 : ~ In k acc1).
  { intros Hin. destruct (H6 k Hin) as [Ha|(v' & Hin' & _)]; [auto|].
    apply Hk1. now apply (In_keys k v'). }
  assert (Hfr1 : forall k' v', In (k', v') es2 -> oget k' p1 = oget k' p).
  { intros k' v' Hin. apply H3. intros Hin1.
    apply (Hdis k'); [now apply list_elem_of_In|].
    apply list_elem_of_In. right. now apply (In_keys k' v'). }
  assert (Hne2 : forall k' v', In (k', v') es2 -> k' <> k).
  { intros k' v' Hin ->. apply Hk2. now apply (In_keys k v'). }
  assert (Hfit2' : forall p2,
            (forall k', k' <> k -> oget k' p2 = oget k' p1) ->
            dataKeys p2 es2 = true).
  { intros p2 Hfr. rewrite (dataKeys_ext p p2 es2); [exact Hfit2|].
    intros k' v' Hin.
    now rewrite (Hfr k' (Hne2 k' v' Hin)), (Hfr1 k' v' Hin). }
  assert (Hfinal : forall p2 w2 val,
            Live r arr p2 w2 -> dataKeys p2 es2 = true -> oget k p2 = val ->
            match shallowKeys
                    (fun k p v => animateToShallow r k p v time delay reverse)
                    r "" [] reverse es2 acc1 w2 with
            | Ok acc' w' =>
                exists p', Live r arr p' w' /\ oget k p' = val
                           /\ ~ In k acc'
            | Raise _ _ => True
            | Abort _ => False
            end).
  { intros p2 w2 val HL2 Hf2 Hval.
    pose proof (shallowKeys_top r arr time delay reverse es2 acc1 p2 w2
                  HL2 Hnd2 Hf2) as H2.
    destruct (shallowKeys _ r "" [] reverse es2 acc1 w2) as [acc' w'|msg w'|];
      [|exact Logic.I|exact H2].
    destruct H2 as (p' & HL' & _ & G3 & _ & _ & G6 & _).
    exists p'. split; [exact HL'|]. split.
    - rewrite (G3 k Hk2). exact Hval.
    - intros Hin. destruct (G6 k Hin) as [Ha|(v' & Hin' & _)]; [auto|].
      apply Hk2. now apply (In_keys k v'). }
  cbn [shallowKeys].
  rewrite (bind_Ok _ _ _ _ _
             (readKey_Live r arr p1 w1 [] p1 k HL1 eq_refl Hres)).
  rewrite Hp1. cbn [isNull negb]. rewrite (isNull_false v Hv).
  destruct reverse; cbn [negb andb].
  - apply (Hfinal p1 w1 VNull HL1); [|exact Hp1]. apply Hfit2'. auto.
  - destruct (writeKey_Live r arr p1 w1 [] p1 k v HL1 eq_refl)
      as (w2 & Hrun & HL2 & _).
    rewrite (bind_Ok _ _ _ _ _ Hrun).
    change (pset [] (oset k v p1) p1) with (oset k v p1) in HL2.
    apply (Hfinal (oset k v p1) w2 v HL2); [|apply oget_oset_eq].
    apply Hfit2'. intros k' Hne. apply oget_oset_ne. congruence.
Qed.

Lemma absent_key_run (w w' : World) (r : nat) (e : Element) (target : Obj)
  (path : list string) (t src : Obj) (k : string) (v : value)
  (time delay easing callback : Arg) (force reverse : bool) :
  storeOk w r e ->
  NoDup (keys target) ->
  dataKeys (props e) target = true ->
  meets e target path t src ->
  NoDup (keys t) ->
  In (k, v) t ->
  oget k src = VNull ->
  v <> VNull ->
  animateToImpl r target time delay easing callback force reverse w
  = Ok tt w' ->
  liveValue w' r path k (if reverse then VNull else v).
Proof.
  intros (He & l & Hl & Hall) Hnd Hfit Hmeet Hndt Hin Hsrc Hv Hrun.
  unfold animateToImpl in Hrun.
  destruct (normalizeArgs time delay easing callback) as [[[tm dl] ea] cb].
  destruct (stopAnimation_run r w e l He Hl Hall)
    as (w1 & arr' & Hrun1 & HL1 & _).
  rewrite (bind_Ok _ _ _ _ _ Hrun1) in Hrun.
  unfold bind at 1 in Hrun. cbn [animateToShallow] in Hrun.
  unfold bind at 1 in Hrun.
  assert (Hscope : forall p2 acc,
            (forall k0, In k0 acc ->
               In k0 []
               \/ exists v0, In (k0, v0) target /\ isPlainObject v0 = false
                             /\ oget k0 (props e) <> VNull) ->
            forall k0, In k0 acc -> reserved [] p2 k0 = false).
  { intros p2 acc H6 k0 Hk0. destruct (H6 k0 Hk0) as [[]|(v0 & Hin0 & _)].
    now destruct (dataKeys_In _ _ _ _ Hfit Hin0). }
  inversion Hmeet as [Hpath Ht Hs|k1 t0 src0 Hin1 Ho1 Hpath Ht Hs];
    subst path t src.
  - (* a key of the node itself *)
    pose proof (shallowKeys_top r arr' tm dl reverse target [] (props e) w1
                  HL1 Hnd Hfit) as Htop0.
    destruct (in_split _ _ Hin) as (es1 & es2 & ->).
    pose proof (shallowKeys_absent r arr' tm dl reverse k v es1 es2 []
                  (props e) w1 HL1 Hnd Hfit Hsrc Hv ltac:(intros [])) as Htop.
    destruct (shallowKeys _ r "" [] reverse _ [] w1)
      as [acc w2|msg w2|]; [|discriminate|destruct Htop].
    destruct Htop as (p2 & HL2 & Hval & Hacc).
    destruct Htop0 as (p0 & _ & _ & _ & _ & _ & H6 & _).
    destruct (animateKeys_run r arr' tm dl reverse p2 w2 "" []
                (es1 ++ (k, v) :: es2) p2 acc HL2 eq_refl
                (Hscope p2 acc H6))
      as (w3 & Hrun3 & HL3 & _).
    rewrite Hrun3 in Hrun.
    change (pset [] (nestedFinal reverse (es1 ++ (k, v) :: es2) p2 acc) p2)
      with (nestedFinal reverse (es1 ++ (k, v) :: es2) p2 acc) in HL3.
    pose proof (quiet_startAnimators r ea cb force w3) as Hq.
    rewrite Hrun in Hq. destruct Hq as [Hel _].
    destruct HL3 as (e3 & l3 & He3 & Hp3 & _).
    exists e3, (props e3). rewrite Hel. split; [exact He3|].
    split; [reflexivity|]. rewrite Hp3.
    rewrite nestedFinal_notin by exact Hacc. exact Hval.
  - (* a key of a sub-object *)
    pose proof (shallowKeys_top r arr' tm dl reverse target [] (props e) w1
                  HL1 Hnd Hfit) as Htop.
    destruct (shallowKeys _ r "" [] reverse target [] w1)
      as [acc w2|msg w2|]; [|discriminate|destruct Htop].
    destruct Htop as (p2 & HL2 & _ & H3 & H4 & H5 & H6 & H7 & H8).
    destruct (animateKeys_run r arr' tm dl reverse p2 w2 "" [] target p2 acc
                HL2 eq_refl (Hscope p2 acc H6)) as (w3 & Hrun3 & HL3 & _).
    rewrite Hrun3 in Hrun.
    change (pset [] (nestedFinal reverse target p2 acc) p2)
      with (nestedFinal reverse target p2 acc) in HL3.
    pose proof (quiet_startAnimators r ea cb force w3) as Hq.
    rewrite Hrun in Hq. destruct Hq as [Hel _].
    destruct HL3 as (e3 & l3 & He3 & Hp3 & _).
    destruct (H5 k1 t0 src0 Hin1 Ho1) as (src' & ks & Hscan & Hp2 & _).
    destruct (scanNested_absent reverse k v t0 src0 [] src' ks
                Hndt Hin Hsrc Hv ltac:(intros []) Hscan) as [Hval Hks].
    assert (Hk1 : ~ In k1 acc).
    { intros Hk1. destruct (H6 k1 Hk1) as [[]|(v0 & Hin0 & Hl0 & _)].
      rewrite <- (In_unique k1 (VObj t0) v0 target Hnd Hin1 Hin0) in Hl0.
      discriminate. }
    exists e3, (nestedFinal reverse t0 src' ks). rewrite Hel.
    split; [exact He3|]. rewrite Hp3. split.
    + simpl. rewrite nestedFinal_notin by exact Hk1. rewrite Hp2.
      now rewrite dataOf_withData.
    + rewrite nestedFinal_notin by exact Hks. exact Hval.
Qed.

(** X16.  [animateTo] does not animate a key the live object lacks: it
    assigns it.  Take a call on a node whose store is in order, with a
    descriptor that has distinct keys, none of them the name of a member of
    the object it addresses (of the class, of a mixin or of a built-in
    prototype: under such a name the object has something, a default or a
    method, even where it has no data); let the descriptor, or one of its
    top-level sub-objects, give a non-null value [v] to a key under which
    the live object (the node, or the object or array it has under the same
    key) has nothing.  The call returns or throws (an error of the
    traversal, or the one of a callback that is no function), and when it
    returns the live object has [v] under that key. *)
Theorem animateTo_assigns_absent (w : World) (r : nat) (e : Element)
  (target : Obj) (path : list string) (t src : Obj) (k : string) (v : value)
  (time delay easing callback : Arg) (force : bool) :
  storeOk w r e ->
  NoDup (keys target) ->
  dataKeys (props e) target = true ->
  meets e target path t src ->
  NoDup (keys t) ->
  In (k, v) t ->
  oget k src = VNull ->
  v <> VNull ->
  match animateTo r target time delay easing callback force w with
  | Ok _ w' => liveValue w' r path k v
  | Raise msg _ => raisedBy false (props e) target msg
                   \/ msg = callbackError
  | Abort _ => False
  end.
Proof.
  intros Hs Hnd Hfit Hm Hndt Hin Hsrc Hv. unfold animateTo.
  pose proof (animateToImpl_returns w r e target time delay easing callback
                force false Hs Hnd Hfit) as Htot.
  destruct (animateToImpl r target time delay easing callback force false w)
    as [[] w'|msg w'|] eqn:Hrun; [|exact Htot|exact Htot].
  exact (absent_key_run w w' r e target path t src k v time delay easing
           callback force false Hs Hnd Hfit Hm Hndt Hin Hsrc Hv Hrun).
Qed.

(** X17.  [animateFrom] leaves alone a key the live object lacks: with
    the same premises as for [animateTo], the call returns or throws (the
    nesting error, or the one of a callback that is no function), and when
    it returns the live object still has nothing under that key; the value
    of the descriptor is neither assigned nor animated. *)
Theorem animateFrom_skips_absent (w : World) (r : nat) (e : Element)
  (target : Obj) (path : list string) (t src : Obj) (k : string) (v : value)
  (time delay easing callback : Arg) (force : bool) :
  storeOk w r e ->
  NoDup (keys target) ->
  dataKeys (props e) target = true ->
  meets e target path t src ->
  NoDup (keys t) ->
  In (k, v) t ->
  oget k src = VNull ->
  v <> VNull ->
  match animateFrom r target time delay easing callback force w with
  | Ok _ w' => liveValue w' r path k VNull
  | Raise msg _ => msg = nestingError \/ msg = callbackError
  | Abort _ => False
  end.
Proof.
  intros Hs Hnd Hfit Hm Hndt Hin Hsrc Hv. unfold animateFrom.
  pose proof (animateToImpl_returns w r e target time delay easing callback
                force true Hs Hnd Hfit) as Htot.
  destruct (animateToImpl r target time delay easing callback force true w)
    as [[] w'|msg w'|] eqn:Hrun; [| |exact Htot].
  - exact (absent_key_run w w' r e target path t src k v time delay easing
             callback force true Hs Hnd Hfit Hm Hndt Hin Hsrc Hv Hrun).
  - destruct Htot as [ [->|(_ & k0 & t0 & _ & _ & Has)] | -> ];
      [now left | discriminate | now right].
Qed.

Lemma animateTo_assigns_absent_witness :
  animateTo 1 withNew (ANum 300) AUndef AUndef AUndef false shapeWorld
  = Ok tt withNewResult
  /\ liveValue withNewResult 1 ["style"] "lineWidth" (VNum 2).
Proof.
  assert (Hrun : animateTo 1 withNew (ANum 300) AUndef AUndef AUndef false
                   shapeWorld = Ok tt withNewResult)
    by (vm_compute; reflexivity).
  split; [exact Hrun|].
  pose proof (animateTo_assigns_absent shapeWorld 1 shapeEl withNew
                ["style"] [("lineWidth", VNum 2); ("fill", VStr "blue")]
                [("fill", VStr "red"); ("opacity", VNum 1)]
                "lineWidth" (VNum 2) (ANum 300) AUndef AUndef AUndef false)
    as H.
  rewrite Hrun in H. apply H.
  - exact shapeWorld_ok.
  - nodup_keys.
  - reflexivity.
  - apply meets_sub; [left; reflexivity | reflexivity].
  - nodup_keys.
  - left. reflexivity.
  - reflexivity.
  - discriminate.
Defined.

Lemma animateFrom_skips_absent_witness :
  animateFrom 1 withNew (ANum 300) AUndef AUndef AUndef false shapeWorld
  = Ok tt withNewFromResult
  /\ liveValue withNewFromResult 1 [] "cursor" VNull.
Proof.
  assert (Hrun : animateFrom 1 withNew (ANum 300) AUndef AUndef AUndef false
                   shapeWorld = Ok tt withNewFromResult)
    by (vm_compute; reflexivity).
  split; [exact Hrun|].
  pose proof (animateFrom_skips_absent shapeWorld 1 shapeEl withNew
                [] withNew (props shapeEl) "cursor" (VStr "pointer")
                (ANum 300) AUndef AUndef AUndef false) as H.
  rewrite Hrun in H. apply H.
  - exact shapeWorld_ok.
  - nodup_keys.
  - reflexivity.
  - constructor.
  - nodup_keys.
  - right. left. reflexivity.
  - reflexivity.
  - discriminate.
Defined.

(** ** The completion callback *)

Lemma readKey_Ok (r : nat) (w : World) (e : Element) (k : string) :
  elems w !! r = Some e -> nodeMember k = false ->
  readKey r [] k w = Ok (oget k (props e)) w.
Proof.
  intros He Hk. unfold readKey.
  rewrite (bind_Ok _ _ _ _ _ (getEl_Ok _ _ _ He)). cbn [pget reserved].
  now rewrite Hk, andb_false_r.
Qed.


Lemma set_elems_id (w : World) (r : nat) (e : Element) :
  elems w !! r = Some e ->
  set_elems (<[r := set_props (props e) e]> (elems w)) w = w.
Proof.
  intros H. rewrite set_props_id, insert_id by exact H. now destruct w.
Qed.

(** The top-level loop on a descriptor all of whose keys the node lacks:
    the values are assigned ([animateTo]) or left out ([animateFrom]), no
    key is animatable, and nothing but the properties of the node
    changes. *)
Lemma shallowKeys_assigns (rec : string -> list string -> value -> M unit)
  (r : nat) (reverse : bool) :
  forall (es : Obj) (acc : list string) (e : Element) (w : World),
    elems w !! r = Some e ->
    NoDup (keys es) ->
    (forall k v, In (k, v) es -> nodeMember k = false) ->
    (forall k v, In (k, v) es -> oget k (props e) = VNull) ->
    exists p',
      shallowKeys rec r "" [] reverse es acc w =
      Ok acc (set_elems (<[r := set_props p' e]> (elems w)) w)
      /\ (forall k v, In (k, v) es -> v <> VNull ->
            oget k p' = if reverse then VNull else v)
      /\ (forall k, ~ In k (keys es) -> oget k p' = oget k (props e)).
Proof.
  induction es as [|[k v] es IH]; intros acc e w He Hnd Hsc Habs.
  - exists (props e). simpl. unfold ret. rewrite (set_elems_id w r e He).
    split; [reflexivity|]. split; [intros ? ? []|auto].
  - simpl in Hnd. apply NoDup_cons in Hnd as [Hk Hnd].
    rewrite list_elem_of_In in Hk.
    assert (Hrest : forall k' v', In (k', v') es -> k' <> k).
    { intros k' v' Hin ->. apply Hk. now apply (In_keys k v'). }
    assert (Hsc' : forall k' v', In (k', v') es -> nodeMember k' = false)
      by (intros k' v' Hin; apply (Hsc k' v'); now right).
    cbn [shallowKeys].
    rewrite (bind_Ok _ _ _ _ _
               (readKey_Ok r w e k He (Hsc k v (or_introl eq_refl)))).
    rewrite (Habs k v (or_introl eq_refl)). cbn [isNull negb].
    destruct (negb (isNull v) && negb reverse) eqn:Hassign.
    + apply andb_prop in Hassign as [Hv Hrev].
      apply negb_true_iff in Hrev. subst reverse.
      rewrite (bind_Ok _ _ _ _ _
                 (writeKey_Ok r [] k v w e (props e) He eq_refl)).
      change (pset [] (oset k v (props e)) (props e))
        with (oset k v (props e)).
      set (e1 := set_props (oset k v (props e)) e).
      set (w1 := set_elems (<[r := e1]> (elems w)) w).
      destruct (IH acc e1 w1) as (p' & Hrun & Hval & Hkeep).
      { simpl. apply lookup_insert_eq. }
      { exact Hnd. }
      { exact Hsc'. }
      { intros k' v' Hin. simpl.
        rewrite oget_oset_ne
          by (intros Heq; apply (Hrest k' v' Hin); now symmetry).
        apply (Habs k' v'). now right. }
      exists p'. split.
      { rewrite Hrun. unfold w1, e1. simpl.
        now rewrite insert_insert_eq, set_props_set_props. }
      split.
      * intros k' v' [[= Ek Ev]|Hin] Hv'.
        -- subst k' v'. rewrite (Hkeep k Hk). simpl. apply oget_oset_eq.
        -- now apply (Hval k' v').
      * intros k' Hk'. apply not_in_keys_cons in Hk' as [Hne Hk'].
        rewrite (Hkeep k' Hk'). simpl. apply oget_oset_ne. congruence.
    + destruct (IH acc e w He Hnd Hsc') as (p' & Hrun & Hval & Hkeep).
      { intros k' v' Hin. apply (Habs k' v'). now right. }
      exists p'. split; [exact Hrun|]. split.
      * intros k' v' [[= Ek Ev]|Hin] Hv'.
        -- subst k' v'. rewrite (isNull_false _ Hv') in Hassign.
           simpl in Hassign. apply negb_false_iff in Hassign. subst reverse.
           rewrite (Hkeep k Hk). apply (Habs k v). now left.
        -- now apply (Hval k' v').
      * intros k' Hk'. apply not_in_keys_cons in Hk' as [Hne Hk'].
        now apply Hkeep.
Qed.

Lemma startAnimators_empty (r : nat) (ea : Arg) (f : nat) (force : bool)
  (w : World) (e : Element) :
  elems w !! r = Some e ->
  arrays w !! animators e = Some [] ->
  startAnimators r ea (AFun f) force w =
  Ok tt (set_log (log w ++ [EvCallback f])
           (set_counters
              (<[fresh (dom (counters w)) := mkCounter 0 (AFun f)]>
                 (counters w)) w)).
Proof.
  intros He Hl. unfold startAnimators.
  rewrite (bind_Ok _ _ _ _ _ (getEl_Ok _ _ _ He)).
  rewrite (bind_Ok _ _ _ _ _ (getArr_Ok _ _ _ Hl)).
  unfold get, setCounter, emit, modify, bind at 1 2 3. simpl.
  erewrite bind_Ok by (apply getArr_Ok; simpl; exact Hl). reflexivity.
Qed.

(** X18.  When there is nothing to animate the callback is called at
    once.  Let no key of the descriptor be the name of a member of the node
    (of the class or of a mixin, or inherited from [Object.prototype]:
    under such a name the node has something even where it has no data),
    and let the node have nothing under any of them.  Then [animateTo]
    returns having assigned every non-null value of the descriptor
    ([animateFrom]: having assigned none), created no animator, and called
    the callback exactly once; nothing else is written to the log. *)
Theorem animateTo_nothing_to_animate (w : World) (r : nat) (e : Element)
  (l : list nat) (target : Obj) (time delay easing callback : Arg)
  (tm dl ea : Arg) (f : nat) (force reverse : bool) :
  elems w !! r = Some e ->
  arrays w !! animators e = Some l ->
  (forall a, In a l -> is_Some (animS w !! a)) ->
  NoDup (keys target) ->
  (forall k v, In (k, v) target -> nodeMember k = false) ->
  (forall k v, In (k, v) target -> getProp k e = VNull) ->
  normalizeArgs time delay easing callback = (tm, dl, ea, AFun f) ->
  exists w' e',
    animateToImpl r target time delay easing callback force reverse w
    = Ok tt w'
    /\ elems w' !! r = Some e'
    /\ arrays w' !! animators e' = Some []
    /\ log w' = log w ++ [EvCallback f]
    /\ forall k v, In (k, v) target -> v <> VNull ->
         getProp k e' = if reverse then VNull else v.
Proof.
  intros He Hl Hall Hnd Hsc Habs Hnorm. unfold animateToImpl. rewrite Hnorm.
  destruct (stopAnimation_exact r w e l He Hl Hall) as (am & Hstop & _).
  rewrite (bind_Ok _ _ _ _ _ Hstop).
  set (arr := fresh (dom (arrays w))).
  set (e1 := set_animators arr e).
  set (w1 := set_elems (<[r := e1]> (elems w)) _).
  assert (He1 : elems w1 !! r = Some e1) by (simpl; apply lookup_insert_eq).
  destruct (shallowKeys_assigns
              (fun k p v => animateToShallow r k p v tm dl reverse)
              r reverse target [] e1 w1 He1 Hnd Hsc Habs)
    as (p' & Hloop & Hval & _).
  assert (Hsh : animateToShallow r "" [] (VObj target) tm dl reverse w1 =
                Ok tt (set_elems (<[r := set_props p' e1]> (elems w1)) w1)).
  { cbn [animateToShallow]. now rewrite (bind_Ok _ _ _ _ _ Hloop). }
  rewrite (bind_Ok _ _ _ _ _ Hsh).
  erewrite (startAnimators_empty r ea f force _ (set_props p' e1))
    by (unfold w1, e1; simpl; apply lookup_insert_eq).
  eexists _, _. split; [reflexivity|]. simpl.
  rewrite insert_insert_eq, lookup_insert_eq.
  split; [reflexivity|]. simpl. rewrite lookup_insert_eq.
  split; [reflexivity|]. split; [reflexivity|].
  intros k v Hin Hv. unfold getProp. simpl. now apply (Hval k v).
Qed.

Lemma animateTo_nothing_to_animate_witness :
  exists w' e',
    animateToImpl 1 [("cursor", VStr "pointer"); ("z", VNum 3)]
      (AFun 7) AUndef AUndef AUndef false false movingWorld = Ok tt w'
    /\ elems w' !! 1%nat = Some e'
    /\ arrays w' !! animators e' = Some []
    /\ log w' = log movingWorld ++ [EvCallback 7]
    /\ forall k v, In (k, v) [("cursor", VStr "pointer"); ("z", VNum 3)] ->
         v <> VNull -> getProp k e' = v.
Proof.
  apply (animateTo_nothing_to_animate movingWorld 1 shapeEl [4%nat]
           [("cursor", VStr "pointer"); ("z", VNum 3)]
           (AFun 7) AUndef AUndef AUndef (ANum 500) AUndef AUndef 7
           false false).
  - reflexivity.
  - reflexivity.
  - intros a [<-|[]]. eexists. reflexivity.
  - nodup_keys.
  - intros k v [[= <- <-]|[[= <- <-]|[]]]; reflexivity.
  - intros k v [[= <- <-]|[[= <- <-]|[]]]; reflexivity.
  - reflexivity.
Defined.



Lemma runCallback_splice_Ok (arr a : nat) (l : list nat) (w : World) :
  arrays w !! arr = Some l ->
  runCallback (CbSplice arr a) w =
  Ok tt (set_arrays (<[arr := spliceOut l a]> (arrays w)) w).
Proof.
  intros Hl. simpl. now rewrite (bind_Ok _ _ _ _ _ (getArr_Ok _ _ _ Hl)).
Qed.










(** X20.  In the form [animateTo(target, time, delay, callback)] the
    delay is discarded: the branch that recognises the callback in the
    easing slot sets the delay to zero.  Whatever is passed as delay (a
    number, nothing, anything but an easing name) and as fifth argument,
    the call does the same. *)
Theorem animateTo_delay_discarded (r : nat) (target : Obj)
  (time delay delay' other other' : Arg) (f : nat) (force : bool)
  (w : World) :
  isString delay = false ->
  isString delay' = false ->
  animateTo r target time delay (AFun f) other force w =
  animateTo r target time delay' (AFun f) other' force w.
Proof.
  intros H1 H2. unfold animateTo, animateToImpl, normalizeArgs.
  rewrite H1, H2. reflexivity.
Qed.

Lemma animateTo_delay_discarded_witness :
  animateTo 1 sameFill (ANum 300) (ANum 1000) (AFun 7) AUndef true shapeWorld
  = animateTo 1 sameFill (ANum 300) (ANum 0) (AFun 7) AUndef true shapeWorld.
Proof.
  apply (animateTo_delay_discarded 1 sameFill (ANum 300) (ANum 1000) (ANum 0)
           AUndef AUndef 7 true shapeWorld); reflexivity.
Defined.

(** ** stopAnimation and animate *)

(** X21.  [stopAnimation()] stops every animator of the node and gives
    the node a new, empty array.  The array the node had is not emptied: it
    still holds the stopped animators, and it is the one their completion
    closures refer to.  Nothing else changes on the node, and nothing is
    logged. *)
Theorem stopAnimation_clears (w : World) (r : nat) (e : Element)
  (l : list nat) :
  elems w !! r = Some e ->
  arrays w !! animators e = Some l ->
  (forall a, In a l -> is_Some (animS w !! a)) ->
  exists w' e',
    stopAnimation r false w = Ok tt w'
    /\ elems w' !! r = Some e'
    /\ props e' = props e
    /\ animators e' <> animators e
    /\ arrays w' !! animators e' = Some []
    /\ arrays w' !! animators e = Some l
    /\ (forall a, In a l -> statusOf w' a Stopped)
    /\ log w' = log w.
Proof.
  intros He Hl Hall.
  destruct (stopAnimation_exact r w e l He Hl Hall) as (am & Hstop & Hpost).
  eexists _, _. split; [exact Hstop|]. simpl.
  assert (Hne : fresh (dom (arrays w)) <> animators e).
  { intros Heq. assert (Hin : animators e ∈ dom (arrays w))
      by (apply elem_of_dom; eauto).
    rewrite <- Heq in Hin. now apply is_fresh in Hin. }
  split; [apply lookup_insert_eq|]. split; [reflexivity|].
  split; [exact Hne|]. split; [apply lookup_insert_eq|].
  split; [now rewrite lookup_insert_ne|]. split; [|reflexivity].
  intros a Hin. destruct (Hall a Hin) as [x Hx].
  destruct (Hpost a x Hx) as (x' & Hx' & Hst).
  exists x'. split; [exact Hx'|]. apply Hst. now left.
Qed.

Lemma stopAnimation_clears_witness :
  exists w' e',
    stopAnimation 1 false movingWorld = Ok tt w'
    /\ elems w' !! 1%nat = Some e'
    /\ props e' = props shapeEl
    /\ animators e' <> animators shapeEl
    /\ arrays w' !! animators e' = Some []
    /\ arrays w' !! animators shapeEl = Some [4%nat]
    /\ (forall a, In a [4%nat] -> statusOf w' a Stopped)
    /\ log w' = log movingWorld.
Proof.
  apply (stopAnimation_clears movingWorld 1 shapeEl [4%nat]).
  - reflexivity.
  - reflexivity.
  - intros a [<-|[]]. eexists. reflexivity.
Defined.

Lemma addAnimator_exact (r a : nat) (key : string) (w : World) (e : Element)
  (l : list nat) (x : Animator) :
  elems w !! r = Some e ->
  arrays w !! animators e = Some l ->
  animS w !! a = Some x ->
  exists w',
    addAnimator r a key w = Ok tt w'
    /\ elems w' = elems w
    /\ arrays w' = <[animators e := l ++ [a]]> (arrays w)
    /\ animS w' =
       <[a := add_done (CbSplice (animators e) a) (add_during key x)]>
         (animS w)
    /\ counters w' = counters w
    /\ log w' = log w
    /\ (forall zr, __zr e = Some zr -> a ∈ registry w' zr)
    /\ (__zr e = None -> sched w' = sched w).
Proof.
  intros He Hl Ha. unfold addAnimator.
  rewrite (bind_Ok _ _ _ _ _ (getEl_Ok _ _ _ He)).
  rewrite (bind_Ok _ _ _ _ _ (modAnim_Ok _ _ _ _ Ha)).
  erewrite bind_Ok by (apply modAnim_Ok; simpl; apply lookup_insert_eq).
  erewrite bind_Ok by (apply getArr_Ok; simpl; exact Hl).
  unfold setArr, modify, bind. simpl. rewrite !insert_insert_eq.
  destruct (__zr e) as [z|].
  - eexists. split; [reflexivity|]. simpl.
    repeat (split; [reflexivity|]). split; [|discriminate].
    intros zr [= <-]. unfold registry. simpl. rewrite lookup_insert_eq.
    set_solver.
  - eexists. split; [reflexivity|]. simpl.
    repeat (split; [reflexivity|]). split; [discriminate | reflexivity].
Qed.

Lemma spliceOut_last (l : list nat) (a : nat) :
  ~ In a l -> spliceOut (l ++ [a]) a = l.
Proof.
  intros Hn. unfold spliceOut.
  assert (Hi : indexOf (l ++ [a]) a = Some (length l)).
  { induction l as [|x l IH]; simpl.
    - now rewrite Nat.eqb_refl.
    - destruct (Nat.eqb_spec x a) as [->|Hne]; [exfalso; apply Hn; now left|].
      rewrite IH; [reflexivity|]. intros H. apply Hn. now right. }
  rewrite Hi. clear Hi Hn. induction l as [|x l IH]; simpl; [reflexivity|].
  now rewrite IH.
Qed.

Section AnimateFacts.

Variable idText : nat -> string.

(** X23.  [animate(key)] on a property the node has, or without a key,
    returns a new animator that has not started, on the node itself or on
    the property; the animator is appended to the array of the node and,
    if the node refers to a host, registered with the scheduler of that
    host.  When the animator is done it removes itself: the array of the
    node holds what it held before the call. *)
Theorem animate_adds (w : World) (r : nat) (e : Element) (l : list nat)
  (key : string) (loop : bool) :
  elems w !! r = Some e ->
  arrays w !! animators e = Some l ->
  (forall a, In a l -> is_Some (animS w !! a)) ->
  key = "" \/ truthy (getProp key e) = true ->
  exists w' a x,
    animate idText r key loop w = Ok (Some a) w'
    /\ animS w !! a = None
    /\ animS w' !! a = Some x
    /\ a_owner x = r
    /\ a_path x = (if String.eqb key "" then [] else [key])
    /\ a_loop x = loop
    /\ a_status x = Created
    /\ arrayOf w' r (l ++ [a])
    /\ (forall zr, __zr e = Some zr -> a ∈ registry w' zr)
    /\ log w' = log w
    /\ exists w'',
         finish a w' = Ok tt w'' /\ arrayOf w'' r l.
Proof.
  intros He Hl Hall Hkey. unfold animate.
  rewrite (bind_Ok _ _ _ _ _ (getEl_Ok _ _ _ He)).
  assert (Htest : negb (String.eqb key "") && negb (truthy (getProp key e))
                  = false).
  { destruct Hkey as [->|Ht]; [reflexivity|]. rewrite Ht. apply andb_false_r. }
  rewrite Htest. unfold get, bind at 1.
  set (a := fresh (dom (animS w))).
  assert (Hfresh : animS w !! a = None).
  { apply not_elem_of_dom. apply is_fresh. }
  assert (Hal : ~ In a l).
  { intros Hin. destruct (Hall a Hin) as [x Hx]. congruence. }
  unfold setAnim, modify, bind at 1.
  set (x0 := mkAnimator r _ loop [] [] AUndef AUndef [] [] Created).
  set (w1 := set_animS (<[a := x0]> (animS w)) w).
  destruct (addAnimator_exact r a key w1 e l x0 He Hl)
    as (w2 & Hrun2 & He2 & Ha2 & Hs2 & Hc2 & Hlog2 & Hreg2 & _).
  { simpl. apply lookup_insert_eq. }
  rewrite (bind_Ok _ _ _ _ _ Hrun2). unfold ret.
  exists w2, a, (add_done (CbSplice (animators e) a) (add_during key x0)).
  split; [reflexivity|]. split; [exact Hfresh|].
  split; [rewrite Hs2; apply lookup_insert_eq|].
  repeat (split; [reflexivity|]).
  split; [exists e; rewrite He2, Ha2; split;
          [exact He | apply lookup_insert_eq]|].
  split; [exact Hreg2|]. split; [exact Hlog2|].
  unfold finish.
  erewrite bind_Ok by (apply modAnim_Ok; rewrite Hs2; apply lookup_insert_eq).
  erewrite bind_Ok by (apply getAnim_Ok_ext; simpl; apply lookup_insert_eq).
  cbn [a_done set_status add_done add_during x0 app forM].
  erewrite bind_Ok
    by (apply runCallback_splice_Ok; simpl; rewrite Ha2;
        apply lookup_insert_eq).
  unfold ret. eexists. split; [reflexivity|].
  exists e. simpl. rewrite He2, Ha2. split; [exact He|].
  rewrite lookup_insert_eq. now rewrite spliceOut_last.
Qed.

End AnimateFacts.

Lemma animate_adds_witness :
  exists w' a x,
    animate (fun _ => "17") 1 "style" true movingWorld = Ok (Some a) w'
    /\ animS movingWorld !! a = None
    /\ animS w' !! a = Some x
    /\ a_owner x = 1%nat
    /\ a_path x = ["style"]
    /\ a_loop x = true
    /\ a_status x = Created
    /\ arrayOf w' 1 ([4%nat] ++ [a])
    /\ (forall zr, __zr shapeEl = Some zr -> a ∈ registry w' zr)
    /\ log w' = log movingWorld
    /\ exists w'',
         finish a w' = Ok tt w'' /\ arrayOf w'' 1 [4%nat].
Proof.
  apply (animate_adds (fun _ => "17") movingWorld 1 shapeEl [4%nat]
           "style" true).
  - reflexivity.
  - reflexivity.
  - intros a [<-|[]]. eexists. reflexivity.
  - right. reflexivity.
Defined.
